(** * yass clustering and merge engine ([yass/cluster/util.py])

    A shallow embedding of the per-channel clustering orchestrators
    ([run_cluster], [run_cluster_location]), the global aggregator
    ([global_cluster_info]), empty-cluster pruning ([clean_empty_cluster]),
    the distance evaluator ([calculate_maha_clusters]), the merge engine
    ([merge_move_patches]), the feature-channel selection of
    [run_cluster_features] and the stability loop of [run_mfm].

    Numbers.  numpy's float64 is modelled by [float]: an exact rational, one
    of the two infinities, or NaN.  The IEEE 754 rules for the special values
    are kept (0/0 = NaN, x/0 = +-inf, inf - inf = NaN, every comparison with
    NaN is false); rounding and the sign of zero are not modelled.

    Arrays.  A component-indexed numpy array is a list with one entry per
    component, whatever axis the component index lives on in the source
    ([muhat] has shape (n_features, K, 1), [Vhat] (n_features, n_features,
    K, 1)); the trailing singleton axis is dropped.  A dense responsibility
    matrix is a list of rows, one row per spike.

    External collaborators ([mfm.spikesort], [mfm.check_merge], the waveform
    alignment and PCA of the splitting pipeline) are function parameters. *)

From Stdlib Require Import QArith Qcanon Lia.
From stdpp Require Import base numbers list option sorting.

Local Open Scope Qc_scope.

(* ================================================================== *)
(** * Part I: definitions                                              *)
(* ================================================================== *)

(** ** Floating-point values *)

Inductive float : Type :=
  | Fin (q : Qc)
  | PInf
  | NInf
  | NaN.

Definition Qc_ltb (a b : Qc) : bool :=
  match a ?= b with Lt => true | _ => false end.

Definition Qc_eqb (a b : Qc) : bool :=
  match a ?= b with Eq => true | _ => false end.

Definition f0 : float := Fin 0.
Definition f1 : float := Fin 1.

(** [x < y] on floats; false as soon as one side is NaN. *)
Definition fl_lt (x y : float) : bool :=
  match x, y with
  | NaN, _ | _, NaN => false
  | Fin a, Fin b => Qc_ltb a b
  | _, NInf => false
  | NInf, _ => true
  | PInf, _ => false
  | Fin _, PInf => true
  end.

Definition fl_gt (x y : float) : bool := fl_lt y x.

(** [x <= y]; this is not the negation of [y < x] because of NaN. *)
Definition fl_le (x y : float) : bool :=
  match x, y with
  | NaN, _ | _, NaN => false
  | Fin a, Fin b => negb (Qc_ltb b a)
  | NInf, _ => true
  | _, PInf => true
  | _, NInf => false
  | PInf, _ => false
  end.

(** [x != 0], the test behind [nonzero()]. *)
Definition fl_nonzero (x : float) : bool :=
  match x with
  | Fin a => negb (Qc_eqb a 0)
  | _ => true
  end.

Definition fl_add (x y : float) : float :=
  match x, y with
  | NaN, _ | _, NaN => NaN
  | Fin a, Fin b => Fin (a + b)
  | PInf, NInf | NInf, PInf => NaN
  | PInf, _ | _, PInf => PInf
  | NInf, _ | _, NInf => NInf
  end.

Definition fl_opp (x : float) : float :=
  match x with
  | Fin a => Fin (- a)
  | PInf => NInf
  | NInf => PInf
  | NaN => NaN
  end.

Definition fl_sub (x y : float) : float := fl_add x (fl_opp y).

(** The sign of an infinite product or quotient. *)
Definition inf_of_sign (pos : bool) : float := if pos then PInf else NInf.

Definition fl_mul (x y : float) : float :=
  match x, y with
  | NaN, _ | _, NaN => NaN
  | Fin a, Fin b => Fin (a * b)
  | Fin a, PInf | PInf, Fin a =>
      if Qc_eqb a 0 then NaN else inf_of_sign (Qc_ltb 0 a)
  | Fin a, NInf | NInf, Fin a =>
      if Qc_eqb a 0 then NaN else inf_of_sign (Qc_ltb a 0)
  | PInf, PInf | NInf, NInf => PInf
  | PInf, NInf | NInf, PInf => NInf
  end.

(** numpy's true division: no exception, 0/0 is NaN, x/0 is an infinity. *)
Definition fl_div (x y : float) : float :=
  match x, y with
  | NaN, _ | _, NaN => NaN
  | Fin a, Fin b =>
      if Qc_eqb b 0 then
        (if Qc_eqb a 0 then NaN else inf_of_sign (Qc_ltb 0 a))
      else Fin (a / b)
  | Fin _, PInf | Fin _, NInf => f0
  | PInf, Fin b => inf_of_sign (negb (Qc_ltb b 0))
  | NInf, Fin b => inf_of_sign (Qc_ltb b 0)
  | _, _ => NaN
  end.

Definition is_nan (x : float) : bool :=
  match x with NaN => true | _ => false end.

Definition is_finite (x : float) : bool :=
  match x with Fin _ => true | _ => false end.

(** [np.sum] over a vector. *)
Definition fl_sum (l : list float) : float := foldr fl_add f0 l.

Definition fl_of_nat (n : nat) : float := Fin (Q2Qc (inject_Z (Z.of_nat n))).

(** [np.mean]: the mean of an empty slice is NaN (0/0). *)
Definition fl_mean (l : list float) : float :=
  fl_div (fl_sum l) (fl_of_nat (length l)).

(** The configuration constants of the engine. *)
Definition rhat_floor : float := Fin (Q2Qc (1 # 10)).
Definition maha_gate : float := Fin (Q2Qc 15).
Definition stability_threshold : float := Fin (Q2Qc (9 # 10)).
Definition min_points : nat := 35.

(** ** Arrays *)

Abbreviation vec := (list float) (only parsing).
Abbreviation mat := (list (list float)) (only parsing).

(** Column [k] of a dense matrix; a row too short for [k] is an index
    error in the source and is excluded by the shape predicates below. *)
Definition column (m : mat) (k : nat) : list float :=
  omap (λ row : list float, row !! k) m.

(** [m.shape[1]].  A list of rows does not record the column count of a
    matrix without rows; the source reads [shape[1]] of matrices that have
    at least one row (a channel is fitted only with two spikes or more, a
    round of the stability loop only with more than 35 points). *)
Definition ncols (m : mat) : nat :=
  match m with
  | [] => 0%nat
  | row :: _ => length row
  end.

(** [np.sum(rhat, 0)] for a matrix with [K] columns. *)
Definition col_sums (K : nat) (m : mat) : list float :=
  map (λ k, fl_sum (column m k)) (seq 0 K).

(** Boolean-mask indexing [a[Ks]]. *)
Fixpoint mask_select {A : Type} (Ks : list bool) (a : list A) : list A :=
  match Ks, a with
  | b :: Ks', x :: a' =>
      if b then x :: mask_select Ks' a' else mask_select Ks' a'
  | _, _ => []
  end.

(** [np.where(mask)[0]] *)
Definition where_true (mask : list bool) : list nat :=
  omap (λ p : nat * bool, if p.2 then Some p.1 else None)
       (zip (seq 0 (length mask)) mask).

(** ** Responsibility post-processing

    [rhat[rhat < 0.1] = 0] followed by
    [rhat = rhat / np.sum(rhat, 1, keepdims=True)], as written in
    [run_cluster], [run_cluster_location], [calculate_sparse_rhat] and
    [run_mfm]. *)

Definition zero_below_floor (row : list float) : list float :=
  map (λ x, if fl_lt x rhat_floor then f0 else x) row.

Definition normalize_row (row : list float) : list float :=
  map (λ x, fl_div x (fl_sum row)) row.

Definition sparsify_row (row : list float) : list float :=
  normalize_row (zero_below_floor row).

Definition sparsify (m : mat) : mat := map sparsify_row m.

(** ** Mixture state

    [vbPar] is the attribute bag [mfm.vbPar].  Its [rhat] attribute holds a
    dense matrix while a channel is being fitted and an (n, 3) triplet array
    once [global_cluster_info] has rewritten it, hence the type parameter. *)

Record vbPar (R : Type) : Type := mk_vbPar {
  muhat : list vec;
  Vhat : list mat;
  invVhat : list mat;
  nuhat : list float;
  lambdahat : list float;
  ahat : list float;
  rhat : R
}.

Arguments mk_vbPar {R} _ _ _ _ _ _ _.
Arguments muhat {R} _.
Arguments Vhat {R} _.
Arguments invVhat {R} _.
Arguments nuhat {R} _.
Arguments lambdahat {R} _.
Arguments ahat {R} _.
Arguments rhat {R} _.

(** Number of components, [vbParam.muhat.shape[1]]. *)
Definition n_components {R : Type} (vb : vbPar R) : nat := length (muhat vb).

(** A row of the triplet array: (spike id, component id, probability).
    The source stores the ids in a float64 array; they are exact there up to
    2^53 and are natural numbers here. *)
Abbreviation triplet := (nat * nat * float)%type (only parsing).

Abbreviation feature := (list (list float)) (only parsing).

(** A row of [spike_index]: (spike time, main channel). *)
Abbreviation spike_ref := (nat * nat)%type (only parsing).

(** Outcome of a computation that can raise. *)
Inductive error : Type :=
  | ValueError
  | IndexError
  | TypeError
  | CollaboratorError.

Inductive result (A : Type) : Type :=
  | Ok (a : A)
  | Raise (e : error).

Arguments Ok {A} _.
Arguments Raise {A} _.

#[global] Instance result_bind : MBind result :=
  λ A B (k : A → result B) (r : result A),
    match r with
    | Ok a => k a
    | Raise e => Raise e
    end.

Definition of_option {A : Type} (e : error) (o : option A) : result A :=
  match o with
  | Some a => Ok a
  | None => Raise e
  end.

(** Fancy indexing [a[idx]]: an [IndexError] when an index is out of range. *)
Definition take_indices {A : Type} (a : list A) (idx : list nat)
  : result (list A) :=
  of_option IndexError (mapM (λ i, a !! i) idx).

(** ** Empty-cluster pruning, [clean_empty_cluster] *)

Definition clean_empty_cluster (vbParam : vbPar mat) (min_spikes : float)
  : vbPar mat :=
  let n_hat := col_sums (ncols (rhat vbParam)) (rhat vbParam) in
  let Ks := map (λ s, fl_gt s min_spikes) n_hat in
  {| muhat := mask_select Ks (muhat vbParam);
     Vhat := mask_select Ks (Vhat vbParam);
     invVhat := mask_select Ks (invVhat vbParam);
     nuhat := mask_select Ks (nuhat vbParam);
     lambdahat := mask_select Ks (lambdahat vbParam);
     ahat := mask_select Ks (ahat vbParam);
     rhat := map (mask_select Ks) (rhat vbParam) |}.

(** ** Global aggregator, [global_cluster_info] *)

(** [np.where(rhat > 0)] with the values, row by row. *)
Definition row_triplets (n : nat) (row : list float) : list triplet :=
  omap (λ p : nat * float, if fl_gt p.2 f0 then Some (n, p.1, p.2) else None)
       (zip (seq 0 (length row)) row).

Definition triplets_of (m : mat) : list triplet :=
  concat (imap row_triplets m).

Definition spike_id (t : triplet) : nat := t.1.1.
Definition comp_id (t : triplet) : nat := t.1.2.

(** [np.max] of a vector of ids; raises on an empty vector. *)
Definition max_id (ids : list nat) : option nat :=
  match ids with
  | [] => None
  | i :: ids' => Some (foldr Nat.max i ids')
  end.

Definition shift_triplet (dn dk : nat) (t : triplet) : triplet :=
  (spike_id t + dn, comp_id t + dk, t.2)%nat.

Record global_state : Type := mk_global {
  global_vbParam : vbPar (list triplet);
  global_tmp_loc : list nat;
  global_score : list feature;
  global_spike_index : list spike_ref
}.

(** The four globals are [None] together until the first fold, so the
    accumulator is an [option global_state]. *)
Definition global_cluster_info (vbParam : vbPar mat) (main_channel : nat)
    (score : list feature) (spike_index : list spike_ref)
    (g : option global_state) : result global_state :=
  let local := triplets_of (rhat vbParam) in
  match g with
  | None =>
      Ok {| global_vbParam :=
              mk_vbPar (muhat vbParam) (Vhat vbParam) (invVhat vbParam)
                       (nuhat vbParam) (lambdahat vbParam) (ahat vbParam)
                       local;
            global_tmp_loc := replicate (n_components vbParam) main_channel;
            global_score := score;
            global_spike_index := spike_index |}
  | Some st =>
      let gv := global_vbParam st in
      n_max ← of_option ValueError (max_id (map spike_id (rhat gv)));
      k_max ← of_option ValueError (max_id (map comp_id (rhat gv)));
      Ok {| global_vbParam :=
              mk_vbPar (muhat gv ++ muhat vbParam)
                       (Vhat gv ++ Vhat vbParam)
                       (invVhat gv ++ invVhat vbParam)
                       (nuhat gv ++ nuhat vbParam)
                       (lambdahat gv ++ lambdahat vbParam)
                       (ahat gv ++ ahat vbParam)
                       (rhat gv ++
                        map (shift_triplet (n_max + 1) (k_max + 1)) local);
            global_tmp_loc :=
              global_tmp_loc st ++
              replicate (n_components vbParam) main_channel;
            global_score := global_score st ++ score;
            global_spike_index := global_spike_index st ++ spike_index |}
  end.

(** ** Per-channel orchestrators *)

(** The fitter [mfm.spikesort(score, mask, group, CONFIG)]. *)
Abbreviation fitter :=
  (list (list (list float)) → list (list float) → list nat →
   vbPar (list (list float))) (only parsing).

Definition with_rhat {R S : Type} (vb : vbPar R) (r : S) : vbPar S :=
  mk_vbPar (muhat vb) (Vhat vb) (invVhat vb) (nuhat vb) (lambdahat vb)
           (ahat vb) r.

(** [np.where(spike_index[:, 1] == channel)[0]] *)
Definition channel_rows (spike_index : list spike_ref) (channel : nat)
  : list nat :=
  where_true (map (λ s : spike_ref, Nat.eqb s.2 channel) spike_index).

(** [n_channels = np.max(spike_index[:, 1]) + 1] *)
Definition n_channels_of (spike_index : list spike_ref) : result nat :=
  m ← of_option ValueError (max_id (map snd spike_index)); Ok (m + 1)%nat.

(** Fit, make [rhat] sparse and prune: the part of the loop body shared by
    both orchestrators. *)
Definition fit_channel (spikesort : fitter) (score_channel : list feature)
    (mask : mat) (group : list nat) (min_spikes : float) : vbPar mat :=
  let vbParam := spikesort score_channel mask group in
  let vbParam := with_rhat vbParam (sparsify (rhat vbParam)) in
  clean_empty_cluster vbParam min_spikes.

(** One iteration of the channel loop of [run_cluster]. *)
Definition run_cluster_body (spikesort : fitter) (scores : list feature)
    (masks : list mat) (groups : list (list nat))
    (spike_index : list spike_ref) (min_spikes : float)
    (g : option global_state) (channel : nat)
  : result (option global_state) :=
  let idx_data := channel_rows spike_index channel in
  score_channel ← take_indices scores idx_data;
  mask_channel ← of_option IndexError (masks !! channel);
  group_channel ← of_option IndexError (groups !! channel);
  spike_index_channel ← take_indices spike_index idx_data;
  let n_data := length score_channel in
  if decide (1 < n_data)%nat then
    let vbParam :=
      fit_channel spikesort score_channel mask_channel group_channel
                  min_spikes in
    st ← global_cluster_info vbParam channel score_channel
                             spike_index_channel g;
    Ok (Some st)
  else Ok g.

(** One iteration of the channel loop of [run_cluster_location]. *)
Definition run_cluster_location_body (spikesort : fitter)
    (scores : list feature) (spike_index : list spike_ref)
    (min_spikes : float) (g : option global_state) (channel : nat)
  : result (option global_state) :=
  let idx_data := channel_rows spike_index channel in
  score_channel ← take_indices scores idx_data;
  spike_index_channel ← take_indices spike_index idx_data;
  let n_data := length score_channel in
  if decide (1 < n_data)%nat then
    let mask := replicate n_data [f1] in
    let group := seq 0 n_data in
    let vbParam :=
      fit_channel spikesort score_channel mask group min_spikes in
    if decide (0 < ncols (rhat vbParam))%nat then
      st ← global_cluster_info vbParam channel score_channel
                               spike_index_channel g;
      Ok (Some st)
    else Ok g
  else Ok g.

(** The loop [for channel in range(n_channels)]. *)
Fixpoint for_channels (body : option global_state → nat →
                              result (option global_state))
    (channels : list nat) (g : option global_state)
  : result (option global_state) :=
  match channels with
  | [] => Ok g
  | c :: rest => g' ← body g c; for_channels body rest g'
  end.

Definition run_cluster (spikesort : fitter) (scores : list feature)
    (masks : list mat) (groups : list (list nat))
    (spike_index : list spike_ref) (min_spikes : float)
  : result (option global_state) :=
  n_channels ← n_channels_of spike_index;
  for_channels
    (run_cluster_body spikesort scores masks groups spike_index min_spikes)
    (seq 0 n_channels) None.

Definition run_cluster_location (spikesort : fitter) (scores : list feature)
    (spike_index : list spike_ref) (min_spikes : float)
  : result (option global_state) :=
  n_channels ← n_channels_of spike_index;
  for_channels
    (run_cluster_location_body spikesort scores spike_index min_spikes)
    (seq 0 n_channels) None.

(** ** Distance evaluator, [calculate_maha_clusters] *)

Definition vsub (a b : vec) : vec := zip_with fl_sub a b.

Definition dot (a b : vec) : float := fl_sum (zip_with fl_mul a b).

Definition matvec (P : mat) (d : vec) : vec := map (λ row, dot row d) P.

(** [d^T P d], the two nested [np.matmul]. *)
Definition quad_form (d : vec) (P : mat) : float := dot d (matvec P d).

(** [Vhat[:, :, k, 0] * nuhat[k]] *)
Definition precision (V : mat) (nu : float) : mat :=
  map (map (λ v, fl_mul v nu)) V.

(** numpy's rule for an operation on two arrays along the component
    axis: equal lengths pair up, an array of a single component is
    repeated, anything else raises [ValueError]. *)
Definition broadcast2 {A B C : Type} (f : A → B → C) (a : list A)
    (b : list B) : result (list C) :=
  match a, b with
  | [x], _ => Ok (map (f x) b)
  | _, [y] => Ok (map (λ x, f x y) a)
  | _, _ =>
      if decide (length a = length b) then Ok (zip_with f a b)
      else Raise ValueError
  end.

(** The product of the two [np.matmul] of [calculate_maha_clusters],
    of shape (K, K, 1, 1) in the source: entry (i, j) is the distance of
    the means of components i and j under the precision of component i.
    [Vhat * nuhat] and the batch axes of [np.matmul] follow the rule of
    [broadcast2]. *)
Definition maha_product {R : Type} (vbParam : vbPar R) : result mat :=
  clustered_prec ← broadcast2 precision (Vhat vbParam) (nuhat vbParam);
  broadcast2 (λ (P : mat) (mu_i : vec),
                map (λ mu_j, quad_form (vsub mu_i mu_j) P) (muhat vbParam))
             clustered_prec (muhat vbParam).

(** [np.squeeze(..., axis=[2, 3])] hands numpy a list where an integer or a
    tuple is expected.  numpy up to 1.15 catches the [TypeError] of the
    array method and calls [squeeze()] without axes, which removes every
    axis of length one; from 1.16 on the [TypeError] is raised. *)
Inductive squeeze_rule : Type :=
  | squeeze_fallback
  | squeeze_strict.

(** Under [squeeze_fallback] a state with a single mean leaves an array of
    fewer than two axes, and [maha.shape[0]] or the assignment through
    [np.diag_indices] raises [IndexError]. *)
Definition calculate_maha_clusters {R : Type} (np : squeeze_rule)
    (vbParam : vbPar R) : result mat :=
  maha ← maha_product vbParam;
  match np with
  | squeeze_strict => Raise TypeError
  | squeeze_fallback =>
      if decide (length (muhat vbParam) = 1%nat) then Raise IndexError
      else Ok (imap (λ i (row : list float), <[i := PInf]> row) maha)
  end.

(** ** Merge engine, [merge_move_patches] *)

(** The merge test [mfm.check_merge] together with the [mfm] calls that
    prepare its arguments from [local_scores] and [local_vbParam]
    ([maskData], [suffStatistics], [ELBO_Class]).  It answers with the
    updated local state and the flag [merged], or raises. *)
Abbreviation merge_test :=
  (list (list (list float)) → vbPar (list (list float)) →
   result (vbPar (list (list float)) * bool)) (only parsing).

Record merge_state : Type := mk_merge_state {
  ms_cluster : nat;
  ms_neigh : list nat;
  ms_vbParam : vbPar mat;
  ms_maha : mat
}.

(** [a[:, [cluster, i]]] on a component-indexed array. *)
Definition pick2 {A : Type} (a : list A) (cluster i : nat)
  : option (list A) :=
  x ← a !! cluster; y ← a !! i; Some [x; y].

(** [a = np.delete(a, kb, axis); a[ka] = merged[0]] *)
Definition replace_merged {A : Type} (a : list A) (ka kb : nat)
    (merged : list A) : option (list A) :=
  _ ← a !! kb;
  v ← merged !! 0%nat;
  _ ← delete kb a !! ka;
  Some (<[ka := v]> (delete kb a)).

(** [rhat[:, ka] = rhat[:, ka] + rhat[:, kb]; rhat = rhat[:, to_keep]]
    on one row.  [to_keep] is built from a Python set of the column
    numbers without [kb]; CPython iterates such a set of small integers in
    ascending order, which is the order kept here. *)
Definition merge_row (ka kb : nat) (row : list float)
  : option (list float) :=
  a ← row !! ka;
  b ← row !! kb;
  Some (delete kb (<[ka := fl_add a b]> row)).

(** [maha = np.delete(maha, kb, 1); maha = np.delete(maha, kb, 0)] *)
Definition delete_row_col (kb : nat) (maha : mat) : option mat :=
  rows ← mapM (λ row : list float, _ ← row !! kb; Some (delete kb row)) maha;
  _ ← rows !! kb;
  Some (delete kb rows).

(** Assignment of a squeezed vector to a row or column of [n] entries:
    a single value is broadcast, any other length must agree. *)
Definition broadcast_to (n : nat) (v : vec) : result vec :=
  match v with
  | [x] => Ok (replicate n x)
  | _ => if decide (length v = n) then Ok v else Raise ValueError
  end.

(** [maha[ka] = row] *)
Definition set_row (ka : nat) (row : vec) (maha : mat) : result mat :=
  old ← of_option IndexError (maha !! ka);
  new ← broadcast_to (length old) row;
  Ok (<[ka := new]> maha).

(** [maha[:, ka] = col] *)
Definition set_col (ka : nat) (col : vec) (maha : mat) : result mat :=
  _ ← of_option IndexError (mapM (λ row : list float, row !! ka) maha);
  new ← broadcast_to (length maha) col;
  Ok (zip_with (λ (row : list float) x, <[ka := x]> row) maha new).

(** [maha[a, b] = np.inf] *)
Definition set_inf (a b : nat) (maha : mat) : result mat :=
  row ← of_option IndexError (maha !! a);
  _ ← of_option IndexError (row !! b);
  Ok (<[a := <[b := PInf]> row]> maha).

(** [list(np.where(np.logical_or(maha[ka] < 15, maha.T[ka] < 15))[0])] *)
Definition gated_neighbours (ka : nat) (maha : mat) : result (list nat) :=
  row ← of_option IndexError (maha !! ka);
  col ← of_option IndexError (mapM (λ r : list float, r !! ka) maha);
  if decide (length row = length col) then
    Ok (where_true
          (zip_with (λ x y, fl_lt x maha_gate || fl_lt y maha_gate) row col))
  else Raise ValueError.

(** Rows of [rhat] with a nonzero entry in column [cluster] or [i],
    together with those two columns of each row. *)
Definition local_rows (rhat : mat) (cluster i : nat)
  : option (list (list float)) :=
  mapM (λ row, pick2 row cluster i) rhat.

Definition row_nonzero (row : list float) : bool :=
  existsb fl_nonzero row.

(** The new row and column [ka] of the distance matrix after a merge:

      diff = vbParam.muhat[:, :, 0] - local_vbParam.muhat[:, :, 0]
      prec = local_vbParam.Vhat[..., 0] * local_vbParam.nuhat[0]
      maha[ka] = np.squeeze(np.matmul(diff.T[:, np.newaxis, :],
          np.matmul(prec[:, :, 0], diff.T[..., np.newaxis])))
      prec = np.transpose(vbParam.Vhat[..., 0] * vbParam.nuhat, [2, 0, 1])
      maha[:, ka] = np.squeeze(np.matmul(diff.T[:, np.newaxis, :],
          np.matmul(prec, diff.T[..., np.newaxis])))

    [diff] subtracts the whole array of means the merge test returned, by
    the rule of [broadcast2]: with one returned component it is subtracted
    from every mean, with more the subtraction is component by component
    or raises.  The first precision is the one of the returned component
    0; the second product pairs every [diff] with the precision of its own
    component, again by [broadcast2].  All means are taken to have the
    number of features of the feature vectors. *)
Definition recompute_distances (ka : nat) (muhat' : list vec)
    (Vhat' : list mat) (nuhat' : list float) (local_vbParam : vbPar mat)
    (maha : mat) : result mat :=
  diff ← broadcast2 vsub muhat' (muhat local_vbParam);
  nu_m ← of_option IndexError (nuhat local_vbParam !! 0%nat);
  V_m ← of_option IndexError (Vhat local_vbParam !! 0%nat);
  let prec_m := precision V_m nu_m in
  maha2 ← set_row ka (map (λ d, quad_form d prec_m) diff) maha;
  prec ← broadcast2 precision Vhat' nuhat';
  col ← broadcast2 (λ (d : vec) (P : mat), quad_form d P) diff prec;
  set_col ka col maha2.

(** The branch [if merged:] of the loop body.  The merged component is
    component 0 of the local state [mfm.check_merge] hands back; the
    source reads it as [local_vbParam.muhat[:, 0]], [Vhat[:, :, 0]],
    [nuhat[0]] and so on. *)
Definition accept_merge (s : merge_state) (ka kb : nat)
    (local_vbParam : vbPar mat) : result merge_state :=
  let vb := ms_vbParam s in
  muhat' ← of_option IndexError
             (replace_merged (muhat vb) ka kb (muhat local_vbParam));
  Vhat' ← of_option IndexError
            (replace_merged (Vhat vb) ka kb (Vhat local_vbParam));
  invVhat' ← of_option IndexError
               (replace_merged (invVhat vb) ka kb (invVhat local_vbParam));
  nuhat' ← of_option IndexError
             (replace_merged (nuhat vb) ka kb (nuhat local_vbParam));
  lambdahat' ← of_option IndexError
                 (replace_merged (lambdahat vb) ka kb
                                 (lambdahat local_vbParam));
  ahat' ← of_option IndexError
            (replace_merged (ahat vb) ka kb (ahat local_vbParam));
  rhat' ← of_option IndexError (mapM (merge_row ka kb) (rhat vb));
  maha1 ← of_option IndexError (delete_row_col kb (ms_maha s));
  maha2 ← recompute_distances ka muhat' Vhat' nuhat' local_vbParam maha1;
  maha4 ← set_inf ka ka maha2;
  neigh ← gated_neighbours ka maha4;
  Ok {| ms_cluster := ka;
        ms_neigh := neigh;
        ms_vbParam := mk_vbPar muhat' Vhat' invVhat' nuhat' lambdahat' ahat'
                               rhat';
        ms_maha := maha4 |}.

(** The branch [if not merged:] of the loop body. *)
Definition reject_merge (s : merge_state) (ka kb : nat)
  : result merge_state :=
  maha1 ← set_inf ka kb (ms_maha s);
  maha2 ← set_inf kb ka maha1;
  Ok {| ms_cluster := ms_cluster s;
        ms_neigh := removelast (ms_neigh s);
        ms_vbParam := ms_vbParam s;
        ms_maha := maha2 |}.

(** The first half of the loop body for candidate [i]: the local
    two-component sub-mixture on the spikes with a nonzero responsibility
    under [cluster] or [i], and the answer of the merge test on it. *)
Definition merge_answer (check_merge : merge_test)
    (scores : list feature) (s : merge_state) (i : nat)
  : result (vbPar mat * bool) :=
  let cluster := ms_cluster s in
  let vb := ms_vbParam s in
  pairs ← of_option IndexError (local_rows (rhat vb) cluster i);
  let indices := where_true (map row_nonzero pairs) in
  local_scores ← take_indices scores indices;
  local_rhat ← take_indices pairs indices;
  local_muhat ← of_option IndexError (pick2 (muhat vb) cluster i);
  local_Vhat ← of_option IndexError (pick2 (Vhat vb) cluster i);
  local_invVhat ← of_option IndexError (pick2 (invVhat vb) cluster i);
  local_nuhat ← of_option IndexError (pick2 (nuhat vb) cluster i);
  local_lambdahat ← of_option IndexError (pick2 (lambdahat vb) cluster i);
  local_ahat ← of_option IndexError (pick2 (ahat vb) cluster i);
  let local_vbParam :=
    mk_vbPar local_muhat local_Vhat local_invVhat local_nuhat
             local_lambdahat local_ahat local_rhat in
  check_merge local_scores local_vbParam.

(** One pass through the body of [while len(neigh_clusters) > 0] with
    candidate [i = neigh_clusters[-1]]. *)
Definition merge_iteration (check_merge : merge_test)
    (scores : list feature) (s : merge_state) (i : nat)
  : result merge_state :=
  '(local_vbParam, merged) ← merge_answer check_merge scores s i;
  let ka := Nat.min (ms_cluster s) i in
  let kb := Nat.max (ms_cluster s) i in
  if merged : bool then accept_merge s ka kb local_vbParam
  else reject_merge s ka kb.

(** The while loop.  [fuel] bounds the number of passes; [None] means the
    bound was reached with candidates still queued. *)
Fixpoint merge_loop (fuel : nat) (check_merge : merge_test)
    (scores : list feature) (s : merge_state)
  : option (result merge_state) :=
  match list.last (ms_neigh s) with
  | None => Some (Ok s)
  | Some i =>
      match fuel with
      | O => None
      | S fuel' =>
          match merge_iteration check_merge scores s i with
          | Ok s' => merge_loop fuel' check_merge scores s'
          | Raise e => Some (Raise e)
          end
      end
  end.

Definition merge_move_patches (fuel : nat) (cluster : nat)
    (neigh_clusters : list nat) (scores : list feature)
    (vbParam : vbPar mat) (maha : mat) (check_merge : merge_test)
  : option (result (vbPar mat * mat)) :=
  r ← merge_loop fuel check_merge scores
        (mk_merge_state cluster neigh_clusters vbParam maha);
  Some (match r with
        | Ok s => Ok (ms_vbParam s, ms_maha s)
        | Raise e => Raise e
        end).

(** ** Feature-channel selection of [run_cluster_features] *)

(** NaN-propagating maximum and minimum, as [np.max] and [np.min]. *)
Definition fl_max (x y : float) : float :=
  if is_nan x || is_nan y then NaN else if fl_lt x y then y else x.

Definition fl_min (x y : float) : float :=
  if is_nan x || is_nan y then NaN else if fl_lt y x then y else x.

Definition fl_abs (x : float) : float :=
  match x with
  | Fin a => if Qc_ltb a 0 then Fin (- a) else Fin a
  | PInf | NInf => PInf
  | NaN => NaN
  end.

(** A reduction over an axis of length zero raises [ValueError]. *)
Definition np_max (l : list float) : result float :=
  match l with
  | [] => Raise ValueError
  | x :: l' => Ok (foldl fl_max x l')
  end.

Definition np_min (l : list float) : result float :=
  match l with
  | [] => Raise ValueError
  | x :: l' => Ok (foldl fl_min x l')
  end.

(** [np.ptp]: maximum minus minimum. *)
Definition np_ptp (l : list float) : result float :=
  hi ← np_max l; lo ← np_min l; Ok (fl_sub hi lo).

(** The order [np.argsort] sorts by: NaN after every number. *)
Definition sort_leb (x y : float) : bool := is_nan y || fl_le x y.

Definition key_le (p q : nat * float) : Prop := sort_leb p.2 q.2 = true.

#[global] Instance key_le_dec : RelDecision key_le.
Proof. intros p q. unfold key_le. apply _. Defined.

(** [np.argsort(keys)].  The order among equal keys is whatever the sort
    leaves; numpy does not promise one either. *)
Definition argsort (keys : list float) : list nat :=
  map fst (merge_sort key_le (zip (seq 0 (length keys)) keys)).

(** [np.argsort(keys)[::-1][:n]] *)
Definition top_ranked (n : nat) (keys : list float) : list nat :=
  take n (reverse (argsort keys)).

(** [np.union1d]: the sorted union without repetitions. *)
Definition union1d (a b : list nat) : list nat :=
  merge_sort Nat.le (remove_dups (a ++ b)).

(** Traversal of a list with a raising function. *)
Fixpoint mapR {A B : Type} (f : A → result B) (l : list A)
  : result (list B) :=
  match l with
  | [] => Ok []
  | x :: l' => y ← f x; ys ← mapR f l'; Ok (y :: ys)
  end.

(** A waveform block indexed (channel, time step, spike), the layout after
    [np.swapaxes(wf_data, 2, 0)]. *)
Abbreviation wf_block := (list (list (list float))) (only parsing).

(** [np.mean(wf_data, axis=2)] *)
Definition mean_template (wf_data : wf_block) : mat :=
  map (map fl_mean) wf_data.

Definition two_SU : float := Fin (Q2Qc 2).

(** The block "find feature channels" of [run_cluster_features].  [mad] is
    [statsmodels.robust.mad] along the spike axis. *)
Definition max_chans_of (wf_data : wf_block) (n_max_chans : nat)
  : result (list nat) :=
  let template := mean_template wf_data in
  rank_amp_chans ← mapR (λ row, np_max (map fl_abs row)) template;
  Ok (top_ranked n_max_chans rank_amp_chans).

Definition chan_indexes_2SU_of (wf_data : wf_block) : result (list nat) :=
  let template := mean_template wf_data in
  ptps ← mapR np_ptp template;
  Ok (where_true (map (λ p, fl_gt p two_SU) ptps)).

Definition mad_chans_of (mad : list float → float) (wf_data : wf_block)
    (n_mad_chans : nat) : result (list nat) :=
  chan_indexes_2SU ← chan_indexes_2SU_of wf_data;
  selected ← take_indices wf_data chan_indexes_2SU;
  rank_chans_max ← mapR (λ chan : list (list float), np_max (map mad chan))
                        selected;
  ranked ← take_indices chan_indexes_2SU (reverse (argsort rank_chans_max));
  Ok (take n_mad_chans ranked).

Definition feat_chans_of (mad : list float → float) (wf_data : wf_block)
    (n_mad_chans n_max_chans : nat) : result (list nat) :=
  max_chans ← max_chans_of wf_data n_max_chans;
  mad_chans ← mad_chans_of mad wf_data n_mad_chans;
  Ok (union1d max_chans mad_chans).

(** The amplitude ranking as the specification words it: by peak-to-peak
    amplitude of the mean waveform.  Used only to compare with
    [max_chans_of]. *)
Definition max_chans_by_ptp (wf_data : wf_block) (n_max_chans : nat)
  : result (list nat) :=
  ptps ← mapR np_ptp (mean_template wf_data);
  Ok (top_ranked n_max_chans ptps).

Definition feat_chans_by_ptp (mad : list float → float) (wf_data : wf_block)
    (n_mad_chans n_max_chans : nat) : result (list nat) :=
  max_chans ← max_chans_by_ptp wf_data n_max_chans;
  mad_chans ← mad_chans_of mad wf_data n_mad_chans;
  Ok (union1d max_chans mad_chans).

(** ** Stability loop, [run_mfm] *)

(** One spike's waveform, indexed (time step, channel). *)
Abbreviation waveform := (list (list float)) (only parsing).

(** [np.where(rhat[:, k] > 0)[0]] *)
Definition assigned_rows (rhat : mat) (k : nat) : list nat :=
  where_true
    (map (λ row : list float,
            match row !! k with
            | Some x => fl_gt x f0
            | None => false
            end) rhat).

(** [np.mean(rhat[index, k])] for [index = assigned_rows rhat k] *)
Definition stability_of (rhat : mat) (k : nat) : float :=
  fl_mean
    (omap (λ row : list float,
             x ← row !! k; if fl_gt x f0 then Some x else None) rhat).

(** [np.delete(a, idx, axis=0)]: every position listed in [idx] is
    removed; a position out of range raises. *)
Definition np_delete {A : Type} (a : list A) (idx : list nat)
  : result (list A) :=
  if forallb (λ i, i <? length a)%nat idx then
    Ok (omap (λ p : nat * A,
                if bool_decide (p.1 ∈ idx) then None else Some p.2)
             (zip (seq 0 (length a)) a))
  else Raise IndexError.

(** [np.argmax]: the first maximum, and the first NaN as soon as there is
    one. *)
Fixpoint argmax_from (best : float) (best_i i : nat) (l : list float)
  : nat :=
  match l with
  | [] => best_i
  | x :: l' =>
      if is_nan best then best_i
      else if fl_le x best then argmax_from best best_i (S i) l'
      else argmax_from x i (S i) l'
  end.

Definition np_argmax (l : list float) : result nat :=
  match l with
  | [] => Raise ValueError
  | x :: l' => Ok (argmax_from x 0 1 l')
  end.

(** Components whose stability exceeds 0.90, in increasing order. *)
Definition stable_components (rhat : mat) : list nat :=
  filter (λ k, fl_gt (stability_of rhat k) stability_threshold = true)
         (seq 0 (ncols rhat)).

(** The extraction part of one round: the groups appended to
    [rolling_index_array], then [index_vals] and [wf_data] after removal.
    The templates and peak-to-peak values the source computes next to each
    append are never read and are left out. *)
Definition mfm_extract (rhat : mat) (index_vals : list nat)
    (wf_data : list waveform)
  : result (list (list nat) * list nat * list waveform) :=
  let stable := stable_components rhat in
  groups ← mapR (λ k, take_indices index_vals (assigned_rows rhat k)) stable;
  let remove_indexes := concat (map (assigned_rows rhat) stable) in
  if decide (0 < length remove_indexes)%nat then
    index_vals' ← np_delete index_vals remove_indexes;
    wf_data' ← np_delete wf_data remove_indexes;
    Ok (groups, index_vals', wf_data')
  else
    most_stable ← np_argmax (map (stability_of rhat) (seq 0 (ncols rhat)));
    let index := assigned_rows rhat most_stable in
    group ← take_indices index_vals index;
    index_vals' ← np_delete index_vals index;
    wf_data' ← np_delete wf_data index;
    Ok (groups ++ [group], index_vals', wf_data').

Record mfm_state : Type := mk_mfm_state {
  mfm_rhat : mat;
  mfm_index_vals : list nat;
  mfm_wf_data : list waveform;
  rolling_index_array : list (list nat)
}.

(** The fit of one round: realignment and PCA of the remaining waveforms
    ([align_channelwise], [PCA]), then [mfm.spikesort] with a mask of ones
    and singleton groups, then the sparsification of [rhat]. *)
Definition mfm_fit (spikesort : fitter) (features : list feature) : mat :=
  let n := length features in
  sparsify (rhat (spikesort features (replicate n [f1]) (seq 0 n))).

(** [for s in range(1000)], with [rounds] iterations left and [s] the
    loop variable.  The answer carries the number of rounds entered. *)
Fixpoint mfm_loop (rounds s : nat) (spikesort : fitter)
    (realign_project : list waveform → list feature) (st : mfm_state)
  : result (list (list nat) * nat) :=
  match rounds with
  | O => Ok (rolling_index_array st, s)
  | S rounds' =>
      '(groups, index_vals, wf_data) ←
        mfm_extract (mfm_rhat st) (mfm_index_vals st) (mfm_wf_data st);
      let rolling := rolling_index_array st ++ groups in
      if decide (length wf_data ≤ min_points)%nat then Ok (rolling, S s)
      else
        let rhat := mfm_fit spikesort (realign_project wf_data) in
        if decide (ncols rhat = 1%nat) then
          Ok (rolling ++ [index_vals], S s)
        else
          mfm_loop rounds' (S s) spikesort realign_project
                   (mk_mfm_state rhat index_vals wf_data rolling)
  end.


(** ** Vocabulary of the statements: numbers and arrays *)

(** Sum of exact rationals, the finite case of [fl_sum]. *)
Definition Qc_sum (l : list Qc) : Qc := foldr Qcplus 0 l.

(** Values a sum above a non-negative threshold cannot be made of only. *)
Definition nonpos (x : float) : Prop :=
  match x with
  | Fin q => q ≤ 0
  | PInf => False
  | NInf | NaN => True
  end.

(** Position of the [k]-th [true] of a mask. *)
Fixpoint kth_true (Ks : list bool) (k : nat) : option nat :=
  match Ks with
  | [] => None
  | true :: Ks' =>
      match k with
      | O => Some 0%nat
      | S k' => S <$> kth_true Ks' k'
      end
  | false :: Ks' => S <$> kth_true Ks' k
  end.

(** [new] is [old] without its entry [kb] and with [v] at index [ka]. *)
Definition merged_array {A : Type} (ka kb : nat) (v : A) (old new : list A)
  : Prop :=
  length old = S (length new) ∧
  new !! ka = Some v ∧
  ∀ j, j ≠ ka → new !! j = old !! (if decide (j < kb)%nat then j else S j).

(** ** Vocabulary of the statements: the merge engine *)

(** Entry (a, b) of a matrix. *)
Definition maha_at (maha : mat) (a b : nat) : option float :=
  row ← maha !! a; row !! b.

(** Every diagonal entry is +infinity. *)
Definition diag_inf (maha : mat) : Prop :=
  ∀ i row, maha !! i = Some row → row !! i = Some PInf.

(** Every diagonal entry but the one at [ka] is +infinity. *)
Definition diag_inf_except (ka : nat) (maha : mat) : Prop :=
  ∀ i row, i ≠ ka → maha !! i = Some row → row !! i = Some PInf.

(** The quantity that decreases at every pass of the merge loop: the queue
    length plus the square of the number of rows of the distance matrix. *)
Definition merge_measure (s : merge_state) : nat :=
  (length (ms_neigh s) + length (ms_maha s) * length (ms_maha s))%nat.

(** Shapes the merge engine relies on: [K] components in every parameter
    array, in every row of [rhat] and in both directions of the distance
    matrix, a score for every spike, the anchor and the candidates among
    the components, and no candidate equal to the anchor. *)
Record wf_merge_state (K : nat) (scores : list feature) (s : merge_state)
  : Prop := mk_wf_merge_state {
  wf_muhat : length (muhat (ms_vbParam s)) = K;
  wf_Vhat : length (Vhat (ms_vbParam s)) = K;
  wf_invVhat : length (invVhat (ms_vbParam s)) = K;
  wf_nuhat : length (nuhat (ms_vbParam s)) = K;
  wf_lambdahat : length (lambdahat (ms_vbParam s)) = K;
  wf_ahat : length (ahat (ms_vbParam s)) = K;
  wf_rhat : Forall (λ row, length row = K) (rhat (ms_vbParam s));
  wf_scores : (length (rhat (ms_vbParam s)) ≤ length scores)%nat;
  wf_maha_rows : length (ms_maha s) = K;
  wf_maha_cols : Forall (λ row, length row = K) (ms_maha s);
  wf_maha_diag : diag_inf (ms_maha s);
  wf_cluster : (ms_cluster s < K)%nat;
  wf_neigh : Forall (λ i, (i < K)%nat ∧ i ≠ ms_cluster s) (ms_neigh s)
}.

(** The local state a merge test answers with holds a first component. *)
Definition has_first (lv : vbPar mat) : Prop :=
  is_Some (muhat lv !! 0%nat) ∧ is_Some (Vhat lv !! 0%nat) ∧
  is_Some (invVhat lv !! 0%nat) ∧ is_Some (nuhat lv !! 0%nat) ∧
  is_Some (lambdahat lv !! 0%nat) ∧ is_Some (ahat lv !! 0%nat).

(** The local state handed to a merge test holds two components. *)
Definition two_components (lv : vbPar mat) : Prop :=
  length (muhat lv) = 2%nat ∧ length (Vhat lv) = 2%nat ∧
  length (invVhat lv) = 2%nat ∧ length (nuhat lv) = 2%nat ∧
  length (lambdahat lv) = 2%nat ∧ length (ahat lv) = 2%nat.

(** The local state of an accepted merge holds the merged component and
    nothing else. *)
Definition one_component (lv : vbPar mat) : Prop :=
  length (muhat lv) = 1%nat ∧ length (Vhat lv) = 1%nat ∧
  length (invVhat lv) = 1%nat ∧ length (nuhat lv) = 1%nat ∧
  length (lambdahat lv) = 1%nat ∧ length (ahat lv) = 1%nat.

(** A merge test that answers on every two-component state, and answers
    an acceptance with the merged component alone. *)
Definition total_merge_test (check_merge : merge_test) : Prop :=
  ∀ local_scores local_vbParam,
    two_components local_vbParam →
    ∃ lv merged, check_merge local_scores local_vbParam = Ok (lv, merged) ∧
                 (merged = true → one_component lv).

(** The value of a computation that did not raise, [d] otherwise. *)
Definition state_or {A : Type} (d : A) (r : result A) : A :=
  match r with
  | Ok a => a
  | Raise _ => d
  end.

(** ** Vocabulary of the statements: sequences of folds *)

(** The arguments of one call of [global_cluster_info]. *)
Record fold_input : Type := mk_fold_input {
  fi_vbParam : vbPar (list (list float));
  fi_channel : nat;
  fi_score : list (list (list float));
  fi_spike_index : list (nat * nat)
}.

(** Successive calls of [global_cluster_info], each on the globals the
    previous call returned. *)
Fixpoint fold_channels (inputs : list fold_input) (g : option global_state)
  : result (option global_state) :=
  match inputs with
  | [] => Ok g
  | x :: rest =>
      st ← global_cluster_info (fi_vbParam x) (fi_channel x) (fi_score x)
                               (fi_spike_index x) g;
      fold_channels rest (Some st)
  end.

(** All component-indexed arrays of a mixture state have [K] entries and
    every row of [rhat] has [K] columns. *)
Definition vb_shape (K : nat) (vb : vbPar mat) : Prop :=
  length (muhat vb) = K ∧ length (Vhat vb) = K ∧ length (invVhat vb) = K ∧
  length (nuhat vb) = K ∧ length (lambdahat vb) = K ∧ length (ahat vb) = K ∧
  Forall (λ row, length row = K) (rhat vb).

(** A channel state as [run_cluster_location] folds it: the output of
    [clean_empty_cluster] for the threshold [min_spikes], with at least
    one component left. *)
Definition pruned_input (min_spikes : float) (x : fold_input) : Prop :=
  ∃ K raw, vb_shape K raw ∧
           fi_vbParam x = clean_empty_cluster raw min_spikes ∧
           (0 < n_components (fi_vbParam x))%nat.

(** Total number of components of the folded channels. *)
Definition total_components (inputs : list fold_input) : nat :=
  sum_list (map (λ x, n_components (fi_vbParam x)) inputs).

(** The component ids after folding [total] components: one origin channel
    per component, and the largest component id among the triplets is
    [total - 1]. *)
Definition component_ids_ok (total : nat) (st : global_state) : Prop :=
  length (global_tmp_loc st) = total ∧
  n_components (global_vbParam st) = total ∧
  (0 < total)%nat ∧
  max_id (map comp_id (rhat (global_vbParam st))) = Some (total - 1)%nat.

(** A channel in which every spike keeps a responsibility entry: at least
    one spike, and a positive entry in every row of the [rhat] that is
    folded. *)
Definition every_spike_assigned (x : fold_input) : Prop :=
  rhat (fi_vbParam x) ≠ [] ∧
  Forall (λ row, Exists (λ p, fl_gt p f0 = true) row) (rhat (fi_vbParam x)).

(** A channel brings one score and one spike reference per row of
    [rhat]. *)
Definition rows_agree (x : fold_input) : Prop :=
  length (fi_score x) = length (rhat (fi_vbParam x)) ∧
  length (fi_spike_index x) = length (rhat (fi_vbParam x)).

(** Spike id and probability of a triplet. *)
Definition spike_part (t : nat * nat * float) : nat * float :=
  (spike_id t, t.2).

(** The spike id and probability of every triplet the channels contribute,
    with the spike ids of each channel moved behind the rows of the
    channels before it. *)
Fixpoint aligned_spikes (dn : nat) (inputs : list fold_input)
  : list (nat * float) :=
  match inputs with
  | [] => []
  | x :: rest =>
      map (λ t : nat * nat * float, (spike_id t + dn, t.2)%nat)
          (triplets_of (rhat (fi_vbParam x)))
      ++ aligned_spikes (dn + length (fi_score x)) rest
  end.

(** The spike rows after folding [N] spikes: as many scores as spike
    references, and the largest spike id among the triplets is [N - 1]. *)
Definition spike_ids_ok (N : nat) (st : global_state) : Prop :=
  length (global_score st) = N ∧
  length (global_spike_index st) = N ∧
  (0 < N)%nat ∧
  max_id (map spike_id (rhat (global_vbParam st))) = Some (N - 1)%nat.

(** Number of spikes of the first [j] channels. *)
Definition rows_before (inputs : list fold_input) (j : nat) : nat :=
  length (concat (map fi_score (take j inputs))).

(** The fitter of the orchestrators answers with a mixture state whose
    arrays agree on the number of components and with one row of
    responsibilities per spike. *)
Definition fitter_shape (spikesort : fitter) : Prop :=
  ∀ score mask group,
    (∃ K, vb_shape K (spikesort score mask group)) ∧
    length (rhat (spikesort score mask group)) = length score.

(** The component ids of the globals are in order, when there are
    globals. *)
Definition globals_ok (g : option global_state) : Prop :=
  match g with
  | None => True
  | Some st => ∃ total, component_ids_ok total st
  end.

(** ** Vocabulary of the statements: the splitting pipeline *)




(** What one round extracts, as the source's two branches. *)
Definition extraction (rhat : list (list float)) (index_vals : list nat)
    (wf_data : list (list (list float))) (groups : list (list nat))
    (index_vals' : list nat) (wf_data' : list (list (list float))) : Prop :=
  (stable_components rhat ≠ [] ∧
   Forall2 (λ k g, take_indices index_vals (assigned_rows rhat k) = Ok g)
           (stable_components rhat) groups ∧
   np_delete index_vals
             (concat (map (assigned_rows rhat) (stable_components rhat)))
   = Ok index_vals' ∧
   np_delete wf_data
             (concat (map (assigned_rows rhat) (stable_components rhat)))
   = Ok wf_data')
  ∨
  (stable_components rhat = [] ∧
   ∃ most_stable group,
     np_argmax (map (stability_of rhat) (seq 0 (ncols rhat)))
     = Ok most_stable ∧
     take_indices index_vals (assigned_rows rhat most_stable) = Ok group ∧
     groups = [group] ∧
     np_delete index_vals (assigned_rows rhat most_stable) = Ok index_vals' ∧
     np_delete wf_data (assigned_rows rhat most_stable) = Ok wf_data').


(** [top] holds the [n] best-ranked positions of [keys]: distinct
    positions, as many as asked for when there are enough, and no position
    left out has a key above the key of a position taken. *)
Definition top_of (n : nat) (keys : list float) (top : list nat) : Prop :=
  NoDup top ∧
  length top = Nat.min n (length keys) ∧
  (∀ c, c ∈ top → (c < length keys)%nat) ∧
  (∀ c c' kc kc', c ∈ top → c' ∉ top →
                  keys !! c = Some kc → keys !! c' = Some kc' →
                  sort_leb kc' kc = true).

(** The feature-channel set as [run_cluster_features] builds it:
    [max_chans] are the best [n_max_chans] channels by the largest absolute
    value of the mean waveform; [mad_chans] are the best [n_mad_chans]
    channels by the largest deviation [mad] over the time steps, taken
    among the channels whose mean waveform has a peak-to-peak amplitude
    above 2; [feat_chans] is their sorted union. *)
Definition feature_channels_spec (mad : list float → float)
    (wf_data : list (list (list float))) (n_mad_chans n_max_chans : nat)
    (feat_chans : list nat) : Prop :=
  ∃ rank_amp_chans ptps selected rank_chans_max max_chans positions
    mad_chans,
    mapR (λ row, np_max (map fl_abs row)) (mean_template wf_data)
    = Ok rank_amp_chans ∧
    top_of n_max_chans rank_amp_chans max_chans ∧
    mapR np_ptp (mean_template wf_data) = Ok ptps ∧
    (∀ c, c ∈ where_true (map (λ p, fl_gt p two_SU) ptps) ↔
          ∃ p, ptps !! c = Some p ∧ fl_gt p two_SU = true) ∧
    take_indices wf_data (where_true (map (λ p, fl_gt p two_SU) ptps))
    = Ok selected ∧
    mapR (λ chan : list (list float), np_max (map mad chan)) selected
    = Ok rank_chans_max ∧
    top_of n_mad_chans rank_chans_max positions ∧
    take_indices (where_true (map (λ p, fl_gt p two_SU) ptps)) positions
    = Ok mad_chans ∧
    (∀ c, c ∈ feat_chans ↔ c ∈ max_chans ∨ c ∈ mad_chans) ∧
    Sorted Nat.le feat_chans ∧ NoDup feat_chans.

(** ** Concrete inputs: responsibilities *)

(** The rational [n / d] as a float. *)
Definition fq (n : Z) (d : positive) : float := Fin (Q2Qc (n # d)).

(** A row of eleven equal responsibilities: every entry is 1/11 < 0.1. *)
Definition flat_row : list float := replicate 11 (Fin (Q2Qc (1 # 11))).

(** A spike that belongs to the first of eleven components. *)
Definition sure_row : list float := f1 :: replicate 10 f0.

(** A fit of two spikes by eleven components: the fitter is undecided
    about the first spike and sure about the second. *)
Definition ex_flat_vbParam : vbPar (list (list float)) :=
  {| muhat := replicate 11 [f0]; Vhat := replicate 11 [[f1]];
     invVhat := replicate 11 [[f1]]; nuhat := replicate 11 f1;
     lambdahat := replicate 11 f1; ahat := replicate 11 f1;
     rhat := [flat_row; sure_row] |}.

(** ** Concrete inputs: the merge engine *)

(** A mixture of three one-dimensional components with means 0, 1 and 10
    and unit precision, over four spikes. *)
Definition ex_vbParam : vbPar mat :=
  {| muhat := [[fq 0 1]; [fq 1 1]; [fq 10 1]];
     Vhat := [[[f1]]; [[f1]]; [[f1]]];
     invVhat := [[[f1]]; [[f1]]; [[f1]]];
     nuhat := [f1; f1; f1];
     lambdahat := [f1; f1; f1];
     ahat := [f1; f1; f1];
     rhat := [[f1; f0; f0];
              [fq 1 2; fq 1 2; f0];
              [f0; f1; f0];
              [f0; f0; f1]] |}.

(** One score per spike of [ex_vbParam]. *)
Definition ex_scores : list feature :=
  [[[fq 0 1]]; [[fq 1 2]]; [[fq 1 1]]; [[fq 10 1]]].

(** The distance matrix of [ex_vbParam]. *)
Definition ex_maha : mat :=
  state_or [] (calculate_maha_clusters squeeze_fallback ex_vbParam).

(** The one-component answer of a merge test: the parameters of the first
    local component and the summed responsibilities. *)
Definition merged_local (lv : vbPar mat) : vbPar mat :=
  {| muhat := take 1 (muhat lv);
     Vhat := take 1 (Vhat lv);
     invVhat := take 1 (invVhat lv);
     nuhat := take 1 (nuhat lv);
     lambdahat := take 1 (lambdahat lv);
     ahat := take 1 (ahat lv);
     rhat := map (λ row, [fl_sum row]) (rhat lv) |}.

(** A merge test that accepts two one-dimensional components exactly when
    their means are less than 5 apart. *)
Definition accept_near : merge_test :=
  λ _ lv,
    match muhat lv with
    | [[a]; [b]] =>
        if fl_lt (fl_abs (fl_sub a b)) (fq 5 1)
        then Ok (merged_local lv, true)
        else Ok (lv, false)
    | _ => Ok (lv, false)
    end.

(** A merge test that raises on every call. *)
Definition failing_test : merge_test := λ _ _, Raise CollaboratorError.

(** A merge test that accepts every pair with a state made of NaN. *)
Definition nan_test : merge_test :=
  λ _ lv,
    Ok (mk_vbPar [[NaN]] [[[NaN]]] [[[NaN]]] [NaN] [NaN] [NaN]
                 (map (λ _ : list float, [NaN]) (rhat lv)), true).

(** The state of the engine with anchor 0 and candidate 1 queued. *)
Definition ex_state_01 : merge_state :=
  mk_merge_state 0 [1%nat] ex_vbParam ex_maha.

(** The state of the engine with anchor 0 and the candidates 1 and 2
    queued; the loop takes candidate 2 first. *)
Definition ex_state_012 : merge_state :=
  mk_merge_state 0 [1%nat; 2%nat] ex_vbParam ex_maha.

(** The state after the first pass of the loop. *)
Definition ex_state_after_1 : merge_state :=
  state_or ex_state_012 (merge_iteration accept_near ex_scores ex_state_012 2).

(** The state after the second pass. *)
Definition ex_state_after_2 : merge_state :=
  state_or ex_state_012
           (merge_iteration accept_near ex_scores ex_state_after_1 1).

(** ** Concrete inputs: channels and folds *)

(** A fitter that explains every channel with a single component. *)
Definition one_cluster_fitter : fitter :=
  λ score _ _,
    {| muhat := [[f0]]; Vhat := [[[f1]]]; invVhat := [[[f1]]];
       nuhat := [f1]; lambdahat := [f1]; ahat := [f1];
       rhat := map (λ _ : list (list float), [f1]) score |}.

(** Two spikes on channel 0 and three on channel 1. *)
Definition ex_spike_index : list (nat * nat) :=
  [(10, 0); (20, 0); (30, 1); (40, 1); (50, 1)]%nat.

(** One score per row of [ex_spike_index]. *)
Definition ex_channel_scores : list (list (list float)) :=
  [[[fq 1 1]]; [[fq 2 1]]; [[fq 3 1]]; [[fq 4 1]]; [[fq 5 1]]].

(** Masks and groups of the two channels, for [run_cluster]. *)
Definition ex_masks : list (list (list float)) :=
  [[[f1]; [f1]]; [[f1]; [f1]; [f1]]].

Definition ex_groups : list (list nat) := [[0; 1]; [0; 1; 2]]%nat.

(** The threshold: a component needs a mass above 2 to survive. *)
Definition ex_min_spikes : float := fq 2 1.

(** A fit of three spikes by two components, unpruned. *)
Definition ex_raw_a : vbPar (list (list float)) :=
  {| muhat := [[fq 0 1]; [fq 5 1]]; Vhat := [[[f1]]; [[f1]]];
     invVhat := [[[f1]]; [[f1]]]; nuhat := [f1; f1];
     lambdahat := [f1; f1]; ahat := [f1; f1];
     rhat := [[f1; f0]; [fq 1 2; fq 1 2]; [f0; f1]] |}.

(** A merge test that accepts every pair and hands the two local
    components back as they are. *)
Definition keep_both_test : merge_test := λ _ lv, Ok (lv, true).

(** Anchor 0 and candidate 1 of the two-component fit [ex_raw_a], with the
    distance matrix of that fit. *)
Definition ex_state_two : merge_state :=
  mk_merge_state 0 [1%nat] ex_raw_a
    (state_or [] (calculate_maha_clusters squeeze_fallback ex_raw_a)).

(** A fit of two spikes by one component, unpruned. *)
Definition ex_raw_b : vbPar (list (list float)) :=
  {| muhat := [[fq 9 1]]; Vhat := [[[f1]]]; invVhat := [[[f1]]];
     nuhat := [f1]; lambdahat := [f1]; ahat := [f1];
     rhat := [[f1]; [f1]] |}.

(** A fit of three spikes by two components in which the last spike is
    alone in the second component. *)
Definition ex_raw_c : vbPar (list (list float)) :=
  {| muhat := [[fq 0 1]; [fq 5 1]]; Vhat := [[[f1]]; [[f1]]];
     invVhat := [[[f1]]; [[f1]]]; nuhat := [f1; f1];
     lambdahat := [f1; f1]; ahat := [f1; f1];
     rhat := [[f1; f0]; [f1; f0]; [f0; f1]] |}.

(** The first fit pruned with threshold 0, from channel 0. *)
Definition ex_input_a : fold_input :=
  mk_fold_input (clean_empty_cluster ex_raw_a f0) 0
                [[[fq 1 1]]; [[fq 2 1]]; [[fq 3 1]]]
                [(10, 0); (20, 0); (30, 0)]%nat.

(** The second fit pruned with threshold 0, from channel 2. *)
Definition ex_input_b : fold_input :=
  mk_fold_input (clean_empty_cluster ex_raw_b f0) 2
                [[[fq 4 1]]; [[fq 5 1]]]
                [(15, 2); (25, 2)]%nat.

(** The second fit pruned with threshold 2: no component is left. *)
Definition ex_input_empty : fold_input :=
  mk_fold_input (clean_empty_cluster ex_raw_b ex_min_spikes) 0
                [[[fq 4 1]]; [[fq 5 1]]]
                [(15, 0); (25, 0)]%nat.

(** A state of two components whose second component holds no spike. *)
Definition ex_input_massless : fold_input :=
  mk_fold_input
    {| muhat := [[fq 0 1]; [fq 5 1]]; Vhat := [[[f1]]; [[f1]]];
       invVhat := [[[f1]]; [[f1]]]; nuhat := [f1; f1];
       lambdahat := [f1; f1]; ahat := [f1; f1];
       rhat := [[f1; f0]; [f1; f0]] |}
    0 [[[fq 1 1]]; [[fq 2 1]]] [(10, 0); (20, 0)]%nat.

(** That fit pruned with threshold 1: the second component goes, and the
    row of the third spike holds no entry any more. *)
Definition ex_input_lost : fold_input :=
  mk_fold_input (clean_empty_cluster ex_raw_c f1) 0
                [[[fq 1 1]]; [[fq 2 1]]; [[fq 3 1]]]
                [(10, 0); (20, 0); (30, 0)]%nat.

(** Three spikes on channel 0 and two on channel 1. *)
Definition ex_spike_index_lost : list (nat * nat) :=
  [(10, 0); (20, 0); (30, 0); (15, 1); (25, 1)]%nat.

(** A fitter that answers a channel of three spikes with [ex_raw_c] and
    any other channel with [ex_raw_b]. *)
Definition split_fitter : fitter :=
  λ score _ _,
    if decide (length score = 3%nat) then ex_raw_c else ex_raw_b.

(** ** Concrete inputs: the splitting pipeline *)



(** Two channels, two time steps, one spike.  The mean waveform of channel
    0 swings from 3 to -3, the one of channel 1 from 4 to 0. *)
Definition ex_wf_block : list (list (list float)) :=
  [[[fq 3 1]; [fq (-3) 1]]; [[fq 4 1]; [fq 0 1]]].

(** A stand-in for [robust.mad] that answers 0 everywhere. *)
Definition zero_mad : list float → float := λ _, f0.

(* ================================================================== *)
(** * Part I, continued: the remaining functions of the engine         *)
(* ================================================================== *)

(** ** Vocabulary of the statements: components of the folded channels *)

(** Number of components of the first [j] channels. *)
Definition comps_before (inputs : list fold_input) (j : nat) : nat :=
  total_components (take j inputs).

(** The component-indexed array [f] of every channel, one after the
    other. *)
Definition stacked {A : Type} (f : vbPar (list (list float)) → list A)
    (inputs : list fold_input) : list A :=
  concat (map (λ x, f (fi_vbParam x)) inputs).

(** One origin channel per component, channel after channel. *)
Definition stacked_channels (inputs : list fold_input) : list nat :=
  concat (map (λ x, replicate (n_components (fi_vbParam x)) (fi_channel x))
              inputs).

(** The six parameter arrays of the globals are the channels' arrays one
    after the other. *)
Definition params_stacked (inputs : list fold_input) (st : global_state)
  : Prop :=
  muhat (global_vbParam st) = stacked muhat inputs ∧
  Vhat (global_vbParam st) = stacked Vhat inputs ∧
  invVhat (global_vbParam st) = stacked invVhat inputs ∧
  nuhat (global_vbParam st) = stacked nuhat inputs ∧
  lambdahat (global_vbParam st) = stacked lambdahat inputs ∧
  ahat (global_vbParam st) = stacked ahat inputs.

(** A global triplet [t] stands for the triplet [t0] of channel [x], the
    [j]-th channel folded: same probability, and the component id moved
    behind the components of the channels before. *)
Definition component_of (inputs : list fold_input) (t : nat * nat * float)
    (j : nat) (x : fold_input) (t0 : nat * nat * float) : Prop :=
  inputs !! j = Some x ∧
  t0 ∈ triplets_of (rhat (fi_vbParam x)) ∧
  t.2 = t0.2 ∧
  comp_id t = (comp_id t0 + comps_before inputs j)%nat.

(** What holds of the globals after the channels [folded]. *)
Definition components_aligned (folded : list fold_input) (st : global_state)
  : Prop :=
  component_ids_ok (total_components folded) st ∧
  global_tmp_loc st = stacked_channels folded ∧
  params_stacked folded st ∧
  ∀ t, t ∈ rhat (global_vbParam st) →
       ∃ j x t0, component_of folded t j x t0.

(** ** Vocabulary of the statements: what the orchestrators keep *)

(** [rows] are the rows of the input that a run of an orchestrator kept:
    no row twice; the returned scores and spike references are the input's
    at these rows, in this order; the spike references come channel after
    channel; a channel is kept or left out as a whole; and only channels
    with two spikes or more are kept. *)
Definition kept_rows (scores : list (list (list float)))
    (spike_index : list (nat * nat)) (st : global_state) (rows : list nat)
  : Prop :=
  NoDup rows ∧
  take_indices scores rows = Ok (global_score st) ∧
  take_indices spike_index rows = Ok (global_spike_index st) ∧
  StronglySorted le (map snd (global_spike_index st)) ∧
  (∀ i j s s', spike_index !! i = Some s → spike_index !! j = Some s' →
               s.2 = s'.2 → i ∈ rows → j ∈ rows) ∧
  (∀ s, s ∈ global_spike_index st →
        (2 ≤ length (channel_rows spike_index s.2))%nat).

(** The invariant of the channel loop before channel [c]. *)
Definition rows_so_far (scores : list (list (list float)))
    (spike_index : list (nat * nat)) (c : nat) (g : option global_state)
  : Prop :=
  match g with
  | None => True
  | Some st =>
      ∃ rows, kept_rows scores spike_index st rows ∧
              Forall (λ s : nat * nat, (s.2 < c)%nat) (global_spike_index st)
  end.

(** ** Waveform alignment: [upsample_resample], [shift_template],
       [return_shifts], [align_channelwise]

    The source's waveform arrays [wf] and [wfs_upsampled] have shape
    (samples, spikes).  They are held here by their columns, one list of
    samples per spike, which is what the callers build them from
    ([data_in[:, :, k].T], [wf_upsampled.T]).  The number of samples
    [shape[0]] is read off the first column; a block without spikes does
    not record it.  [scipy.signal.resample] is a function parameter. *)

(** A bound of a Python slice: a negative index counts from the end and the
    result is clamped to the list. *)
Definition slice_bound (len : nat) (i : Z) : nat :=
  Z.to_nat (Z.min (Z.max 0 (if (i <? 0)%Z then (i + Z.of_nat len)%Z else i))
                  (Z.of_nat len)).

(** [l[start:stop]] *)
Definition py_slice {A : Type} (start stop : Z) (l : list A) : list A :=
  let a := slice_bound (length l) start in
  let b := slice_bound (length l) stop in
  take (b - a) (drop a l).

(** [l[start:]] *)
Definition py_slice_from {A : Type} (start : Z) (l : list A) : list A :=
  drop (slice_bound (length l) start) l.

(** Every [step]-th entry of a list after skipping [skip] entries. *)
Fixpoint strided {A : Type} (step skip : nat) (l : list A) : list A :=
  match l with
  | [] => []
  | x :: l' =>
      match skip with
      | O => x :: strided step (step - 1) l'
      | S skip' => strided step skip' l'
      end
  end.

(** [l[::step]] for a step that is not negative; a zero step raises. *)
Definition py_stride {A : Type} (step : nat) (l : list A)
  : result (list A) :=
  if decide (step = 0%nat) then Raise ValueError else Ok (strided step 0 l).

(** [upsample_resample(wf, upsample_factor)]: one resampled row per spike,
    assigned into a row of [waveform_len * upsample_factor] entries. *)
Definition upsample_resample (resample : list float → nat → list float)
    (wf : list (list float)) (upsample_factor : nat)
  : result (list (list float)) :=
  let waveform_len := ncols wf in
  mapR (λ col, broadcast_to (waveform_len * upsample_factor)%nat
                            (resample col
                                      (waveform_len * upsample_factor)%nat))
       wf.

(** [shift_template(template_upsampled, n_shifts, window)]: the list
    [temp_array] of slices, one per shift [s] in
    [range(-n_shifts//2, n_shifts//2+1)].  [np.array] makes a matrix of it
    when the slices have one length. *)
Definition shift_template (template_upsampled : list float)
    (n_shifts window : Z) : list (list float) :=
  let mid := Z.of_nat (length template_upsampled / 2)%nat in
  map (λ s, py_slice (mid - window + s)%Z (mid + window + s)%Z
                     template_upsampled)
      (seqZ (Z.opp n_shifts / 2)%Z
            ((n_shifts / 2 + 1) - (Z.opp n_shifts / 2))%Z).

(** [np.matmul(v, m.T)] for a matrix [m] given by its rows. *)
Definition matmul_T (v : list float) (m : list (list float))
  : result (list float) :=
  if forallb (λ row : list float, length row =? length v)%nat m
  then Ok (map (dot v) m) else Raise ValueError.

(** [return_shifts(wfs_upsampled, template_shifted, window)] *)
Definition return_shifts (wfs_upsampled : list (list float))
    (template_shifted : list (list float)) (window : Z)
  : result (list nat) :=
  mapR (λ col : list float,
          let mid := Z.of_nat (length col / 2)%nat in
          temp ← matmul_T (py_slice (mid - window)%Z (mid + window)%Z col)
                          template_shifted;
          np_argmax temp)
       wfs_upsampled.

(** The body of the last loop of [align_channelwise]: the chunk of one
    upsampled waveform for its shift, padded with zeros. *)
Definition aligned_chunk (upsample_factor waveform_len n_shifts : nat)
    (row : list float) (shift : nat) : result (list float) :=
  picked ← py_stride upsample_factor
             (py_slice_from (Z.of_nat n_shifts - Z.of_nat shift)%Z row);
  let chunk := take waveform_len picked in
  Ok (if decide (length chunk < waveform_len)%nat
      then chunk ++ replicate (waveform_len - length chunk) f0
      else chunk).

(** [align_channelwise(wf, upsample_factor)]; the parameter [n_steps] of
    the source is not used by it. *)
Definition align_channelwise (resample : list float → nat → list float)
    (wf : list (list float)) (upsample_factor : nat)
  : result (list (list float)) :=
  let waveform_len := ncols wf in
  let n_shifts := (7 * upsample_factor)%nat in
  let window := (7 * upsample_factor)%nat in
  wf_upsampled ← upsample_resample resample wf upsample_factor;
  let template := map (λ t, fl_mean (column wf t)) (seq 0 waveform_len) in
  template_rows ← upsample_resample resample [template] upsample_factor;
  template_upsampled ←
    (if decide (length (concat template_rows)
                = (upsample_factor * waveform_len)%nat)
     then Ok (concat template_rows) else Raise ValueError);
  let template_shifted :=
    shift_template template_upsampled (Z.of_nat n_shifts)
                   (Z.of_nat window) in
  shift_array ← return_shifts wf_upsampled template_shifted
                              (Z.of_nat window);
  mapR (λ p : nat * nat,
          row ← of_option IndexError (wf_upsampled !! p.1);
          aligned_chunk upsample_factor waveform_len n_shifts row p.2)
       (zip (seq 0 (length shift_array)) shift_array).

(** ** Vocabulary of the statements: alignment *)

(** [scipy.signal.resample] answers with as many samples as asked for. *)
Definition resample_ok (resample : list float → nat → list float) : Prop :=
  ∀ x n, length (resample x n) = n.

(** Entry [t] of an aligned waveform taken from offset [a] of the
    upsampled waveform [up]: the sample at position [a + k * t] when the
    upsampled waveform reaches that far, zero otherwise. *)
Definition aligned_entry (k a : nat) (up : list float) (t : nat) : float :=
  default f0 (up !! (a + k * t)%nat).

Definition aligned_row (k n a : nat) (up : list float) : list float :=
  map (aligned_entry k a up) (seq 0 n).

(** The samples of one upsampled waveform that [return_shifts] compares
    with the shifted templates. *)
Definition matching_window (window : Z) (col : list float) : list float :=
  py_slice (Z.of_nat (length col / 2)%nat - window)%Z
           (Z.of_nat (length col / 2)%nat + window)%Z col.

(** ** Chunks of a recording

    [load_waveforms_parallel] and the preprocessing [run] (stream.py) cut
    a recording of [fp_len] values on [n_channels] channels into chunks of
    [sampling_rate * n_sec_chunk] samples with the same lines of code.
    [fp_len / n_channels] is Python 3's true division; the numbers of
    [np.arange] are exact rationals here.  [None] stands for an exception
    of the arithmetic: a division by zero for [n_channels = 0] or a zero
    chunk length, an [IndexError] at [indexes[-1]] for an empty
    recording. *)

Definition Q_of_nat (n : nat) : Q := inject_Z (Z.of_nat n).

Definition Q_ceiling (q : Q) : Z := (- ((- Qnum q) / Zpos (Qden q)))%Z.

(** [np.int64] of a float: truncation towards zero. *)
Definition Q_trunc (q : Q) : Z := Z.quot (Qnum q) (Zpos (Qden q)).

(** [np.arange(0, stop, step)] *)
Definition np_arange (stop step : Q) : list Q :=
  map (λ k, (Q_of_nat k * step)%Q)
      (seq 0 (Z.to_nat (Q_ceiling (stop / step)%Q))).

Definition buffer_size : nat := 200.

(** A row of [idx_list]: start and end of the chunk in samples, the buffer
    size, and the length of the chunk plus the buffer. *)
Record chunk : Type := mk_chunk {
  idx_start : Z;
  idx_stop : Z;
  idx_local : Z;
  idx_length : Z
}.

Definition chunk_index_list (fp_len n_channels sampling_rate n_sec_chunk
                             : nat) : option (list chunk) :=
  if decide (n_channels = 0%nat) then None
  else
    let n_samples := (Q_of_nat fp_len / Q_of_nat n_channels)%Q in
    let step := (sampling_rate * n_sec_chunk)%nat in
    if decide (step = 0%nat) then None
    else
      let indexes := np_arange n_samples (Q_of_nat step) in
      last_index ← list.last indexes;
      let indexes :=
        if Qeq_bool last_index n_samples then indexes
        else indexes ++ [n_samples] in
      let idx_list :=
        map (λ p : Q * Q,
               mk_chunk (Q_trunc p.1) (Q_trunc p.2)
                        (Q_trunc (Q_of_nat buffer_size))
                        (Q_trunc (p.2 - p.1 + Q_of_nat buffer_size)%Q))
            (zip indexes (drop 1 indexes)) in
      if decide (idx_list = []) then None else Some idx_list.

(** ** Vocabulary of the statements: chunks *)

(** Chunk [k] of a recording of [n_samples] samples cut every [step]
    samples. *)
Definition chunk_at (step n_samples k : nat) : chunk :=
  let start := (k * step)%nat in
  let stop := Nat.min ((k + 1) * step) n_samples in
  mk_chunk (Z.of_nat start) (Z.of_nat stop) (Z.of_nat buffer_size)
           (Z.of_nat (stop - start + buffer_size)).

(** The number of chunks: [fp_len / (n_channels * step)], rounded up. *)
Definition chunk_count (fp_len n_channels step : nat) : nat :=
  ((fp_len + n_channels * step - 1) / (n_channels * step))%nat.

(** ** Loading waveforms: [load_waveforms_] and [load_waveforms_parallel]

    The recording file is the list of its float32 values, sample after
    sample, the channels of one sample next to each other.  [np.fromfile]
    reads from the position [seek] left; a negative position makes the
    file object raise, which is a [CollaboratorError] here.  Spike times
    are sample numbers. *)

(** [np.fromfile(fin, dtype='float32', count=count)] from the value at
    position [pos]: at most [count] values, all that is left for a
    negative [count]. *)
Definition read_values (file : list float) (pos : nat) (count : Z)
  : list float :=
  if (count <? 0)%Z then drop pos file
  else take (Z.to_nat count) (drop pos file).

(** [a.reshape(-1, n)] *)
Definition reshape_rows (n : nat) (a : list float)
  : result (list (list float)) :=
  if decide (n = 0%nat) then Raise ValueError
  else if decide ((length a mod n)%nat = 0%nat)
       then Ok (map (λ r, take n (drop (r * n) a))
                    (seq 0 (length a / n)%nat))
       else Raise ValueError.

(** [a[i]] for an integer that may be negative. *)
Definition np_get {A : Type} (a : list A) (i : Z) : result A :=
  let n := Z.of_nat (length a) in
  if ((i <? - n) || (n <=? i))%Z then Raise IndexError
  else of_option IndexError
         (a !! Z.to_nat (if (i <? 0)%Z then (i + n)%Z else i)).

(** [astype('int32')] of an integer. *)
Definition wrap_int32 (z : Z) : Z :=
  ((z + 2147483648) mod 4294967296 - 2147483648)%Z.

Definition load_waveforms_ (idx_list : chunk)
    (spike_train : list (nat * nat))
    (spike_size n_channels buffer_size : nat) (file : list float)
  : result (list (list (list float))) :=
  let data_start := idx_start idx_list in
  let data_end := idx_stop idx_list in
  let offset := idx_local idx_list in
  let expected :=
    ((data_end - data_start + Z.of_nat buffer_size * 2)
     * Z.of_nat n_channels)%Z in
  recordings_1D ←
    (if decide (data_start = 0%Z) then
       Ok (replicate (buffer_size * n_channels) f0 ++
           read_values file 0
             ((data_end + Z.of_nat buffer_size) * Z.of_nat n_channels)%Z)
     else
       let pos := ((data_start - Z.of_nat buffer_size)
                   * Z.of_nat n_channels)%Z in
       if (pos <? 0)%Z then Raise CollaboratorError
       else Ok (read_values file (Z.to_nat pos) expected));
  let recordings_1D :=
    if decide (Z.of_nat (length recordings_1D) ≠ expected)
    then recordings_1D ++ replicate (buffer_size * n_channels) f0
    else recordings_1D in
  recording ← reshape_rows n_channels recordings_1D;
  let spikes :=
    filter (λ s : nat * nat, (data_start ≤ Z.of_nat s.1 < data_end)%Z)
           spike_train in
  mapR (λ s : nat * nat,
          mapR (λ d, np_get recording
                            (wrap_int32 (Z.of_nat s.1 - data_start)
                             + offset + d)%Z)
               (seqZ (- Z.of_nat spike_size)
                     (2 * Z.of_nat spike_size + 1)))
       spikes.

(** [load_waveforms_parallel]: the chunks of the recording, the waveforms
    of each chunk ([parmap.map] and the sequential loop give them in the
    order of the chunks), and their concatenation [np.vstack].  The
    half-width of a waveform is the constant 15, the chunk length 60
    seconds. *)
Definition load_waveforms_parallel (file : list float)
    (n_channels sampling_rate : nat) (spike_train : list (nat * nat))
  : option (result (list (list (list float)))) :=
  idx_list ← chunk_index_list (length file) n_channels sampling_rate 60;
  Some (res ← mapR (λ c, load_waveforms_ c spike_train 15 n_channels
                                         buffer_size file) idx_list;
        Ok (concat res)).

(** ** Vocabulary of the statements: waveforms of a recording *)

(** Sample [z] of a recording given by its samples: the [n_channels]
    values of the sample, zeros outside the recording. *)
Definition frame_at (frames : list (list float)) (n_channels : nat) (z : Z)
  : list float :=
  if (z <? 0)%Z then replicate n_channels f0
  else default (replicate n_channels f0) (frames !! Z.to_nat z).

(** The waveform of a spike at sample [t]: the samples [t - spike_size]
    to [t + spike_size]. *)
Definition spike_window (frames : list (list float))
    (n_channels spike_size t : nat) : list (list float) :=
  map (λ d, frame_at frames n_channels (Z.of_nat t + d)%Z)
      (seqZ (- Z.of_nat spike_size) (2 * Z.of_nat spike_size + 1)).

(** The spikes of a train whose time lies in [[start, stop)]. *)
Definition spikes_between (start stop : Z) (spike_train : list (nat * nat))
  : list (nat * nat) :=
  filter (λ s : nat * nat, (start ≤ Z.of_nat s.1 < stop)%Z) spike_train.

(** The rows of the buffered recording of a chunk: [b] samples before
    the chunk, the chunk, [b] samples after it, zeros where the file has
    no sample. *)
Definition buffered (frames : list (list float)) (n b s e : nat)
    (rows : list (list float)) : Prop :=
  Forall (λ fr, length fr = n) rows ∧
  (e - s + 2 * b ≤ length rows)%nat ∧
  ∀ r, (r < e - s + 2 * b)%nat →
       rows !! r = Some (frame_at frames n (Z.of_nat s - Z.of_nat b
                                            + Z.of_nat r)).

(** The waveforms of the spikes of a train that fall into chunk [k]. *)
Definition chunk_waveforms (frames : list (list float))
    (n_channels step : nat) (spike_train : list (nat * nat)) (k : nat)
  : list (list (list float)) :=
  map (λ sp : nat * nat, spike_window frames n_channels 15 sp.1)
      (spikes_between (Z.of_nat (k * step))
                      (Z.of_nat (Nat.min ((k + 1) * step) (length frames)))
                      spike_train).

(** ** Merging two components of a sparse state, [try_merge]

    [vbParam.rhat] is the (n, 3) triplet array here.  The merge test is
    the one of [merge_move_patches]. *)

(** [np.unique]: the sorted values without repetitions. *)
Definition np_unique (l : list nat) : list nat :=
  merge_sort Nat.le (remove_dups l).

(** [rhat[rows, col] = values]: assignment through a list of row numbers.
    A row number out of range raises; of two writes to one row the later
    one stays. *)
Fixpoint scatter_column (col : nat) (writes : list (nat * float))
    (m : list (list float)) : result (list (list float)) :=
  match writes with
  | [] => Ok m
  | w :: rest =>
      row ← of_option IndexError (m !! w.1);
      scatter_column col rest (<[w.1 := <[col := w.2]> row]> m)
  end.

(** The triplets of component [k]. *)
Definition of_component (k : nat) (trip : list (nat * nat * float))
  : list (nat * nat * float) :=
  filter (λ t, comp_id t = k) trip.

(** The first half of [try_merge]: the spikes of the two components, the
    local responsibilities built from the triplets, and the answer of the
    merge test on the local two-component state. *)
Definition try_merge_answer (check_merge : merge_test) (ka kb : nat)
    (scores : list (list (list float)))
    (vbParam : vbPar (list (nat * nat * float)))
  : result (list nat * list (list float)
            * (vbPar (list (list float)) * bool)) :=
  let trip := rhat vbParam in
  let indices :=
    np_unique (map spike_id
                   (filter (λ t, comp_id t = ka ∨ comp_id t = kb) trip)) in
  let zeros := replicate (length scores) [f0; f0] in
  rhat_a ← scatter_column 0
             (map (λ t : nat * nat * float, (spike_id t, t.2))
                  (of_component ka trip)) zeros;
  rhat_b ← scatter_column 1
             (map (λ t : nat * nat * float, (spike_id t, t.2))
                  (of_component kb trip)) rhat_a;
  local_rhat ← take_indices rhat_b indices;
  local_scores ← take_indices scores indices;
  local_muhat ← of_option IndexError (pick2 (muhat vbParam) ka kb);
  local_Vhat ← of_option IndexError (pick2 (Vhat vbParam) ka kb);
  local_invVhat ← of_option IndexError (pick2 (invVhat vbParam) ka kb);
  local_nuhat ← of_option IndexError (pick2 (nuhat vbParam) ka kb);
  local_lambdahat ← of_option IndexError (pick2 (lambdahat vbParam) ka kb);
  local_ahat ← of_option IndexError (pick2 (ahat vbParam) ka kb);
  answer ← check_merge local_scores
             (mk_vbPar local_muhat local_Vhat local_invVhat local_nuhat
                       local_lambdahat local_ahat local_rhat);
  Ok (indices, local_rhat, answer).

(** [rhat[rhat[:, 1] > kb, 1] -= 1] on one triplet. *)
Definition renumber (kb : nat) (t : nat * nat * float)
  : nat * nat * float :=
  if decide (kb < comp_id t)%nat
  then (spike_id t, (comp_id t - 1)%nat, t.2) else t.

(** The triplet array after a merge: the triplets of the other
    components, renumbered, then one triplet for every spike of the two
    components. *)
Definition merged_triplets (ka kb : nat) (indices : list nat)
    (local_rhat : list (list float)) (trip : list (nat * nat * float))
  : list (nat * nat * float) :=
  map (renumber kb)
      (filter (λ t, ¬ (comp_id t = ka ∨ comp_id t = kb)) trip)
  ++ zip_with (λ n row, (n, ka, fl_sum row)) indices local_rhat.

(** The distance matrix after a merge, as in [merge_move_patches]: row
    and column [kb] go, row and column [ka] are computed anew. *)
Definition merged_maha (ka kb : nat) (muhat' : list (list float))
    (Vhat' : list (list (list float))) (nuhat' : list float)
    (local_vbParam : vbPar (list (list float))) (maha : list (list float))
  : result (list (list float)) :=
  maha1 ← of_option IndexError (delete_row_col kb maha);
  maha2 ← recompute_distances ka muhat' Vhat' nuhat' local_vbParam maha1;
  set_inf ka ka maha2.

Definition try_merge (check_merge : merge_test) (k1 k2 : nat)
    (scores : list (list (list float)))
    (vbParam : vbPar (list (nat * nat * float)))
    (maha : list (list float))
  : result (vbPar (list (nat * nat * float)) * list (list float)) :=
  let ka := Nat.min k1 k2 in
  let kb := Nat.max k1 k2 in
  '(indices, local_rhat, (local_vbParam, merged)) ←
    try_merge_answer check_merge ka kb scores vbParam;
  if merged : bool then
    muhat' ← of_option IndexError
               (replace_merged (muhat vbParam) ka kb (muhat local_vbParam));
    Vhat' ← of_option IndexError
              (replace_merged (Vhat vbParam) ka kb (Vhat local_vbParam));
    invVhat' ← of_option IndexError
                 (replace_merged (invVhat vbParam) ka kb
                                 (invVhat local_vbParam));
    nuhat' ← of_option IndexError
               (replace_merged (nuhat vbParam) ka kb (nuhat local_vbParam));
    lambdahat' ← of_option IndexError
                   (replace_merged (lambdahat vbParam) ka kb
                                   (lambdahat local_vbParam));
    ahat' ← of_option IndexError
              (replace_merged (ahat vbParam) ka kb (ahat local_vbParam));
    let rhat' := merged_triplets ka kb indices local_rhat (rhat vbParam) in
    maha' ← merged_maha ka kb muhat' Vhat' nuhat' local_vbParam maha;
    Ok (mk_vbPar muhat' Vhat' invVhat' nuhat' lambdahat' ahat' rhat', maha')
  else
    maha1 ← set_inf ka kb maha;
    maha2 ← set_inf kb ka maha1;
    Ok (vbParam, maha2).

(** ** Vocabulary of the statements: sparse responsibilities *)

(** The responsibility of spike [n] under component [k] in a triplet
    array without repeated pairs: the probability of the triplet when
    there is one, zero otherwise. *)
Definition prob_of (trip : list (nat * nat * float)) (n k : nat) : float :=
  fl_sum (map snd (filter (λ t, spike_id t = n ∧ comp_id t = k) trip)).

(** ** The channel loop of [run_cluster_features] and its output

    Two collaborators stand for the numerical part of the loop body.
    [triage_channel] is everything from the loading of the waveforms to
    the triage (feature channels, alignment, [PCA], [cKDTree]): for a
    channel and the rows [indexes] of its spikes it gives the mask
    [idx_keep1].  [mfm_channel] is the second [PCA] and [run_mfm]: it
    gives [spike_train_clustered], each cluster a list of positions in the
    kept spikes.  Either can raise. *)

(** Boolean-mask indexing [a[mask]]; the mask must be as long as [a]. *)
Definition np_mask {A : Type} (a : list A) (mask : list bool)
  : result (list A) :=
  if decide (length mask = length a) then Ok (mask_select mask a)
  else Raise IndexError.

Record features_acc : Type := mk_features_acc {
  cluster_ctr : nat;
  spike_list : list (list (Z * Z));
  acc_tmp_loc : list nat
}.

(** The (n, 2) int32 array [temp] of one cluster: the times
    [spike_index_clear[:, 0][indexes[members]]] and the cluster number. *)
Definition cluster_rows (spike_index_clear : list (nat * nat))
    (indexes : list nat) (ctr : nat) (members : list nat)
  : result (list (Z * Z)) :=
  rows ← take_indices indexes members;
  times ← take_indices (map fst spike_index_clear) rows;
  Ok (map (λ t : nat, (wrap_int32 (Z.of_nat t), wrap_int32 (Z.of_nat ctr)))
          times).

(** [for c in range(len(spike_train_clustered))] *)
Fixpoint append_clusters (spike_index_clear : list (nat * nat))
    (indexes : list nat) (channel : nat)
    (spike_train_clustered : list (list nat)) (acc : features_acc)
  : result features_acc :=
  match spike_train_clustered with
  | [] => Ok acc
  | members :: rest =>
      temp ← cluster_rows spike_index_clear indexes (cluster_ctr acc)
                          members;
      append_clusters spike_index_clear indexes channel rest
        {| cluster_ctr := S (cluster_ctr acc);
           spike_list := spike_list acc ++ [temp];
           acc_tmp_loc := acc_tmp_loc acc ++ [channel] |}
  end.

(** One iteration of [for channel in channels]. *)
Definition run_cluster_features_body
    (triage_channel : nat → list nat → result (list bool))
    (mfm_channel : nat → list bool → result (list (list nat)))
    (spike_index_clear : list (nat * nat)) (acc : features_acc)
    (channel : nat) : result features_acc :=
  let indexes := channel_rows spike_index_clear channel in
  idx_keep1 ← triage_channel channel indexes;
  indexes ← np_mask indexes idx_keep1;
  spike_train_clustered ← mfm_channel channel idx_keep1;
  append_clusters spike_index_clear indexes channel spike_train_clustered
                  acc.

Fixpoint features_loop
    (body : features_acc → nat → result features_acc)
    (channels : list nat) (acc : features_acc) : result features_acc :=
  match channels with
  | [] => Ok acc
  | c :: rest => acc' ← body acc c; features_loop body rest acc'
  end.

(** The order [np.argsort] sorts integer keys by. *)
Definition time_le (p q : nat * Z) : Prop := (p.2 ≤ q.2)%Z.

#[global] Instance time_le_dec : RelDecision time_le.
Proof. intros p q. unfold time_le. apply _. Defined.

(** [np.argsort] of integer keys; the order among equal keys is whatever
    the sort leaves. *)
Definition argsort_int (keys : list Z) : list nat :=
  map fst (merge_sort time_le (zip (seq 0 (length keys)) keys)).

(** [run_cluster_features]: the loop over the 49 channels, then
    [np.vstack], which raises on an empty list, and the rows in the order
    of their times. *)
Definition run_cluster_features
    (triage_channel : nat → list nat → result (list bool))
    (mfm_channel : nat → list bool → result (list (list nat)))
    (spike_index_clear : list (nat * nat))
  : result (list (Z * Z) * list nat) :=
  acc ← features_loop
          (run_cluster_features_body triage_channel mfm_channel
                                     spike_index_clear)
          (seq 0 49) (mk_features_acc 0 [] []);
  match spike_list acc with
  | [] => Raise ValueError
  | _ :: _ =>
      let s := concat (spike_list acc) in
      let indexes := argsort_int (map fst s) in
      spike_train_clustered ← take_indices s indexes;
      Ok (spike_train_clustered, acc_tmp_loc acc)
  end.

(** What the loop of [run_cluster_features] keeps true of its three
    accumulators: the counter is the number of clusters so far, there is
    one array and one channel per cluster, and every row of the array of
    cluster [c] is a spike of [spike_index_clear] whose main channel is
    the channel recorded for [c]. *)
Definition features_acc_ok (spike_index_clear : list (nat * nat))
    (acc : features_acc) : Prop :=
  cluster_ctr acc = length (acc_tmp_loc acc) ∧
  length (spike_list acc) = length (acc_tmp_loc acc) ∧
  Forall (λ channel, (channel < 49)%nat) (acc_tmp_loc acc) ∧
  ∀ (c : nat) (temp : list (Z * Z)) (row : Z * Z),
    spike_list acc !! c = Some temp → row ∈ temp →
    ∃ n time channel,
      spike_index_clear !! n = Some (time, channel) ∧
      acc_tmp_loc acc !! c = Some channel ∧
      row = (wrap_int32 (Z.of_nat time), wrap_int32 (Z.of_nat c)).

(** ** Concrete inputs: [try_merge] *)

(** The mixture [ex_vbParam] with its responsibilities as triplets. *)
Definition ex_sparse : vbPar (list (nat * nat * float)) :=
  {| muhat := [[fq 0 1]; [fq 1 1]; [fq 10 1]];
     Vhat := [[[f1]]; [[f1]]; [[f1]]];
     invVhat := [[[f1]]; [[f1]]; [[f1]]];
     nuhat := [f1; f1; f1];
     lambdahat := [f1; f1; f1];
     ahat := [f1; f1; f1];
     rhat := [(0, 0, f1); (1, 0, fq 1 2); (1, 1, fq 1 2); (2, 1, f1);
              (3, 2, f1)]%nat |}.

(** ** Responsibilities of the spikes under the global templates,
    [calculate_sparse_rhat]

    [update_local] stands for the [mfm] calls [maskData] and
    [vbPar.update_local]: from the scores of a channel with their mask and
    group and from the local parameters, whose [rhat] is still [None], it
    computes the dense responsibilities. *)
Abbreviation local_update :=
  (list (list (list float)) → list (list float) → list nat → vbPar unit →
   list (list float)) (only parsing).

(** [cluster_idx]: the templates located on one of the channels
    [ch_idx]. *)
Definition templates_on (ch_idx : list nat) (tmp_loc : list nat)
  : list nat :=
  where_true (map (λ loc, bool_decide (loc ∈ ch_idx)) tmp_loc).

(** [idx_data[row_idx]], [cluster_idx[col_idx]] and [val] stacked. *)
Definition relabel (idx_data cluster_idx : list nat)
    (t : nat * nat * float) : result (nat * nat * float) :=
  n ← of_option IndexError (idx_data !! spike_id t);
  k ← of_option IndexError (cluster_idx !! comp_id t);
  Ok (n, k, t.2).

(** One iteration of [for channel in range(n_channels)]. *)
Definition calculate_sparse_rhat_body {R : Type}
    (update_local : local_update) (vbParam : vbPar R) (tmp_loc : list nat)
    (scores : list (list (list float))) (spike_index : list (nat * nat))
    (neighbors : list (list bool))
    (acc : option (list (nat * nat * float))) (channel : nat)
  : result (option (list (nat * nat * float))) :=
  let idx_data := channel_rows spike_index channel in
  score ← take_indices scores idx_data;
  let n_data := length score in
  neigh ← of_option IndexError (neighbors !! channel);
  let ch_idx := where_true neigh in
  let cluster_idx := templates_on ch_idx tmp_loc in
  if decide (0 < n_data ∧ 0 < length cluster_idx)%nat then
    local_muhat ← take_indices (muhat vbParam) cluster_idx;
    local_Vhat ← take_indices (Vhat vbParam) cluster_idx;
    local_invVhat ← take_indices (invVhat vbParam) cluster_idx;
    local_nuhat ← take_indices (nuhat vbParam) cluster_idx;
    local_lambdahat ← take_indices (lambdahat vbParam) cluster_idx;
    local_ahat ← take_indices (ahat vbParam) cluster_idx;
    let local_vbParam :=
      mk_vbPar local_muhat local_Vhat local_invVhat local_nuhat
               local_lambdahat local_ahat () in
    let mask := replicate n_data [f1] in
    let group := seq 0 n_data in
    let local_rhat :=
      sparsify (update_local score mask group local_vbParam) in
    rhat_local ← mapR (relabel idx_data cluster_idx)
                      (triplets_of local_rhat);
    Ok (Some (match acc with
              | None => rhat_local
              | Some rhat => rhat ++ rhat_local
              end))
  else Ok acc.

Fixpoint sparse_rhat_loop
    (body : option (list (nat * nat * float)) → nat →
            result (option (list (nat * nat * float))))
    (channels : list nat) (acc : option (list (nat * nat * float)))
  : result (option (list (nat * nat * float))) :=
  match channels with
  | [] => Ok acc
  | c :: rest => acc' ← body acc c; sparse_rhat_loop body rest acc'
  end.

(** The result is [None] when no channel has both spikes and templates
    near it. *)
Definition calculate_sparse_rhat {R : Type}
    (update_local : local_update) (vbParam : vbPar R) (tmp_loc : list nat)
    (scores : list (list (list float))) (spike_index : list (nat * nat))
    (neighbors : list (list bool))
  : result (option (list (nat * nat * float))) :=
  n_channels ← n_channels_of spike_index;
  sparse_rhat_loop
    (calculate_sparse_rhat_body update_local vbParam tmp_loc scores
                                spike_index neighbors)
    (seq 0 n_channels) None.

(** What one channel contributes: triplets of spikes of that channel and
    of templates near it. *)
Definition channel_part (tmp_loc : list nat) (spike_index : list (nat * nat))
    (neighbors : list (list bool)) (channel : nat)
    (new : list (nat * nat * float)) : Prop :=
  NoDup (map (λ t : nat * nat * float, (spike_id t, comp_id t)) new) ∧
  ∀ t : nat * nat * float, t ∈ new →
    ∃ time loc row,
      spike_index !! spike_id t = Some (time, channel) ∧
      tmp_loc !! comp_id t = Some loc ∧
      neighbors !! channel = Some row ∧ row !! loc = Some true ∧
      fl_gt t.2 f0 = true.

(** ** Concrete inputs: [calculate_sparse_rhat] *)

(** Two channels that are neighbours of themselves only. *)
Definition ex_neighbors : list (list bool) := [[true; false]; [false; true]].

(** An update that gives every spike to the first local template. *)
Definition first_template_update : local_update :=
  λ score _ _ lv,
    map (λ _ : list (list float), f1 :: replicate (length (muhat lv) - 1) f0)
        score.

(** The three templates of [ex_vbParam]: the first on channel 0, the
    others on channel 1. *)
Definition ex_tmp_loc : list nat := [0; 1; 1]%nat.

(** ** Concrete inputs: [run_cluster_features] *)

(** A triage that keeps every spike. *)
Definition keep_all : nat → list nat → result (list bool) :=
  λ _ indexes, Ok (map (λ _, true) indexes).

(** A clustering that puts the kept spikes of a channel into one cluster,
    the last spike first, and finds no cluster on a channel without
    spikes. *)
Definition one_cluster : nat → list bool → result (list (list nat)) :=
  λ _ idx_keep1,
    Ok (match idx_keep1 with
        | [] => []
        | _ :: _ => [reverse (seq 0 (length idx_keep1))]
        end).

(* ================================================================== *)
(** * Part II: properties                                              *)
(* ================================================================== *)

(** ** Arithmetic of [float] *)

Lemma Qc_ltb_lt (a b : Qc) : Qc_ltb a b = true ↔ a < b.
Proof.
  unfold Qc_ltb. rewrite Qclt_alt. destruct (a ?= b); intuition congruence.
Qed.

Lemma Qc_ltb_ge (a b : Qc) : Qc_ltb a b = false ↔ b ≤ a.
Proof.
  rewrite Qcle_ngt, <- Qc_ltb_lt. destruct (Qc_ltb a b); intuition congruence.
Qed.

Lemma Qc_eqb_eq (a b : Qc) : Qc_eqb a b = true ↔ a = b.
Proof.
  unfold Qc_eqb. rewrite Qceq_alt. destruct (a ?= b); intuition congruence.
Qed.

Lemma Qc_eqb_neq (a b : Qc) : Qc_eqb a b = false ↔ a ≠ b.
Proof.
  rewrite <- Qc_eqb_eq. destruct (Qc_eqb a b); intuition congruence.
Qed.

Lemma fl_sum_Fin (l : list Qc) : fl_sum (map Fin l) = Fin (Qc_sum l).
Proof.
  induction l as [|q l IH]; [reflexivity|].
  unfold fl_sum in *. simpl. rewrite IH. reflexivity.
Qed.

Lemma Qc_sum_nonneg (l : list Qc) : Forall (λ q, 0 ≤ q) l → 0 ≤ Qc_sum l.
Proof.
  induction 1 as [|q l Hq _ IH]; simpl; [apply Qcle_refl|].
  by apply Qcplus_nonneg_nonneg.
Qed.

Lemma Qc_sum_ge_elem (l : list Qc) (c : Qc) :
  Forall (λ q, 0 ≤ q) l → Exists (λ q, c ≤ q) l → c ≤ Qc_sum l.
Proof.
  induction 1 as [|q l Hq Hl IH]; intros Hex; inversion Hex; subst; simpl.
  - rewrite <- (Qcplus_0_r c). apply Qcplus_le_compat; [done|].
    by apply Qc_sum_nonneg.
  - rewrite <- (Qcplus_0_l c). apply Qcplus_le_compat; [done|]. by apply IH.
Qed.

Lemma Qc_sum_div (l : list Qc) (s : Qc) :
  Qc_sum (map (λ q, q / s) l) = Qc_sum l / s.
Proof.
  induction l as [|q l IH]; simpl.
  - unfold Qcdiv. ring.
  - rewrite IH. unfold Qcdiv. ring.
Qed.

Lemma fl_sum_replicate_zero (n : nat) : fl_sum (replicate n f0) = f0.
Proof.
  induction n as [|n IH]; [reflexivity|].
  unfold fl_sum in *. simpl. rewrite IH. unfold f0. simpl.
  by rewrite Qcplus_0_l.
Qed.

(** ** Responsibility post-processing (C1) *)

Lemma zero_below_floor_all (row : list float) :
  Forall (λ x, fl_lt x rhat_floor = true) row →
  zero_below_floor row = replicate (length row) f0.
Proof.
  induction 1 as [|x row Hx _ IH]; [reflexivity|].
  unfold zero_below_floor in *. simpl. by rewrite Hx, IH.
Qed.

Lemma normalize_row_zero (n : nat) :
  normalize_row (replicate n f0) = replicate n NaN.
Proof.
  unfold normalize_row. rewrite fl_sum_replicate_zero.
  induction n as [|n IH]; [reflexivity|]. simpl. by rewrite IH.
Qed.

(** After the floor the entries of a row of probabilities are again
    non-negative rationals, and an entry that reached the floor is kept. *)
Lemma zero_below_floor_Fin (qs : list Qc) :
  Forall (λ q, 0 ≤ q) qs →
  ∃ qs', zero_below_floor (map Fin qs) = map Fin qs' ∧
         Forall (λ q, 0 ≤ q) qs' ∧
         (Exists (λ q, Q2Qc (1 # 10) ≤ q) qs →
          Exists (λ q, Q2Qc (1 # 10) ≤ q) qs').
Proof.
  induction 1 as [|q qs Hq _ (qs' & Heq & Hpos & Hex)].
  - exists []. split; [done|]. split; [constructor|]. inversion 1.
  - unfold zero_below_floor in *. simpl.
    destruct (Qc_ltb q (Q2Qc (1 # 10))) eqn:Hlt.
    + exists (0 :: qs'). rewrite Heq. split; [done|].
      split; [by constructor|].
      intros Hx. inversion Hx as [? ? Hge|]; subst.
      * apply Qc_ltb_lt in Hlt. by apply Qcle_not_lt in Hge.
      * apply Exists_cons_tl. by apply Hex.
    + exists (q :: qs'). rewrite Heq. split; [done|].
      split; [by constructor|].
      intros _. apply Exists_cons_hd. by apply Qc_ltb_ge.
Qed.

Lemma normalize_row_Fin (qs : list Qc) :
  Qc_sum qs ≠ 0 →
  normalize_row (map Fin qs) = map Fin (map (λ q, q / Qc_sum qs) qs).
Proof.
  intros Hs. unfold normalize_row. rewrite fl_sum_Fin, !map_map.
  apply map_ext. intros q. simpl.
  apply Qc_eqb_neq in Hs. by rewrite Hs.
Qed.

(** The re-normalization is an unguarded division of each row by its
    sum.  A row whose entries are all below the floor 0.1 is zeroed, has
    sum zero and comes out as a row of NaN (0/0) of the same length.  A
    row of probabilities with an entry that reaches the floor is divided
    by a non-zero sum: its entries stay finite and add up to 1. *)
Lemma sparsify_row_cases (row : list float) :
  (Forall (λ x, fl_lt x rhat_floor = true) row →
   sparsify_row row = replicate (length row) NaN) ∧
  (∀ qs : list Qc,
     row = map Fin qs →
     Forall (λ q, 0 ≤ q) qs →
     Exists (λ q, Q2Qc (1 # 10) ≤ q) qs →
     Forall (λ x, is_finite x = true) (sparsify_row row) ∧
     fl_sum (sparsify_row row) = f1).
Proof.
  split.
  - intros Hall. unfold sparsify_row.
    rewrite (zero_below_floor_all _ Hall). apply normalize_row_zero.
  - intros qs -> Hpos Hex. unfold sparsify_row.
    destruct (zero_below_floor_Fin qs Hpos) as (qs' & -> & Hpos' & Hex').
    specialize (Hex' Hex).
    assert (Hs : Q2Qc (1 # 10) ≤ Qc_sum qs') by by apply Qc_sum_ge_elem.
    assert (Hne : Qc_sum qs' ≠ 0).
    { intros H0. rewrite H0 in Hs. revert Hs. by apply Qclt_not_le. }
    rewrite (normalize_row_Fin _ Hne). split.
    + apply Forall_forall. intros x Hx. apply list_elem_of_fmap in Hx.
      by destruct Hx as (q & -> & _).
    + rewrite fl_sum_Fin, Qc_sum_div. unfold f1. f_equal.
      unfold Qcdiv. by apply Qcmult_inv_r.
Qed.

(** C1, counterexample.  The fitter answers with eleven components and is
    undecided about the first spike.  After the floor the row sum is zero,
    the division is carried out all the same, and the matrix handed to
    [clean_empty_cluster] starts with a row of NaN. *)
Lemma sparsify_divides_by_zero :
  fl_nonzero (fl_sum (zero_below_floor flat_row)) = false ∧
  sparsify [flat_row; sure_row] !! 0%nat = Some (replicate 11 NaN) ∧
  ¬ Forall (Forall (λ x, is_nan x = false)) (sparsify [flat_row; sure_row]).
Proof.
  split; [by vm_compute|]. split; [by vm_compute|].
  intros H. apply Forall_cons in H as [H _].
  apply Forall_cons in H as [H _]. vm_compute in H. discriminate.
Qed.

(** What the NaN row does next: every column sum of the matrix is NaN, no
    sum exceeds the threshold, and [clean_empty_cluster] drops all eleven
    components of the channel, the one of the second spike included. *)
Example nan_row_empties_channel :
  n_components
    (clean_empty_cluster
       (with_rhat ex_flat_vbParam (sparsify (rhat ex_flat_vbParam))) f0)
  = 0%nat.
Proof. by vm_compute. Qed.

(** ** Algebra of [fl_add] *)

Lemma fl_add_comm (x y : float) : fl_add x y = fl_add y x.
Proof. destruct x, y; simpl; try reflexivity. by rewrite Qcplus_comm. Qed.

Lemma fl_add_assoc (x y z : float) :
  fl_add x (fl_add y z) = fl_add (fl_add x y) z.
Proof. destruct x, y, z; simpl; try reflexivity. by rewrite Qcplus_assoc. Qed.

Lemma fl_add_0_l (x : float) : fl_add f0 x = x.
Proof. destruct x; simpl; try reflexivity. by rewrite Qcplus_0_l. Qed.

Lemma fl_add_0_r (x : float) : fl_add x f0 = x.
Proof. by rewrite fl_add_comm, fl_add_0_l. Qed.

Lemma fl_sum_cons (x : float) (l : list float) :
  fl_sum (x :: l) = fl_add x (fl_sum l).
Proof. reflexivity. Qed.

Lemma fl_sum_app (l1 l2 : list float) :
  fl_sum (l1 ++ l2) = fl_add (fl_sum l1) (fl_sum l2).
Proof.
  induction l1 as [|x l1 IH].
  - symmetry. apply fl_add_0_l.
  - change ((x :: l1) ++ l2) with (x :: (l1 ++ l2)).
    by rewrite !fl_sum_cons, IH, fl_add_assoc.
Qed.

Lemma fl_sum_zip_add (l1 l2 : list float) :
  length l1 = length l2 →
  fl_sum (zip_with fl_add l1 l2) = fl_add (fl_sum l1) (fl_sum l2).
Proof.
  revert l2. induction l1 as [|x l1 IH]; intros [|y l2] Hlen; try done.
  change (zip_with fl_add (x :: l1) (y :: l2))
    with (fl_add x y :: zip_with fl_add l1 l2).
  rewrite !fl_sum_cons, IH by (simpl in Hlen; lia).
  rewrite <- !fl_add_assoc. f_equal.
  rewrite !fl_add_assoc. f_equal. apply fl_add_comm.
Qed.

(** ** The result monad *)

Lemma bind_Ok {A B : Type} (r : result A) (k : A → result B) (b : B) :
  r ≫= k = Ok b → ∃ a, r = Ok a ∧ k a = Ok b.
Proof. destruct r as [a|e]; [eauto|discriminate]. Qed.

Lemma of_option_Ok {A : Type} (e : error) (o : option A) (a : A) :
  of_option e o = Ok a → o = Some a.
Proof. destruct o; simpl; congruence. Qed.

(** Peels the outermost binds of a successful computation. *)
Ltac inv_bind H :=
  repeat match type of H with
  | _ ≫= _ = Ok _ =>
      let a := fresh "a" in
      let Ha := fresh "Ha" in
      apply bind_Ok in H as (a & Ha & H);
      try apply of_option_Ok in Ha
  end.

(** ** An accepted merge (C2) *)

Lemma replace_merged_spec {A : Type} (a : list A) (ka kb : nat)
    (merged a' : list A) :
  replace_merged a ka kb merged = Some a' →
  ∃ v, merged !! 0%nat = Some v ∧ merged_array ka kb v a a'.
Proof.
  unfold replace_merged. intros H.
  destruct (a !! kb) as [x|] eqn:Hkb; [|discriminate]. simpl in H.
  destruct (merged !! 0%nat) as [v|] eqn:Hv; [|discriminate]. simpl in H.
  destruct (delete kb a !! ka) as [y|] eqn:Hka; [|discriminate]. simpl in H.
  injection H as <-. exists v. split; [done|].
  apply lookup_lt_Some in Hkb, Hka. repeat split.
  - rewrite length_insert, length_delete by (by apply lookup_lt_is_Some). lia.
  - by apply list_lookup_insert_eq.
  - intros j Hj. rewrite list_lookup_insert_ne by done.
    apply list_lookup_delete.
Qed.

Lemma merge_row_spec (ka kb : nat) (row row' : list float) :
  (ka < kb)%nat →
  merge_row ka kb row = Some row' →
  ∃ a b, row !! ka = Some a ∧ row !! kb = Some b ∧
         merged_array ka kb (fl_add a b) row row'.
Proof.
  unfold merge_row. intros Hlt H.
  destruct (row !! ka) as [a|] eqn:Hka; [|discriminate]. simpl in H.
  destruct (row !! kb) as [b|] eqn:Hkb; [|discriminate]. simpl in H.
  injection H as <-. exists a, b. do 2 (split; [done|]).
  apply lookup_lt_Some in Hkb as Hkb', Hka as Hka'. repeat split.
  - rewrite length_delete, length_insert; [lia|].
    apply lookup_lt_is_Some. by rewrite length_insert.
  - rewrite list_lookup_delete_lt by done. by apply list_lookup_insert_eq.
  - intros j Hj. rewrite list_lookup_delete.
    destruct (decide (j < kb)%nat).
    + by rewrite list_lookup_insert_ne.
    + rewrite list_lookup_insert_ne by lia. done.
Qed.

Lemma column_cons (row : list float) (m : mat) (k : nat) (x : float) :
  row !! k = Some x → column (row :: m) k = x :: column m k.
Proof. intros H. unfold column. simpl. by rewrite H. Qed.

Lemma merged_column_mass (ka kb : nat) (m m' : mat) :
  Forall2 (λ row row', ∃ a b, row !! ka = Some a ∧ row !! kb = Some b ∧
                              merged_array ka kb (fl_add a b) row row') m m' →
  fl_sum (column m' ka) =
  fl_add (fl_sum (column m ka)) (fl_sum (column m kb)).
Proof.
  induction 1 as [|row row' m m' (a & b & Ha & Hb & _ & Hab & _) _ IH].
  - symmetry. apply fl_add_0_l.
  - rewrite (column_cons _ _ _ _ Ha), (column_cons _ _ _ _ Hb),
      (column_cons _ _ _ _ Hab), !fl_sum_cons, IH.
    rewrite <- !fl_add_assoc. f_equal.
    rewrite !fl_add_assoc. f_equal. apply fl_add_comm.
Qed.

Lemma merge_iteration_accept (check_merge : merge_test)
    (scores : list feature) (s : merge_state) (i : nat) (lv : vbPar mat) :
  merge_answer check_merge scores s i = Ok (lv, true) →
  merge_iteration check_merge scores s i =
  accept_merge s (Nat.min (ms_cluster s) i) (Nat.max (ms_cluster s) i) lv.
Proof. intros H. unfold merge_iteration. by rewrite H. Qed.

Lemma merge_iteration_reject (check_merge : merge_test)
    (scores : list feature) (s : merge_state) (i : nat) (lv : vbPar mat) :
  merge_answer check_merge scores s i = Ok (lv, false) →
  merge_iteration check_merge scores s i =
  reject_merge s (Nat.min (ms_cluster s) i) (Nat.max (ms_cluster s) i).
Proof. intros H. unfold merge_iteration. by rewrite H. Qed.

(** What [accept_merge] leaves behind, array by array. *)
Lemma accept_merge_arrays (s s' : merge_state) (ka kb : nat)
    (lv : vbPar mat) :
  accept_merge s ka kb lv = Ok s' →
  ms_cluster s' = ka ∧
  replace_merged (muhat (ms_vbParam s)) ka kb (muhat lv)
    = Some (muhat (ms_vbParam s')) ∧
  replace_merged (Vhat (ms_vbParam s)) ka kb (Vhat lv)
    = Some (Vhat (ms_vbParam s')) ∧
  replace_merged (invVhat (ms_vbParam s)) ka kb (invVhat lv)
    = Some (invVhat (ms_vbParam s')) ∧
  replace_merged (nuhat (ms_vbParam s)) ka kb (nuhat lv)
    = Some (nuhat (ms_vbParam s')) ∧
  replace_merged (lambdahat (ms_vbParam s)) ka kb (lambdahat lv)
    = Some (lambdahat (ms_vbParam s')) ∧
  replace_merged (ahat (ms_vbParam s)) ka kb (ahat lv)
    = Some (ahat (ms_vbParam s')) ∧
  mapM (merge_row ka kb) (rhat (ms_vbParam s)) = Some (rhat (ms_vbParam s')).
Proof.
  unfold accept_merge. intros H. inv_bind H.
  injection H as <-. simpl. by repeat split.
Qed.

(** C2.  When the merge test accepts the pair made of the anchor and the
    candidate [i], with [ka] the smaller and [kb] the larger index: each of
    [muhat], [Vhat], [invVhat], [nuhat], [lambdahat] and [ahat] loses its
    entry [kb] and carries the merged parameter at [ka]; every row of
    [rhat] loses column [kb] and holds at [ka] the sum of its former
    entries [ka] and [kb]; the number of components drops by exactly one;
    and the mass of the surviving column is the sum of the two masses. *)
Theorem accepted_merge_updates (check_merge : merge_test)
    (scores : list feature) (s s' : merge_state) (i : nat)
    (lv : vbPar mat) :
  ms_cluster s ≠ i →
  merge_answer check_merge scores s i = Ok (lv, true) →
  merge_iteration check_merge scores s i = Ok s' →
  let ka := Nat.min (ms_cluster s) i in
  let kb := Nat.max (ms_cluster s) i in
  let vb := ms_vbParam s in
  let vb' := ms_vbParam s' in
  (∃ mu V iV nu lam a,
     muhat lv !! 0%nat = Some mu ∧ Vhat lv !! 0%nat = Some V ∧
     invVhat lv !! 0%nat = Some iV ∧ nuhat lv !! 0%nat = Some nu ∧
     lambdahat lv !! 0%nat = Some lam ∧ ahat lv !! 0%nat = Some a ∧
     merged_array ka kb mu (muhat vb) (muhat vb') ∧
     merged_array ka kb V (Vhat vb) (Vhat vb') ∧
     merged_array ka kb iV (invVhat vb) (invVhat vb') ∧
     merged_array ka kb nu (nuhat vb) (nuhat vb') ∧
     merged_array ka kb lam (lambdahat vb) (lambdahat vb') ∧
     merged_array ka kb a (ahat vb) (ahat vb')) ∧
  Forall2 (λ row row', ∃ a b, row !! ka = Some a ∧ row !! kb = Some b ∧
                              merged_array ka kb (fl_add a b) row row')
          (rhat vb) (rhat vb') ∧
  n_components vb = S (n_components vb') ∧
  fl_sum (column (rhat vb') ka) =
  fl_add (fl_sum (column (rhat vb) ka)) (fl_sum (column (rhat vb) kb)).
Proof.
  intros Hne Hans Hit ka kb vb vb'.
  rewrite (merge_iteration_accept _ _ _ _ _ Hans) in Hit.
  apply accept_merge_arrays in Hit
    as (_ & Hmu & HV & HiV & Hnu & Hlam & Ha & Hr).
  apply replace_merged_spec in Hmu as (mu & ? & Hmu).
  apply replace_merged_spec in HV as (V & ? & HV).
  apply replace_merged_spec in HiV as (iV & ? & HiV).
  apply replace_merged_spec in Hnu as (nu & ? & Hnu).
  apply replace_merged_spec in Hlam as (lam & ? & Hlam).
  apply replace_merged_spec in Ha as (a & ? & Ha).
  assert (Hrows : Forall2
            (λ row row', ∃ a b, row !! ka = Some a ∧ row !! kb = Some b ∧
                                merged_array ka kb (fl_add a b) row row')
            (rhat vb) (rhat vb')).
  { apply mapM_Some in Hr. eapply Forall2_impl; [exact Hr|].
    intros row row' Hrow. apply merge_row_spec; [|done].
    subst ka kb. lia. }
  split; [by exists mu, V, iV, nu, lam, a|].
  split; [done|]. split.
  - unfold n_components. by destruct Hmu as [Hlen _].
  - by apply merged_column_mass.
Qed.

Lemma accepted_merge_updates_witness :
  let s' := state_or ex_state_01
                     (merge_iteration accept_near ex_scores ex_state_01 1) in
  n_components (ms_vbParam ex_state_01) = S (n_components (ms_vbParam s')) ∧
  fl_sum (column (rhat (ms_vbParam s')) 0) =
  fl_add (fl_sum (column (rhat (ms_vbParam ex_state_01)) 0))
         (fl_sum (column (rhat (ms_vbParam ex_state_01)) 1)).
Proof.
  intros s'.
  apply (accepted_merge_updates accept_near ex_scores ex_state_01 s' 1
           (merged_local
              (mk_vbPar [[fq 0 1]; [fq 1 1]] [[[f1]]; [[f1]]]
                        [[[f1]]; [[f1]]] [f1; f1] [f1; f1] [f1; f1]
                        [[f1; f0]; [fq 1 2; fq 1 2]; [f0; f1]]))).
  - simpl. lia.
  - vm_compute. reflexivity.
  - vm_compute. reflexivity.
Defined.

(** ** The distance matrix (C4) *)

Lemma map_fmap {A B : Type} (f : A → B) (l : list A) : map f l = f <$> l.
Proof. reflexivity. Qed.

Lemma broadcast2_length {A B C : Type} (f : A → B → C) (a : list A)
    (b : list B) (l : list C) :
  broadcast2 f a b = Ok l →
  length l = length a ∧ (length b = length a ∨ length b = 1%nat) ∨
  length l = length b ∧ length a = 1%nat.
Proof.
  unfold broadcast2. intros H.
  destruct a as [|x [|x' a]]; destruct b as [|y [|y' b]];
    simpl in H; try discriminate;
    try (destruct (decide _) as [e|]; [|discriminate]);
    injection H as <-; simpl in *;
    rewrite ?length_map, ?length_zip_with; simpl; lia.
Qed.

Lemma broadcast2_Forall {A B C : Type} (f : A → B → C) (P : C → Prop)
    (a : list A) (b : list B) (l : list C) :
  broadcast2 f a b = Ok l → (∀ x y, P (f x y)) → Forall P l.
Proof.
  unfold broadcast2. intros H Hf.
  assert (Hmap1 : ∀ x, Forall P (map (f x) b)).
  { intros x. apply Forall_forall. intros z Hz.
    apply list_elem_of_fmap in Hz as (y & -> & _). apply Hf. }
  assert (Hmap2 : ∀ y, Forall P (map (λ x, f x y) a)).
  { intros y. apply Forall_forall. intros z Hz.
    apply list_elem_of_fmap in Hz as (x & -> & _). apply Hf. }
  assert (Hzip : Forall P (zip_with f a b)).
  { apply Forall_forall. intros z Hz.
    apply elem_of_zip_with in Hz as (x & y & -> & _ & _). apply Hf. }
  destruct a as [|x [|x' a]]; destruct b as [|y [|y' b]];
    try discriminate;
    try (destruct (decide _) as [e|]; [|discriminate]);
    injection H as <-;
    first [exact (Hmap1 _) | exact (Hmap2 _) | exact Hzip].
Qed.

(** The product of [calculate_maha_clusters] is square as soon as the
    state does not hold exactly one mean. *)
Lemma maha_product_shape {R : Type} (vb : vbPar R) (m : mat) :
  maha_product vb = Ok m → length (muhat vb) ≠ 1%nat →
  length m = length (muhat vb) ∧
  Forall (λ row, length row = length (muhat vb)) m.
Proof.
  unfold maha_product. intros H Hne.
  apply bind_Ok in H as (precs & _ & H). split.
  - apply broadcast2_length in H as [[? [?|?]]|[? _]]; lia.
  - eapply broadcast2_Forall; [exact H|]. intros P mu_i. simpl.
    apply length_map.
Qed.

Lemma calculate_maha_clusters_Ok {R : Type} (np : squeeze_rule)
    (vb : vbPar R) (maha : mat) :
  calculate_maha_clusters np vb = Ok maha →
  np = squeeze_fallback ∧ length (muhat vb) ≠ 1%nat ∧
  ∃ m, maha_product vb = Ok m ∧
       maha = imap (λ i (row : list float), <[i := PInf]> row) m.
Proof.
  unfold calculate_maha_clusters. intros H.
  apply bind_Ok in H as (m & Hm & H). destruct np; [|discriminate].
  destruct (decide _) as [|Hne]; [discriminate|]. injection H as <-.
  split; [done|]. split; [done|]. by exists m.
Qed.

Lemma calculate_maha_clusters_diag {R : Type} (np : squeeze_rule)
    (vb : vbPar R) (maha : mat) :
  calculate_maha_clusters np vb = Ok maha → diag_inf maha.
Proof.
  intros H. apply calculate_maha_clusters_Ok in H
    as (_ & Hne & m & Hm & ->).
  destruct (maha_product_shape vb m Hm Hne) as [Hlen Hrows].
  intros i row Hrow. rewrite list_lookup_imap in Hrow.
  destruct (m !! i) as [r|] eqn:Hr; [|discriminate].
  simpl in Hrow. injection Hrow as <-.
  apply list_lookup_insert_eq.
  eapply Forall_lookup_1 in Hrows; [|exact Hr]. simpl in Hrows.
  apply lookup_lt_Some in Hr. lia.
Qed.

Lemma delete_row_col_diag (kb : nat) (maha m1 : mat) :
  diag_inf maha → delete_row_col kb maha = Some m1 → diag_inf m1.
Proof.
  unfold delete_row_col. intros Hd H.
  destruct (mapM _ maha) as [rows|] eqn:Hrows; [|discriminate]. simpl in H.
  destruct (rows !! kb); [|discriminate]. simpl in H. injection H as <-.
  apply mapM_Some in Hrows.
  intros i row' Hi. rewrite list_lookup_delete in Hi.
  destruct (Forall2_lookup_r _ _ _ _ _ Hrows Hi) as (row & Hrow & Hf).
  destruct (row !! kb); [|discriminate]. simpl in Hf. injection Hf as <-.
  rewrite list_lookup_delete.
  destruct (decide (i < kb)%nat); by apply Hd.
Qed.

Lemma delete_row_col_weaken (ka : nat) (maha : mat) :
  diag_inf maha → diag_inf_except ka maha.
Proof. intros Hd i row _. apply Hd. Qed.

Lemma broadcast_to_length (n : nat) (v new : vec) :
  broadcast_to n v = Ok new → length new = n.
Proof.
  unfold broadcast_to. intros H.
  destruct v as [|x [|y v]].
  - destruct (decide _) as [e|]; [|discriminate]. by injection H as <-.
  - injection H as <-. apply length_replicate.
  - destruct (decide _) as [e|]; [|discriminate]. by injection H as <-.
Qed.

Lemma set_row_diag (ka : nat) (v : vec) (m m' : mat) :
  set_row ka v m = Ok m' → diag_inf_except ka m → diag_inf_except ka m'.
Proof.
  unfold set_row. intros H Hd. inv_bind H. injection H as <-.
  intros i row Hne Hi. rewrite list_lookup_insert_ne in Hi by done.
  by apply Hd.
Qed.

Lemma set_col_diag (ka : nat) (v : vec) (m m' : mat) :
  set_col ka v m = Ok m' → diag_inf_except ka m → diag_inf_except ka m'.
Proof.
  unfold set_col. intros H Hd. inv_bind H. injection H as <-.
  intros i row Hne Hi.
  apply lookup_zip_with_Some in Hi as (r & x & -> & Hr & _).
  rewrite list_lookup_insert_ne by done. by apply Hd.
Qed.

Lemma set_inf_lookup (a b : nat) (m m' : mat) :
  set_inf a b m = Ok m' →
  ∃ row, m !! a = Some row ∧ (b < length row)%nat ∧
         m' = <[a := <[b := PInf]> row]> m.
Proof.
  unfold set_inf. intros H. inv_bind H. injection H as <-.
  eexists. split; [done|]. split; [|done]. by eapply lookup_lt_Some.
Qed.

Lemma set_inf_diag_close (ka : nat) (m m' : mat) :
  set_inf ka ka m = Ok m' → diag_inf_except ka m → diag_inf m'.
Proof.
  intros H Hd. apply set_inf_lookup in H as (row & Hrow & Hlen & ->).
  intros i r Hi. destruct (decide (i = ka)) as [->|Hne].
  - rewrite list_lookup_insert_eq in Hi by (by eapply lookup_lt_Some).
    injection Hi as <-. by apply list_lookup_insert_eq.
  - rewrite list_lookup_insert_ne in Hi by done. by apply Hd.
Qed.

Lemma set_inf_diag (a b : nat) (m m' : mat) :
  set_inf a b m = Ok m' → diag_inf m → diag_inf m'.
Proof.
  intros H Hd. apply set_inf_lookup in H as (row & Hrow & Hlen & ->).
  intros i r Hi. destruct (decide (a = i)) as [->|Hne].
  - rewrite list_lookup_insert_eq in Hi by (by eapply lookup_lt_Some).
    injection Hi as <-. destruct (decide (b = i)) as [->|Hb].
    + by apply list_lookup_insert_eq.
    + rewrite list_lookup_insert_ne by done. by apply Hd.
  - rewrite list_lookup_insert_ne in Hi by done. by apply Hd.
Qed.

(** Writing +infinity into one cell keeps every +infinity there is. *)
Lemma set_inf_keeps (a b : nat) (m m' : mat) (c d : nat) :
  set_inf a b m = Ok m' →
  maha_at m c d = Some PInf → maha_at m' c d = Some PInf.
Proof.
  intros H Hcd. apply set_inf_lookup in H as (row & Hrow & Hlen & ->).
  unfold maha_at in *.
  destruct (m !! c) as [r|] eqn:Hc; [|discriminate]. simpl in Hcd.
  destruct (decide (a = c)) as [->|Hne].
  - rewrite list_lookup_insert_eq by (by eapply lookup_lt_Some). simpl.
    assert (r = row) as -> by congruence.
    destruct (decide (b = d)) as [->|Hb].
    + by apply list_lookup_insert_eq.
    + by rewrite list_lookup_insert_ne.
  - rewrite list_lookup_insert_ne by done. by rewrite Hc.
Qed.

Lemma set_inf_sets (a b : nat) (m m' : mat) :
  set_inf a b m = Ok m' → maha_at m' a b = Some PInf.
Proof.
  intros H. apply set_inf_lookup in H as (row & Hrow & Hlen & ->).
  unfold maha_at.
  rewrite list_lookup_insert_eq by (by eapply lookup_lt_Some). simpl.
  by apply list_lookup_insert_eq.
Qed.

Lemma recompute_distances_diag (ka : nat) (muhat' : list vec)
    (Vhat' : list mat) (nuhat' : list float) (lv : vbPar mat)
    (m m' : mat) :
  recompute_distances ka muhat' Vhat' nuhat' lv m = Ok m' →
  diag_inf_except ka m → diag_inf_except ka m'.
Proof.
  unfold recompute_distances. intros H Hd. inv_bind H.
  eapply set_col_diag; [eassumption|].
  eapply set_row_diag; eassumption.
Qed.

Lemma accept_merge_diag (s s' : merge_state) (ka kb : nat)
    (lv : vbPar mat) :
  diag_inf (ms_maha s) → accept_merge s ka kb lv = Ok s' →
  diag_inf (ms_maha s').
Proof.
  unfold accept_merge. intros Hd H. inv_bind H. injection H as <-. simpl.
  eapply set_inf_diag_close; [eassumption|].
  eapply recompute_distances_diag; [eassumption|].
  apply delete_row_col_weaken.
  eapply delete_row_col_diag; eassumption.
Qed.

Lemma reject_merge_maha (s s' : merge_state) (ka kb : nat) :
  reject_merge s ka kb = Ok s' →
  (diag_inf (ms_maha s) → diag_inf (ms_maha s')) ∧
  maha_at (ms_maha s') ka kb = Some PInf ∧
  maha_at (ms_maha s') kb ka = Some PInf ∧
  (∀ a b, maha_at (ms_maha s) a b = Some PInf →
          maha_at (ms_maha s') a b = Some PInf).
Proof.
  unfold reject_merge. intros H. inv_bind H. injection H as <-. simpl.
  repeat split.
  - intros Hd. eapply set_inf_diag; [eassumption|].
    eapply set_inf_diag; eassumption.
  - eapply set_inf_keeps; [eassumption|]. eapply set_inf_sets; eassumption.
  - eapply set_inf_sets; eassumption.
  - intros c d Hcd. eapply set_inf_keeps; [eassumption|].
    eapply set_inf_keeps; eassumption.
Qed.

Lemma merge_iteration_diag (check_merge : merge_test)
    (scores : list feature) (s s' : merge_state) (i : nat) :
  diag_inf (ms_maha s) →
  merge_iteration check_merge scores s i = Ok s' →
  diag_inf (ms_maha s').
Proof.
  unfold merge_iteration. intros Hd H.
  apply bind_Ok in H as ([lv merged] & _ & H). destruct merged.
  - by eapply accept_merge_diag.
  - by eapply reject_merge_maha.
Qed.

Lemma merge_loop_diag (fuel : nat) (check_merge : merge_test)
    (scores : list feature) (s s' : merge_state) :
  diag_inf (ms_maha s) →
  merge_loop fuel check_merge scores s = Some (Ok s') →
  diag_inf (ms_maha s').
Proof.
  revert s. induction fuel as [|fuel IH]; intros s Hd H; simpl in H.
  - destruct (list.last (ms_neigh s)); [discriminate|].
    by injection H as <-.
  - destruct (list.last (ms_neigh s)) as [i|]; [|by injection H as <-].
    destruct (merge_iteration check_merge scores s i) as [s1|] eqn:Hit;
      [|discriminate].
    eapply IH; [|exact H]. by eapply merge_iteration_diag.
Qed.

(** C4 (amended).  The diagonal of the distance matrix is +infinity in
    whatever [calculate_maha_clusters] returns, after every pass of the
    merge loop and at the end of the loop.  A rejection sets both directional entries of the
    pair to +infinity and leaves every entry that is +infinity as it is.
    An accepted merge recomputes the row and the column of the surviving
    index, and nothing is promised for the entries it rewrites. *)
Theorem maha_diagonal_and_rejections :
  (∀ (R : Type) (np : squeeze_rule) (vb : vbPar R) (maha : mat),
     calculate_maha_clusters np vb = Ok maha → diag_inf maha) ∧
  (∀ check_merge scores s s' i,
     diag_inf (ms_maha s) →
     merge_iteration check_merge scores s i = Ok s' →
     diag_inf (ms_maha s')) ∧
  (∀ fuel check_merge scores s s',
     diag_inf (ms_maha s) →
     merge_loop fuel check_merge scores s = Some (Ok s') →
     diag_inf (ms_maha s')) ∧
  (∀ check_merge scores s s' i lv,
     merge_answer check_merge scores s i = Ok (lv, false) →
     merge_iteration check_merge scores s i = Ok s' →
     let ka := Nat.min (ms_cluster s) i in
     let kb := Nat.max (ms_cluster s) i in
     maha_at (ms_maha s') ka kb = Some PInf ∧
     maha_at (ms_maha s') kb ka = Some PInf ∧
     ∀ a b, maha_at (ms_maha s) a b = Some PInf →
            maha_at (ms_maha s') a b = Some PInf).
Proof.
  split; [intros R np vb maha; apply calculate_maha_clusters_diag|].
  split; [intros; by eapply merge_iteration_diag|].
  split; [intros; by eapply merge_loop_diag|].
  intros check_merge scores s s' i lv Hans Hit ka kb.
  rewrite (merge_iteration_reject _ _ _ _ _ Hans) in Hit.
  apply reject_merge_maha in Hit as (_ & H1 & H2 & H3). auto.
Qed.

Lemma maha_diagonal_and_rejections_witness :
  calculate_maha_clusters squeeze_fallback ex_vbParam
  = Ok (ms_maha ex_state_012) ∧
  diag_inf (ms_maha ex_state_012) ∧
  diag_inf (ms_maha ex_state_after_1) ∧
  maha_at (ms_maha ex_state_after_1) 0 2 = Some PInf ∧
  maha_at (ms_maha ex_state_after_1) 2 0 = Some PInf.
Proof.
  destruct maha_diagonal_and_rejections as (Hinit & Hiter & _ & Hrej).
  assert (Hc : calculate_maha_clusters squeeze_fallback ex_vbParam
               = Ok (ms_maha ex_state_012)) by reflexivity.
  assert (Hd : diag_inf (ms_maha ex_state_012)) by exact (Hinit _ _ _ _ Hc).
  split; [exact Hc|]. split; [exact Hd|]. split.
  - apply (Hiter accept_near ex_scores ex_state_012 ex_state_after_1 2%nat Hd).
    vm_compute. reflexivity.
  - destruct (Hrej accept_near ex_scores ex_state_012 ex_state_after_1 2%nat
                (mk_vbPar [[fq 0 1]; [fq 10 1]] [[[f1]]; [[f1]]]
                          [[[f1]]; [[f1]]] [f1; f1] [f1; f1] [f1; f1]
                          [[f1; f0]; [fq 1 2; f0]; [f0; f1]]))
      as (H1 & H2 & _).
    + vm_compute. reflexivity.
    + vm_compute. reflexivity.
    + split; [exact H1|exact H2].
Defined.

(** C4, counterexample.  Anchor 0 with candidates 1 and 2 and means 0, 1
    and 10.  The first pass rejects the pair (0, 2) and sets both its
    entries to +infinity.  The second pass merges (0, 1): component 2
    becomes index 1, the row and the column of index 0 are recomputed, and
    both entries of the pair rejected in the first pass are finite again
    when the loop returns. *)
Lemma rejected_pair_finite_again :
  (∃ lv, merge_answer accept_near ex_scores ex_state_012 2
         = Ok (lv, false)) ∧
  maha_at (ms_maha ex_state_after_1) 0 2 = Some PInf ∧
  maha_at (ms_maha ex_state_after_1) 2 0 = Some PInf ∧
  ms_cluster ex_state_after_2 = 0%nat ∧
  muhat (ms_vbParam ex_state_after_2) !! 1%nat = muhat ex_vbParam !! 2%nat ∧
  is_finite <$> maha_at (ms_maha ex_state_after_2) 0 1 = Some true ∧
  is_finite <$> maha_at (ms_maha ex_state_after_2) 1 0 = Some true ∧
  merge_loop 2 accept_near ex_scores ex_state_012
  = Some (Ok ex_state_after_2).
Proof.
  split; [eexists; vm_compute; reflexivity|].
  repeat split; vm_compute; reflexivity.
Qed.

(** ** Failure of the merge test (C6) *)

Lemma reject_merge_state (s s' : merge_state) (ka kb : nat) :
  reject_merge s ka kb = Ok s' →
  ms_cluster s' = ms_cluster s ∧
  ms_neigh s' = removelast (ms_neigh s) ∧
  ms_vbParam s' = ms_vbParam s.
Proof.
  unfold reject_merge. intros H. inv_bind H. by injection H as <-.
Qed.

(** C6 (amended).  The loop body has no handler around the merge test.
    If the test (or the preparation of its arguments) raises, the loop
    stops at once with that error.  If it answers [merged = True] the
    answer is applied as a merge whatever values it holds.  Only the
    answer [merged = False] marks both directional distances of the pair
    infinite, drops the candidate from the queue, leaves the anchor and
    the mixture unchanged and lets the loop go on with the candidates
    that remain. *)
Theorem merge_test_not_guarded (check_merge : merge_test)
    (scores : list feature) (s : merge_state) (i : nat) (fuel : nat) :
  list.last (ms_neigh s) = Some i →
  (∀ e, merge_answer check_merge scores s i = Raise e →
        merge_loop (S fuel) check_merge scores s = Some (Raise e)) ∧
  (∀ lv, merge_answer check_merge scores s i = Ok (lv, true) →
         merge_iteration check_merge scores s i =
         accept_merge s (Nat.min (ms_cluster s) i)
                        (Nat.max (ms_cluster s) i) lv) ∧
  (∀ lv s', merge_answer check_merge scores s i = Ok (lv, false) →
            merge_iteration check_merge scores s i = Ok s' →
            maha_at (ms_maha s') (Nat.min (ms_cluster s) i)
                    (Nat.max (ms_cluster s) i) = Some PInf ∧
            maha_at (ms_maha s') (Nat.max (ms_cluster s) i)
                    (Nat.min (ms_cluster s) i) = Some PInf ∧
            ms_cluster s' = ms_cluster s ∧
            ms_neigh s' = removelast (ms_neigh s) ∧
            ms_vbParam s' = ms_vbParam s ∧
            merge_loop (S fuel) check_merge scores s =
            merge_loop fuel check_merge scores s').
Proof.
  intros Hlast. split; [|split].
  - intros e He. simpl. rewrite Hlast. unfold merge_iteration.
    by rewrite He.
  - intros lv. apply merge_iteration_accept.
  - intros lv s' Hans Hit.
    assert (Hloop : merge_loop (S fuel) check_merge scores s =
                    merge_loop fuel check_merge scores s').
    { simpl. by rewrite Hlast, Hit. }
    rewrite (merge_iteration_reject _ _ _ _ _ Hans) in Hit.
    destruct (reject_merge_state _ _ _ _ Hit) as (Hc & Hq & Hv).
    apply reject_merge_maha in Hit as (_ & H1 & H2 & _).
    by repeat split.
Qed.

Lemma merge_test_not_guarded_witness :
  merge_loop 3 failing_test ex_scores ex_state_012
  = Some (Raise CollaboratorError) ∧
  ms_neigh ex_state_after_1 = removelast (ms_neigh ex_state_012) ∧
  merge_loop 3 accept_near ex_scores ex_state_012 =
  merge_loop 2 accept_near ex_scores ex_state_after_1.
Proof.
  split.
  - apply (proj1 (merge_test_not_guarded failing_test ex_scores
                    ex_state_012 2 2 eq_refl)).
    reflexivity.
  - destruct (proj2 (proj2 (merge_test_not_guarded accept_near ex_scores
                              ex_state_012 2 2 eq_refl))
                (mk_vbPar [[fq 0 1]; [fq 10 1]] [[[f1]]; [[f1]]]
                          [[[f1]]; [[f1]]] [f1; f1] [f1; f1] [f1; f1]
                          [[f1; f0]; [fq 1 2; f0]; [f0; f1]])
                ex_state_after_1)
      as (_ & _ & _ & Hq & _ & Hloop).
    + vm_compute. reflexivity.
    + vm_compute. reflexivity.
    + split; [exact Hq|exact Hloop].
Defined.

(** C6, counterexample.  With a merge test that raises, the engine ends
    with that error on the first candidate: the pair is not marked and the
    second candidate is never tested.  With a merge test that answers
    [merged = True] and a state of NaN, the answer is taken as a merge: the
    NaN parameters are written at the surviving index, the component count
    drops, and the distances of the survivor are NaN instead of
    +infinity. *)
Lemma merge_test_failure_not_rejected :
  merge_move_patches 10 0 [1; 2]%nat ex_scores ex_vbParam ex_maha
                     failing_test
  = Some (Raise CollaboratorError) ∧
  ∃ vb maha,
    merge_move_patches 10 0 [1; 2]%nat ex_scores ex_vbParam ex_maha nan_test
    = Some (Ok (vb, maha)) ∧
    n_components vb = 2%nat ∧
    muhat vb !! 0%nat = Some [NaN] ∧
    maha_at maha 0 1 = Some NaN.
Proof.
  split; [vm_compute; reflexivity|].
  eexists _, _. split; [vm_compute; reflexivity|].
  repeat split.
Qed.

(** ** Index helpers *)

Lemma length_omap_le {A B : Type} (f : A → option B) (l : list A) :
  (length (omap f l) ≤ length l)%nat.
Proof.
  induction l as [|x l IH]; [done|].
  change (omap f (x :: l))
    with (match f x with Some y => y :: omap f l | None => omap f l end).
  destruct (f x); simpl; lia.
Qed.

Lemma length_where_true (mask : list bool) :
  (length (where_true mask) ≤ length mask)%nat.
Proof.
  unfold where_true. etrans; [apply length_omap_le|].
  rewrite length_zip, length_seq. lia.
Qed.

Lemma elem_of_where_true (mask : list bool) (i : nat) :
  i ∈ where_true mask ↔ mask !! i = Some true.
Proof.
  unfold where_true. rewrite list_elem_of_omap. split.
  - intros ([j b] & Hin & Hf). simpl in Hf.
    destruct b; [|discriminate]. injection Hf as ->.
    apply list_elem_of_lookup in Hin as [k Hk].
    apply lookup_zip_with_Some in Hk as (x & y & Heq & Hx & Hy).
    injection Heq as <- <-.
    apply lookup_lt_Some in Hy as Hlt.
    rewrite lookup_seq_lt in Hx by done. injection Hx as <-. done.
  - intros Hi. exists (i, true). split; [|done].
    apply list_elem_of_lookup. exists i.
    apply lookup_zip_with_Some. exists i, true. split; [done|].
    split; [|done]. apply lookup_seq_lt. by eapply lookup_lt_Some.
Qed.

Lemma where_true_lt (mask : list bool) (i : nat) :
  i ∈ where_true mask → (i < length mask)%nat.
Proof. rewrite elem_of_where_true. apply lookup_lt_Some. Qed.

(** ** Termination of the merge loop (C7) *)

Lemma set_inf_length (a b : nat) (m m' : mat) :
  set_inf a b m = Ok m' → length m' = length m.
Proof.
  intros H. apply set_inf_lookup in H as (row & _ & _ & ->).
  apply length_insert.
Qed.

Lemma set_row_length (ka : nat) (v : vec) (m m' : mat) :
  set_row ka v m = Ok m' → length m' = length m.
Proof.
  unfold set_row. intros H. inv_bind H. injection H as <-.
  apply length_insert.
Qed.

Lemma set_col_length (ka : nat) (v : vec) (m m' : mat) :
  set_col ka v m = Ok m' → length m' = length m.
Proof.
  unfold set_col. intros H. inv_bind H. injection H as <-.
  match goal with Hb : broadcast_to _ _ = Ok _ |- _ =>
    apply broadcast_to_length in Hb end.
  by apply length_zip_with_l_eq.
Qed.

Lemma delete_row_col_length (kb : nat) (m m1 : mat) :
  delete_row_col kb m = Some m1 → length m = S (length m1).
Proof.
  unfold delete_row_col. intros H.
  destruct (mapM _ m) as [rows|] eqn:Hrows; [|discriminate]. simpl in H.
  destruct (rows !! kb) eqn:Hkb; [|discriminate]. simpl in H.
  injection H as <-. apply length_mapM in Hrows. rewrite Hrows.
  rewrite length_delete by done. apply lookup_lt_Some in Hkb. lia.
Qed.

Lemma gated_neighbours_length (ka : nat) (m : mat) (neigh : list nat) :
  gated_neighbours ka m = Ok neigh → (length neigh ≤ length m)%nat.
Proof.
  unfold gated_neighbours. intros H. inv_bind H.
  destruct (decide _) as [Hlen|]; [|discriminate]. injection H as <-.
  etrans; [apply length_where_true|].
  rewrite length_zip_with.
  match goal with Hc : mapM _ m = Some _ |- _ =>
    apply length_mapM in Hc; rewrite Hc end.
  lia.
Qed.

Lemma recompute_distances_length (ka : nat) (muhat' : list vec)
    (Vhat' : list mat) (nuhat' : list float) (lv : vbPar mat)
    (m m' : mat) :
  recompute_distances ka muhat' Vhat' nuhat' lv m = Ok m' →
  length m' = length m.
Proof.
  unfold recompute_distances. intros H. inv_bind H.
  apply set_col_length in H.
  match goal with Hr : set_row _ _ _ = Ok _ |- _ =>
    apply set_row_length in Hr end.
  congruence.
Qed.

Lemma accept_merge_measure (s s' : merge_state) (ka kb : nat)
    (lv : vbPar mat) :
  ms_neigh s ≠ [] →
  accept_merge s ka kb lv = Ok s' →
  (merge_measure s' < merge_measure s)%nat ∧
  length (ms_maha s) = S (length (ms_maha s')).
Proof.
  unfold accept_merge. intros Hne H. inv_bind H. injection H as <-.
  unfold merge_measure. simpl.
  repeat match goal with
  | H : delete_row_col _ _ = Some _ |- _ =>
      apply delete_row_col_length in H
  | H : recompute_distances _ _ _ _ _ _ = Ok _ |- _ =>
      apply recompute_distances_length in H
  | H : set_inf _ _ _ = Ok _ |- _ => apply set_inf_length in H
  | H : gated_neighbours _ _ = Ok _ |- _ =>
      apply gated_neighbours_length in H
  end.
  destruct (ms_neigh s) as [|x q]; [done|]. simpl. split; [nia|congruence].
Qed.

Lemma length_removelast {A : Type} (l : list A) :
  l ≠ [] → length l = S (length (removelast l)).
Proof.
  intros Hne. rewrite removelast_firstn_len, length_take.
  destruct l; [done|]. simpl. lia.
Qed.

Lemma reject_merge_measure (s s' : merge_state) (ka kb : nat) :
  ms_neigh s ≠ [] →
  reject_merge s ka kb = Ok s' →
  (merge_measure s' < merge_measure s)%nat.
Proof.
  unfold reject_merge. intros Hne H. inv_bind H. injection H as <-.
  unfold merge_measure. simpl.
  repeat match goal with
  | H : set_inf _ _ _ = Ok _ |- _ => apply set_inf_length in H
  end.
  apply length_removelast in Hne. nia.
Qed.



(** ** The merge loop on well-formed states *)

Lemma take_indices_Ok {A : Type} (a : list A) (idx : list nat) :
  Forall (λ i, (i < length a)%nat) idx →
  ∃ l, take_indices a idx = Ok l ∧ length l = length idx.
Proof.
  intros Hidx. unfold take_indices.
  destruct (mapM (λ i, a !! i) idx) as [l|] eqn:Hm.
  - exists l. split; [done|]. symmetry. by eapply length_mapM.
  - exfalso. assert (is_Some (mapM (λ i, a !! i) idx)) as [? ?];
      [|congruence].
    apply mapM_is_Some. eapply Forall_impl; [exact Hidx|].
    intros i Hi. by apply lookup_lt_is_Some.
Qed.

Lemma pick2_Some {A : Type} (a : list A) (c i : nat) :
  (c < length a)%nat → (i < length a)%nat →
  ∃ x y, pick2 a c i = Some [x; y].
Proof.
  intros Hc Hi. unfold pick2.
  apply lookup_lt_is_Some in Hc as [x ->], Hi as [y ->]. by eexists _, _.
Qed.

Lemma merge_answer_Ok (check_merge : merge_test) (K : nat)
    (scores : list feature) (s : merge_state) (i : nat) :
  total_merge_test check_merge →
  wf_merge_state K scores s → (i < K)%nat →
  ∃ lv merged, merge_answer check_merge scores s i = Ok (lv, merged) ∧
               (merged = true → one_component lv).
Proof.
  intros Htot [] Hi. unfold merge_answer.
  assert (is_Some (local_rows (rhat (ms_vbParam s)) (ms_cluster s) i))
    as [pairs Hpairs].
  { apply mapM_is_Some. eapply Forall_impl; [eassumption|].
    intros row Hrow. simpl in Hrow.
    destruct (pick2_Some row (ms_cluster s) i) as (x & y & Hxy); [lia..|].
    simpl. by rewrite Hxy. }
  rewrite Hpairs. simpl.
  apply length_mapM in Hpairs as Hlen.
  set (indices := where_true (map row_nonzero pairs)).
  assert (Hidx : Forall (λ j, (j < length pairs)%nat) indices).
  { apply Forall_forall. intros j Hj. apply where_true_lt in Hj.
    by rewrite length_map in Hj. }
  destruct (take_indices_Ok scores indices) as (ls & -> & _).
  { eapply Forall_impl; [exact Hidx|]. simpl. intros j Hj. lia. }
  destruct (take_indices_Ok pairs indices Hidx) as (lr & -> & _). simpl.
  destruct (pick2_Some (muhat (ms_vbParam s)) (ms_cluster s) i)
    as (? & ? & ->); [lia..|].
  destruct (pick2_Some (Vhat (ms_vbParam s)) (ms_cluster s) i)
    as (? & ? & ->); [lia..|].
  destruct (pick2_Some (invVhat (ms_vbParam s)) (ms_cluster s) i)
    as (? & ? & ->); [lia..|].
  destruct (pick2_Some (nuhat (ms_vbParam s)) (ms_cluster s) i)
    as (? & ? & ->); [lia..|].
  destruct (pick2_Some (lambdahat (ms_vbParam s)) (ms_cluster s) i)
    as (? & ? & ->); [lia..|].
  destruct (pick2_Some (ahat (ms_vbParam s)) (ms_cluster s) i)
    as (? & ? & ->); [lia..|].
  simpl. apply Htot. by repeat split.
Qed.

Lemma set_inf_Ok (K a b : nat) (m : mat) :
  length m = K → Forall (λ row, length row = K) m →
  (a < K)%nat → (b < K)%nat →
  ∃ m', set_inf a b m = Ok m' ∧ length m' = K ∧
        Forall (λ row, length row = K) m'.
Proof.
  intros Hrows Hcols Ha Hb. unfold set_inf.
  destruct (lookup_lt_is_Some_2 m a) as [row Hrow]; [lia|].
  rewrite Hrow. simpl.
  assert (Hlen : length row = K).
  { eapply Forall_lookup_1 in Hcols; [|exact Hrow]. done. }
  destruct (lookup_lt_is_Some_2 row b) as [x Hx]; [lia|].
  rewrite Hx. simpl. eexists. split; [done|].
  split; [by rewrite length_insert|].
  apply Forall_insert; [done|]. by rewrite length_insert.
Qed.

Lemma reject_merge_Ok (K : nat) (scores : list feature) (s : merge_state)
    (i : nat) :
  wf_merge_state K scores s → list.last (ms_neigh s) = Some i →
  ∃ s', reject_merge s (Nat.min (ms_cluster s) i)
                       (Nat.max (ms_cluster s) i) = Ok s' ∧
        wf_merge_state K scores s'.
Proof.
  intros Hwf Hlast. destruct Hwf as [? ? ? ? ? ? ? ? ? ? ? ? Hneigh].
  apply last_Some in Hlast as (q & Hq).
  rewrite Hq in Hneigh. apply Forall_app in Hneigh as [Hq' Hi].
  apply Forall_singleton in Hi as [Hi _].
  unfold reject_merge.
  destruct (set_inf_Ok K (Nat.min (ms_cluster s) i)
              (Nat.max (ms_cluster s) i) (ms_maha s))
    as (m1 & H1 & Hr1 & Hc1); [done|done|lia|lia|].
  rewrite H1. simpl.
  destruct (set_inf_Ok K (Nat.max (ms_cluster s) i)
              (Nat.min (ms_cluster s) i) m1)
    as (m2 & H2 & Hr2 & Hc2); [done|done|lia|lia|].
  rewrite H2. simpl. eexists. split; [done|].
  constructor; simpl; try done.
  - eapply set_inf_diag; [exact H2|]. by eapply set_inf_diag.
  - by rewrite Hq, removelast_last.
Qed.

Lemma replace_merged_Some {A : Type} (a : list A) (K' ka kb : nat)
    (merged : list A) :
  length a = S K' → (ka < kb)%nat → (kb < S K')%nat →
  is_Some (merged !! 0%nat) →
  ∃ a', replace_merged a ka kb merged = Some a' ∧ length a' = K'.
Proof.
  intros Hlen Hab Hb [v Hv]. unfold replace_merged.
  destruct (lookup_lt_is_Some_2 a kb) as [x Hx]; [lia|].
  rewrite Hx, Hv. simpl.
  assert (Hd : length (delete kb a) = K').
  { rewrite length_delete by done. lia. }
  destruct (lookup_lt_is_Some_2 (delete kb a) ka) as [y Hy]; [lia|].
  rewrite Hy. simpl. eexists. split; [done|]. by rewrite length_insert.
Qed.

Lemma merge_rows_Some (K' ka kb : nat) (rhat : mat) :
  Forall (λ row, length row = S K') rhat → (ka < kb)%nat → (kb < S K')%nat →
  ∃ rhat', mapM (merge_row ka kb) rhat = Some rhat' ∧
           length rhat' = length rhat ∧
           Forall (λ row, length row = K') rhat'.
Proof.
  intros Hrows Hab Hb.
  induction Hrows as [|row rhat Hrow _ (rhat' & IH & Hlen & Hall)].
  - exists []. by repeat split.
  - destruct (lookup_lt_is_Some_2 row ka) as [a Ha]; [lia|].
    destruct (lookup_lt_is_Some_2 row kb) as [b Hb']; [lia|].
    exists (delete kb (<[ka := fl_add a b]> row) :: rhat').
    split; [|split].
    + apply mapM_Some. constructor; [|by apply mapM_Some].
      unfold merge_row. by rewrite Ha, Hb'.
    + simpl. by rewrite Hlen.
    + constructor; [|done].
      rewrite length_delete, length_insert; [lia|].
      apply lookup_lt_is_Some. rewrite length_insert. lia.
Qed.

Lemma delete_row_col_Some (K' kb : nat) (m : mat) :
  length m = S K' → Forall (λ row, length row = S K') m → (kb < S K')%nat →
  ∃ m1, delete_row_col kb m = Some m1 ∧ length m1 = K' ∧
        Forall (λ row, length row = K') m1.
Proof.
  intros Hlen Hrows Hb. unfold delete_row_col.
  assert (∃ rows, mapM (λ row : list float,
                          _ ← row !! kb; Some (delete kb row)) m
                  = Some rows ∧
                  Forall (λ row, length row = K') rows)
    as (rows & Heq & Hall).
  { clear Hlen. induction Hrows as [|row m Hrow _ (rows & IH & Hall)].
    - exists []. by split.
    - destruct (lookup_lt_is_Some_2 row kb) as [x Hx]; [lia|].
      exists (delete kb row :: rows). split.
      + apply mapM_Some. constructor; [|by apply mapM_Some].
        by rewrite Hx.
      + constructor; [|done]. rewrite length_delete by done. lia. }
  rewrite Heq. simpl. apply length_mapM in Heq.
  destruct (lookup_lt_is_Some_2 rows kb) as [r Hr]; [lia|].
  rewrite Hr. simpl. eexists. split; [done|]. split.
  - rewrite length_delete by done. lia.
  - rewrite delete_take_drop. apply Forall_app. split.
    + by apply Forall_take.
    + by apply Forall_drop.
Qed.

Lemma broadcast_to_Ok (n : nat) (v : vec) :
  length v = n → ∃ v', broadcast_to n v = Ok v' ∧ length v' = n.
Proof.
  intros Hlen. unfold broadcast_to. destruct v as [|x [|y v]].
  - rewrite decide_True by done. by eexists.
  - eexists. split; [done|]. by rewrite length_replicate.
  - rewrite decide_True by done. by eexists.
Qed.

Lemma set_row_Ok (n ka : nat) (v : vec) (m : mat) :
  length m = n → Forall (λ row, length row = n) m →
  (ka < n)%nat → length v = n →
  ∃ m', set_row ka v m = Ok m' ∧ length m' = n ∧
        Forall (λ row, length row = n) m'.
Proof.
  intros Hlen Hrows Hka Hv. unfold set_row.
  destruct (lookup_lt_is_Some_2 m ka) as [old Hold]; [lia|].
  rewrite Hold. simpl.
  assert (length old = n) as Ho.
  { eapply Forall_lookup_1 in Hrows; [|exact Hold]. done. }
  destruct (broadcast_to_Ok (length old) v) as (new & -> & Hnew); [lia|].
  simpl. eexists. split; [done|]. split; [by rewrite length_insert|].
  apply Forall_insert; [done|lia].
Qed.

Lemma column_lookup_Some (n ka : nat) (m : mat) :
  Forall (λ row, length row = n) m → (ka < n)%nat →
  ∃ col, mapM (λ row : list float, row !! ka) m = Some col ∧
         length col = length m.
Proof.
  intros Hrows Hka.
  destruct (mapM (λ row : list float, row !! ka) m) as [col|] eqn:Hc.
  - exists col. split; [done|]. symmetry. by eapply length_mapM.
  - exfalso.
    assert (is_Some (mapM (λ row : list float, row !! ka) m)) as [? ?];
      [|congruence].
    apply mapM_is_Some. eapply Forall_impl; [exact Hrows|].
    intros row Hrow. simpl in *. apply lookup_lt_is_Some. lia.
Qed.

Lemma set_col_Ok (n ka : nat) (v : vec) (m : mat) :
  length m = n → Forall (λ row, length row = n) m →
  (ka < n)%nat → length v = n →
  ∃ m', set_col ka v m = Ok m' ∧ length m' = n ∧
        Forall (λ row, length row = n) m'.
Proof.
  intros Hlen Hrows Hka Hv. unfold set_col.
  destruct (column_lookup_Some n ka m Hrows Hka) as (col & -> & _). simpl.
  destruct (broadcast_to_Ok (length m) v) as (new & -> & Hnew); [lia|].
  simpl. eexists. split; [done|]. split.
  - rewrite length_zip_with. lia.
  - apply Forall_forall. intros row Hin.
    apply list_elem_of_lookup in Hin as [j Hj].
    apply lookup_zip_with_Some in Hj as (r & x & -> & Hr & _).
    rewrite length_insert.
    eapply Forall_lookup_1 in Hrows; [|exact Hr]. done.
Qed.

Lemma gated_neighbours_Ok (n ka : nat) (m : mat) :
  length m = n → Forall (λ row, length row = n) m → (ka < n)%nat →
  diag_inf m →
  ∃ neigh, gated_neighbours ka m = Ok neigh ∧
           Forall (λ j, (j < n)%nat ∧ j ≠ ka) neigh.
Proof.
  intros Hlen Hrows Hka Hd. unfold gated_neighbours.
  destruct (lookup_lt_is_Some_2 m ka) as [row Hrow]; [lia|].
  rewrite Hrow. simpl.
  destruct (column_lookup_Some n ka m Hrows Hka) as (col & Hcol & Hcl).
  rewrite Hcol. simpl.
  assert (length row = n) as Hr.
  { eapply Forall_lookup_1 in Hrows; [|exact Hrow]. done. }
  rewrite decide_True by lia. eexists. split; [done|].
  apply Forall_forall. intros j Hj. split.
  - apply where_true_lt in Hj. rewrite length_zip_with in Hj. lia.
  - intros ->. apply elem_of_where_true in Hj.
    apply lookup_zip_with_Some in Hj as (x & y & Hxy & Hx & Hy).
    rewrite (Hd _ _ Hrow) in Hx. injection Hx as <-.
    apply mapM_Some in Hcol.
    destruct (Forall2_lookup_r _ _ _ _ _ Hcol Hy) as (r & Hr' & Hry).
    simpl in Hry. assert (r = row) as -> by congruence.
    rewrite (Hd _ _ Hrow) in Hry. injection Hry as <-.
    discriminate.
Qed.

Lemma broadcast2_single_r {A B C : Type} (f : A → B → C) (a : list A)
    (y : B) :
  broadcast2 f a [y] = Ok (map (λ x, f x y) a).
Proof. by destruct a as [|x [|x' a]]. Qed.

Lemma broadcast2_same_length {A B C : Type} (f : A → B → C) (a : list A)
    (b : list B) :
  length a = length b → broadcast2 f a b = Ok (zip_with f a b).
Proof.
  intros Hlen. unfold broadcast2.
  destruct a as [|x [|x' a]]; destruct b as [|y [|y' b]];
    try discriminate; try reflexivity.
  by rewrite decide_True.
Qed.

(** With a single returned component the distances of the survivor are
    computed for every component and fit the matrix. *)
Lemma recompute_distances_Ok (n ka : nat) (muhat' : list vec)
    (Vhat' : list mat) (nuhat' : list float) (lv : vbPar mat) (m : mat) :
  length muhat' = n → length Vhat' = n → length nuhat' = n →
  one_component lv →
  length m = n → Forall (λ row, length row = n) m → (ka < n)%nat →
  ∃ m', recompute_distances ka muhat' Vhat' nuhat' lv m = Ok m' ∧
        length m' = n ∧ Forall (λ row, length row = n) m'.
Proof.
  intros Lmu LV Lnu (Hmu & HV & _ & Hnu & _) Lm Lc Hka.
  unfold recompute_distances.
  destruct (muhat lv) as [|mu_m [|]]; try discriminate.
  destruct (Vhat lv) as [|V_m [|]]; try discriminate.
  destruct (nuhat lv) as [|nu_m [|]]; try discriminate.
  rewrite broadcast2_single_r. cbn [mbind result_bind of_option lookup
                                    list_lookup].
  set (diff := map (λ x : list float, vsub x mu_m) muhat').
  assert (Ldiff : length diff = n) by (subst diff; by rewrite length_map).
  destruct (set_row_Ok n ka
              (map (λ d, quad_form d (precision V_m nu_m)) diff) m)
    as (m2 & E2 & Lm2 & Lc2); [done|done|lia|by rewrite length_map|].
  rewrite E2. cbn [mbind result_bind].
  rewrite (broadcast2_same_length precision Vhat' nuhat') by lia.
  cbn [mbind result_bind].
  rewrite broadcast2_same_length
    by (rewrite length_zip_with; lia).
  cbn [mbind result_bind].
  apply set_col_Ok; [done|done|lia|].
  rewrite !length_zip_with. lia.
Qed.

Lemma one_component_first (lv : vbPar mat) :
  one_component lv → has_first lv.
Proof.
  intros (Hmu & HV & HiV & Hnu & Hlam & Ha). unfold has_first.
  repeat split; apply lookup_lt_is_Some; lia.
Qed.

Lemma accept_merge_Ok (K' ka kb : nat) (scores : list feature)
    (s : merge_state) (lv : vbPar mat) :
  wf_merge_state (S K') scores s → (ka < kb)%nat → (kb < S K')%nat →
  one_component lv →
  ∃ s', accept_merge s ka kb lv = Ok s' ∧ wf_merge_state K' scores s'.
Proof.
  intros Hwf Hab Hb Hone.
  destruct (one_component_first lv Hone) as (Hmu & HV & HiV & Hnu & Hlam & Ha).
  destruct Hwf as [Lmu LV LiV Lnu Llam La Lr Ls Lm Lc Ld Lcl Ln].
  unfold accept_merge in *.
  destruct (replace_merged_Some _ K' ka kb _ Lmu Hab Hb Hmu)
    as (muhat' & -> & Lmu').
  destruct (replace_merged_Some _ K' ka kb _ LV Hab Hb HV)
    as (Vhat' & -> & LV').
  destruct (replace_merged_Some _ K' ka kb _ LiV Hab Hb HiV)
    as (invVhat' & -> & LiV').
  destruct (replace_merged_Some _ K' ka kb _ Lnu Hab Hb Hnu)
    as (nuhat' & -> & Lnu').
  destruct (replace_merged_Some _ K' ka kb _ Llam Hab Hb Hlam)
    as (lambdahat' & -> & Llam').
  destruct (replace_merged_Some _ K' ka kb _ La Hab Hb Ha)
    as (ahat' & -> & La').
  destruct (merge_rows_Some K' ka kb _ Lr Hab Hb)
    as (rhat' & -> & Lrn & Lr').
  destruct (delete_row_col_Some K' kb _ Lm Lc Hb) as (m1 & E1 & Lm1 & Lc1).
  rewrite E1.
  cbn [of_option mbind result_bind] in *.
  destruct (recompute_distances_Ok K' ka muhat' Vhat' nuhat' lv m1)
    as (m3 & E3 & Lm3 & Lc3); [done|done|done|done|done|done|lia|].
  rewrite E3 in *. cbn [mbind result_bind] in *.
  destruct (set_inf_Ok K' ka ka m3) as (m4 & E4 & Lm4 & Lc4);
    [done|done|lia|lia|].
  rewrite E4 in *. cbn [mbind result_bind] in *.
  assert (Hd4 : diag_inf m4).
  { eapply set_inf_diag_close; [exact E4|].
    eapply recompute_distances_diag; [exact E3|].
    apply delete_row_col_weaken.
    eapply delete_row_col_diag; [exact Ld|exact E1]. }
  destruct (gated_neighbours_Ok K' ka m4) as (neigh & -> & Hneigh);
    [done|done|lia|done|].
  cbn [mbind result_bind]. eexists. split; [done|].
  constructor; simpl; try done; lia.
Qed.


Lemma accept_near_total : total_merge_test accept_near.
Proof.
  intros ls lv (Hmu & HV & HiV & Hnu & Hlam & Ha). unfold accept_near.
  assert (Hfirst : one_component (merged_local lv)).
  { unfold one_component, merged_local. simpl.
    rewrite !length_take. lia. }
  destruct (muhat lv) as [|[|a [|]] [|[|b [|]] [|]]];
    try (eexists _, false; split; [reflexivity|discriminate]).
  destruct (fl_lt _ _).
  - eexists _, true. split; [reflexivity|done].
  - eexists _, false. split; [reflexivity|discriminate].
Qed.




(** An acceptance that hands back both local components: the difference
    of the means then has two columns where the distance matrix has one
    row left, the assignment to that row raises [ValueError], and the
    loop ends with the candidate still queued. *)
Example two_component_answer_raises :
  merge_loop (merge_measure ex_state_two) keep_both_test ex_channel_scores
             ex_state_two = Some (Raise ValueError).
Proof. by vm_compute. Qed.

(** ** Triplets and maxima of ids *)

Lemma elem_of_concat {A : Type} (x : A) (ls : list (list A)) :
  x ∈ concat ls ↔ ∃ l, x ∈ l ∧ l ∈ ls.
Proof.
  induction ls as [|l ls IH]; simpl.
  - split; [by intros ?%elem_of_nil|]. by intros (l & _ & ?%elem_of_nil).
  - rewrite elem_of_app, IH. split.
    + intros [Hx|(l' & Hx & Hl')].
      * exists l. split; [done|]. apply list_elem_of_here.
      * exists l'. split; [done|]. by apply list_elem_of_further.
    + intros (l' & Hx & Hl'). apply elem_of_cons in Hl' as [->|Hl'].
      * by left.
      * right. by exists l'.
Qed.

Lemma elem_of_row_triplets (n : nat) (row : list float) (t : triplet) :
  t ∈ row_triplets n row ↔
  spike_id t = n ∧ row !! comp_id t = Some t.2 ∧ fl_gt t.2 f0 = true.
Proof.
  unfold row_triplets. rewrite list_elem_of_omap. split.
  - intros ([k p] & Hin & Hf). cbn [fst snd] in Hf.
    destruct (fl_gt p f0) eqn:Hp; [|discriminate]. injection Hf as <-.
    apply list_elem_of_lookup in Hin as [j Hj].
    apply lookup_zip_with_Some in Hj as (x & y & Heq & Hx & Hy).
    injection Heq as <- <-. apply lookup_lt_Some in Hy as Hlt.
    rewrite lookup_seq_lt in Hx by done. injection Hx as <-.
    by repeat split.
  - destruct t as [[n' k] p]. unfold spike_id, comp_id. simpl.
    intros (-> & Hk & Hp). exists (k, p). cbn [fst snd]. rewrite Hp.
    split; [|done]. apply list_elem_of_lookup. exists k.
    apply lookup_zip_with_Some. exists k, p. split; [done|].
    split; [|done]. apply lookup_seq_lt. by eapply lookup_lt_Some.
Qed.

(** A triplet is listed exactly for the positive entries of the matrix. *)
Lemma elem_of_triplets_of (m : mat) (t : triplet) :
  t ∈ triplets_of m ↔
  ∃ row, m !! spike_id t = Some row ∧ row !! comp_id t = Some t.2 ∧
         fl_gt t.2 f0 = true.
Proof.
  unfold triplets_of. rewrite elem_of_concat. split.
  - intros (l & Ht & Hl). apply elem_of_lookup_imap in Hl as (n & row & -> & Hn).
    apply elem_of_row_triplets in Ht as (Hs & Hk & Hp).
    exists row. by rewrite Hs.
  - intros (row & Hn & Hk & Hp). exists (row_triplets (spike_id t) row).
    split; [by apply elem_of_row_triplets|].
    apply elem_of_lookup_imap. by exists (spike_id t), row.
Qed.

Lemma max_id_Some (ids : list nat) :
  ids ≠ [] →
  ∃ M, max_id ids = Some M ∧ M ∈ ids ∧ ∀ x, x ∈ ids → (x ≤ M)%nat.
Proof.
  destruct ids as [|i ids]; [done|]. intros _. simpl.
  eexists. split; [done|].
  induction ids as [|j ids (Hin & Hle)]; simpl.
  - split; [apply list_elem_of_here|].
    intros x Hx. apply list_elem_of_singleton in Hx as ->. lia.
  - split.
    + destruct (Nat.max_spec j (foldr Nat.max i ids)) as [[_ ->]|[_ ->]].
      * apply elem_of_cons in Hin as [->|Hin].
        -- apply list_elem_of_here.
        -- do 2 apply list_elem_of_further. done.
      * apply list_elem_of_further, list_elem_of_here.
    + intros x Hx. apply elem_of_cons in Hx as [->|Hx].
      * specialize (Hle i (list_elem_of_here _ _)). lia.
      * apply elem_of_cons in Hx as [->|Hx]; [lia|].
        specialize (Hle x (list_elem_of_further _ _ _ Hx)). lia.
Qed.

Lemma max_id_bound (ids : list nat) (M : nat) :
  M ∈ ids → (∀ x, x ∈ ids → (x ≤ M)%nat) → max_id ids = Some M.
Proof.
  intros HM Hle.
  destruct (max_id_Some ids) as (M' & -> & HM' & Hle').
  { intros ->. by apply elem_of_nil in HM. }
  f_equal. apply Nat.le_antisymm; auto.
Qed.

(** ** Pruning leaves components with a positive entry *)

Lemma fl_gt_false_nonpos (p : float) : fl_gt p f0 = false → nonpos p.
Proof.
  destruct p; simpl; try done. unfold fl_gt. simpl. apply Qc_ltb_ge.
Qed.

Lemma nonpos_add (x y : float) : nonpos x → nonpos y → nonpos (fl_add x y).
Proof.
  destruct x, y; simpl; try done. intros Hx Hy.
  rewrite <- (Qcplus_0_l 0). by apply Qcplus_le_compat.
Qed.

Lemma nonpos_sum (l : list float) : Forall nonpos l → nonpos (fl_sum l).
Proof.
  induction 1 as [|x l Hx _ IH].
  - simpl. apply Qcle_refl.
  - rewrite fl_sum_cons. by apply nonpos_add.
Qed.

Lemma nonpos_not_gt (s m : float) :
  nonpos s → fl_le f0 m = true → fl_gt s m = false.
Proof.
  unfold fl_gt. destruct s as [q| | |], m as [b| | |]; simpl; try done.
  intros Hq Hb. apply Qc_ltb_ge. apply negb_true_iff, Qc_ltb_ge in Hb.
  by etrans.
Qed.

(** A sum above a non-negative threshold has a positive term. *)
Lemma sum_gt_positive (l : list float) (m : float) :
  fl_le f0 m = true → fl_gt (fl_sum l) m = true →
  Exists (λ p, fl_gt p f0 = true) l.
Proof.
  intros Hm Hs.
  destruct (decide (Exists (λ p, fl_gt p f0 = true) l)) as [|Hno]; [done|].
  apply not_Exists_Forall in Hno; [|apply _].
  assert (Hall : Forall nonpos l).
  { eapply Forall_impl; [exact Hno|]. intros p Hp. simpl in Hp.
    apply fl_gt_false_nonpos. apply not_true_is_false. exact Hp. }
  by rewrite (nonpos_not_gt _ _ (nonpos_sum l Hall) Hm) in Hs.
Qed.

Lemma mask_select_lookup {A : Type} (Ks : list bool) (a : list A) (k : nat) :
  length Ks = length a →
  mask_select Ks a !! k = kth_true Ks k ≫= (λ j, a !! j).
Proof.
  revert a k. induction Ks as [|b Ks IH]; intros [|x a] k Hlen;
    try done. simpl in Hlen. destruct b; simpl.
  - destruct k as [|k]; [done|]. simpl. rewrite IH by lia.
    by destruct (kth_true Ks k).
  - rewrite IH by lia. by destruct (kth_true Ks k).
Qed.

Lemma kth_true_Some (Ks : list bool) (k j : nat) :
  kth_true Ks k = Some j → Ks !! j = Some true.
Proof.
  revert k j. induction Ks as [|b Ks IH]; intros k j H; [done|].
  simpl in H. destruct b.
  - destruct k as [|k]; [by injection H as <-|].
    destruct (kth_true Ks k) as [j'|] eqn:Hk; [|done].
    injection H as <-. simpl. by eapply IH.
  - destruct (kth_true Ks k) as [j'|] eqn:Hk; [|done].
    injection H as <-. simpl. by eapply IH.
Qed.

Lemma length_mask_select {A B : Type} (Ks : list bool) (a : list A)
    (b : list B) :
  length Ks = length a → length Ks = length b →
  length (mask_select Ks a) = length (mask_select Ks b).
Proof.
  revert a b. induction Ks as [|c Ks IH]; intros [|x a] [|y b] Ha Hb;
    try done. simpl in *. destruct c; simpl; [f_equal|]; apply IH; lia.
Qed.

Lemma elem_of_column (m : mat) (k : nat) (p : float) :
  p ∈ column m k ↔ ∃ row, row ∈ m ∧ row !! k = Some p.
Proof. unfold column. apply list_elem_of_omap. Qed.

Lemma col_sums_lookup (K : nat) (m : mat) (j : nat) :
  (j < K)%nat → col_sums K m !! j = Some (fl_sum (column m j)).
Proof.
  intros Hj. unfold col_sums. rewrite map_fmap, list_lookup_fmap.
  by rewrite lookup_seq_lt.
Qed.

(** After [clean_empty_cluster] with a non-negative threshold the rows of
    [rhat] have one entry per remaining component, and each remaining
    component has a positive entry. *)
Lemma clean_empty_cluster_positive (K : nat) (raw : vbPar mat)
    (min_spikes : float) :
  vb_shape K raw → fl_le f0 min_spikes = true →
  let vb := clean_empty_cluster raw min_spikes in
  vb_shape (n_components vb) vb ∧
  ∀ k, (k < n_components vb)%nat →
       ∃ row p, row ∈ rhat vb ∧ row !! k = Some p ∧ fl_gt p f0 = true.
Proof.
  intros (Hmu & HV & HiV & Hnu & Hlam & Ha & Hrows) Hm vb.
  subst vb. unfold clean_empty_cluster, n_components. cbn [muhat rhat].
  set (Ks := map (λ s, fl_gt s min_spikes)
                 (col_sums (ncols (rhat raw)) (rhat raw))).
  destruct (decide (rhat raw = [])) as [Hnil|Hne].
  { subst Ks. rewrite Hnil. simpl. repeat split; try done.
    intros k Hk. simpl in Hk. lia. }
  assert (HK : ncols (rhat raw) = K).
  { destruct (rhat raw) as [|row0 rest]; [done|]. simpl.
    by apply Forall_cons in Hrows as [? _]. }
  assert (HKs : length Ks = K).
  { subst Ks. rewrite length_map. unfold col_sums.
    by rewrite length_map, length_seq. }
  split.
  - unfold vb_shape. cbn [muhat Vhat invVhat nuhat lambdahat ahat rhat].
    repeat split; try (apply length_mask_select; congruence).
    apply Forall_forall. intros row' Hin.
    apply list_elem_of_fmap in Hin as (row & -> & Hin).
    eapply Forall_forall in Hrows; [|exact Hin]. simpl in Hrows.
    apply length_mask_select; congruence.
  - intros k Hk. apply lookup_lt_is_Some in Hk as [mu Hk'].
    rewrite mask_select_lookup in Hk' by congruence.
    destruct (kth_true Ks k) as [j|] eqn:Hj; [|done].
    apply kth_true_Some in Hj as Hjt.
    assert (Hjlt : (j < K)%nat).
    { apply lookup_lt_Some in Hjt. lia. }
    assert (Hgt : fl_gt (fl_sum (column (rhat raw) j)) min_spikes = true).
    { subst Ks. rewrite map_fmap, list_lookup_fmap, HK in Hjt.
      rewrite col_sums_lookup in Hjt by done. by injection Hjt. }
    apply (sum_gt_positive _ _ Hm) in Hgt.
    apply Exists_exists in Hgt as (p & Hp & Hpos).
    apply elem_of_column in Hp as (row & Hin & Hrow).
    exists (mask_select Ks row), p.
    split; [|split; [|done]].
    + apply list_elem_of_fmap. by exists row.
    + eapply Forall_forall in Hrows; [|exact Hin]. simpl in Hrows.
      rewrite mask_select_lookup by congruence. by rewrite Hj.
Qed.

(** ** Folds of the global aggregator: component ids (C3) *)

Lemma max_id_spec (ids : list nat) (M : nat) :
  max_id ids = Some M → M ∈ ids ∧ ∀ x, x ∈ ids → (x ≤ M)%nat.
Proof.
  intros H. destruct (max_id_Some ids) as (M' & HM' & Hin & Hle).
  { by intros ->. }
  rewrite H in HM'. injection HM' as <-. done.
Qed.

Lemma max_id_is_Some (ids : list nat) : ids ≠ [] → is_Some (max_id ids).
Proof. intros H. destruct (max_id_Some ids H) as (M & -> & _). by eexists. Qed.

(** What a fold does to the triplets when globals exist already. *)
Lemma global_cluster_info_shift (vb : vbPar mat) (c : nat)
    (score : list feature) (sidx : list spike_ref) (st st' : global_state) :
  global_cluster_info vb c score sidx (Some st) = Ok st' →
  ∃ n_max k_max,
    max_id (map spike_id (rhat (global_vbParam st))) = Some n_max ∧
    max_id (map comp_id (rhat (global_vbParam st))) = Some k_max ∧
    rhat (global_vbParam st') =
      rhat (global_vbParam st) ++
      map (shift_triplet (n_max + 1) (k_max + 1)) (triplets_of (rhat vb)) ∧
    muhat (global_vbParam st') = muhat (global_vbParam st) ++ muhat vb ∧
    global_tmp_loc st' = global_tmp_loc st ++ replicate (n_components vb) c ∧
    global_score st' = global_score st ++ score ∧
    global_spike_index st' = global_spike_index st ++ sidx ∧
    ∀ t t', t ∈ rhat (global_vbParam st) →
            t' ∈ map (shift_triplet (n_max + 1) (k_max + 1))
                     (triplets_of (rhat vb)) →
            (comp_id t < comp_id t')%nat ∧ (spike_id t < spike_id t')%nat.
Proof.
  unfold global_cluster_info. intros H.
  apply bind_Ok in H as (n_max & Hn & H). apply of_option_Ok in Hn.
  apply bind_Ok in H as (k_max & Hk & H). apply of_option_Ok in Hk.
  injection H as <-. exists n_max, k_max. simpl.
  do 7 (split; [done|]). intros t t' Ht Ht'.
  apply list_elem_of_fmap in Ht' as (t0 & -> & _).
  apply max_id_spec in Hk as [_ Hk]. apply max_id_spec in Hn as [_ Hn].
  specialize (Hk (comp_id t)). specialize (Hn (spike_id t)).
  unfold shift_triplet, comp_id, spike_id in *. simpl. split.
  - assert (t.1.2 ≤ k_max)%nat; [|lia].
    apply Hk. apply list_elem_of_fmap. by exists t.
  - assert (t.1.1 ≤ n_max)%nat; [|lia].
    apply Hn. apply list_elem_of_fmap. by exists t.
Qed.

Lemma pruned_input_facts (min_spikes : float) (x : fold_input) :
  fl_le f0 min_spikes = true → pruned_input min_spikes x →
  let K := n_components (fi_vbParam x) in
  (0 < K)%nat ∧
  (∀ t, t ∈ triplets_of (rhat (fi_vbParam x)) → (comp_id t < K)%nat) ∧
  (∃ t, t ∈ triplets_of (rhat (fi_vbParam x)) ∧ comp_id t = (K - 1)%nat).
Proof.
  intros Hm (K0 & raw & Hshape & Heq & Hpos) K. subst K.
  destruct (clean_empty_cluster_positive K0 raw min_spikes Hshape Hm)
    as (Hsh & Hcols).
  rewrite <- Heq in Hsh, Hcols.
  destruct Hsh as (_ & _ & _ & _ & _ & _ & Hrows).
  split; [done|]. split.
  - intros t Ht. apply elem_of_triplets_of in Ht as (row & Hn & Hk & _).
    apply list_elem_of_lookup_2 in Hn.
    eapply Forall_forall in Hrows; [|exact Hn]. simpl in Hrows.
    apply lookup_lt_Some in Hk. lia.
  - destruct (Hcols (n_components (fi_vbParam x) - 1)%nat)
      as (row & p & Hin & Hk & Hp); [lia|].
    apply list_elem_of_lookup in Hin as [n Hn].
    exists (n, (n_components (fi_vbParam x) - 1)%nat, p). split; [|done].
    apply elem_of_triplets_of. by exists row.
Qed.

Lemma global_cluster_info_first_ids (min_spikes : float) (x : fold_input) :
  fl_le f0 min_spikes = true → pruned_input min_spikes x →
  ∃ st, global_cluster_info (fi_vbParam x) (fi_channel x) (fi_score x)
                            (fi_spike_index x) None = Ok st ∧
        component_ids_ok (n_components (fi_vbParam x)) st.
Proof.
  intros Hm Hx.
  destruct (pruned_input_facts _ _ Hm Hx) as (HK & Hlt & t & Ht & HtK).
  eexists. split; [reflexivity|]. unfold component_ids_ok. simpl.
  split; [apply length_replicate|]. split; [done|]. split; [done|].
  apply max_id_bound.
  - apply list_elem_of_fmap. by exists t.
  - intros k Hk. apply list_elem_of_fmap in Hk as (t' & -> & Ht').
    specialize (Hlt t' Ht'). lia.
Qed.

Lemma global_cluster_info_next_ids (min_spikes : float) (x : fold_input)
    (total : nat) (st : global_state) :
  fl_le f0 min_spikes = true → pruned_input min_spikes x →
  component_ids_ok total st →
  ∃ st', global_cluster_info (fi_vbParam x) (fi_channel x) (fi_score x)
                             (fi_spike_index x) (Some st) = Ok st' ∧
         component_ids_ok (total + n_components (fi_vbParam x)) st'.
Proof.
  intros Hm Hx (Hloc & Hn & Htot & Hmax).
  destruct (pruned_input_facts _ _ Hm Hx) as (HK & Hlt & t & Ht & HtK).
  assert (Hne : rhat (global_vbParam st) ≠ []).
  { intros E. by rewrite E in Hmax. }
  destruct (max_id_is_Some (map spike_id (rhat (global_vbParam st))))
    as [n_max Hnmax].
  { intros E. apply fmap_nil_inv in E. done. }
  unfold global_cluster_info. rewrite Hnmax, Hmax. simpl.
  eexists. split; [reflexivity|]. unfold component_ids_ok, n_components.
  simpl. rewrite !length_app, length_replicate.
  unfold n_components in *. split; [lia|]. split; [lia|]. split; [lia|].
  rewrite map_app. apply max_id_bound.
  - apply elem_of_app. right. rewrite map_map.
    apply list_elem_of_fmap. exists t. split; [|done].
    unfold shift_triplet, comp_id in *. simpl. lia.
  - intros k Hk. apply elem_of_app in Hk as [Hk|Hk].
    + apply max_id_spec in Hmax as [_ Hle]. specialize (Hle k Hk). lia.
    + rewrite map_map in Hk.
      apply list_elem_of_fmap in Hk as (t' & -> & Ht').
      specialize (Hlt t' Ht').
      unfold shift_triplet, comp_id in *. simpl. lia.
Qed.

Lemma fold_channels_ids (min_spikes : float) (inputs : list fold_input)
    (total : nat) (st : global_state) :
  fl_le f0 min_spikes = true →
  Forall (pruned_input min_spikes) inputs →
  component_ids_ok total st →
  ∃ st', fold_channels inputs (Some st) = Ok (Some st') ∧
         component_ids_ok (total + total_components inputs) st'.
Proof.
  intros Hm Hall. revert total st.
  induction Hall as [|x inputs Hx _ IH]; intros total st Hst.
  - exists st. split; [done|]. unfold total_components. simpl.
    by rewrite Nat.add_0_r.
  - destruct (global_cluster_info_next_ids _ x total st Hm Hx Hst)
      as (st1 & Hfold & Hst1).
    destruct (IH _ _ Hst1) as (st' & Hrest & Hst').
    exists st'. cbn [fold_channels]. rewrite Hfold. split; [exact Hrest|].
    unfold total_components in *. simpl.
    by rewrite Nat.add_assoc.
Qed.

(** C3 (amended).  On every fold after the first, the incoming spike ids
    and component ids are shifted by the largest id present in the global
    triplets plus one, so every incoming id is larger than every id already
    there.  When every folded channel state is an output of
    [clean_empty_cluster] for a non-negative threshold with at least one
    component left (what [run_cluster_location] folds), every fold
    succeeds and afterwards the origin-channel array has one entry per
    component, their number is the sum of the channels' component counts,
    and the largest component id among the global triplets is that number
    minus one.  The statement holds for every list of folds, hence after
    each fold of a longer list. *)
Theorem fold_component_ids (min_spikes : float) (inputs : list fold_input) :
  (∀ vb c score sidx st st',
     global_cluster_info vb c score sidx (Some st) = Ok st' →
     ∃ n_max k_max,
       max_id (map spike_id (rhat (global_vbParam st))) = Some n_max ∧
       max_id (map comp_id (rhat (global_vbParam st))) = Some k_max ∧
       rhat (global_vbParam st') =
         rhat (global_vbParam st) ++
         map (shift_triplet (n_max + 1) (k_max + 1)) (triplets_of (rhat vb)) ∧
       ∀ t t', t ∈ rhat (global_vbParam st) →
               t' ∈ map (shift_triplet (n_max + 1) (k_max + 1))
                        (triplets_of (rhat vb)) →
               (comp_id t < comp_id t')%nat ∧
               (spike_id t < spike_id t')%nat) ∧
  (fl_le f0 min_spikes = true →
   Forall (pruned_input min_spikes) inputs →
   inputs ≠ [] →
   ∃ st, fold_channels inputs None = Ok (Some st) ∧
         length (global_tmp_loc st) = total_components inputs ∧
         n_components (global_vbParam st) = total_components inputs ∧
         max_id (map comp_id (rhat (global_vbParam st)))
         = Some (total_components inputs - 1)%nat).
Proof.
  split.
  - intros vb c score sidx st st' H.
    apply global_cluster_info_shift in H
      as (n_max & k_max & Hn & Hk & Hr & _ & _ & _ & _ & Hlt).
    by exists n_max, k_max.
  - intros Hm Hall Hne. destruct Hall as [|x inputs Hx Hall]; [done|].
    destruct (global_cluster_info_first_ids _ x Hm Hx) as (st0 & H0 & Hst0).
    destruct (fold_channels_ids _ inputs _ _ Hm Hall Hst0)
      as (st & Hfold & Hloc & Hn & _ & Hmax).
    exists st. cbn [fold_channels]. rewrite H0.
    unfold total_components in *. simpl. by repeat split.
Qed.

Lemma ex_input_a_pruned : pruned_input f0 ex_input_a.
Proof.
  exists 2%nat, ex_raw_a. split; [|split; [reflexivity|]].
  - repeat split; repeat constructor.
  - vm_compute. lia.
Qed.

Lemma ex_input_b_pruned : pruned_input f0 ex_input_b.
Proof.
  exists 1%nat, ex_raw_b. split; [|split; [reflexivity|]].
  - repeat split; repeat constructor.
  - vm_compute. lia.
Qed.

Lemma fold_component_ids_witness :
  ∃ st, fold_channels [ex_input_a; ex_input_b] None = Ok (Some st) ∧
        length (global_tmp_loc st)
        = total_components [ex_input_a; ex_input_b] ∧
        n_components (global_vbParam st)
        = total_components [ex_input_a; ex_input_b] ∧
        max_id (map comp_id (rhat (global_vbParam st)))
        = Some (total_components [ex_input_a; ex_input_b] - 1)%nat.
Proof.
  apply (proj2 (fold_component_ids f0 [ex_input_a; ex_input_b])).
  - reflexivity.
  - repeat constructor; [exact ex_input_a_pruned|exact ex_input_b_pruned].
  - discriminate.
Defined.

(** C3, counterexample.  [global_cluster_info] takes the offsets from the
    ids it finds among the triplets, whatever the component counts are.
    Folding a state without components first, as [run_cluster] does for a
    channel whose components are all pruned, leaves no triplet: there is
    no largest id, and the next fold raises instead of shifting.  Folding
    a state whose last component holds no spike gives two origin channels
    for a largest component id of 0. *)
Lemma fold_ids_not_aligned :
  (∃ st, fold_channels [ex_input_empty] None = Ok (Some st) ∧
         rhat (global_vbParam st) = [] ∧
         max_id (map comp_id (rhat (global_vbParam st))) = None) ∧
  fold_channels [ex_input_empty; ex_input_b] None = Raise ValueError ∧
  (∃ st, fold_channels [ex_input_massless] None = Ok (Some st) ∧
         length (global_tmp_loc st) = 2%nat ∧
         max_id (map comp_id (rhat (global_vbParam st))) = Some 0%nat).
Proof.
  split; [eexists; by vm_compute|].
  split; [by vm_compute|].
  eexists; by vm_compute.
Qed.

(** ** Skipped channels (C5) *)

Lemma channel_rows_lt (spike_index : list spike_ref) (c : nat) :
  Forall (λ i, (i < length spike_index)%nat) (channel_rows spike_index c).
Proof.
  apply Forall_forall. intros i Hi. unfold channel_rows in Hi.
  apply where_true_lt in Hi. by rewrite length_map in Hi.
Qed.

(** [run_cluster_location] leaves the globals as they are for a channel
    with fewer than two spikes and for a channel whose components are all
    pruned. *)
Lemma run_cluster_location_body_skips (spikesort : fitter)
    (scores : list feature) (spike_index : list spike_ref)
    (min_spikes : float) (g : option global_state) (c : nat) :
  (length spike_index ≤ length scores)%nat →
  (length (channel_rows spike_index c) < 2)%nat ∨
  (∀ score_channel,
     take_indices scores (channel_rows spike_index c) = Ok score_channel →
     ncols (rhat (fit_channel spikesort score_channel
                    (replicate (length score_channel) [f1])
                    (seq 0 (length score_channel)) min_spikes)) = 0%nat) →
  run_cluster_location_body spikesort scores spike_index min_spikes g c
  = Ok g.
Proof.
  intros Hlen Hcase. unfold run_cluster_location_body.
  pose proof (channel_rows_lt spike_index c) as Hidx.
  destruct (take_indices_Ok scores (channel_rows spike_index c))
    as (sc & Hsc & Lsc).
  { eapply Forall_impl; [exact Hidx|]. simpl. intros i Hi. lia. }
  destruct (take_indices_Ok spike_index (channel_rows spike_index c) Hidx)
    as (si & Hsi & _).
  rewrite Hsc, Hsi. cbn [mbind result_bind]. destruct Hcase as [Hfew|Hempty].
  - rewrite decide_False by lia. done.
  - destruct (decide (1 < length sc)%nat); [|done].
    rewrite (Hempty sc Hsc). by rewrite decide_False by lia.
Qed.

(** [run_cluster] leaves the globals as they are for a channel with fewer
    than two spikes. *)
Lemma run_cluster_body_few_spikes (spikesort : fitter)
    (scores : list feature) (masks : list mat) (groups : list (list nat))
    (spike_index : list spike_ref) (min_spikes : float)
    (g : option global_state) (c : nat) :
  (length spike_index ≤ length scores)%nat →
  is_Some (masks !! c) → is_Some (groups !! c) →
  (length (channel_rows spike_index c) < 2)%nat →
  run_cluster_body spikesort scores masks groups spike_index min_spikes g c
  = Ok g.
Proof.
  intros Hlen [mk Hmk] [gr Hgr] Hfew. unfold run_cluster_body.
  pose proof (channel_rows_lt spike_index c) as Hidx.
  destruct (take_indices_Ok scores (channel_rows spike_index c))
    as (sc & Hsc & Lsc).
  { eapply Forall_impl; [exact Hidx|]. simpl. intros i Hi. lia. }
  destruct (take_indices_Ok spike_index (channel_rows spike_index c) Hidx)
    as (si & Hsi & _).
  rewrite Hsc, Hmk, Hgr, Hsi. cbn [mbind result_bind of_option].
  by rewrite decide_False by lia.
Qed.

(** C5, the failing input.  Channel 0 has two spikes and one component
    of mass 2, which the threshold 2 prunes.  [run_cluster_location] skips
    the channel.  [run_cluster] has no test on the number of components
    left: it folds the empty state, the globals now hold the two scores
    and no component, and the fold of channel 1 raises. *)
Lemma run_cluster_folds_empty_channel :
  run_cluster_location_body one_cluster_fitter ex_channel_scores
    ex_spike_index ex_min_spikes None 0 = Ok None ∧
  (∃ st, run_cluster_body one_cluster_fitter ex_channel_scores ex_masks
           ex_groups ex_spike_index ex_min_spikes None 0 = Ok (Some st) ∧
         n_components (global_vbParam st) = 0%nat ∧
         global_tmp_loc st = [] ∧
         length (global_score st) = 2%nat) ∧
  run_cluster one_cluster_fitter ex_channel_scores ex_masks ex_groups
              ex_spike_index ex_min_spikes = Raise ValueError ∧
  (∃ st, run_cluster_location one_cluster_fitter ex_channel_scores
           ex_spike_index ex_min_spikes = Ok (Some st) ∧
         n_components (global_vbParam st) = 1%nat ∧
         global_tmp_loc st = [1%nat]).
Proof.
  split; [by vm_compute|].
  split; [eexists; by vm_compute|].
  split; [by vm_compute|].
  eexists; by vm_compute.
Qed.

(** ** Folds of the global aggregator: spike ids (C10) *)

Lemma triplets_spike_lt (m : mat) (t : triplet) :
  t ∈ triplets_of m → (spike_id t < length m)%nat.
Proof.
  intros Ht. apply elem_of_triplets_of in Ht as (row & Hn & _).
  by eapply lookup_lt_Some.
Qed.

Lemma triplets_last_spike (m : mat) :
  m ≠ [] → Forall (λ row, Exists (λ p, fl_gt p f0 = true) row) m →
  ∃ t, t ∈ triplets_of m ∧ spike_id t = (length m - 1)%nat.
Proof.
  intros Hne Hall.
  destruct (lookup_lt_is_Some_2 m (length m - 1)%nat) as [row Hrow].
  { destruct m; [done|]. simpl. lia. }
  eapply Forall_lookup_1 in Hall; [|exact Hrow]. simpl in Hall.
  apply Exists_exists in Hall as (p & Hp & Hpos).
  apply list_elem_of_lookup in Hp as [k Hk].
  exists ((length m - 1)%nat, k, p). split; [|done].
  apply elem_of_triplets_of. by exists row.
Qed.

Lemma concat_lookup_offset {A : Type} (ls : list (list A)) (j n : nat)
    (l : list A) :
  ls !! j = Some l → (n < length l)%nat →
  concat ls !! (n + length (concat (take j ls)))%nat = l !! n.
Proof.
  revert j. induction ls as [|l0 ls IH]; intros j Hj Hn; [done|].
  destruct j as [|j]; simpl in *.
  - injection Hj as ->. rewrite Nat.add_0_r. by apply lookup_app_l.
  - rewrite length_app.
    replace (n + (length l0 + length (concat (take j ls))))%nat
      with (length l0 + (n + length (concat (take j ls))))%nat by lia.
    rewrite lookup_app_r by lia.
    replace (length l0 + (n + length (concat (take j ls))) - length l0)%nat
      with (n + length (concat (take j ls)))%nat by lia.
    by apply IH.
Qed.

Lemma aligned_spikes_origin (inputs : list fold_input) (dn : nat)
    (s : nat * float) :
  s ∈ aligned_spikes dn inputs →
  ∃ j x t, inputs !! j = Some x ∧ t ∈ triplets_of (rhat (fi_vbParam x)) ∧
           s = (spike_id t + dn + rows_before inputs j, t.2)%nat.
Proof.
  revert dn. induction inputs as [|x inputs IH]; intros dn Hs; simpl in Hs.
  - by apply elem_of_nil in Hs.
  - apply elem_of_app in Hs as [Hs|Hs].
    + apply list_elem_of_fmap in Hs as (t & -> & Ht).
      exists 0%nat, x, t. split; [done|]. split; [done|].
      unfold rows_before. simpl. by rewrite Nat.add_0_r.
    + apply IH in Hs as (j & y & t & Hj & Ht & ->).
      exists (S j), y, t. split; [done|]. split; [done|].
      unfold rows_before. simpl. rewrite length_app. f_equal. lia.
Qed.

(** The first fold. *)
Lemma global_cluster_info_first_spikes (x : fold_input) :
  rows_agree x →
  ∃ st, global_cluster_info (fi_vbParam x) (fi_channel x) (fi_score x)
                            (fi_spike_index x) None = Ok st ∧
        global_score st = fi_score x ∧
        global_spike_index st = fi_spike_index x ∧
        map spike_part (rhat (global_vbParam st)) = aligned_spikes 0 [x] ∧
        (every_spike_assigned x → spike_ids_ok (length (fi_score x)) st).
Proof.
  intros [Hs Hi]. eexists. split; [reflexivity|]. simpl.
  do 2 (split; [done|]). split.
  - rewrite app_nil_r. apply map_ext. intros t.
    unfold spike_part. by rewrite Nat.add_0_r.
  - intros [Hne Hall]. unfold spike_ids_ok. simpl.
    destruct (triplets_last_spike _ Hne Hall) as (t & Ht & Htn).
    split; [done|]. split; [congruence|]. split.
    + rewrite Hs. destruct (rhat (fi_vbParam x)); [done|]. simpl. lia.
    + apply max_id_bound.
      * apply list_elem_of_fmap. exists t. split; [congruence|done].
      * intros n Hn. apply list_elem_of_fmap in Hn as (t' & -> & Ht').
        apply triplets_spike_lt in Ht'. lia.
Qed.

(** A later fold. *)
Lemma global_cluster_info_next_spikes (x : fold_input) (N : nat)
    (st : global_state) :
  rows_agree x → spike_ids_ok N st →
  ∃ st', global_cluster_info (fi_vbParam x) (fi_channel x) (fi_score x)
                             (fi_spike_index x) (Some st) = Ok st' ∧
         global_score st' = global_score st ++ fi_score x ∧
         global_spike_index st' = global_spike_index st ++ fi_spike_index x ∧
         map spike_part (rhat (global_vbParam st')) =
           map spike_part (rhat (global_vbParam st)) ++ aligned_spikes N [x] ∧
         (every_spike_assigned x →
          spike_ids_ok (N + length (fi_score x)) st').
Proof.
  intros [Hs Hi] (Ls & Li & HN & Hmax).
  assert (Hne : rhat (global_vbParam st) ≠ []).
  { intros E. by rewrite E in Hmax. }
  destruct (max_id_is_Some (map comp_id (rhat (global_vbParam st))))
    as [k_max Hk].
  { intros E. by apply fmap_nil_inv in E. }
  unfold global_cluster_info. rewrite Hmax, Hk.
  cbn [of_option mbind result_bind].
  eexists. split; [reflexivity|]. cbn [global_score global_spike_index
    global_vbParam rhat aligned_spikes].
  do 2 (split; [done|]). split.
  - rewrite map_app, app_nil_r, map_map. f_equal. apply map_ext. intros t.
    unfold spike_part, shift_triplet, spike_id. simpl. f_equal. lia.
  - intros [Hne' Hall]. unfold spike_ids_ok.
    cbn [global_score global_spike_index global_vbParam rhat].
    rewrite !length_app. split; [lia|]. split; [lia|]. split; [lia|].
    destruct (triplets_last_spike _ Hne' Hall) as (t & Ht & Htn).
    rewrite map_app. apply max_id_bound.
    + apply elem_of_app. right. rewrite map_map.
      apply list_elem_of_fmap. exists t. split; [|done].
      unfold shift_triplet, spike_id in *. simpl.
      assert (0 < length (rhat (fi_vbParam x)))%nat.
      { destruct (rhat (fi_vbParam x)); [done|]. simpl. lia. }
      lia.
    + intros n Hn. apply elem_of_app in Hn as [Hn|Hn].
      * apply max_id_spec in Hmax as [_ Hle]. specialize (Hle n Hn). lia.
      * rewrite map_map in Hn.
        apply list_elem_of_fmap in Hn as (t' & -> & Ht').
        apply triplets_spike_lt in Ht'.
        unfold shift_triplet, spike_id in *. simpl. lia.
Qed.

Lemma aligned_spikes_app (dn : nat) (l1 l2 : list fold_input) :
  aligned_spikes dn (l1 ++ l2) =
  aligned_spikes dn l1 ++
  aligned_spikes (dn + length (concat (map fi_score l1))) l2.
Proof.
  revert dn. induction l1 as [|x l1 IH]; intros dn; simpl.
  - by rewrite Nat.add_0_r.
  - rewrite IH, length_app, <- app_assoc. do 3 f_equal. lia.
Qed.

Lemma fold_channels_spikes (inputs : list fold_input) (final : fold_input)
    (N : nat) (st : global_state) :
  Forall every_spike_assigned inputs →
  Forall rows_agree (inputs ++ [final]) →
  spike_ids_ok N st →
  ∃ st', fold_channels (inputs ++ [final]) (Some st) = Ok (Some st') ∧
         global_score st' =
           global_score st ++ concat (map fi_score (inputs ++ [final])) ∧
         global_spike_index st' =
           global_spike_index st ++
           concat (map fi_spike_index (inputs ++ [final])) ∧
         map spike_part (rhat (global_vbParam st')) =
           map spike_part (rhat (global_vbParam st)) ++
           aligned_spikes N (inputs ++ [final]).
Proof.
  intros Hall. revert N st.
  induction Hall as [|x inputs Hx _ IH]; intros N st Hagree Hst.
  - cbn [app] in Hagree. rewrite Forall_singleton in Hagree.
    destruct (global_cluster_info_next_spikes final N st Hagree Hst)
      as (st' & Hf & Hsc & Hsi & Hsp & _).
    exists st'. cbn [app fold_channels]. rewrite Hf.
    cbn [mbind result_bind fold_channels map concat].
    rewrite !app_nil_r. done.
  - change ((x :: inputs) ++ [final]) with (x :: (inputs ++ [final])) in *.
    apply Forall_cons in Hagree as [Hax Hagree].
    destruct (global_cluster_info_next_spikes x N st Hax Hst)
      as (st1 & Hf & Hsc & Hsi & Hsp & Hok).
    destruct (IH _ st1 Hagree (Hok Hx)) as (st' & Hrest & Hsc' & Hsi' & Hsp').
    exists st'. cbn [fold_channels]. rewrite Hf.
    cbn [mbind result_bind]. split; [exact Hrest|].
    rewrite Hsc', Hsi', Hsp', Hsc, Hsi, Hsp.
    cbn [map concat aligned_spikes]. rewrite !app_nil_r, <- !app_assoc.
    done.
Qed.

Lemma rows_agree_lengths (inputs : list fold_input) :
  Forall rows_agree inputs →
  length (concat (map fi_spike_index inputs))
  = length (concat (map fi_score inputs)).
Proof.
  induction 1 as [|x inputs [Hs Hi] _ IH]; [done|].
  simpl. rewrite !length_app. congruence.
Qed.

Lemma fold_channels_from_none (inputs : list fold_input)
    (final : fold_input) :
  Forall every_spike_assigned inputs →
  Forall rows_agree (inputs ++ [final]) →
  ∃ st, fold_channels (inputs ++ [final]) None = Ok (Some st) ∧
        global_score st = concat (map fi_score (inputs ++ [final])) ∧
        global_spike_index st =
          concat (map fi_spike_index (inputs ++ [final])) ∧
        map spike_part (rhat (global_vbParam st)) =
          aligned_spikes 0 (inputs ++ [final]).
Proof.
  intros Hall Hagree. destruct Hall as [|x inputs Hx Hall].
  - cbn [app] in *. rewrite Forall_singleton in Hagree.
    destruct (global_cluster_info_first_spikes final Hagree)
      as (st & Hf & Hsc & Hsi & Hsp & _).
    exists st. cbn [fold_channels]. rewrite Hf.
    cbn [mbind result_bind fold_channels map concat].
    by rewrite !app_nil_r.
  - change ((x :: inputs) ++ [final]) with (x :: (inputs ++ [final])) in *.
    apply Forall_cons in Hagree as [Hax Hagree].
    destruct (global_cluster_info_first_spikes x Hax)
      as (st0 & Hf & Hsc & Hsi & Hsp & Hok).
    destruct (fold_channels_spikes inputs final _ st0 Hall Hagree (Hok Hx))
      as (st & Hrest & Hsc' & Hsi' & Hsp').
    exists st. cbn [fold_channels]. rewrite Hf.
    cbn [mbind result_bind]. split; [exact Hrest|].
    rewrite Hsc', Hsi', Hsp', Hsc, Hsi, Hsp.
    cbn [map concat aligned_spikes]. rewrite !app_nil_r.
    by rewrite Nat.add_0_l.
Qed.

(** C10 (amended).  When every channel folded before the last one has a
    spike and every one of its spikes keeps a positive responsibility
    entry in the matrix that is folded, that is after the floor, the
    re-normalization and the pruning (and each channel brings one score
    and one spike reference per row of [rhat]), every fold succeeds,
    [global_score] and [global_spike_index] are the concatenations of the
    channels' scores and spike references and have the same number of
    rows, and every global triplet comes from a triplet of some channel
    [j] whose spike id was moved behind the rows of the channels before
    [j]: its spike id is a row of [global_score] and of
    [global_spike_index], and that row holds the score and the spike
    reference of the spike the triplet was computed for.  The statement
    holds for every list of folds, hence after each fold. *)
Theorem fold_spike_alignment (inputs : list fold_input)
    (final : fold_input) :
  Forall every_spike_assigned inputs →
  Forall rows_agree (inputs ++ [final]) →
  ∃ st, fold_channels (inputs ++ [final]) None = Ok (Some st) ∧
        global_score st = concat (map fi_score (inputs ++ [final])) ∧
        global_spike_index st =
          concat (map fi_spike_index (inputs ++ [final])) ∧
        length (global_score st) = length (global_spike_index st) ∧
        map spike_part (rhat (global_vbParam st)) =
          aligned_spikes 0 (inputs ++ [final]) ∧
        ∀ t, t ∈ rhat (global_vbParam st) →
          ∃ j x t0,
            (inputs ++ [final]) !! j = Some x ∧
            t0 ∈ triplets_of (rhat (fi_vbParam x)) ∧
            t.2 = t0.2 ∧
            spike_id t = (spike_id t0 + rows_before (inputs ++ [final]) j)%nat ∧
            (spike_id t < length (global_score st))%nat ∧
            is_Some (fi_score x !! spike_id t0) ∧
            global_score st !! spike_id t = fi_score x !! spike_id t0 ∧
            global_spike_index st !! spike_id t
            = fi_spike_index x !! spike_id t0.
Proof.
  intros Hall Hagree.
  destruct (fold_channels_from_none inputs final Hall Hagree)
    as (st & Hfold & Hsc & Hsi & Hsp).
  exists st. split; [done|]. split; [done|]. split; [done|].
  split; [by rewrite Hsc, Hsi, rows_agree_lengths|]. split; [done|].
  intros t Ht.
  assert (Hin : spike_part t ∈ aligned_spikes 0 (inputs ++ [final])).
  { rewrite <- Hsp. apply list_elem_of_fmap. by exists t. }
  apply aligned_spikes_origin in Hin as (j & x & t0 & Hj & Ht0 & Heq).
  unfold spike_part in Heq. injection Heq as Hid Hp.
  rewrite Nat.add_0_r in Hid.
  exists j, x, t0. do 4 (split; [done|]).
  pose proof (triplets_spike_lt _ _ Ht0) as Hlt.
  pose proof Hagree as Hagree'.
  eapply Forall_lookup_1 in Hagree as [Hls Hli]; [|exact Hj].
  assert (Hscore : global_score st !! spike_id t
                   = fi_score x !! spike_id t0).
  { rewrite Hsc, Hid. unfold rows_before.
    rewrite <- firstn_map. apply concat_lookup_offset; [|lia].
    by rewrite map_fmap, list_lookup_fmap, Hj. }
  assert (Hsome : is_Some (fi_score x !! spike_id t0)).
  { apply lookup_lt_is_Some. lia. }
  split; [|split; [done|split; [done|]]].
  - apply lookup_lt_is_Some. by rewrite Hscore.
  - rewrite Hsi, Hid. unfold rows_before.
    rewrite <- (rows_agree_lengths (take j (inputs ++ [final]))).
    + rewrite <- firstn_map. apply concat_lookup_offset; [|lia].
      by rewrite map_fmap, list_lookup_fmap, Hj.
    + by apply Forall_take.
Qed.

Lemma ex_input_a_assigned : every_spike_assigned ex_input_a.
Proof.
  split; [by vm_compute|].
  refine (bool_decide_unpack _ _). by vm_compute.
Qed.

Lemma fold_spike_alignment_witness :
  ∃ st, fold_channels ([ex_input_a] ++ [ex_input_b]) None = Ok (Some st) ∧
        length (global_score st) = length (global_spike_index st) ∧
        map spike_part (rhat (global_vbParam st)) =
          aligned_spikes 0 ([ex_input_a] ++ [ex_input_b]).
Proof.
  destruct (fold_spike_alignment [ex_input_a] ex_input_b)
    as (st & Hfold & _ & _ & Hlen & Hsp & _).
  - constructor; [exact ex_input_a_assigned|constructor].
  - repeat constructor.
  - exists st. by repeat split.
Defined.

(** The hypothesis on the spikes is about the rows of [rhat] as they are
    folded, that is after pruning.  Here the third spike of
    the first channel had all its mass in a pruned component: the largest
    spike id among the triplets is 1 and not 2, the two spikes of the next
    channel receive the ids 2 and 3, and the triplet with id 2 points at
    the score of the first channel's third spike. *)
Example pruned_spike_shifts_ids :
  ∃ st, fold_channels [ex_input_lost; ex_input_b] None = Ok (Some st) ∧
        map spike_id (rhat (global_vbParam st)) = [0; 1; 2; 3]%nat ∧
        global_score st !! 2%nat = fi_score ex_input_lost !! 2%nat.
Proof. eexists. by vm_compute. Qed.

(** C10, counterexample.  [run_cluster_location] with threshold 1 on
    three spikes of channel 0 and two of channel 1.  On channel 0 the
    fitter gives the first two spikes to one component and the third to a
    component of its own; on channel 1 both spikes share one component.
    Every spike keeps an entry above the floor 0.1 in the matrix handed
    to pruning.  Pruning removes the component of the third spike (its
    mass 1 does not exceed the threshold), the spike is left without a
    triplet, the largest spike id in the globals is 1, and the spikes of
    channel 1 receive the ids 2 and 3, while their scores and spike
    references are the rows 3 and 4: the triplet with spike id 2 belongs
    to component 1, which is located on channel 1, and points at the
    third spike of channel 0. *)
Lemma alignment_lost_to_pruning :
  Forall (λ row, Exists (λ p, fl_le rhat_floor p = true) row)
         (sparsify (rhat ex_raw_c)) ∧
  Forall (λ row, Exists (λ p, fl_le rhat_floor p = true) row)
         (sparsify (rhat ex_raw_b)) ∧
  ∃ st,
    run_cluster_location split_fitter ex_channel_scores
                         ex_spike_index_lost f1 = Ok (Some st) ∧
    map (λ t : triplet, (spike_id t, comp_id t)) (rhat (global_vbParam st))
    = [(0, 0); (1, 0); (2, 1); (3, 1)]%nat ∧
    global_tmp_loc st = [0; 1]%nat ∧
    global_spike_index st = ex_spike_index_lost ∧
    global_spike_index st !! 2%nat = Some (30, 0)%nat ∧
    global_score st !! 2%nat = ex_channel_scores !! 2%nat.
Proof.
  split; [repeat constructor; by vm_compute|].
  split.
  { constructor; [apply Exists_cons_hd; by vm_compute|].
    constructor; [apply Exists_cons_hd; by vm_compute|constructor]. }
  eexists. split; [by vm_compute|]. by vm_compute.
Qed.

(** ** The stability loop (C8) *)

Lemma mapR_Ok {A B : Type} (f : A → result B) (l : list A) (ys : list B) :
  mapR f l = Ok ys → Forall2 (λ x y, f x = Ok y) l ys.
Proof.
  revert ys. induction l as [|x l IH]; intros ys H; simpl in H.
  - injection H as <-. constructor.
  - inv_bind H. injection H as <-. constructor; [done|]. by apply IH.
Qed.


Lemma take_indices_elem {A : Type} (a : list A) (idx : list nat)
    (l : list A) :
  take_indices a idx = Ok l → Forall (λ v, v ∈ a) l.
Proof.
  unfold take_indices. intros H. apply of_option_Ok, mapM_Some in H.
  induction H as [|i v idx l Hi _ IH]; constructor; [|done].
  by eapply list_elem_of_lookup_2.
Qed.

(** What [np.delete] keeps, for positions counted from [start]. *)
Lemma delete_from_sublist {A : Type} (P : nat → bool) (a : list A)
    (start : nat) :
  omap (λ p : nat * A, if P p.1 then None else Some p.2)
       (zip (seq start (length a)) a) `sublist_of` a.
Proof.
  revert start. induction a as [|x a IH]; intros start; [done|].
  simpl. destruct (P start); simpl.
  - apply sublist_cons. apply IH.
  - apply sublist_skip. apply IH.
Qed.


Lemma np_delete_sublist {A : Type} (a a' : list A) (idx : list nat) :
  np_delete a idx = Ok a' → a' `sublist_of` a.
Proof.
  unfold np_delete. destruct (forallb _ idx); [|discriminate].
  intros [= <-].
  pose proof (delete_from_sublist (λ i : nat, bool_decide (i ∈ idx)) a 0)
    as H.
  exact H.
Qed.





Lemma elem_of_stable_components (rhat : mat) (k : nat) :
  k ∈ stable_components rhat ↔
  (k < ncols rhat)%nat ∧
  fl_gt (stability_of rhat k) stability_threshold = true.
Proof.
  unfold stable_components. rewrite list_elem_of_filter, elem_of_seq.
  split; intros [? ?]; split; try done; lia.
Qed.

(** [np.argmax] answers a position of the list; when no entry is NaN no
    entry exceeds the one it answers. *)
Lemma argmax_from_spec (l : list float) (best : float) (best_i i : nat) :
  (best_i < i)%nat →
  let m := argmax_from best best_i i l in
  (m = best_i ∨ (i ≤ m < i + length l)%nat) ∧
  (is_nan best = false → Forall (λ x, is_nan x = false) l →
   ∃ y, (m = best_i ∧ y = best ∨ l !! (m - i)%nat = Some y ∧ (i ≤ m)%nat) ∧
        fl_le best y = true ∧ Forall (λ x, fl_le x y = true) l).
Proof.
  revert best best_i i. induction l as [|x l IH]; intros best best_i i Hlt.
  - simpl. split; [by left|]. intros Hb _. exists best.
    split; [by left|]. split; [|constructor].
    destruct best as [q| | |]; simpl in *; try done.
    rewrite negb_true_iff. apply Qc_ltb_ge. apply Qcle_refl.
  - cbn [argmax_from length]. destruct (is_nan best) eqn:Hb.
    { split; [by left|]. done. }
    destruct (fl_le x best) eqn:Hle.
    + destruct (IH best best_i (S i)) as [Hpos Hmax]; [lia|].
      split; [destruct Hpos; [by left|right; lia]|].
      intros _ Hall. apply Forall_cons in Hall as [Hx Hall].
      destruct (Hmax Hb Hall) as (y & Hy & Hby & Hly).
      exists y. split; [|split; [done|]].
      * destruct Hy as [[? ?]|[Hy ?]]; [by left|right].
        split; [|lia].
        replace (argmax_from best best_i (S i) l - i)%nat
          with (S (argmax_from best best_i (S i) l - S i))%nat by lia.
        done.
      * constructor; [|done].
        destruct x as [a| | |], best as [b| | |], y as [c| | |];
          simpl in *; try done.
        rewrite negb_true_iff, Qc_ltb_ge in *. by etrans.
    + destruct (IH x i (S i)) as [Hpos Hmax]; [lia|].
      split; [right; destruct Hpos; lia|].
      intros _ Hall. apply Forall_cons in Hall as [Hx Hall].
      destruct (Hmax Hx Hall) as (y & Hy & Hxy & Hly).
      exists y. split; [|split].
      * right. destruct Hy as [[-> ->]|[Hy ?]].
        -- rewrite Nat.sub_diag. done.
        -- split; [|lia].
           replace (argmax_from x i (S i) l - i)%nat
             with (S (argmax_from x i (S i) l - S i))%nat by lia.
           done.
      * destruct x as [a| | |], best as [b| | |], y as [c| | |];
          simpl in *; try done.
        rewrite negb_true_iff, negb_false_iff, ?Qc_ltb_ge, ?Qc_ltb_lt in *.
        apply Qclt_le_weak. by eapply Qclt_le_trans.
      * by constructor.
Qed.

Lemma fl_mean_nil_not_gt (c : float) : fl_gt (fl_mean []) c = false.
Proof. by destruct c. Qed.

(** A component that passes the stability threshold has assigned rows. *)
Lemma stable_component_assigned (rhat : mat) (k : nat) :
  k ∈ stable_components rhat → ∃ i, i ∈ assigned_rows rhat k.
Proof.
  intros Hk. apply elem_of_stable_components in Hk as [_ Hgt].
  unfold stability_of in Hgt.
  destruct (omap (λ row : list float,
                    x ← row !! k; if fl_gt x f0 then Some x else None) rhat)
    as [|x l] eqn:Hl.
  { by rewrite fl_mean_nil_not_gt in Hgt. }
  assert (Hx : x ∈ x :: l) by apply list_elem_of_here.
  rewrite <- Hl in Hx. apply list_elem_of_omap in Hx as (row & Hrow & Hf).
  apply list_elem_of_lookup in Hrow as [n Hn]. exists n.
  unfold assigned_rows. apply elem_of_where_true.
  rewrite map_fmap, list_lookup_fmap, Hn.
  cbn [fmap option_fmap option_map].
  destruct (row !! k) as [y|]; [|done]. cbn [mbind option_bind] in Hf.
  destruct (fl_gt y f0); [done|discriminate].
Qed.

Lemma concat_nil_inv {A : Type} (ls : list (list A)) :
  concat ls = [] → Forall (λ l, l = []) ls.
Proof.
  induction ls as [|l ls IH]; intros H; [constructor|].
  simpl in H. apply app_eq_nil in H as [-> H]. constructor; auto.
Qed.

Lemma Forall_of_sublist {A : Type} (P : A → Prop) (l1 l2 : list A) :
  l1 `sublist_of` l2 → Forall P l2 → Forall P l1.
Proof.
  rewrite !Forall_forall. intros Hsub H x Hx. apply H.
  by eapply elem_of_sublist.
Qed.

Lemma mfm_extract_spec (rhat : mat) (index_vals : list nat)
    (wf_data : list waveform) (groups : list (list nat))
    (index_vals' : list nat) (wf_data' : list waveform) :
  mfm_extract rhat index_vals wf_data = Ok (groups, index_vals', wf_data') →
  extraction rhat index_vals wf_data groups index_vals' wf_data'.
Proof.
  unfold mfm_extract, extraction. intros H.
  apply bind_Ok in H as (gs & Hgs & H). apply mapR_Ok in Hgs.
  match type of H with
  | context [decide ?P] => destruct (decide P) as [Hpos|Hzero]
  end.
  - left. inv_bind H. injection H as <- <- <-.
    split; [|by repeat split].
    intros E. rewrite E in Hpos. simpl in Hpos. lia.
  - right.
    assert (Hnil : stable_components rhat = []).
    { destruct (stable_components rhat) as [|k ks] eqn:E; [done|].
      exfalso. apply Hzero.
      destruct (stable_component_assigned rhat k) as [i Hi].
      { rewrite E. apply list_elem_of_here. }
      simpl. rewrite length_app.
      destruct (assigned_rows rhat k); [by apply elem_of_nil in Hi|].
      simpl. lia. }
    split; [done|]. rewrite Hnil in Hgs. inversion Hgs; subst.
    inv_bind H. injection H as <- <- <-.
    eexists _, _. unfold take_indices.
    match goal with Hm : mapM _ _ = Some _ |- _ => rewrite Hm end.
    by repeat split.
Qed.

Lemma extraction_members (n : nat) (rhat : mat) (index_vals : list nat)
    (wf_data : list waveform) (groups : list (list nat))
    (index_vals' : list nat) (wf_data' : list waveform) :
  extraction rhat index_vals wf_data groups index_vals' wf_data' →
  Forall (λ i, (i < n)%nat) index_vals →
  Forall (Forall (λ i, (i < n)%nat)) groups ∧
  Forall (λ i, (i < n)%nat) index_vals' ∧
  index_vals' `sublist_of` index_vals.
Proof.
  intros Hex Hiv.
  assert (Hgroup : ∀ idx g, take_indices index_vals idx = Ok g →
                            Forall (λ i, (i < n)%nat) g).
  { intros idx g Hg. apply take_indices_elem in Hg.
    eapply Forall_impl; [exact Hg|]. intros v Hv. simpl in Hv.
    rewrite Forall_forall in Hiv. by apply Hiv. }
  destruct Hex as [(_ & Hgs & Hd & _)|(_ & m & g & _ & Hg & -> & Hd & _)].
  - apply np_delete_sublist in Hd. split; [|split; [|done]].
    + induction Hgs as [|k g ks gs Hg _ IH]; constructor; eauto.
    + by eapply Forall_of_sublist.
  - apply np_delete_sublist in Hd. split; [|split; [|done]].
    + repeat constructor. eauto.
    + by eapply Forall_of_sublist.
Qed.




Lemma np_argmax_Ok (l : list float) : l ≠ [] → ∃ m, np_argmax l = Ok m.
Proof. destruct l; [done|]. by eexists. Qed.




Lemma mfm_loop_sound (n rounds s : nat) (spikesort : fitter)
    (realign_project : list waveform → list feature) (st : mfm_state)
    (groups : list (list nat)) (s' : nat) :
  mfm_loop rounds s spikesort realign_project st = Ok (groups, s') →
  Forall (λ i, (i < n)%nat) (mfm_index_vals st) →
  Forall (Forall (λ i, (i < n)%nat)) (rolling_index_array st) →
  Forall (Forall (λ i, (i < n)%nat)) groups ∧ (s ≤ s' ≤ s + rounds)%nat.
Proof.
  revert s st. induction rounds as [|rounds IH]; intros s st H Hiv Hroll.
  - simpl in H. injection H as <- <-. split; [done|lia].
  - cbn [mfm_loop] in H.
    apply bind_Ok in H as ([[gs iv] wf] & Hex & H).
    apply mfm_extract_spec in Hex.
    destruct (extraction_members n _ _ _ _ _ _ Hex Hiv) as (Hgs & Hiv' & _).
    assert (Hroll' : Forall (Forall (λ i, (i < n)%nat))
                            (rolling_index_array st ++ gs)).
    { apply Forall_app. by split. }
    destruct (decide (length wf ≤ min_points)%nat).
    { injection H as <- <-. split; [done|lia]. }
    destruct (decide (ncols _ = 1%nat)).
    { injection H as <- <-. split; [|lia].
      apply Forall_app. split; [done|]. by repeat constructor. }
    apply IH in H as [Hg Hs]; [|done|done]. split; [done|lia].
Qed.


Lemma mfm_loop_rounds (rounds s : nat) (spikesort : fitter)
    (realign_project : list waveform → list feature) (st : mfm_state)
    (groups : list (list nat)) (s' : nat) :
  mfm_loop rounds s spikesort realign_project st = Ok (groups, s') →
  (s ≤ s' ≤ s + rounds)%nat.
Proof.
  revert s st. induction rounds as [|rounds IH]; intros s st H.
  - simpl in H. injection H as <- <-. lia.
  - cbn [mfm_loop] in H.
    apply bind_Ok in H as ([[gs iv] wf] & _ & H).
    destruct (decide (length wf ≤ min_points)%nat).
    { injection H as <- <-. lia. }
    destruct (decide (ncols _ = 1%nat)).
    { injection H as <- <-. lia. }
    apply IH in H. lia.
Qed.

Lemma np_argmax_spec (l : list float) (m : nat) :
  np_argmax l = Ok m →
  (m < length l)%nat ∧
  (Forall (λ x, is_nan x = false) l →
   ∃ y, l !! m = Some y ∧ Forall (λ x, fl_le x y = true) l).
Proof.
  destruct l as [|x l]; [discriminate|]. simpl. intros [= <-].
  destruct (argmax_from_spec l x 0 1) as [Hpos Hmax]; [lia|].
  split; [destruct Hpos; lia|].
  intros Hall. apply Forall_cons in Hall as [Hx Hall].
  destruct (Hmax Hx Hall) as (y & Hy & Hxy & Hly).
  exists y. split; [|by constructor].
  destruct Hy as [[-> ->]|[Hy Hge]]; [done|].
  destruct (argmax_from x 0 1 l) as [|m']; [lia|].
  simpl in *. by rewrite Nat.sub_0_r in Hy.
Qed.










(** ** Feature channels (C9) *)

Lemma sort_leb_total (x y : float) :
  sort_leb x y = true ∨ sort_leb y x = true.
Proof.
  unfold sort_leb.
  destruct x as [a| | |], y as [b| | |]; simpl; auto.
  destruct (Qc_ltb b a) eqn:Hba; [|by left]. right.
  rewrite negb_true_iff. apply Qc_ltb_ge. apply Qc_ltb_lt in Hba.
  by apply Qclt_le_weak.
Qed.

Lemma sort_leb_trans (x y z : float) :
  sort_leb x y = true → sort_leb y z = true → sort_leb x z = true.
Proof.
  unfold sort_leb.
  destruct x as [a| | |], y as [b| | |], z as [c| | |]; simpl; try done.
  rewrite !negb_true_iff, !Qc_ltb_ge. intros. by etrans.
Qed.

Lemma key_le_total : Total key_le.
Proof. intros p q. apply sort_leb_total. Qed.

Lemma key_le_trans : Transitive key_le.
Proof. intros p q r. apply sort_leb_trans. Qed.

Lemma elem_of_indexed (keys : list float) (c : nat) (k : float) :
  (c, k) ∈ zip (seq 0 (length keys)) keys ↔ keys !! c = Some k.
Proof.
  rewrite list_elem_of_lookup. split.
  - intros [j Hj]. apply lookup_zip_with_Some in Hj as (x & y & Heq & Hx & Hy).
    injection Heq as <- <-. apply lookup_lt_Some in Hy as Hlt.
    rewrite lookup_seq_lt in Hx by done. by injection Hx as <-.
  - intros Hc. exists c. apply lookup_zip_with_Some. exists c, k.
    split; [done|]. split; [|done].
    apply lookup_seq_lt. by eapply lookup_lt_Some.
Qed.

(** [top_ranked] takes the best-ranked positions. *)
Lemma top_ranked_spec (n : nat) (keys : list float) :
  top_of n keys (top_ranked n keys).
Proof.
  unfold top_of, top_ranked, argsort.
  set (L := merge_sort key_le (zip (seq 0 (length keys)) keys)).
  assert (HP : L ≡ₚ zip (seq 0 (length keys)) keys)
    by apply merge_sort_Permutation.
  assert (HS : StronglySorted key_le L)
    by (apply StronglySorted_merge_sort;
        [exact key_le_trans|exact key_le_total]).
  assert (Hfst : map fst L ≡ₚ seq 0 (length keys)).
  { rewrite map_fmap, HP. rewrite fst_zip; [done|]. by rewrite length_seq. }
  assert (Hnd : NoDup (reverse (map fst L))).
  { rewrite reverse_Permutation, Hfst. apply NoDup_seq. }
  assert (Hin : ∀ c k, (c, k) ∈ L ↔ keys !! c = Some k).
  { intros c k. rewrite HP. apply elem_of_indexed. }
  split; [|split; [|split]].
  - eapply sublist_NoDup; [exact Hnd|]. apply sublist_take.
  - rewrite length_take, length_reverse, length_map.
    rewrite HP, length_zip, length_seq. lia.
  - intros c Hc. apply elem_of_take in Hc as (i & Hc & _).
    apply list_elem_of_lookup_2 in Hc. rewrite elem_of_reverse in Hc.
    rewrite Hfst in Hc. apply elem_of_seq in Hc. lia.
  - intros c c' kc kc' Hc Hc' Hkc Hkc'.
    set (R := reverse L) in *.
    assert (HR : map fst R = reverse (map fst L)).
    { subst R. by rewrite !map_fmap, fmap_reverse. }
    rewrite <- HR, map_fmap, <- fmap_take in Hc, Hc'.
    apply list_elem_of_fmap in Hc as ([c0 k0] & Heq & Hc).
    simpl in Heq. subst c0.
    assert (k0 = kc) as ->.
    { apply elem_of_take in Hc as (i & Hc & _).
      apply list_elem_of_lookup_2 in Hc. subst R.
      rewrite elem_of_reverse in Hc. apply Hin in Hc. congruence. }
    assert (Hd : (c', kc') ∈ drop n R).
    { assert (HinR : (c', kc') ∈ R).
      { subst R. rewrite elem_of_reverse. by apply Hin. }
      rewrite <- (take_drop n R) in HinR.
      apply elem_of_app in HinR as [Ht|Hd]; [|done].
      exfalso. apply Hc'. apply list_elem_of_fmap. by exists (c', kc'). }
    assert (HL : L = reverse (drop n R) ++ reverse (take n R)).
    { rewrite <- reverse_app, take_drop. subst R.
      by rewrite reverse_involutive. }
    rewrite HL in HS.
    apply (StronglySorted_app_1_elem_of key_le _ _ (c', kc') (c, kc)) in HS;
      [exact HS| |]; by rewrite elem_of_reverse.
Qed.

Lemma elem_of_union1d (a b : list nat) (c : nat) :
  c ∈ union1d a b ↔ c ∈ a ∨ c ∈ b.
Proof.
  unfold union1d. rewrite merge_sort_Permutation, elem_of_remove_dups.
  apply elem_of_app.
Qed.

Lemma union1d_sorted (a b : list nat) :
  Sorted Nat.le (union1d a b) ∧ NoDup (union1d a b).
Proof.
  unfold union1d. split.
  - apply Sorted_merge_sort. apply _.
  - rewrite merge_sort_Permutation. apply NoDup_remove_dups.
Qed.

Lemma take_indices_take {A : Type} (a : list A) (idx : list nat)
    (l : list A) (n : nat) :
  take_indices a idx = Ok l →
  take_indices a (take n idx) = Ok (take n l).
Proof.
  unfold take_indices. intros H. apply of_option_Ok, mapM_Some in H.
  assert (mapM (λ i, a !! i) (take n idx) = Some (take n l)) as ->; [|done].
  apply mapM_Some. by apply Forall2_take.
Qed.

(** C9 (amended).  The feature-channel set is the sorted union of the
    [n_max_chans] channels ranked best by the largest absolute value of
    the mean waveform (not by its peak-to-peak amplitude) and of the
    [n_mad_chans] channels ranked best by median absolute deviation among
    the channels whose mean waveform has a peak-to-peak amplitude above
    2. *)
Theorem feature_channel_set (mad : list float → float) (wf_data : wf_block)
    (n_mad_chans n_max_chans : nat) (feat_chans : list nat) :
  feat_chans_of mad wf_data n_mad_chans n_max_chans = Ok feat_chans →
  feature_channels_spec mad wf_data n_mad_chans n_max_chans feat_chans.
Proof.
  unfold feat_chans_of, max_chans_of, mad_chans_of, chan_indexes_2SU_of.
  intros H.
  apply bind_Ok in H as (max_chans & Hmax & H).
  apply bind_Ok in Hmax as (rank_amp & Hamp & Hmax). injection Hmax as <-.
  apply bind_Ok in H as (mad_chans & Hmad & H). injection H as <-.
  apply bind_Ok in Hmad as (chan2 & Hchan & Hmad).
  apply bind_Ok in Hchan as (ptps & Hptps & Hchan). injection Hchan as <-.
  apply bind_Ok in Hmad as (selected & Hsel & Hmad).
  apply bind_Ok in Hmad as (rank_mad & Hrank & Hmad).
  apply bind_Ok in Hmad as (ranked & Hranked & Hmad). injection Hmad as <-.
  exists rank_amp, ptps, selected, rank_mad,
    (top_ranked n_max_chans rank_amp), (top_ranked n_mad_chans rank_mad),
    (take n_mad_chans ranked).
  split; [done|]. split; [apply top_ranked_spec|]. split; [done|]. split.
  { intros c. rewrite elem_of_where_true, map_fmap, list_lookup_fmap.
    split.
    - destruct (ptps !! c) as [p|]; [|done].
      cbn [fmap option_fmap option_map]. intros [= Hp]. eauto.
    - intros (p & -> & Hp). cbn [fmap option_fmap option_map].
      by rewrite Hp. }
  split; [done|]. split; [done|]. split; [apply top_ranked_spec|].
  split; [by apply take_indices_take|].
  split; [apply elem_of_union1d|]. apply union1d_sorted.
Qed.

Lemma feature_channel_set_witness :
  feature_channels_spec zero_mad ex_wf_block 0 1 [1%nat].
Proof.
  apply feature_channel_set. vm_compute. reflexivity.
Defined.

(** C9, counterexample.  The mean waveform of channel 0 swings from 3 to
    -3 (peak-to-peak 6, largest absolute value 3), that of channel 1 from
    4 to 0 (peak-to-peak 4, largest absolute value 4).  Asked for one
    amplitude channel and no deviation channel, the code keeps channel 1;
    a ranking by peak-to-peak amplitude keeps channel 0. *)
Lemma amplitude_rank_is_not_ptp :
  feat_chans_of zero_mad ex_wf_block 0 1 = Ok [1%nat] ∧
  feat_chans_by_ptp zero_mad ex_wf_block 0 1 = Ok [0%nat] ∧
  feat_chans_of zero_mad ex_wf_block 0 1
  ≠ feat_chans_by_ptp zero_mad ex_wf_block 0 1.
Proof.
  split; [by vm_compute|]. split; [by vm_compute|].
  vm_compute. discriminate.
Qed.

(** ** The guarded orchestrator keeps the component ids in order *)

Lemma sparsify_rows (K : nat) (m : mat) :
  Forall (λ row, length row = K) m →
  Forall (λ row, length row = K) (sparsify m).
Proof.
  intros H. unfold sparsify. apply Forall_forall. intros row' Hin.
  apply list_elem_of_fmap in Hin as (row & -> & Hin).
  eapply Forall_forall in H; [|exact Hin]. simpl in H.
  unfold sparsify_row, normalize_row, zero_below_floor.
  by rewrite !length_map.
Qed.

(** What [fit_channel] returns for a channel with spikes, when it has a
    component left, is a state of the kind [fold_component_ids] speaks
    of. *)
Lemma fit_channel_pruned (spikesort : fitter) (score : list feature)
    (mask : mat) (group : list nat) (min_spikes : float) (c : nat)
    (sidx : list spike_ref) :
  fitter_shape spikesort → fl_le f0 min_spikes = true → score ≠ [] →
  (0 < ncols (rhat (fit_channel spikesort score mask group min_spikes)))%nat →
  pruned_input min_spikes
    (mk_fold_input (fit_channel spikesort score mask group min_spikes)
                   c score sidx).
Proof.
  intros Hshape Hm Hne Hcols.
  destruct (Hshape score mask group) as [[K HK] Hrows].
  set (v := spikesort score mask group) in *.
  set (raw := with_rhat v (sparsify (rhat v))).
  assert (Hraw : vb_shape K raw).
  { destruct HK as (? & ? & ? & ? & ? & ? & Hr).
    repeat split; try done. by apply sparsify_rows. }
  exists K, raw. split; [done|]. split; [reflexivity|].
  cbn [fi_vbParam].
  change (fit_channel spikesort score mask group min_spikes)
    with (clean_empty_cluster raw min_spikes) in *.
  destruct (clean_empty_cluster_positive K raw min_spikes Hraw Hm)
    as [(_ & _ & _ & _ & _ & _ & Hr) _].
  destruct (rhat (clean_empty_cluster raw min_spikes)) as [|row rest];
    [simpl in Hcols; lia|].
  apply Forall_cons in Hr as [Hrow _]. simpl in Hcols, Hrow. lia.
Qed.

Lemma run_cluster_location_body_ids (spikesort : fitter)
    (scores : list feature) (spike_index : list spike_ref)
    (min_spikes : float) (g g' : option global_state) (c : nat) :
  fitter_shape spikesort → fl_le f0 min_spikes = true →
  globals_ok g →
  run_cluster_location_body spikesort scores spike_index min_spikes g c
  = Ok g' →
  globals_ok g'.
Proof.
  intros Hshape Hm Hg H. unfold run_cluster_location_body in H.
  apply bind_Ok in H as (sc & _ & H).
  apply bind_Ok in H as (si & _ & H).
  destruct (decide (1 < length sc)%nat) as [Hn|]; [|by injection H as <-].
  destruct (decide (0 < ncols _)%nat) as [Hcols|]; [|by injection H as <-].
  apply bind_Ok in H as (st & Hfold & H). injection H as <-.
  assert (Hne : sc ≠ []) by (intros ->; simpl in Hn; lia).
  pose proof (fit_channel_pruned spikesort sc (replicate (length sc) [f1])
                (seq 0 (length sc)) min_spikes c si Hshape Hm Hne Hcols)
    as Hx.
  destruct g as [st0|].
  - destruct Hg as [total Hst0].
    destruct (global_cluster_info_next_ids _ _ total st0 Hm Hx Hst0)
      as (st' & Hfold' & Hst').
    cbn [fi_vbParam fi_channel fi_score fi_spike_index] in Hfold'.
    rewrite Hfold in Hfold'. injection Hfold' as <-. by eexists.
  - destruct (global_cluster_info_first_ids _ _ Hm Hx) as (st' & Hfold' & Hst').
    cbn [fi_vbParam fi_channel fi_score fi_spike_index] in Hfold'.
    rewrite Hfold in Hfold'. injection Hfold' as <-. by eexists.
Qed.

(** With a threshold that is not negative, [run_cluster_location] returns
    globals in which the origin-channel array has one entry per component
    and the largest component id among the triplets is their number minus
    one. *)
Lemma run_cluster_location_component_ids (spikesort : fitter)
    (scores : list feature) (spike_index : list spike_ref)
    (min_spikes : float) (g : option global_state) :
  fitter_shape spikesort → fl_le f0 min_spikes = true →
  run_cluster_location spikesort scores spike_index min_spikes = Ok g →
  globals_ok g.
Proof.
  intros Hshape Hm H. unfold run_cluster_location in H.
  apply bind_Ok in H as (n & _ & H).
  assert (Hloop : ∀ channels g0 g1,
            globals_ok g0 →
            for_channels
              (run_cluster_location_body spikesort scores spike_index
                                         min_spikes) channels g0 = Ok g1 →
            globals_ok g1).
  { induction channels as [|c channels IH]; intros g0 g1 Hg0 Hrun.
    - simpl in Hrun. by injection Hrun as <-.
    - cbn [for_channels] in Hrun.
      apply bind_Ok in Hrun as (g2 & Hbody & Hrun).
      eapply IH; [|exact Hrun].
      by eapply run_cluster_location_body_ids. }
  eapply Hloop; [|exact H]. exact I.
Qed.

(* ================================================================== *)
(** * Part III: further properties of the engine                       *)
(* ================================================================== *)

(** ** Pruning: what survives [clean_empty_cluster] *)

Lemma fl_add_nan_r (x : float) : fl_add x NaN = NaN.
Proof. by destruct x. Qed.

Lemma fl_sum_nan (l : list float) : NaN ∈ l → fl_sum l = NaN.
Proof.
  induction l as [|x l IH]; [by intros ?%elem_of_nil|].
  intros [<-|Hin]%elem_of_cons; rewrite fl_sum_cons; [done|].
  by rewrite IH, fl_add_nan_r.
Qed.

Lemma fl_gt_nan (m : float) : fl_gt NaN m = false.
Proof. by destruct m. Qed.

Lemma mask_select_replicate_true {A : Type} (a : list A) :
  mask_select (replicate (length a) true) a = a.
Proof. induction a as [|x a IH]; [done|]. simpl. by rewrite IH. Qed.

Lemma mask_select_replicate_false {A : Type} (n : nat) (a : list A) :
  mask_select (replicate n false) a = [].
Proof.
  revert a. induction n as [|n IH]; intros [|x a]; try done. simpl. apply IH.
Qed.

Lemma kth_true_is_Some {A : Type} (Ks : list bool) (a : list A) (k : nat) :
  length Ks = length a → (k < length (mask_select Ks a))%nat →
  ∃ j, kth_true Ks k = Some j ∧ Ks !! j = Some true.
Proof.
  intros Hlen Hk. apply lookup_lt_is_Some in Hk as [x Hx].
  rewrite mask_select_lookup in Hx by done.
  destruct (kth_true Ks k) as [j|] eqn:Hj; [|done].
  exists j. split; [done|]. by eapply kth_true_Some.
Qed.

Lemma column_mask_select (Ks : list bool) (m : mat) (k j : nat) :
  Forall (λ row, length row = length Ks) m →
  kth_true Ks k = Some j →
  column (map (mask_select Ks) m) k = column m j.
Proof.
  intros Hrows Hj. unfold column.
  induction Hrows as [|row m Hrow _ IH]; [done|].
  cbn [map omap list_omap] in *. rewrite IH.
  rewrite mask_select_lookup by done. rewrite Hj. done.
Qed.

Lemma length_mask_select_le {A : Type} (Ks : list bool) (a : list A) :
  (length (mask_select Ks a) ≤ length a)%nat.
Proof.
  revert a. induction Ks as [|b Ks IH]; intros [|x a]; simpl; try lia.
  specialize (IH a). destruct b; simpl; lia.
Qed.

(** The mask of [clean_empty_cluster] on a state of [K] components with at
    least one spike. *)
Lemma clean_mask_facts (K : nat) (vb : vbPar mat) (m : float) :
  vb_shape K vb → rhat vb ≠ [] →
  let Ks := map (λ s, fl_gt s m) (col_sums (ncols (rhat vb)) (rhat vb)) in
  length Ks = K ∧
  ∀ j, Ks !! j = Some true → fl_gt (fl_sum (column (rhat vb) j)) m = true.
Proof.
  intros (_ & _ & _ & _ & _ & _ & Hrows) Hne Ks.
  assert (HK : ncols (rhat vb) = K).
  { destruct (rhat vb) as [|row0 rest]; [done|]. simpl.
    by apply Forall_cons in Hrows as [? _]. }
  subst Ks. rewrite HK. split.
  - unfold col_sums. by rewrite !length_map, length_seq.
  - intros j Hj. rewrite map_fmap, list_lookup_fmap in Hj.
    destruct (col_sums K (rhat vb) !! j) as [s|] eqn:Hs; [|done].
    assert (Hlt : (j < K)%nat).
    { apply lookup_lt_Some in Hs. unfold col_sums in Hs.
      by rewrite length_map, length_seq in Hs. }
    rewrite col_sums_lookup in Hs by done. injection Hs as <-.
    by injection Hj.
Qed.

Lemma clean_empty_cluster_shape (K : nat) (vb : vbPar mat) (m : float) :
  vb_shape K vb →
  vb_shape (n_components (clean_empty_cluster vb m))
           (clean_empty_cluster vb m) ∧
  (n_components (clean_empty_cluster vb m) ≤ K)%nat.
Proof.
  intros Hshape. pose proof Hshape as (Hmu & HV & HiV & Hnu & Hlam & Ha & Hrows).
  unfold clean_empty_cluster, n_components. cbn [muhat rhat].
  set (Ks := map (λ s, fl_gt s m) (col_sums (ncols (rhat vb)) (rhat vb))).
  split; [|rewrite <- Hmu; apply length_mask_select_le].
  destruct (decide (rhat vb = [])) as [Hnil|Hne].
  { subst Ks. rewrite Hnil. simpl. by repeat split. }
  destruct (clean_mask_facts K vb m Hshape Hne) as [HKs _]. fold Ks in HKs.
  unfold vb_shape. cbn [muhat Vhat invVhat nuhat lambdahat ahat rhat].
  repeat split; try (apply length_mask_select; congruence).
  apply Forall_forall. intros row' Hin.
  apply list_elem_of_fmap in Hin as (row & -> & Hin).
  eapply Forall_forall in Hrows; [|exact Hin]. simpl in Hrows.
  apply length_mask_select; congruence.
Qed.

Lemma clean_empty_cluster_column (K : nat) (vb : vbPar mat) (m : float)
    (k : nat) :
  vb_shape K vb →
  (k < n_components (clean_empty_cluster vb m))%nat →
  fl_gt (fl_sum (column (rhat (clean_empty_cluster vb m)) k)) m = true.
Proof.
  intros Hshape Hk.
  pose proof Hshape as (Hmu & _ & _ & _ & _ & _ & Hrows).
  destruct (decide (rhat vb = [])) as [Hnil|Hne].
  { unfold clean_empty_cluster, n_components in Hk. cbn [muhat] in Hk.
    rewrite Hnil in Hk. simpl in Hk. lia. }
  destruct (clean_mask_facts K vb m Hshape Hne) as [HKs Htrue].
  unfold clean_empty_cluster, n_components in *. cbn [muhat rhat] in *.
  set (Ks := map (λ s, fl_gt s m) (col_sums (ncols (rhat vb)) (rhat vb)))
    in *.
  destruct (kth_true_is_Some Ks (muhat vb) k) as (j & Hj & Hjt);
    [congruence|done|].
  rewrite (column_mask_select Ks (rhat vb) k j); [by apply Htrue| |done].
  eapply Forall_impl; [exact Hrows|]. simpl. intros row Hrow. congruence.
Qed.

Lemma clean_empty_cluster_no_nan (K : nat) (vb : vbPar mat) (m : float) :
  vb_shape K vb →
  Forall (Forall (λ x, is_nan x = false)) (rhat (clean_empty_cluster vb m)).
Proof.
  intros Hshape.
  destruct (clean_empty_cluster_shape K vb m Hshape) as [Hsh _].
  apply Forall_forall. intros row Hrow. apply Forall_forall. intros x Hx.
  destruct x; try done. exfalso.
  apply list_elem_of_lookup in Hx as [k Hk].
  destruct Hsh as (_ & _ & _ & _ & _ & _ & Hrows).
  eapply Forall_forall in Hrows as Hlen; [|exact Hrow]. simpl in Hlen.
  assert (Hlt : (k < n_components (clean_empty_cluster vb m))%nat).
  { apply lookup_lt_Some in Hk. lia. }
  pose proof (clean_empty_cluster_column K vb m k Hshape Hlt) as Hgt.
  rewrite fl_sum_nan in Hgt; [by rewrite fl_gt_nan in Hgt|].
  apply elem_of_column. by exists row.
Qed.

(** After [clean_empty_cluster], whatever the threshold, the seven arrays
    of the state agree on the number of components, no component was
    added, the mass of every component left (its column sum in the pruned
    [rhat]) is above the threshold, and the pruned [rhat] holds no NaN: a
    column with a NaN entry has a NaN sum and is dropped. *)
Theorem clean_empty_cluster_survivors (K : nat) (vb : vbPar mat)
    (min_spikes : float) :
  vb_shape K vb →
  vb_shape (n_components (clean_empty_cluster vb min_spikes))
           (clean_empty_cluster vb min_spikes) ∧
  (n_components (clean_empty_cluster vb min_spikes) ≤ K)%nat ∧
  (∀ k, (k < n_components (clean_empty_cluster vb min_spikes))%nat →
        fl_gt (fl_sum (column (rhat (clean_empty_cluster vb min_spikes)) k))
              min_spikes = true) ∧
  Forall (Forall (λ x, is_nan x = false))
         (rhat (clean_empty_cluster vb min_spikes)).
Proof.
  intros Hshape.
  destruct (clean_empty_cluster_shape K vb min_spikes Hshape) as [Hsh Hle].
  split; [done|]. split; [done|]. split.
  - intros k Hk. by apply clean_empty_cluster_column with K.
  - by apply clean_empty_cluster_no_nan with K.
Qed.

Lemma ex_raw_a_shape : vb_shape 2 ex_raw_a.
Proof. repeat split; repeat constructor. Qed.

Lemma clean_empty_cluster_survivors_witness :
  (n_components (clean_empty_cluster ex_raw_a ex_min_spikes) ≤ 2)%nat ∧
  Forall (Forall (λ x, is_nan x = false))
         (rhat (clean_empty_cluster ex_raw_a ex_min_spikes)).
Proof.
  destruct (clean_empty_cluster_survivors 2 ex_raw_a ex_min_spikes
              ex_raw_a_shape) as (_ & Hle & _ & Hnan).
  split; [exact Hle|exact Hnan].
Defined.

(** Pruning twice with the same threshold is pruning once. *)
Theorem clean_empty_cluster_idempotent (K : nat) (vb : vbPar mat)
    (min_spikes : float) :
  vb_shape K vb →
  clean_empty_cluster (clean_empty_cluster vb min_spikes) min_spikes
  = clean_empty_cluster vb min_spikes.
Proof.
  intros Hshape.
  destruct (decide (rhat vb = [])) as [Hnil|Hne0].
  { unfold clean_empty_cluster. rewrite Hnil. reflexivity. }
  destruct (clean_empty_cluster_shape K vb min_spikes Hshape) as [Hsh _].
  pose proof (λ k, clean_empty_cluster_column K vb min_spikes k Hshape)
    as Hcol.
  assert (Hne : rhat (clean_empty_cluster vb min_spikes) ≠ []).
  { unfold clean_empty_cluster. cbn [rhat]. intros E.
    apply fmap_nil_inv in E. done. }
  set (vb' := clean_empty_cluster vb min_spikes) in *.
  set (K' := n_components vb') in *.
  destruct Hsh as (Hmu & HV & HiV & Hnu & Hlam & Ha & Hrows).
  assert (Hn : ncols (rhat vb') = K').
  { destruct (rhat vb') as [|row0 rest]; [done|]. simpl.
    by apply Forall_cons in Hrows as [? _]. }
  assert (HKs : map (λ s, fl_gt s min_spikes)
                    (col_sums (ncols (rhat vb')) (rhat vb'))
                = replicate K' true).
  { rewrite Hn. apply list_eq. intros k.
    rewrite map_fmap, list_lookup_fmap.
    destruct (decide (k < K')%nat) as [Hk|Hk].
    - rewrite col_sums_lookup by done. cbn [fmap option_fmap option_map].
      rewrite lookup_replicate_2 by done. f_equal. by apply Hcol.
    - rewrite (proj1 (lookup_replicate_None _ _ _)) by lia.
      rewrite lookup_ge_None_2; [done|].
      unfold col_sums. rewrite length_map, length_seq. lia. }
  unfold clean_empty_cluster at 1. rewrite HKs.
  clearbody K'. clear Hne Hn HKs Hcol.
  destruct vb' as [mu V iV nu lam a r].
  cbn [muhat Vhat invVhat nuhat lambdahat ahat rhat] in *.
  f_equal; try (subst K'; apply mask_select_replicate_true).
  - rewrite <- HV. apply mask_select_replicate_true.
  - rewrite <- HiV. apply mask_select_replicate_true.
  - rewrite <- Hnu. apply mask_select_replicate_true.
  - rewrite <- Hlam. apply mask_select_replicate_true.
  - rewrite <- Ha. apply mask_select_replicate_true.
  - induction Hrows as [|row r Hrow _ IH]; [done|].
    simpl. rewrite IH. f_equal. rewrite <- Hrow.
    apply mask_select_replicate_true.
Qed.

Lemma clean_empty_cluster_idempotent_witness :
  clean_empty_cluster (clean_empty_cluster ex_raw_a ex_min_spikes)
                      ex_min_spikes
  = clean_empty_cluster ex_raw_a ex_min_spikes.
Proof.
  exact (clean_empty_cluster_idempotent 2 ex_raw_a ex_min_spikes
           ex_raw_a_shape).
Defined.

(** ** A spike below the floor everywhere empties its channel *)

Lemma elem_of_mask_select {A : Type} (Ks : list bool) (a : list A) (x : A) :
  x ∈ mask_select Ks a → x ∈ a.
Proof.
  revert a. induction Ks as [|b Ks IH]; intros [|y a] Hx;
    try by apply elem_of_nil in Hx.
  simpl in Hx. destruct b.
  - apply elem_of_cons in Hx as [->|Hx]; [apply list_elem_of_here|].
    apply list_elem_of_further. by apply IH.
  - apply list_elem_of_further. by apply IH.
Qed.

Lemma sparsify_row_all_low (row : list float) :
  Forall (λ x, fl_lt x rhat_floor = true) row →
  sparsify_row row = replicate (length row) NaN.
Proof.
  intros Hall. unfold sparsify_row.
  rewrite (zero_below_floor_all _ Hall). apply normalize_row_zero.
Qed.

(** When the fitter leaves one spike with every responsibility below the
    floor 0.1, the sparsification turns the spike's row into NaN, every
    column sum is NaN, and [clean_empty_cluster] drops every component of
    the channel, whatever the threshold and however sure the fitter is
    about the other spikes. *)
Theorem fit_channel_undecided_spike (spikesort : fitter)
    (score : list feature) (mask : mat) (group : list nat)
    (min_spikes : float) (K : nat) (row : list float) :
  vb_shape K (spikesort score mask group) →
  row ∈ rhat (spikesort score mask group) →
  Forall (λ x, fl_lt x rhat_floor = true) row →
  n_components (fit_channel spikesort score mask group min_spikes) = 0%nat ∧
  ncols (rhat (fit_channel spikesort score mask group min_spikes)) = 0%nat.
Proof.
  intros Hshape Hrow Hlow.
  set (v := spikesort score mask group) in *.
  set (raw := with_rhat v (sparsify (rhat v))).
  assert (Hraw : vb_shape K raw).
  { destruct Hshape as (? & ? & ? & ? & ? & ? & Hr).
    repeat split; try done. by apply sparsify_rows. }
  change (fit_channel spikesort score mask group min_spikes)
    with (clean_empty_cluster raw min_spikes).
  destruct (clean_empty_cluster_shape K raw min_spikes Hraw) as [Hsh _].
  pose proof (clean_empty_cluster_no_nan K raw min_spikes Hraw) as Hnan.
  set (vb' := clean_empty_cluster raw min_spikes) in *.
  assert (Hin : mask_select
                  (map (λ s, fl_gt s min_spikes)
                       (col_sums (ncols (rhat raw)) (rhat raw)))
                  (replicate (length row) NaN) ∈ rhat vb').
  { subst vb'. unfold clean_empty_cluster. cbn [rhat].
    apply list_elem_of_fmap. exists (replicate (length row) NaN).
    split; [done|]. subst raw. unfold with_rhat. cbn [rhat].
    unfold sparsify. apply list_elem_of_fmap. exists row. split; [|done].
    symmetry. by apply sparsify_row_all_low. }
  destruct Hsh as (_ & _ & _ & _ & _ & _ & Hrows).
  assert (H0 : n_components vb' = 0%nat).
  { eapply Forall_forall in Hrows as Hlen; [|exact Hin]. cbv beta in Hlen.
    eapply Forall_forall in Hnan as Hn; [|exact Hin]. cbv beta in Hn.
    destruct (n_components vb') as [|n]; [done|]. exfalso.
    remember (mask_select
                (map (λ s, fl_gt s min_spikes)
                     (col_sums (ncols (rhat raw)) (rhat raw)))
                (replicate (length row) NaN)) as r eqn:Hr.
    destruct r as [|x l]; [simpl in Hlen; lia|].
    assert (Hx : x ∈ replicate (length row) NaN).
    { apply (elem_of_mask_select
               (map (λ s, fl_gt s min_spikes)
                    (col_sums (ncols (rhat raw)) (rhat raw)))).
      rewrite <- Hr. apply list_elem_of_here. }
    apply elem_of_replicate in Hx as [-> _].
    apply Forall_cons in Hn as [Hn _]. done. }
  split; [done|].
  destruct (rhat vb') as [|r0 rest]; [done|].
  apply Forall_cons in Hrows as [Hr0 _]. simpl. congruence.
Qed.

Lemma fit_channel_undecided_spike_witness :
  n_components (fit_channel (λ _ _ _, ex_flat_vbParam) [[[f1]]; [[f1]]]
                            [[f1]; [f1]] [0; 1]%nat f0) = 0%nat ∧
  ncols (rhat (fit_channel (λ _ _ _, ex_flat_vbParam) [[[f1]]; [[f1]]]
                           [[f1]; [f1]] [0; 1]%nat f0)) = 0%nat.
Proof.
  apply (fit_channel_undecided_spike (λ _ _ _, ex_flat_vbParam)
           [[[f1]]; [[f1]]] [[f1]; [f1]] [0; 1]%nat f0 11 flat_row).
  - repeat split; repeat constructor.
  - apply list_elem_of_here.
  - repeat constructor.
Defined.

(** ** The merge engine conserves responsibility *)

Lemma fl_sum_delete (l : list float) (k : nat) (x : float) :
  l !! k = Some x → fl_sum l = fl_add x (fl_sum (delete k l)).
Proof.
  revert k. induction l as [|y l IH]; intros [|k] H; try done.
  - by injection H as ->.
  - simpl in H. cbn [delete list_delete]. rewrite !fl_sum_cons.
    rewrite (IH k H), !fl_add_assoc. f_equal. apply fl_add_comm.
Qed.

(** Adding column [kb] to column [ka] and dropping column [kb] leaves the
    sum of a row as it was. *)
Lemma merge_row_sum (ka kb : nat) (row row' : list float) :
  (ka < kb)%nat → merge_row ka kb row = Some row' →
  fl_sum row' = fl_sum row.
Proof.
  unfold merge_row. intros Hlt H.
  destruct (row !! ka) as [a|] eqn:Hka; [|discriminate]. simpl in H.
  destruct (row !! kb) as [b|] eqn:Hkb; [|discriminate]. simpl in H.
  injection H as <-. revert row kb a b Hlt Hka Hkb.
  induction ka as [|ka IH]; intros [|x row] [|kb] a b Hlt Hka Hkb;
    try done; try lia.
  - injection Hka as ->. simpl in Hkb.
    cbn [insert list_insert delete list_delete]. rewrite !fl_sum_cons.
    rewrite (fl_sum_delete row kb b Hkb). by rewrite fl_add_assoc.
  - simpl in Hka, Hkb. cbn [insert list_insert delete list_delete].
    rewrite !fl_sum_cons. f_equal. apply (IH row kb a b); [lia|done..].
Qed.

Lemma merge_rows_sums (ka kb : nat) (m m' : mat) :
  (ka < kb)%nat → mapM (merge_row ka kb) m = Some m' →
  map fl_sum m' = map fl_sum m.
Proof.
  intros Hlt H. apply mapM_Some in H.
  induction H as [|row row' m m' Hrow _ IH]; [done|].
  simpl. rewrite IH. f_equal. by eapply merge_row_sum.
Qed.

Lemma elem_of_removelast {A : Type} (l : list A) (x : A) :
  x ∈ removelast l → x ∈ l.
Proof.
  induction l as [|y l IH]; [done|]. simpl. destruct l as [|z l].
  - by intros ?%elem_of_nil.
  - intros [->|Hx]%elem_of_cons; [apply list_elem_of_here|].
    apply list_elem_of_further. by apply IH.
Qed.

Lemma last_elem_of {A : Type} (l : list A) (x : A) :
  list.last l = Some x → x ∈ l.
Proof.
  intros H. apply last_Some in H as (q & ->).
  apply elem_of_app. right. apply list_elem_of_here.
Qed.

(** The candidates computed after a merge never hold the anchor: its own
    distance is infinite. *)
Lemma gated_neighbours_not_self (ka : nat) (m : mat) (neigh : list nat) :
  gated_neighbours ka m = Ok neigh → maha_at m ka ka = Some PInf →
  ka ∉ neigh.
Proof.
  unfold gated_neighbours, maha_at. intros H Hinf.
  apply bind_Ok in H as (row & Hrow & H). apply of_option_Ok in Hrow.
  apply bind_Ok in H as (col & Hcol & H). apply of_option_Ok in Hcol.
  destruct (decide (length row = length col)); [|discriminate].
  injection H as <-. rewrite Hrow in Hinf. simpl in Hinf.
  rewrite elem_of_where_true. intros Hk.
  apply lookup_zip_with_Some in Hk as (x & y & Hf & Hx & Hy).
  rewrite Hinf in Hx. injection Hx as <-.
  apply mapM_Some in Hcol.
  destruct (Forall2_lookup_r _ _ _ _ _ Hcol Hy) as (r & Hr & Hry).
  rewrite Hrow in Hr. injection Hr as <-. rewrite Hinf in Hry.
  injection Hry as <-. done.
Qed.

Lemma accept_merge_not_self (s s' : merge_state) (ka kb : nat)
    (lv : vbPar mat) :
  accept_merge s ka kb lv = Ok s' → ms_cluster s' ∉ ms_neigh s'.
Proof.
  unfold accept_merge. intros H. inv_bind H. injection H as <-. simpl.
  eapply gated_neighbours_not_self; [eassumption|].
  eapply set_inf_sets; eassumption.
Qed.

(** One pass of the loop on a candidate other than the anchor. *)
Lemma merge_iteration_sums (check_merge : merge_test)
    (scores : list feature) (s s' : merge_state) (i : nat) :
  ms_cluster s ∉ ms_neigh s → list.last (ms_neigh s) = Some i →
  merge_iteration check_merge scores s i = Ok s' →
  (ms_cluster s' ∉ ms_neigh s') ∧
  map fl_sum (rhat (ms_vbParam s')) = map fl_sum (rhat (ms_vbParam s)) ∧
  (n_components (ms_vbParam s') ≤ n_components (ms_vbParam s))%nat.
Proof.
  intros Hself Hlast H.
  assert (Hne : i ≠ ms_cluster s).
  { intros ->. by apply last_elem_of in Hlast. }
  unfold merge_iteration in H.
  apply bind_Ok in H as ([lv merged] & _ & H). destruct merged.
  - split; [by eapply accept_merge_not_self|].
    apply accept_merge_arrays in H as (_ & Hmu & _ & _ & _ & _ & _ & Hr).
    split; [eapply merge_rows_sums; [|exact Hr]; lia|].
    apply replace_merged_spec in Hmu as (v & _ & Hlen & _).
    unfold n_components. lia.
  - apply reject_merge_state in H as (Hc & Hn & Hv).
    rewrite Hc, Hn, Hv. split; [|done].
    intros Hin. apply Hself. by apply elem_of_removelast.
Qed.

Lemma merge_loop_sums (fuel : nat) (check_merge : merge_test)
    (scores : list feature) (s s' : merge_state) :
  ms_cluster s ∉ ms_neigh s →
  merge_loop fuel check_merge scores s = Some (Ok s') →
  map fl_sum (rhat (ms_vbParam s')) = map fl_sum (rhat (ms_vbParam s)) ∧
  (n_components (ms_vbParam s') ≤ n_components (ms_vbParam s))%nat.
Proof.
  revert s. induction fuel as [|fuel IH]; intros s Hself H; simpl in H.
  - destruct (list.last (ms_neigh s)); [discriminate|].
    by injection H as <-.
  - destruct (list.last (ms_neigh s)) as [i|] eqn:Hlast;
      [|by injection H as <-].
    destruct (merge_iteration check_merge scores s i) as [s1|] eqn:Hit;
      [|discriminate].
    destruct (merge_iteration_sums _ _ _ _ _ Hself Hlast Hit)
      as (Hself1 & Hs1 & Hn1).
    destruct (IH s1 Hself1 H) as [Hs Hn]. split; [congruence|lia].
Qed.

(** When no queued candidate is the anchor itself, whatever
    [merge_move_patches] returns keeps every spike and the sum of every
    spike's responsibilities (rows that added up to 1 still do), and has
    no more components than it was given. *)
Theorem merge_move_patches_conserves (fuel cluster : nat)
    (neigh_clusters : list nat) (scores : list feature)
    (vbParam vbParam' : vbPar mat) (maha maha' : mat)
    (check_merge : merge_test) :
  cluster ∉ neigh_clusters →
  merge_move_patches fuel cluster neigh_clusters scores vbParam maha
                     check_merge = Some (Ok (vbParam', maha')) →
  map fl_sum (rhat vbParam') = map fl_sum (rhat vbParam) ∧
  length (rhat vbParam') = length (rhat vbParam) ∧
  (n_components vbParam' ≤ n_components vbParam)%nat.
Proof.
  unfold merge_move_patches. intros Hself H.
  destruct (merge_loop fuel check_merge scores _) as [[s'|e]|] eqn:Hloop;
    try discriminate.
  simpl in H. injection H as <- <-.
  apply merge_loop_sums in Hloop as [Hs Hn]; [|done]. simpl in Hs, Hn.
  split; [done|]. split; [|done].
  apply (f_equal length) in Hs. by rewrite !length_map in Hs.
Qed.

Lemma merge_move_patches_conserves_witness :
  ∃ vbParam' maha',
    merge_move_patches 11 0 [1; 2]%nat ex_scores ex_vbParam ex_maha
                       accept_near = Some (Ok (vbParam', maha')) ∧
    map fl_sum (rhat vbParam') = map fl_sum (rhat ex_vbParam).
Proof.
  destruct (merge_move_patches 11 0 [1; 2]%nat ex_scores ex_vbParam ex_maha
              accept_near) as [[[vb' maha']|e]|] eqn:H;
    [|by vm_compute in H..].
  exists vb', maha'. split; [done|].
  refine (proj1 (merge_move_patches_conserves 11 0 [1; 2]%nat ex_scores
                   ex_vbParam vb' ex_maha maha' accept_near _ H)).
  intros Hin. apply elem_of_cons in Hin as [Hin|Hin]; [done|].
  apply elem_of_cons in Hin as [Hin|Hin]; [done|]. by apply elem_of_nil in Hin.
Defined.

(** ** Distance evaluator and merge engine together *)

Lemma maha_product_Ok (K : nat) (vb : vbPar mat) :
  vb_shape K vb → ∃ m, maha_product vb = Ok m.
Proof.
  intros (Hmu & HV & _ & Hnu & _). unfold maha_product.
  rewrite (broadcast2_same_length precision (Vhat vb) (nuhat vb)) by lia.
  cbn [mbind result_bind].
  rewrite broadcast2_same_length by (rewrite length_zip_with; lia).
  by eexists.
Qed.

(** What [calculate_maha_clusters] does with a well-shaped state under
    the two behaviours of [np.squeeze]. *)
Lemma calculate_maha_clusters_shape (K : nat) (vb : vbPar mat) :
  vb_shape K vb →
  calculate_maha_clusters squeeze_strict vb = Raise TypeError ∧
  (K = 1%nat →
   calculate_maha_clusters squeeze_fallback vb = Raise IndexError) ∧
  (K ≠ 1%nat →
   ∃ maha, calculate_maha_clusters squeeze_fallback vb = Ok maha ∧
           length maha = K ∧ Forall (λ row, length row = K) maha).
Proof.
  intros Hshape. destruct (maha_product_Ok K vb Hshape) as [m Hm].
  destruct Hshape as (Hmu & _). unfold calculate_maha_clusters.
  rewrite Hm. cbn [mbind result_bind]. split; [done|]. split.
  - intros ->. by rewrite decide_True.
  - intros Hne. rewrite decide_False by lia. eexists. split; [done|].
    destruct (maha_product_shape vb m Hm) as [Hlen Hrows]; [lia|].
    split; [by rewrite length_imap, Hlen|].
    apply Forall_forall. intros row Hin.
    apply elem_of_lookup_imap in Hin as (i & r & -> & Hr).
    rewrite length_insert.
    eapply Forall_lookup_1 in Hrows; [|exact Hr]. simpl in Hrows. lia.
Qed.

(** The loop drains the queue of a well-formed state and hands back a
    well-formed state. *)
Lemma merge_loop_drains_wf (check_merge : merge_test)
    (scores : list feature) (fuel K : nat) (s : merge_state) :
  total_merge_test check_merge →
  wf_merge_state K scores s →
  (merge_measure s ≤ fuel)%nat →
  ∃ s' K', merge_loop fuel check_merge scores s = Some (Ok s') ∧
           ms_neigh s' = [] ∧ wf_merge_state K' scores s' ∧ (K' ≤ K)%nat.
Proof.
  intros Htot. revert K s.
  induction fuel as [|fuel IH]; intros K s Hwf Hm; simpl.
  - destruct (list.last (ms_neigh s)) as [i|] eqn:Hlast.
    + apply last_Some in Hlast as (q & Hq). unfold merge_measure in Hm.
      rewrite Hq, length_app in Hm. simpl in Hm. lia.
    + apply last_None in Hlast. by exists s, K.
  - destruct (list.last (ms_neigh s)) as [i|] eqn:Hlast;
      [|apply last_None in Hlast; by exists s, K].
    assert (Hne : ms_neigh s ≠ []) by (intros E; by rewrite E in Hlast).
    assert (Hi : (i < K)%nat ∧ i ≠ ms_cluster s).
    { pose proof (wf_neigh _ _ _ Hwf) as Hn.
      apply last_Some in Hlast as (q & Hq). rewrite Hq in Hn.
      apply Forall_app in Hn as [_ Hn]. rewrite Forall_singleton in Hn.
      exact Hn. }
    destruct Hi as [Hi Hic].
    destruct (merge_answer_Ok check_merge K scores s i Htot Hwf Hi)
      as (lv & merged & Hans & Hfirst).
    destruct merged.
    + rewrite (merge_iteration_accept _ _ _ _ _ Hans).
      destruct K as [|K0]; [lia|].
      destruct (accept_merge_Ok K0 (Nat.min (ms_cluster s) i)
                  (Nat.max (ms_cluster s) i) scores s lv)
        as (s1 & Hacc & Hwf1); [done|lia| |by apply Hfirst|].
      { pose proof (wf_cluster _ _ _ Hwf). lia. }
      rewrite Hacc.
      destruct (IH K0 s1 Hwf1) as (s' & K' & Hl & Hq & Hwf' & Hle).
      { apply accept_merge_measure in Hacc as [Hlt _]; [lia|done]. }
      exists s', K'. split; [done|]. split; [done|]. split; [done|]. lia.
    + rewrite (merge_iteration_reject _ _ _ _ _ Hans).
      destruct (reject_merge_Ok K scores s i Hwf Hlast)
        as (s1 & Hrej & Hwf1).
      rewrite Hrej. apply (IH K s1 Hwf1).
      apply reject_merge_measure in Hrej; [lia|done].
Qed.

(** [calculate_maha_clusters] and [merge_move_patches] one after the
    other, for a state whose arrays agree on [K] components, an anchor
    and candidates among the components, and a merge test that answers
    every pair and answers an acceptance with the merged component
    alone.  Where [np.squeeze] refuses a list of axes,
    [calculate_maha_clusters] raises [TypeError].  Where it falls back to
    squeezing every axis, a single component makes
    [calculate_maha_clusters] raise [IndexError]; with two components or
    more it returns, and [merge_move_patches] started on its matrix does
    not raise: within [len(neigh_clusters) + K * K] passes it returns a
    state with at least one component whose arrays agree on their number,
    and a square distance matrix of that size with an infinite
    diagonal. *)
Theorem merge_after_maha (check_merge : merge_test)
    (scores : list feature) (vbParam : vbPar mat) (K cluster : nat)
    (neigh_clusters : list nat) :
  total_merge_test check_merge → vb_shape K vbParam →
  (length (rhat vbParam) ≤ length scores)%nat → (cluster < K)%nat →
  Forall (λ i, (i < K)%nat ∧ i ≠ cluster) neigh_clusters →
  calculate_maha_clusters squeeze_strict vbParam = Raise TypeError ∧
  (K = 1%nat →
   calculate_maha_clusters squeeze_fallback vbParam = Raise IndexError) ∧
  (K ≠ 1%nat →
   ∃ maha vbParam' maha',
     calculate_maha_clusters squeeze_fallback vbParam = Ok maha ∧
     merge_move_patches (length neigh_clusters + K * K) cluster
                        neigh_clusters scores vbParam maha check_merge
     = Some (Ok (vbParam', maha')) ∧
     (0 < n_components vbParam' ≤ K)%nat ∧
     vb_shape (n_components vbParam') vbParam' ∧
     length maha' = n_components vbParam' ∧
     Forall (λ row, length row = n_components vbParam') maha' ∧
     diag_inf maha').
Proof.
  intros Htot Hshape Hscores Hc Hneigh.
  destruct (calculate_maha_clusters_shape K vbParam Hshape)
    as (Hstrict & Hone & Hmany).
  split; [done|]. split; [done|]. intros HK.
  destruct (Hmany HK) as (maha & Hmaha & Hrows & Hcols).
  pose proof Hshape as (Hmu & HV & HiV & Hnu & Hlam & Ha & Hr).
  set (s := mk_merge_state cluster neigh_clusters vbParam maha).
  assert (Hwf : wf_merge_state K scores s).
  { constructor; try done. by eapply calculate_maha_clusters_diag. }
  destruct (merge_loop_drains_wf check_merge scores
              (length neigh_clusters + K * K) K s Htot Hwf)
    as (s' & K' & Hloop & _ & Hwf' & Hle).
  { unfold merge_measure. subst s. simpl. rewrite Hrows. lia. }
  exists maha, (ms_vbParam s'), (ms_maha s'). split; [done|].
  unfold merge_move_patches. fold s. rewrite Hloop. split; [done|].
  destruct Hwf' as [Lmu LV LiV Lnu Llam La Lr Ls Lm Lc Ld Lcl Ln].
  unfold n_components. rewrite Lmu.
  split; [lia|]. split; [by repeat split|]. by repeat split.
Qed.

Lemma ex_vbParam_shape : vb_shape 3 ex_vbParam.
Proof. repeat split; repeat constructor. Qed.

Lemma merge_after_maha_witness :
  ∃ maha vbParam' maha',
    calculate_maha_clusters squeeze_fallback ex_vbParam = Ok maha ∧
    merge_move_patches (2 + 3 * 3) 0 [1; 2]%nat ex_scores ex_vbParam
                       maha accept_near
    = Some (Ok (vbParam', maha')) ∧
    diag_inf maha'.
Proof.
  destruct (merge_after_maha accept_near ex_scores ex_vbParam 3 0
              [1; 2]%nat accept_near_total ex_vbParam_shape)
    as (_ & _ & Hmany).
  - simpl. lia.
  - lia.
  - repeat constructor; lia.
  - destruct Hmany as (maha & vb' & maha' & Hm & H & _ & _ & _ & _ & Hd);
      [lia|].
    by exists maha, vb', maha'.
Defined.

(** ** Folds of the global aggregator: components and their channels *)

Lemma pruned_input_shape (min_spikes : float) (x : fold_input) :
  pruned_input min_spikes x →
  vb_shape (n_components (fi_vbParam x)) (fi_vbParam x).
Proof.
  intros (K & raw & Hshape & -> & _).
  by apply clean_empty_cluster_shape with K.
Qed.

Lemma comps_before_length {A : Type} (f : vbPar mat → list A)
    (inputs : list fold_input) :
  Forall (λ x, length (f (fi_vbParam x)) = n_components (fi_vbParam x))
         inputs →
  length (stacked f inputs) = total_components inputs.
Proof.
  unfold stacked, total_components.
  induction 1 as [|x inputs Hx _ IH]; [done|].
  simpl. rewrite length_app. lia.
Qed.

Lemma stacked_lookup {A : Type} (f : vbPar mat → list A)
    (inputs : list fold_input) (j n : nat) (x : fold_input) :
  Forall (λ x, length (f (fi_vbParam x)) = n_components (fi_vbParam x))
         inputs →
  inputs !! j = Some x → (n < n_components (fi_vbParam x))%nat →
  stacked f inputs !! (n + comps_before inputs j)%nat
  = f (fi_vbParam x) !! n.
Proof.
  intros Hall Hj Hn. unfold comps_before.
  rewrite <- (comps_before_length f (take j inputs)) by by apply Forall_take.
  unfold stacked. rewrite <- firstn_map.
  apply concat_lookup_offset.
  - by rewrite map_fmap, list_lookup_fmap, Hj.
  - eapply Forall_lookup_1 in Hall; [|exact Hj]. simpl in Hall. lia.
Qed.

Lemma stacked_channels_lookup (inputs : list fold_input) (j n : nat)
    (x : fold_input) :
  inputs !! j = Some x → (n < n_components (fi_vbParam x))%nat →
  stacked_channels inputs !! (n + comps_before inputs j)%nat
  = Some (fi_channel x).
Proof.
  intros Hj Hn. unfold comps_before, stacked_channels.
  assert (Hlen : ∀ l : list fold_input,
            length (concat (map (λ x, replicate (n_components (fi_vbParam x))
                                               (fi_channel x)) l))
            = total_components l).
  { unfold total_components. induction l as [|y l IH]; [done|].
    simpl. rewrite length_app, length_replicate. lia. }
  rewrite <- Hlen, <- firstn_map.
  rewrite (concat_lookup_offset _ j n
             (replicate (n_components (fi_vbParam x)) (fi_channel x))).
  - by apply lookup_replicate_2.
  - by rewrite map_fmap, list_lookup_fmap, Hj.
  - by rewrite length_replicate.
Qed.

Lemma comps_before_app_l (l1 l2 : list fold_input) (j : nat) :
  (j < length l1)%nat → comps_before (l1 ++ l2) j = comps_before l1 j.
Proof. intros Hj. unfold comps_before. by rewrite take_app_le by lia. Qed.

Lemma comps_before_all (l1 l2 : list fold_input) :
  comps_before (l1 ++ l2) (length l1) = total_components l1.
Proof. unfold comps_before. by rewrite take_app_length. Qed.

Lemma total_components_app (l1 l2 : list fold_input) :
  total_components (l1 ++ l2)
  = (total_components l1 + total_components l2)%nat.
Proof.
  unfold total_components. rewrite map_app.
  induction (map _ l1) as [|n l IH]; simpl; lia.
Qed.

Lemma stacked_app {A : Type} (f : vbPar mat → list A)
    (l1 l2 : list fold_input) :
  stacked f (l1 ++ l2) = stacked f l1 ++ stacked f l2.
Proof. unfold stacked. by rewrite map_app, concat_app. Qed.

Lemma stacked_singleton {A : Type} (f : vbPar mat → list A)
    (x : fold_input) :
  stacked f [x] = f (fi_vbParam x).
Proof. unfold stacked. simpl. apply app_nil_r. Qed.

Lemma component_of_app (folded : list fold_input) (x : fold_input)
    (t : triplet) (j : nat) (y : fold_input) (t0 : triplet) :
  component_of folded t j y t0 → component_of (folded ++ [x]) t j y t0.
Proof.
  intros (Hj & Ht0 & Hp & Hc). apply lookup_lt_Some in Hj as Hlt.
  repeat split; try done.
  - by apply lookup_app_l_Some.
  - by rewrite comps_before_app_l.
Qed.

Lemma components_aligned_first (min_spikes : float) (x : fold_input) :
  fl_le f0 min_spikes = true → pruned_input min_spikes x →
  ∃ st, global_cluster_info (fi_vbParam x) (fi_channel x) (fi_score x)
                            (fi_spike_index x) None = Ok st ∧
        components_aligned [x] st.
Proof.
  intros Hm Hx.
  destruct (global_cluster_info_first_ids _ x Hm Hx) as (st & Hfold & Hids).
  exists st. split; [done|]. injection Hfold as <-.
  split; [|split; [|split]].
  - unfold total_components. simpl. by rewrite Nat.add_0_r.
  - unfold stacked_channels. simpl. by rewrite app_nil_r.
  - unfold params_stacked. rewrite !stacked_singleton. done.
  - simpl. intros t Ht. exists 0%nat, x, t. by repeat split.
Qed.

Lemma components_aligned_next (min_spikes : float)
    (folded : list fold_input) (x : fold_input) (st : global_state) :
  fl_le f0 min_spikes = true → pruned_input min_spikes x →
  components_aligned folded st →
  ∃ st', global_cluster_info (fi_vbParam x) (fi_channel x) (fi_score x)
                             (fi_spike_index x) (Some st) = Ok st' ∧
         components_aligned (folded ++ [x]) st'.
Proof.
  intros Hm Hx (Hids & Hloc & Hpar & Htrip).
  destruct (global_cluster_info_next_ids _ x _ st Hm Hx Hids)
    as (st' & Hfold & Hids').
  exists st'. split; [done|].
  pose proof Hids as (_ & _ & Htot & Hmax).
  unfold global_cluster_info in Hfold.
  apply bind_Ok in Hfold as (n_max & Hn & Hfold).
  apply bind_Ok in Hfold as (k_max & Hk & Hfold).
  apply of_option_Ok in Hk. rewrite Hmax in Hk. injection Hk as <-.
  injection Hfold as <-.
  split; [|split; [|split]].
  - rewrite total_components_app. unfold total_components at 2. simpl.
    by rewrite Nat.add_0_r.
  - cbn [global_tmp_loc]. rewrite Hloc. unfold stacked_channels.
    rewrite map_app, concat_app. simpl. by rewrite app_nil_r.
  - destruct Hpar as (-> & -> & -> & -> & -> & ->).
    unfold params_stacked. cbn [global_vbParam muhat Vhat invVhat nuhat
      lambdahat ahat]. rewrite !stacked_app, !stacked_singleton. done.
  - cbn [global_vbParam rhat]. intros t Ht.
    apply elem_of_app in Ht as [Ht|Ht].
    + destruct (Htrip t Ht) as (j & y & t0 & Hc).
      exists j, y, t0. by apply component_of_app.
    + apply list_elem_of_fmap in Ht as (t0 & -> & Ht0).
      exists (length folded), x, t0. repeat split; try done.
      * by apply list_lookup_middle.
      * rewrite comps_before_all. unfold shift_triplet, comp_id. simpl. lia.
Qed.

Lemma fold_channels_aligned (min_spikes : float)
    (folded rest : list fold_input) (st : global_state) :
  fl_le f0 min_spikes = true →
  Forall (pruned_input min_spikes) rest →
  components_aligned folded st →
  ∃ st', fold_channels rest (Some st) = Ok (Some st') ∧
         components_aligned (folded ++ rest) st'.
Proof.
  intros Hm Hall. revert folded st.
  induction Hall as [|x rest Hx _ IH]; intros folded st Hst.
  - exists st. split; [done|]. by rewrite app_nil_r.
  - destruct (components_aligned_next _ folded x st Hm Hx Hst)
      as (st1 & Hfold & Hst1).
    destruct (IH _ _ Hst1) as (st' & Hrest & Hst').
    exists st'. cbn [fold_channels]. rewrite Hfold. split; [exact Hrest|].
    by rewrite <- app_assoc in Hst'.
Qed.

(** When every folded channel state is an output of [clean_empty_cluster]
    for a non-negative threshold with a component left, the globals hold
    the parameter arrays of the channels one after the other, and every
    global triplet carries the probability of a triplet of one channel
    and a component id that leads to that channel in [global_tmp_loc] and
    to the parameters of the triplet's own component in the stacked
    arrays. *)
Theorem fold_component_alignment (min_spikes : float)
    (inputs : list fold_input) :
  fl_le f0 min_spikes = true →
  Forall (pruned_input min_spikes) inputs →
  inputs ≠ [] →
  ∃ st, fold_channels inputs None = Ok (Some st) ∧
        global_tmp_loc st = stacked_channels inputs ∧
        params_stacked inputs st ∧
        ∀ t, t ∈ rhat (global_vbParam st) →
          ∃ j x t0,
            component_of inputs t j x t0 ∧
            fl_gt t.2 f0 = true ∧
            (comp_id t0 < n_components (fi_vbParam x))%nat ∧
            global_tmp_loc st !! comp_id t = Some (fi_channel x) ∧
            muhat (global_vbParam st) !! comp_id t
            = muhat (fi_vbParam x) !! comp_id t0 ∧
            Vhat (global_vbParam st) !! comp_id t
            = Vhat (fi_vbParam x) !! comp_id t0 ∧
            invVhat (global_vbParam st) !! comp_id t
            = invVhat (fi_vbParam x) !! comp_id t0 ∧
            nuhat (global_vbParam st) !! comp_id t
            = nuhat (fi_vbParam x) !! comp_id t0 ∧
            lambdahat (global_vbParam st) !! comp_id t
            = lambdahat (fi_vbParam x) !! comp_id t0 ∧
            ahat (global_vbParam st) !! comp_id t
            = ahat (fi_vbParam x) !! comp_id t0.
Proof.
  intros Hm Hall Hne. destruct inputs as [|x inputs]; [done|].
  pose proof Hall as Hall'. apply Forall_cons in Hall' as [Hx Hrest].
  destruct (components_aligned_first _ x Hm Hx) as (st0 & H0 & Hst0).
  destruct (fold_channels_aligned _ [x] inputs st0 Hm Hrest Hst0)
    as (st & Hfold & _ & Hloc & Hpar & Htrip).
  exists st. cbn [fold_channels]. rewrite H0. cbn [mbind result_bind].
  split; [exact Hfold|]. split; [exact Hloc|]. split; [exact Hpar|].
  intros t Ht. destruct (Htrip t Ht) as (j & y & t0 & Hc).
  exists j, y, t0. split; [exact Hc|].
  destruct Hc as (Hj & Ht0 & Hp & Hid).
  assert (Hy : pruned_input min_spikes y).
  { eapply Forall_lookup_1 in Hall; [|exact Hj]. exact Hall. }
  destruct (pruned_input_facts _ _ Hm Hy) as (_ & Hlt & _).
  specialize (Hlt t0 Ht0).
  assert (Hshapes : Forall (λ z, vb_shape (n_components (fi_vbParam z))
                                          (fi_vbParam z)) (x :: inputs)).
  { eapply Forall_impl; [exact Hall|]. intros z Hz.
    by eapply pruned_input_shape. }
  split.
  { rewrite Hp. apply elem_of_triplets_of in Ht0 as (_ & _ & _ & Hpos).
    exact Hpos. }
  split; [exact Hlt|]. rewrite Hid, Hloc.
  split; [by apply stacked_channels_lookup|].
  destruct Hpar as (-> & -> & -> & -> & -> & ->).
  repeat split; apply stacked_lookup; try done;
    (eapply Forall_impl; [exact Hshapes|]); intros z Hz;
    destruct Hz as (? & ? & ? & ? & ? & ? & _); done.
Qed.

Lemma fold_component_alignment_witness :
  ∃ st, fold_channels [ex_input_a; ex_input_b] None = Ok (Some st) ∧
        global_tmp_loc st = stacked_channels [ex_input_a; ex_input_b].
Proof.
  destruct (fold_component_alignment f0 [ex_input_a; ex_input_b])
    as (st & Hfold & Hloc & _).
  - reflexivity.
  - repeat constructor; [exact ex_input_a_pruned|exact ex_input_b_pruned].
  - discriminate.
  - by exists st.
Defined.

(** ** The orchestrators and the rows of their input *)

Lemma n_channels_of_Ok (spike_index : list spike_ref) :
  spike_index ≠ [] → ∃ n, n_channels_of spike_index = Ok n.
Proof.
  intros Hne. unfold n_channels_of.
  destruct (max_id_is_Some (map snd spike_index)) as [m Hm].
  { intros E. by apply fmap_nil_inv in E. }
  rewrite Hm. by eexists.
Qed.

Lemma for_channels_const (body : option global_state → nat →
                                 result (option global_state))
    (channels : list nat) (g : option global_state) :
  (∀ c, c ∈ channels → body g c = Ok g) →
  for_channels body channels g = Ok g.
Proof.
  induction channels as [|c channels IH]; intros H; [done|].
  cbn [for_channels]. rewrite H by apply list_elem_of_here.
  cbn [mbind result_bind]. apply IH. intros c' Hc'. apply H.
  by apply list_elem_of_further.
Qed.

(** When no channel has two spikes, both orchestrators return without
    globals: the caller receives [None] four times.  [run_cluster] reads
    the mask and the group of every channel up to the largest one, and
    needs them to be there. *)
Theorem orchestrators_without_channel (spikesort : fitter)
    (scores : list feature) (spike_index : list spike_ref)
    (min_spikes : float) :
  spike_index ≠ [] →
  (length spike_index ≤ length scores)%nat →
  (∀ c, (length (channel_rows spike_index c) < 2)%nat) →
  run_cluster_location spikesort scores spike_index min_spikes = Ok None ∧
  ∀ masks groups n,
    n_channels_of spike_index = Ok n →
    (n ≤ length masks)%nat → (n ≤ length groups)%nat →
    run_cluster spikesort scores masks groups spike_index min_spikes
    = Ok None.
Proof.
  intros Hne Hlen Hfew. destruct (n_channels_of_Ok _ Hne) as [n Hn]. split.
  - unfold run_cluster_location. rewrite Hn. cbn [mbind result_bind].
    apply for_channels_const. intros c _.
    apply run_cluster_location_body_skips; [done|]. left. apply Hfew.
  - intros masks groups n' Hn' Hmasks Hgroups.
    rewrite Hn in Hn'. injection Hn' as <-.
    unfold run_cluster. rewrite Hn. cbn [mbind result_bind].
    apply for_channels_const. intros c Hc. apply elem_of_seq in Hc.
    apply run_cluster_body_few_spikes; [done| | |apply Hfew];
      apply lookup_lt_is_Some; lia.
Qed.

Lemma orchestrators_without_channel_witness :
  run_cluster_location one_cluster_fitter ex_channel_scores
                       [(10, 0); (20, 1); (30, 2)]%nat ex_min_spikes
  = Ok None.
Proof.
  apply (orchestrators_without_channel one_cluster_fitter ex_channel_scores
           [(10, 0); (20, 1); (30, 2)]%nat ex_min_spikes).
  - discriminate.
  - simpl. lia.
  - intros c. unfold channel_rows.
    destruct c as [|[|[|c]]]; simpl; lia.
Defined.

Lemma take_indices_Forall2 {A : Type} (a : list A) (idx : list nat)
    (l : list A) :
  take_indices a idx = Ok l ↔ Forall2 (λ i x, a !! i = Some x) idx l.
Proof.
  unfold take_indices. rewrite <- mapM_Some. split.
  - by intros ?%of_option_Ok.
  - by intros ->.
Qed.

Lemma take_indices_app {A : Type} (a : list A) (i1 i2 : list nat)
    (l1 l2 : list A) :
  take_indices a i1 = Ok l1 → take_indices a i2 = Ok l2 →
  take_indices a (i1 ++ i2) = Ok (l1 ++ l2).
Proof. rewrite !take_indices_Forall2. apply Forall2_app. Qed.

Lemma where_true_sublist (mask : list bool) (start : nat) :
  omap (λ p : nat * bool, if p.2 then Some p.1 else None)
       (zip (seq start (length mask)) mask)
  `sublist_of` seq start (length mask).
Proof.
  revert start. induction mask as [|b mask IH]; intros start; [done|].
  simpl. destruct b; simpl.
  - apply sublist_skip. apply IH.
  - apply sublist_cons. apply IH.
Qed.

Lemma where_true_NoDup (mask : list bool) : NoDup (where_true mask).
Proof.
  eapply sublist_NoDup; [apply NoDup_seq|]. apply where_true_sublist.
Qed.

Lemma elem_of_channel_rows (spike_index : list spike_ref) (c i : nat) :
  i ∈ channel_rows spike_index c ↔
  ∃ s, spike_index !! i = Some s ∧ s.2 = c.
Proof.
  unfold channel_rows. rewrite elem_of_where_true.
  rewrite map_fmap, list_lookup_fmap. split.
  - destruct (spike_index !! i) as [s|]; [|done]. simpl. intros [= H].
    exists s. split; [done|]. by apply Nat.eqb_eq.
  - intros (s & -> & <-). simpl. by rewrite Nat.eqb_refl.
Qed.

(** The scores and spike references after a fold. *)
Lemma global_cluster_info_rows (vb : vbPar mat) (c : nat)
    (sc : list feature) (si : list spike_ref) (g : option global_state)
    (st : global_state) :
  global_cluster_info vb c sc si g = Ok st →
  global_score st = from_option global_score [] g ++ sc ∧
  global_spike_index st = from_option global_spike_index [] g ++ si.
Proof.
  destruct g as [st0|]; intros H.
  - apply global_cluster_info_shift in H
      as (? & ? & _ & _ & _ & _ & _ & Hs & Hi & _). done.
  - by injection H as <-.
Qed.

(** What an iteration of either channel loop does to the globals. *)
Lemma run_cluster_location_body_outcome (spikesort : fitter)
    (scores : list feature) (spike_index : list spike_ref)
    (min_spikes : float) (g g' : option global_state) (c : nat) :
  run_cluster_location_body spikesort scores spike_index min_spikes g c
  = Ok g' →
  g' = g ∨
  ∃ vb sc si st,
    (1 < length sc)%nat ∧
    take_indices scores (channel_rows spike_index c) = Ok sc ∧
    take_indices spike_index (channel_rows spike_index c) = Ok si ∧
    global_cluster_info vb c sc si g = Ok st ∧ g' = Some st.
Proof.
  unfold run_cluster_location_body. intros H.
  apply bind_Ok in H as (sc & Hsc & H).
  apply bind_Ok in H as (si & Hsi & H).
  destruct (decide (1 < length sc)%nat) as [Hn|]; [|left; by injection H].
  destruct (decide (0 < ncols _)%nat); [|left; by injection H].
  apply bind_Ok in H as (st & Hfold & H). injection H as <-.
  right. by eexists _, sc, si, st.
Qed.

Lemma run_cluster_body_outcome (spikesort : fitter)
    (scores : list feature) (masks : list mat) (groups : list (list nat))
    (spike_index : list spike_ref) (min_spikes : float)
    (g g' : option global_state) (c : nat) :
  run_cluster_body spikesort scores masks groups spike_index min_spikes g c
  = Ok g' →
  g' = g ∨
  ∃ vb sc si st,
    (1 < length sc)%nat ∧
    take_indices scores (channel_rows spike_index c) = Ok sc ∧
    take_indices spike_index (channel_rows spike_index c) = Ok si ∧
    global_cluster_info vb c sc si g = Ok st ∧ g' = Some st.
Proof.
  unfold run_cluster_body. intros H.
  apply bind_Ok in H as (sc & Hsc & H).
  apply bind_Ok in H as (mk & _ & H).
  apply bind_Ok in H as (gr & _ & H).
  apply bind_Ok in H as (si & Hsi & H).
  destruct (decide (1 < length sc)%nat) as [Hn|]; [|left; by injection H].
  apply bind_Ok in H as (st & Hfold & H). injection H as <-.
  right. by eexists _, sc, si, st.
Qed.

Lemma rows_so_far_skip (scores : list feature)
    (spike_index : list spike_ref) (c : nat) (g : option global_state) :
  rows_so_far scores spike_index c g →
  rows_so_far scores spike_index (S c) g.
Proof.
  destruct g as [st|]; [|done]. intros (rows & Hk & Hlt).
  exists rows. split; [done|]. eapply Forall_impl; [exact Hlt|].
  simpl. intros. lia.
Qed.

Lemma rows_so_far_fold (scores : list feature)
    (spike_index : list spike_ref) (c : nat) (g : option global_state)
    (vb : vbPar mat) (sc : list feature) (si : list spike_ref)
    (st : global_state) :
  rows_so_far scores spike_index c g →
  (1 < length sc)%nat →
  take_indices scores (channel_rows spike_index c) = Ok sc →
  take_indices spike_index (channel_rows spike_index c) = Ok si →
  global_cluster_info vb c sc si g = Ok st →
  rows_so_far scores spike_index (S c) (Some st).
Proof.
  intros Hinv Hn Hsc Hsi Hfold.
  apply global_cluster_info_rows in Hfold as [Hgs Hgi].
  assert (Hsi_c : Forall (λ s : spike_ref, s.2 = c) si).
  { apply take_indices_Forall2 in Hsi. apply Forall_forall. intros s Hs.
    apply list_elem_of_lookup in Hs as [k Hk].
    destruct (Forall2_lookup_r _ _ _ _ _ Hsi Hk) as (i & Hi & His).
    apply list_elem_of_lookup_2 in Hi.
    apply elem_of_channel_rows in Hi as (s' & Hs' & Hc). congruence. }
  assert (Hlen : length (channel_rows spike_index c) = length sc).
  { apply take_indices_Forall2 in Hsc. by eapply Forall2_length. }
  assert (Hsorted_c : StronglySorted le (map snd si)).
  { clear -Hsi_c. induction Hsi_c as [|s si Hs Hall IH]; [constructor|].
    simpl. constructor; [done|]. apply Forall_forall. intros k Hk.
    apply list_elem_of_fmap in Hk as (s' & -> & Hs').
    eapply Forall_forall in Hall; [|exact Hs']. simpl in Hall. lia. }
  assert (Hchan : ∀ i j s s', spike_index !! i = Some s →
                    spike_index !! j = Some s' → s.2 = s'.2 →
                    i ∈ channel_rows spike_index c →
                    j ∈ channel_rows spike_index c).
  { intros i j s s' Hi Hj Heq Hin.
    apply elem_of_channel_rows in Hin as (s0 & Hs0 & Hc).
    apply elem_of_channel_rows. exists s'. split; [done|]. congruence. }
  assert (Htwo : ∀ s, s ∈ si →
                      (2 ≤ length (channel_rows spike_index s.2))%nat).
  { intros s Hs. eapply Forall_forall in Hsi_c; [|exact Hs].
    simpl in Hsi_c. rewrite Hsi_c. lia. }
  destruct g as [st0|]; simpl in Hgs, Hgi.
  - destruct Hinv as (rows & (Hnd & Hrs & Hri & Hso & Hwhole & H2) & Hlt).
    exists (rows ++ channel_rows spike_index c). split; [split|].
    + apply NoDup_app. split; [done|]. split; [|apply where_true_NoDup].
      intros i Hi Hic.
      apply elem_of_channel_rows in Hic as (s & Hs & Hc).
      apply take_indices_Forall2 in Hri.
      apply list_elem_of_lookup in Hi as [k Hk].
      destruct (Forall2_lookup_l _ _ _ _ _ Hri Hk) as (s' & Hs' & His').
      apply list_elem_of_lookup_2 in Hs'.
      eapply Forall_forall in Hlt; [|exact Hs']. simpl in Hlt.
      rewrite Hs in His'. injection His' as <-. lia.
    + rewrite Hgs, Hgi. split; [by apply take_indices_app|].
      split; [by apply take_indices_app|]. split; [|split].
      * rewrite map_app. apply StronglySorted_app_2; [|done..].
        intros k1 k2 Hk1 Hk2.
        apply list_elem_of_fmap in Hk1 as (s1 & -> & Hs1).
        apply list_elem_of_fmap in Hk2 as (s2 & -> & Hs2).
        eapply Forall_forall in Hlt; [|exact Hs1].
        eapply Forall_forall in Hsi_c; [|exact Hs2]. simpl in *. lia.
      * intros i j s s' Hi Hj Heq Hin.
        apply elem_of_app in Hin as [Hin|Hin]; apply elem_of_app.
        -- left. exact (Hwhole i j s s' Hi Hj Heq Hin).
        -- right. exact (Hchan i j s s' Hi Hj Heq Hin).
      * intros s Hs. apply elem_of_app in Hs as [Hs|Hs]; auto.
    + rewrite Hgi. apply Forall_app. split.
      * eapply Forall_impl; [exact Hlt|]. simpl. intros. lia.
      * eapply Forall_impl; [exact Hsi_c|]. simpl. intros. lia.
  - exists (channel_rows spike_index c). split; [split|].
    + apply where_true_NoDup.
    + rewrite Hgs, Hgi. by repeat split.
    + rewrite Hgi. eapply Forall_impl; [exact Hsi_c|]. simpl. intros. lia.
Qed.

Lemma for_channels_rows (body : option global_state → nat →
                                result (option global_state))
    (scores : list feature) (spike_index : list spike_ref) :
  (∀ c g g', rows_so_far scores spike_index c g → body g c = Ok g' →
             rows_so_far scores spike_index (S c) g') →
  ∀ n a g g',
    rows_so_far scores spike_index a g →
    for_channels body (seq a n) g = Ok g' →
    rows_so_far scores spike_index (a + n) g'.
Proof.
  intros Hstep. induction n as [|n IH]; intros a g g' Hinv H.
  - simpl in H. injection H as <-. by rewrite Nat.add_0_r.
  - cbn [seq for_channels] in H. apply bind_Ok in H as (g1 & Hb & H).
    replace (a + S n)%nat with (S a + n)%nat by lia.
    eapply IH; [|exact H]. by eapply Hstep.
Qed.

(** Whatever globals either orchestrator returns, its scores and spike
    references are rows of the input, paired as in the input: there is a
    list of row numbers without repetition such that [global_score] and
    [global_spike_index] are the input's [scores] and [spike_index] at
    these rows.  The rows come channel after channel in increasing order,
    a channel is kept whole or left out, and a channel with fewer than two
    spikes is never kept. *)
Theorem orchestrators_keep_rows (spikesort : fitter)
    (scores : list feature) (masks : list mat) (groups : list (list nat))
    (spike_index : list spike_ref) (min_spikes : float)
    (st : global_state) :
  run_cluster_location spikesort scores spike_index min_spikes
  = Ok (Some st) ∨
  run_cluster spikesort scores masks groups spike_index min_spikes
  = Ok (Some st) →
  ∃ rows, kept_rows scores spike_index st rows.
Proof.
  intros [H|H].
  - unfold run_cluster_location in H. apply bind_Ok in H as (n & _ & H).
    eapply for_channels_rows in H; [|clear H|exact I].
    + destruct H as (rows & Hk & _). by exists rows.
    + intros c g g' Hinv Hb.
      apply run_cluster_location_body_outcome in Hb
        as [->|(vb & sc & si & st' & Hn & Hsc & Hsi & Hf & ->)].
      * by apply rows_so_far_skip.
      * by eapply rows_so_far_fold.
  - unfold run_cluster in H. apply bind_Ok in H as (n & _ & H).
    eapply for_channels_rows in H; [|clear H|exact I].
    + destruct H as (rows & Hk & _). by exists rows.
    + intros c g g' Hinv Hb.
      apply run_cluster_body_outcome in Hb
        as [->|(vb & sc & si & st' & Hn & Hsc & Hsi & Hf & ->)].
      * by apply rows_so_far_skip.
      * by eapply rows_so_far_fold.
Qed.

Lemma orchestrators_keep_rows_witness :
  ∃ st rows,
    run_cluster_location one_cluster_fitter ex_channel_scores ex_spike_index
                         ex_min_spikes = Ok (Some st) ∧
    kept_rows ex_channel_scores ex_spike_index st rows.
Proof.
  destruct (run_cluster_location one_cluster_fitter ex_channel_scores
              ex_spike_index ex_min_spikes) as [[st|]|e] eqn:H;
    [|by vm_compute in H..].
  destruct (orchestrators_keep_rows one_cluster_fitter ex_channel_scores
              ex_masks ex_groups ex_spike_index ex_min_spikes st
              (or_introl H)) as [rows Hrows].
  by exists st, rows.
Defined.

(** ** Waveform alignment: slices and strides *)

Lemma slice_bound_in (len i : nat) :
  (i ≤ len)%nat → slice_bound len (Z.of_nat i) = i.
Proof.
  intros Hi. unfold slice_bound.
  destruct (Z.ltb_spec (Z.of_nat i) 0) as [Hneg|_]; lia.
Qed.

(** A slice whose bounds lie in the list. *)
Lemma py_slice_in_range {A : Type} (a b : nat) (l : list A) :
  (a ≤ b ≤ length l)%nat →
  py_slice (Z.of_nat a) (Z.of_nat b) l = take (b - a) (drop a l) ∧
  length (py_slice (Z.of_nat a) (Z.of_nat b) l) = (b - a)%nat.
Proof.
  intros Hab. unfold py_slice.
  rewrite !slice_bound_in by lia. split; [done|].
  rewrite length_take, length_drop. lia.
Qed.

Lemma py_slice_from_in_range {A : Type} (a : nat) (l : list A) :
  (a ≤ length l)%nat → py_slice_from (Z.of_nat a) l = drop a l.
Proof. intros Ha. unfold py_slice_from. by rewrite slice_bound_in. Qed.

Lemma strided_lookup {A : Type} (step skip t : nat) (l : list A) :
  (0 < step)%nat →
  strided step skip l !! t = l !! (skip + step * t)%nat.
Proof.
  intros Hstep. revert skip t.
  induction l as [|x l IH]; intros skip t; [done|].
  destruct skip as [|skip]; cbn [strided].
  - destruct t as [|t].
    + by rewrite Nat.mul_0_r.
    + cbn [lookup list_lookup]. rewrite IH.
      replace (0 + step * S t)%nat with (S (step - 1 + step * t))%nat by lia.
      done.
  - rewrite IH. done.
Qed.

(** ** [shift_template] *)

Lemma half_up_opp (n : nat) :
  (Z.opp (Z.of_nat n) / 2)%Z = (- Z.of_nat ((n + 1) / 2))%Z.
Proof.
  rewrite Nat2Z.inj_div. rewrite Nat2Z.inj_add. simpl (Z.of_nat 2).
  simpl (Z.of_nat 1). generalize (Z.of_nat n). intros z.
  Z.div_mod_to_equations. lia.
Qed.

Lemma half_down (n : nat) :
  (Z.of_nat n / 2)%Z = Z.of_nat (n / 2).
Proof. by rewrite Nat2Z.inj_div. Qed.

Lemma half_split (n : nat) : ((n + 1) / 2 + n / 2 = n)%nat.
Proof.
  apply Nat2Z.inj. rewrite Nat2Z.inj_add, !Nat2Z.inj_div, Nat2Z.inj_add.
  simpl (Z.of_nat 2). simpl (Z.of_nat 1). generalize (Z.of_nat n).
  intros z. Z.div_mod_to_equations. lia.
Qed.

Lemma shift_template_in_range (template_upsampled : list float)
    (n_shifts window : nat) :
  let mid := (length template_upsampled / 2)%nat in
  let lo := ((n_shifts + 1) / 2)%nat in
  (lo + window ≤ mid)%nat →
  (mid + window + n_shifts / 2 ≤ length template_upsampled)%nat →
  length (shift_template template_upsampled (Z.of_nat n_shifts)
                         (Z.of_nat window)) = S n_shifts ∧
  ∀ r, (r ≤ n_shifts)%nat →
       ∃ row, shift_template template_upsampled (Z.of_nat n_shifts)
                             (Z.of_nat window) !! r = Some row ∧
              length row = (2 * window)%nat ∧
              ∀ j, (j < 2 * window)%nat →
                   row !! j
                   = template_upsampled !! (mid - window - lo + r + j)%nat.
Proof.
  intros mid lo Hlo Hhi. unfold shift_template. fold mid.
  rewrite half_up_opp, half_down. fold lo.
  pose proof (half_split n_shifts) as Hsplit. fold lo in Hsplit.
  assert (Hcount : (Z.of_nat (n_shifts / 2) + 1 - - Z.of_nat lo)%Z
                   = Z.of_nat (S n_shifts)) by lia.
  rewrite Hcount. split.
  - by rewrite length_map, length_seqZ, Nat2Z.id.
  - intros r Hr. rewrite map_fmap, list_lookup_fmap.
    rewrite lookup_seqZ_lt by lia. cbn [fmap option_fmap option_map].
    eexists. split; [reflexivity|].
    replace (Z.of_nat mid - Z.of_nat window + (- Z.of_nat lo + Z.of_nat r))%Z
      with (Z.of_nat (mid - window - lo + r)) by lia.
    replace (Z.of_nat mid + Z.of_nat window + (- Z.of_nat lo + Z.of_nat r))%Z
      with (Z.of_nat (mid + window - lo + r)) by lia.
    destruct (py_slice_in_range (mid - window - lo + r)
                (mid + window - lo + r) template_upsampled) as [Heq Hlen];
      [lia|].
    split; [rewrite Hlen; lia|]. intros j Hj. rewrite Heq.
    rewrite lookup_take_lt by lia. by rewrite lookup_drop.
Qed.

(** When the window fits into the template for every shift,
    [shift_template] returns [n_shifts + 1] rows of [2 * window] samples:
    row [r] is the window around the middle of the template moved by
    [r - ceil(n_shifts / 2)] samples, so the unshifted window is row
    [ceil(n_shifts / 2)]. *)
Theorem shift_template_rows (template_upsampled : list float)
    (n_shifts window : nat) :
  let mid := (length template_upsampled / 2)%nat in
  let lo := ((n_shifts + 1) / 2)%nat in
  (lo + window ≤ mid)%nat →
  (mid + window + n_shifts / 2 ≤ length template_upsampled)%nat →
  length (shift_template template_upsampled (Z.of_nat n_shifts)
                         (Z.of_nat window)) = S n_shifts ∧
  ∀ r, (r ≤ n_shifts)%nat →
       ∃ row, shift_template template_upsampled (Z.of_nat n_shifts)
                             (Z.of_nat window) !! r = Some row ∧
              length row = (2 * window)%nat ∧
              ∀ j, (j < 2 * window)%nat →
                   row !! j
                   = template_upsampled !! (mid - window - lo + r + j)%nat.
Proof. apply shift_template_in_range. Qed.

Lemma shift_template_rows_witness :
  length (shift_template (map fl_of_nat (seq 0 10)) 2%Z 2%Z) = 3%nat.
Proof.
  apply (shift_template_rows (map fl_of_nat (seq 0 10)) 2 2); simpl; lia.
Defined.

(** ** [return_shifts] *)

Lemma mapR_length {A B : Type} (f : A → result B) (l : list A)
    (ys : list B) :
  mapR f l = Ok ys → length ys = length l.
Proof. intros H. apply mapR_Ok in H. symmetry. by eapply Forall2_length. Qed.

Lemma matmul_T_Ok (v : vec) (m : mat) (temp : vec) :
  matmul_T v m = Ok temp →
  temp = map (dot v) m ∧ Forall (λ row, length row = length v) m.
Proof.
  unfold matmul_T. destruct (forallb _ m) eqn:Hall; [|discriminate].
  intros [= <-]. split; [done|].
  apply Forall_forall. intros row Hrow.
  rewrite forallb_forall in Hall. apply Nat.eqb_eq, Hall.
  by apply list_elem_of_In.
Qed.

(** [return_shifts] answers with one shift per spike.  Each shift is the
    number of a row of [template_shifted], every row has the length of the
    spike's window, and when no product is NaN no row has a larger scalar
    product with the window than the row chosen. *)
Theorem return_shifts_best (wfs_upsampled : list (list float))
    (template_shifted : list (list float)) (window : Z)
    (shift_array : list nat) :
  return_shifts wfs_upsampled template_shifted window = Ok shift_array →
  length shift_array = length wfs_upsampled ∧
  ∀ k col shift,
    wfs_upsampled !! k = Some col → shift_array !! k = Some shift →
    (shift < length template_shifted)%nat ∧
    Forall (λ row, length row = length (matching_window window col))
           template_shifted ∧
    (Forall (λ row, is_nan (dot (matching_window window col) row) = false)
            template_shifted →
     ∃ best, template_shifted !! shift = Some best ∧
             Forall (λ row, fl_le (dot (matching_window window col) row)
                                  (dot (matching_window window col) best)
                            = true)
                    template_shifted).
Proof.
  intros H. split; [by eapply mapR_length|].
  apply mapR_Ok in H. intros k col shift Hcol Hshift.
  destruct (Forall2_lookup_l _ _ _ _ _ H Hcol) as (shift' & Hs' & Hf).
  rewrite Hshift in Hs'. injection Hs' as <-. cbv beta zeta in Hf.
  apply bind_Ok in Hf as (temp & Htemp & Harg).
  apply matmul_T_Ok in Htemp as [-> Hrows].
  apply np_argmax_spec in Harg as [Hlt Hmax].
  rewrite length_map in Hlt. split; [done|]. split; [exact Hrows|].
  intros Hnan. destruct Hmax as (y & Hy & Hle).
  { apply Forall_forall. intros x Hx.
    apply list_elem_of_fmap in Hx as (row & -> & Hrow).
    eapply Forall_forall in Hnan; [|exact Hrow]. exact Hnan. }
  rewrite map_fmap, list_lookup_fmap in Hy.
  destruct (template_shifted !! shift) as [best|] eqn:Hbest; [|done].
  injection Hy as <-. exists best. split; [done|].
  apply Forall_forall. intros row Hrow.
  eapply Forall_forall in Hle; [exact Hle|].
  apply list_elem_of_fmap. by exists row.
Qed.

Lemma return_shifts_best_witness :
  ∃ shift_array,
    return_shifts [map fl_of_nat (seq 0 10)]
                  (shift_template (map fl_of_nat (seq 0 10)) 2 2) 2
    = Ok shift_array ∧
    length shift_array = 1%nat.
Proof.
  destruct (return_shifts [map fl_of_nat (seq 0 10)]
              (shift_template (map fl_of_nat (seq 0 10)) 2 2) 2)
    as [shifts|e] eqn:H; [|by vm_compute in H].
  exists shifts. split; [done|].
  exact (proj1 (return_shifts_best _ _ _ _ H)).
Defined.

(** ** [align_channelwise] *)

Lemma py_slice_from_nat {A : Type} (a : nat) (l : list A) :
  py_slice_from (Z.of_nat a) l = drop a l.
Proof.
  unfold py_slice_from, slice_bound.
  destruct (Z.ltb_spec (Z.of_nat a) 0) as [Hneg|_]; [lia|].
  destruct (decide (a ≤ length l)%nat) as [Hle|Hgt].
  - f_equal. lia.
  - replace (Z.to_nat _) with (length l) by lia.
    rewrite !drop_ge by lia. done.
Qed.

Lemma broadcast_to_id (n : nat) (v : vec) :
  length v = n → broadcast_to n v = Ok v.
Proof.
  intros Hlen. unfold broadcast_to. destruct v as [|x [|y v]].
  - by rewrite decide_True.
  - simpl in Hlen. by subst n.
  - by rewrite decide_True.
Qed.

Lemma mapR_map {A B : Type} (f : A → result B) (g : A → B) (l : list A) :
  Forall (λ x, f x = Ok (g x)) l → mapR f l = Ok (map g l).
Proof.
  induction 1 as [|x l Hx _ IH]; [done|].
  cbn [mapR map]. rewrite Hx, IH. done.
Qed.

Lemma mapR_Forall2 {A B : Type} (f : A → result B) (P : A → B → Prop)
    (l : list A) :
  Forall (λ x, ∃ y, f x = Ok y ∧ P x y) l →
  ∃ ys, mapR f l = Ok ys ∧ Forall2 P l ys.
Proof.
  induction 1 as [|x l (y & Hy & Hp) _ (ys & Hys & Hall)].
  - exists []. split; [done|constructor].
  - exists (y :: ys). cbn [mapR]. rewrite Hy, Hys.
    split; [done|by constructor].
Qed.

Lemma upsample_resample_Ok (resample : list float → nat → list float)
    (wf : list (list float)) (upsample_factor : nat) :
  resample_ok resample →
  upsample_resample resample wf upsample_factor
  = Ok (map (λ col, resample col (ncols wf * upsample_factor)%nat) wf).
Proof.
  intros Hres. unfold upsample_resample. apply mapR_map.
  apply Forall_forall. intros col _. apply broadcast_to_id, Hres.
Qed.

(** The chunk of one upsampled waveform: sample [a + k * t] of the
    waveform at entry [t], zero where the waveform ends before. *)
Lemma aligned_chunk_Ok (k n n_shifts shift : nat) (row : list float) :
  (0 < k)%nat → (shift ≤ n_shifts)%nat →
  aligned_chunk k n n_shifts row shift
  = Ok (aligned_row k n (n_shifts - shift) row).
Proof.
  intros Hk Hshift. unfold aligned_chunk, py_stride.
  rewrite decide_False by lia. cbn [mbind result_bind]. f_equal.
  replace (Z.of_nat n_shifts - Z.of_nat shift)%Z
    with (Z.of_nat (n_shifts - shift)) by lia.
  rewrite py_slice_from_nat.
  set (a := (n_shifts - shift)%nat).
  set (picked := strided k 0 (drop a row)).
  assert (Hpicked : ∀ t, picked !! t = row !! (a + k * t)%nat).
  { intros t. subst picked. rewrite strided_lookup by done.
    by rewrite lookup_drop. }
  apply list_eq. intros t. unfold aligned_row.
  rewrite map_fmap, list_lookup_fmap.
  destruct (decide (t < n)%nat) as [Ht|Ht].
  - rewrite lookup_seq_lt by done. cbn [fmap option_fmap option_map].
    unfold aligned_entry. rewrite Nat.add_0_l, <- Hpicked.
    destruct (decide (length (take n picked) < n)%nat) as [Hshort|Hfull].
    + rewrite length_take in Hshort.
      destruct (decide (t < length picked)%nat) as [Hin|Hout].
      * rewrite lookup_app_l by (rewrite length_take; lia).
        rewrite lookup_take_lt by done.
        destruct (lookup_lt_is_Some_2 picked t Hin) as [x Hx].
        by rewrite Hx.
      * rewrite lookup_app_r by (rewrite length_take; lia).
        rewrite (lookup_ge_None_2 picked t) by lia. simpl.
        apply lookup_replicate_2. rewrite length_take. lia.
    + rewrite length_take in Hfull. rewrite lookup_take_lt by done.
      destruct (lookup_lt_is_Some_2 picked t) as [x Hx]; [lia|].
      by rewrite Hx.
  - rewrite (lookup_ge_None_2 (seq 0 n)) by (rewrite length_seq; lia).
    simpl. apply lookup_ge_None_2.
    destruct (decide (length (take n picked) < n)%nat) as [Hshort|Hfull].
    + rewrite length_app, length_replicate. lia.
    + rewrite length_take in *. lia.
Qed.

Lemma np_argmax_lt (l : list float) :
  l ≠ [] → ∃ m, np_argmax l = Ok m ∧ (m < length l)%nat.
Proof.
  intros Hne. destruct (np_argmax_Ok l Hne) as [m Hm].
  exists m. split; [done|]. by apply np_argmax_spec in Hm as [? _].
Qed.

Lemma return_shifts_Ok (cols : list (list float)) (T : list (list float))
    (window L : nat) :
  T ≠ [] →
  Forall (λ col, length col = L) cols →
  Forall (λ row, length row = (2 * window)%nat) T →
  (window ≤ L / 2)%nat → (L / 2 + window ≤ L)%nat →
  ∃ shifts, return_shifts cols T (Z.of_nat window) = Ok shifts ∧
            length shifts = length cols ∧
            Forall (λ s, (s < length T)%nat) shifts.
Proof.
  intros HT Hcols Hrows Hlo Hhi. unfold return_shifts.
  destruct (mapR_Forall2
              (λ col : list float,
                 temp ← matmul_T
                          (py_slice
                             (Z.of_nat (length col / 2)%nat
                              - Z.of_nat window)%Z
                             (Z.of_nat (length col / 2)%nat
                              + Z.of_nat window)%Z col) T;
                 np_argmax temp)
              (λ _ s, (s < length T)%nat) cols) as (shifts & Hs & Hall).
  { eapply Forall_impl; [exact Hcols|]. intros col Hcol. cbv beta in Hcol.
    rewrite Hcol.
    replace (Z.of_nat (L / 2)%nat - Z.of_nat window)%Z
      with (Z.of_nat (L / 2 - window)) by lia.
    replace (Z.of_nat (L / 2)%nat + Z.of_nat window)%Z
      with (Z.of_nat (L / 2 + window)) by lia.
    destruct (py_slice_in_range (L / 2 - window) (L / 2 + window) col)
      as [_ Hlen]; [lia|].
    unfold matmul_T.
    assert (Hall : forallb
              (λ row : list float,
                 length row
                 =? length (py_slice (Z.of_nat (L / 2 - window))
                                     (Z.of_nat (L / 2 + window)) col))%nat T
              = true).
    { apply forallb_forall. intros row Hrow. apply Nat.eqb_eq.
      apply list_elem_of_In in Hrow.
      eapply Forall_forall in Hrows; [|exact Hrow]. simpl in Hrows.
      rewrite Hlen. lia. }
    rewrite Hall. cbn [mbind result_bind].
    destruct (np_argmax_lt (map (dot (py_slice (Z.of_nat (L / 2 - window))
                                               (Z.of_nat (L / 2 + window))
                                               col)) T))
      as (m & Hm & Hlt).
    { intros E. by apply fmap_nil_inv in E. }
    exists m. split; [done|]. by rewrite length_map in Hlt. }
  exists shifts. split; [done|]. split.
  - symmetry. by eapply Forall2_length.
  - clear -Hall. induction Hall; constructor; done.
Qed.

Lemma align_bounds (k n : nat) :
  (0 < k)%nat → (22 ≤ n)%nat →
  ((7 * k + 1) / 2 + 7 * k ≤ k * n / 2)%nat ∧
  (k * n / 2 + 7 * k + 7 * k / 2 ≤ k * n)%nat.
Proof.
  intros Hk Hn. assert (HL : (22 * k ≤ k * n)%nat) by nia.
  generalize dependent (k * n)%nat. intros L HL.
  pose proof (Nat.div_mod_eq (7 * k + 1) 2) as E1.
  pose proof (Nat.mod_upper_bound (7 * k + 1) 2) as B1.
  pose proof (Nat.div_mod_eq L 2) as E2.
  pose proof (Nat.mod_upper_bound L 2) as B2.
  pose proof (Nat.div_mod_eq (7 * k) 2) as E3.
  pose proof (Nat.mod_upper_bound (7 * k) 2) as B3.
  split; lia.
Qed.

(** The last loop of [align_channelwise], starting at spike [start]. *)
Lemma align_loop_Ok (k n M start : nat) (resample : list float → nat →
                                                   list float)
    (wf_upsampled wf : list (list float)) (shifts : list nat) :
  (0 < k)%nat → length wf = length shifts →
  (∀ j col, wf !! j = Some col →
            wf_upsampled !! (start + j)%nat = Some (resample col M)) →
  Forall (λ shift, (shift ≤ 7 * k)%nat) shifts →
  mapR (λ p : nat * nat,
          row ← of_option IndexError (wf_upsampled !! p.1);
          aligned_chunk k n (7 * k) row p.2)
       (zip (seq start (length shifts)) shifts)
  = Ok (zip_with (λ col shift,
                    aligned_row k n (7 * k - shift) (resample col M))
                 wf shifts).
Proof.
  intros Hk. revert start wf.
  induction shifts as [|shift shifts IH]; intros start wf Hlen Hup Hall.
  - destruct wf; done.
  - destruct wf as [|col wf]; [done|].
    apply Forall_cons in Hall as [Hshift Hall].
    cbn [length seq zip zip_with mapR fst snd].
    pose proof (Hup 0%nat col eq_refl) as H0.
    rewrite Nat.add_0_r in H0. rewrite H0. cbn [of_option mbind result_bind].
    rewrite aligned_chunk_Ok by done. cbn [mbind result_bind].
    rewrite (IH (S start) wf); [done| |  |done].
    + simpl in Hlen. lia.
    + intros j col' Hj. specialize (Hup (S j) col' Hj).
      by rewrite <- Nat.add_succ_comm in Hup.
Qed.

(** With waveforms of at least 22 samples and a resampler that returns as
    many samples as asked for, [align_channelwise] does not raise and
    returns one row of [waveform_len] entries per spike.  The row of a
    spike with shift [s] (at most [7 * upsample_factor]) holds every
    [upsample_factor]-th sample of the spike's upsampled waveform from
    offset [7 * upsample_factor - s] on, and zeros where the upsampled
    waveform has ended: the waveform is moved by up to seven samples
    towards its start, only the last seven entries can be padding. *)
Theorem align_channelwise_rows (resample : list float → nat → list float)
    (wf : list (list float)) (upsample_factor waveform_len : nat) :
  resample_ok resample → wf ≠ [] →
  Forall (λ col, length col = waveform_len) wf →
  (22 ≤ waveform_len)%nat → (0 < upsample_factor)%nat →
  ∃ (shift_array : list nat) out,
    align_channelwise resample wf upsample_factor = Ok out ∧
    length out = length wf ∧
    Forall (λ row, length row = waveform_len) out ∧
    ∀ i col,
      wf !! i = Some col →
      ∃ shift,
        shift_array !! i = Some shift ∧
        (shift ≤ 7 * upsample_factor)%nat ∧
        out !! i
        = Some (aligned_row upsample_factor waveform_len
                  (7 * upsample_factor - shift)
                  (resample col (waveform_len * upsample_factor)%nat)) ∧
        ∀ t, (t + 7 < waveform_len)%nat →
             out !! i ≫= (λ row, row !! t)
             = resample col (waveform_len * upsample_factor)%nat
               !! (7 * upsample_factor - shift + upsample_factor * t)%nat.
Proof.
  intros Hres Hne Hcols Hn Hk.
  set (k := upsample_factor) in *. set (n := waveform_len) in *.
  assert (Hncols : ncols wf = n).
  { destruct wf as [|col0 rest]; [done|]. simpl.
    by apply Forall_cons in Hcols as [? _]. }
  unfold align_channelwise. rewrite Hncols.
  rewrite (upsample_resample_Ok resample wf k Hres), Hncols.
  cbn [mbind result_bind].
  set (template := map (λ t, fl_mean (column wf t)) (seq 0 n)).
  assert (Htl : ncols [template] = n).
  { simpl. subst template. by rewrite length_map, length_seq. }
  rewrite (upsample_resample_Ok resample [template] k Hres), Htl.
  cbn [mbind result_bind map concat]. rewrite app_nil_r.
  rewrite decide_True by (rewrite Hres; lia). cbn [mbind result_bind].
  set (tu := resample template (n * k)%nat).
  assert (Htu : length tu = (k * n)%nat) by (subst tu; rewrite Hres; lia).
  destruct (align_bounds k n Hk Hn) as [Hlo Hhi].
  destruct (shift_template_in_range tu (7 * k) (7 * k)) as [HTlen HTrows];
    [rewrite Htu; exact Hlo|rewrite Htu; exact Hhi|].
  set (T := shift_template tu (Z.of_nat (7 * k)) (Z.of_nat (7 * k))) in *.
  destruct (return_shifts_Ok
              (map (λ col, resample col (n * k)%nat) wf) T (7 * k)
              (k * n)) as (shifts & Hshifts & Hslen & Hsall).
  { intros E. rewrite E in HTlen. done. }
  { apply Forall_forall. intros up Hup.
    apply list_elem_of_fmap in Hup as (col & -> & _). rewrite Hres. lia. }
  { apply Forall_forall. intros row Hrow.
    apply list_elem_of_lookup in Hrow as [r Hr].
    destruct (HTrows r) as (row' & Hr' & Hlen & _).
    { apply lookup_lt_Some in Hr. lia. }
    rewrite Hr in Hr'. by injection Hr' as <-. }
  { lia. }
  { lia. }
  rewrite Hshifts. cbn [mbind result_bind].
  rewrite length_map in Hslen.
  assert (Hle : Forall (λ shift, (shift ≤ 7 * k)%nat) shifts).
  { eapply Forall_impl; [exact Hsall|]. simpl. intros s Hs. lia. }
  rewrite (align_loop_Ok k n (n * k) 0 resample _ wf shifts Hk);
    [|done| |done].
  2:{ intros j col Hj. rewrite map_fmap, list_lookup_fmap. simpl.
      by rewrite Hj. }
  exists shifts. eexists. split; [reflexivity|].
  split; [rewrite length_zip_with; lia|]. split.
  { apply Forall_forall. intros row Hrow.
    apply list_elem_of_lookup in Hrow as [i Hi].
    apply lookup_zip_with_Some in Hi as (col & shift & -> & _ & _).
    unfold aligned_row. by rewrite length_map, length_seq. }
  intros i col Hi.
  destruct (lookup_lt_is_Some_2 shifts i) as [shift Hs].
  { apply lookup_lt_Some in Hi. lia. }
  exists shift. split; [done|].
  eapply Forall_lookup_1 in Hle as Hshift; [|exact Hs]. simpl in Hshift.
  split; [done|].
  assert (Hout : zip_with (λ col shift,
                             aligned_row k n (7 * k - shift)
                                         (resample col (n * k)%nat))
                          wf shifts !! i
                 = Some (aligned_row k n (7 * k - shift)
                                     (resample col (n * k)%nat))).
  { apply lookup_zip_with_Some. by exists col, shift. }
  split; [exact Hout|]. intros t Ht. rewrite Hout. cbn [mbind option_bind].
  unfold aligned_row. rewrite map_fmap, list_lookup_fmap.
  rewrite lookup_seq_lt by lia. cbn [fmap option_fmap option_map].
  unfold aligned_entry. rewrite Nat.add_0_l.
  destruct (lookup_lt_is_Some_2 (resample col (n * k)%nat)
              (7 * k - shift + k * t)%nat) as [x Hx].
  { rewrite Hres. nia. }
  by rewrite Hx.
Qed.

Lemma align_channelwise_rows_witness :
  ∃ out,
    align_channelwise (λ x n, replicate n f1) [replicate 22 f1] 1 = Ok out ∧
    length out = 1%nat.
Proof.
  destruct (align_channelwise_rows (λ x n, replicate n f1)
              [replicate 22 f1] 1 22)
    as (shifts & out & Hout & Hlen & _).
  - intros x n. apply length_replicate.
  - discriminate.
  - repeat constructor.
  - lia.
  - lia.
  - by exists out.
Defined.

(** ** Chunks of a recording *)

Lemma Q_of_nat_pos (c : nat) :
  (0 < c)%nat → ∃ p, Q_of_nat c = (Zpos p # 1)%Q ∧ Zpos p = Z.of_nat c.
Proof.
  intros Hc. destruct c as [|c]; [lia|]. exists (Pos.of_succ_nat c).
  unfold Q_of_nat, inject_Z. simpl. done.
Qed.

Lemma Q_trunc_mul (i s : nat) :
  Q_trunc (Q_of_nat i * Q_of_nat s)%Q = Z.of_nat (i * s).
Proof.
  unfold Q_trunc, Q_of_nat, inject_Z, Qmult. simpl.
  rewrite Z.quot_1_r. lia.
Qed.

Lemma Q_trunc_div (a c : nat) :
  (0 < c)%nat → Q_trunc (Q_of_nat a / Q_of_nat c)%Q = Z.of_nat (a / c).
Proof.
  intros Hc. destruct (Q_of_nat_pos c Hc) as (p & -> & Hp).
  unfold Q_trunc, Q_of_nat, inject_Z, Qdiv, Qmult, Qinv. simpl.
  rewrite Z.mul_1_r, Pos.mul_1_l, Hp. rewrite Z.quot_div_nonneg by lia.
  by rewrite Nat2Z.inj_div.
Qed.
Lemma Q_ceiling_div (a c s : nat) :
  (0 < c)%nat → (0 < s)%nat →
  Q_ceiling ((Q_of_nat a / Q_of_nat c) / Q_of_nat s)%Q
  = Z.of_nat (chunk_count a c s).
Proof.
  intros Hc Hs. destruct (Q_of_nat_pos c Hc) as (p & -> & Hp).
  destruct (Q_of_nat_pos s Hs) as (q & -> & Hq).
  unfold Q_ceiling, chunk_count, Q_of_nat, inject_Z, Qdiv, Qmult, Qinv. simpl.
  rewrite !Z.mul_1_r, Pos.mul_1_l, Pos2Z.inj_mul, Hp, Hq.
  rewrite Nat2Z.inj_div, Nat2Z.inj_sub, Nat2Z.inj_add, Nat2Z.inj_mul by nia.
  simpl (Z.of_nat 1).
  assert (HB : (0 < Z.of_nat c * Z.of_nat s)%Z) by nia.
  assert (HA : (0 ≤ Z.of_nat a)%Z) by lia.
  revert HB HA. generalize (Z.of_nat c * Z.of_nat s)%Z (Z.of_nat a).
  intros B A HB HA.
  Z.div_mod_to_equations. nia.
Qed.

Lemma Q_trunc_nat (b : nat) : Q_trunc (Q_of_nat b) = Z.of_nat b.
Proof. unfold Q_trunc, Q_of_nat, inject_Z. simpl. apply Z.quot_1_r. Qed.

Lemma Q_trunc_step (i j s b : nat) :
  (i ≤ j)%nat →
  Q_trunc (Q_of_nat j * Q_of_nat s - Q_of_nat i * Q_of_nat s + Q_of_nat b)%Q
  = Z.of_nat (j * s - i * s + b).
Proof.
  intros Hij.
  unfold Q_trunc, Q_of_nat, inject_Z, Qminus, Qplus, Qopp, Qmult. simpl.
  rewrite Z.quot_1_r. nia.
Qed.

Lemma Q_trunc_last (a c m s b : nat) :
  (0 < c)%nat → (m * s * c ≤ a)%nat →
  Q_trunc (Q_of_nat a / Q_of_nat c - Q_of_nat m * Q_of_nat s + Q_of_nat b)%Q
  = Z.of_nat (a / c - m * s + b).
Proof.
  intros Hc Hm. destruct (Q_of_nat_pos c Hc) as (p & -> & Hp).
  unfold Q_trunc, Q_of_nat, inject_Z, Qminus, Qplus, Qopp, Qmult, Qdiv, Qinv.
  simpl. rewrite ?Pos.mul_1_l, ?Pos.mul_1_r, ?Z.mul_1_r, Hp.
  assert (Hle : (m * s ≤ a / c)%nat).
  { apply Nat.div_le_lower_bound; lia. }
  rewrite Nat2Z.inj_add, Nat2Z.inj_sub, Nat2Z.inj_div, Nat2Z.inj_mul by done.
  replace (Z.of_nat a + - (Z.of_nat m * Z.of_nat s) * Z.of_nat c
           + Z.of_nat b * Z.of_nat c)%Z
    with (Z.of_nat a + (Z.of_nat b - Z.of_nat m * Z.of_nat s) * Z.of_nat c)%Z
    by lia.
  rewrite Z.quot_div_nonneg by nia.
  rewrite Z.div_add by lia. lia.
Qed.

Lemma Qeq_bool_last (a c m s : nat) :
  (0 < c)%nat → (m * s * c < a)%nat →
  Qeq_bool (Q_of_nat m * Q_of_nat s)%Q (Q_of_nat a / Q_of_nat c)%Q = false.
Proof.
  intros Hc Hm. destruct (Q_of_nat_pos c Hc) as (p & -> & Hp).
  unfold Qeq_bool, Q_of_nat, inject_Z, Qmult, Qdiv, Qinv. simpl.
  rewrite ?Pos.mul_1_l, ?Pos.mul_1_r, ?Z.mul_1_r, Hp.
  apply Z.eqb_neq. nia.
Qed.

Lemma chunk_count_spec (a c s : nat) :
  (0 < a)%nat → (0 < c)%nat → (0 < s)%nat →
  ∃ m, chunk_count a c s = S m ∧ (m * s * c < a)%nat ∧
       (a ≤ S m * s * c)%nat.
Proof.
  intros Ha Hc Hs. unfold chunk_count.
  assert (HB : (0 < c * s)%nat) by nia.
  pose proof (Nat.div_mod_eq (a + c * s - 1) (c * s)) as E.
  pose proof (Nat.mod_upper_bound (a + c * s - 1) (c * s)) as B.
  destruct ((a + c * s - 1) / (c * s))%nat as [|m] eqn:Hq.
  - nia.
  - exists m. split; [done|]. nia.
Qed.


Lemma np_arange_steps (a c s : nat) :
  (0 < c)%nat → (0 < s)%nat →
  np_arange (Q_of_nat a / Q_of_nat c)%Q (Q_of_nat s)
  = map (λ k, (Q_of_nat k * Q_of_nat s)%Q) (seq 0 (chunk_count a c s)).
Proof.
  intros Hc Hs. unfold np_arange. by rewrite Q_ceiling_div, Nat2Z.id.
Qed.

Lemma chunk_index_list_nonempty (fp_len n_channels sampling_rate
                                 n_sec_chunk : nat) :
  (0 < fp_len)%nat → (0 < n_channels)%nat →
  (0 < sampling_rate * n_sec_chunk)%nat →
  chunk_index_list fp_len n_channels sampling_rate n_sec_chunk
  = Some (map (chunk_at (sampling_rate * n_sec_chunk)
                        (fp_len / n_channels))
              (seq 0 (chunk_count fp_len n_channels
                                  (sampling_rate * n_sec_chunk)))) ∧
  (0 < chunk_count fp_len n_channels (sampling_rate * n_sec_chunk))%nat.
Proof.
  intros Ha Hc Hs. set (s := (sampling_rate * n_sec_chunk)%nat) in *.
  destruct (chunk_count_spec fp_len n_channels s Ha Hc Hs)
    as (m & Hn & Hlo & Hhi).
  split; [|lia]. unfold chunk_index_list.
  rewrite decide_False by lia. fold s. rewrite decide_False by lia.
  rewrite np_arange_steps by done. rewrite Hn.
  rewrite seq_S, map_app. cbn [map]. rewrite last_snoc.
  cbn [mbind option_bind]. rewrite Nat.add_0_l.
  rewrite Qeq_bool_last by done.
  set (f := λ k : nat, (Q_of_nat k * Q_of_nat s)%Q).
  set (N := (Q_of_nat fp_len / Q_of_nat n_channels)%Q).
  assert (Hlist :
    map (λ p : Q * Q,
           mk_chunk (Q_trunc p.1) (Q_trunc p.2)
                    (Q_trunc (Q_of_nat buffer_size))
                    (Q_trunc (p.2 - p.1 + Q_of_nat buffer_size)%Q))
        (zip ((map f (seq 0 m) ++ [f m]) ++ [N])
             (drop 1 ((map f (seq 0 m) ++ [f m]) ++ [N])))
    = map (chunk_at s (fp_len / n_channels)) (seq 0 m ++ [m])).
  { assert (Hdrop : drop 1 ((map f (seq 0 m) ++ [f m]) ++ [N])
                    = map f (seq 1 m) ++ [N]).
    { change [f m] with (map f [(0 + m)%nat]).
      rewrite <- map_app, <- (seq_S m 0). reflexivity. }
    rewrite Hdrop. apply list_eq. intros i.
    rewrite !map_fmap, !list_lookup_fmap.
    rewrite lookup_zip_with.
    assert (HR : (m * s ≤ fp_len / n_channels)%nat).
    { apply Nat.div_le_lower_bound; lia. }
    assert (HR' : (fp_len / n_channels ≤ S m * s)%nat).
    { apply Nat.Div0.div_le_upper_bound; lia. }
    destruct (decide (i < m)%nat) as [Hi|Hi].
    - rewrite <- app_assoc.
      rewrite (lookup_app_l (map f (seq 0 m)))
        by (rewrite length_map, length_seq; lia).
      rewrite (lookup_app_l (map f (seq 1 m)))
        by (rewrite length_map, length_seq; lia).
      rewrite (lookup_app_l (seq 0 m)) by (rewrite length_seq; lia).
      rewrite !map_fmap, !list_lookup_fmap, !lookup_seq_lt by done.
      cbn [fmap option_fmap option_map mbind option_bind fst snd].
      f_equal. unfold chunk_at, f.
      rewrite !Q_trunc_mul, Q_trunc_nat, Q_trunc_step by lia.
      cbv zeta. f_equal; f_equal; nia.
    - destruct (decide (i = m)) as [->|Hne].
      + rewrite <- app_assoc.
        rewrite (lookup_app_r (map f (seq 0 m)))
          by (rewrite length_map, length_seq; lia).
        rewrite (lookup_app_r (map f (seq 1 m)))
          by (rewrite length_map, length_seq; lia).
        rewrite (lookup_app_r (seq 0 m)) by (rewrite length_seq; lia).
        rewrite !length_map, !length_seq, Nat.sub_diag.
        cbn [lookup list_lookup app fmap option_fmap option_map mbind
             option_bind fst snd].
        f_equal. unfold chunk_at, f, N.
        rewrite Q_trunc_mul, Q_trunc_div, Q_trunc_nat, Q_trunc_last by lia.
        cbv zeta. f_equal; f_equal; lia.
      + rewrite (lookup_ge_None_2 (map f (seq 1 m) ++ [N]))
          by (rewrite length_app, length_map, length_seq; simpl; lia).
        rewrite (lookup_ge_None_2 (seq 0 m ++ [m]))
          by (rewrite length_app, length_seq; simpl; lia).
        by destruct (_ !! i). }
  change (Q_of_nat m * Q_of_nat s)%Q with (f m). rewrite Hlist.
  rewrite decide_False; [done|].
  intros E. apply fmap_nil_inv in E. by destruct (seq 0 m).
Qed.


Lemma chunk_index_list_empty (n_channels sampling_rate n_sec_chunk : nat) :
  chunk_index_list 0 n_channels sampling_rate n_sec_chunk = None.
Proof.
  unfold chunk_index_list.
  destruct (decide (n_channels = 0%nat)); [done|].
  destruct (decide ((sampling_rate * n_sec_chunk)%nat = 0%nat)); [done|].
  rewrite np_arange_steps by lia.
  assert (H0 : chunk_count 0 n_channels (sampling_rate * n_sec_chunk)
               = 0%nat).
  { unfold chunk_count. apply Nat.div_small. nia. }
  by rewrite H0.
Qed.

(** For a recording that is not empty, with a channel count and a chunk
    length that are not zero, the index list holds
    [ceil(fp_len / (n_channels * step))] chunks that tile the recording:
    chunk [k] starts at sample [k * step] and ends where chunk [k + 1]
    starts, the last one ends at [fp_len // n_channels]; no chunk is
    longer than [step] samples; the third entry of a row is the buffer
    size 200 and the fourth the length of the chunk plus the buffer.  For
    an empty recording the code raises (at [indexes[-1]], when it did
    not divide by zero before). *)
Theorem chunk_index_list_tiles (fp_len n_channels sampling_rate
                                n_sec_chunk : nat) :
  ((0 < fp_len)%nat → (0 < n_channels)%nat →
   (0 < sampling_rate * n_sec_chunk)%nat →
   chunk_index_list fp_len n_channels sampling_rate n_sec_chunk
   = Some (map (chunk_at (sampling_rate * n_sec_chunk)
                         (fp_len / n_channels))
               (seq 0 (chunk_count fp_len n_channels
                                   (sampling_rate * n_sec_chunk)))) ∧
   (0 < chunk_count fp_len n_channels (sampling_rate * n_sec_chunk))%nat) ∧
  chunk_index_list 0 n_channels sampling_rate n_sec_chunk = None.
Proof.
  split.
  - apply chunk_index_list_nonempty.
  - apply chunk_index_list_empty.
Qed.

Lemma chunk_index_list_tiles_witness :
  chunk_index_list 20 2 3 2
  = Some (map (chunk_at (3 * 2) (20 / 2)) (seq 0 (chunk_count 20 2 (3 * 2)))).
Proof.
  apply (proj1 (chunk_index_list_tiles 20 2 3 2)); lia.
Defined.

(** ** Loading waveforms *)

Lemma length_concat_uniform {A : Type} (n : nat) (L : list (list A)) :
  Forall (λ fr, length fr = n) L → length (concat L) = (length L * n)%nat.
Proof.
  induction 1 as [|fr L Hfr _ IH]; [done|].
  simpl. rewrite length_app, IH. lia.
Qed.

Lemma take_concat_uniform {A : Type} (n k : nat) (L : list (list A)) :
  Forall (λ fr, length fr = n) L →
  take (k * n) (concat L) = concat (take k L).
Proof.
  intros HL. revert k. induction HL as [|fr L Hfr _ IH]; intros k.
  - simpl. by rewrite !take_nil.
  - destruct k as [|k]; [reflexivity|]. simpl.
    rewrite take_app_ge by lia. f_equal.
    replace (n + k * n - length fr)%nat with (k * n)%nat by lia. apply IH.
Qed.

Lemma drop_concat_uniform {A : Type} (n k : nat) (L : list (list A)) :
  Forall (λ fr, length fr = n) L →
  drop (k * n) (concat L) = concat (drop k L).
Proof.
  intros HL. revert k. induction HL as [|fr L Hfr _ IH]; intros k.
  - simpl. by rewrite !drop_nil.
  - destruct k as [|k]; [reflexivity|]. simpl.
    rewrite drop_app_ge by lia.
    replace (n + k * n - length fr)%nat with (k * n)%nat by lia. apply IH.
Qed.

Lemma replicate_concat {A : Type} (b n : nat) (x : A) :
  replicate (b * n) x = concat (replicate b (replicate n x)).
Proof.
  induction b as [|b IH]; [done|].
  simpl. by rewrite replicate_add, IH.
Qed.

(** Reshaping the values of equally long rows gives the rows back. *)
Lemma reshape_rows_concat (n : nat) (L : list (list float)) :
  (0 < n)%nat → Forall (λ fr, length fr = n) L →
  reshape_rows n (concat L) = Ok L.
Proof.
  intros Hn HL. unfold reshape_rows.
  rewrite decide_False by lia.
  rewrite (length_concat_uniform n L HL).
  rewrite Nat.Div0.mod_mul, decide_True by done.
  rewrite Nat.div_mul by lia. f_equal.
  apply list_eq. intros r. rewrite map_fmap, list_lookup_fmap.
  destruct (decide (r < length L)%nat) as [Hr|Hr].
  - rewrite lookup_seq_lt by done. simpl.
    rewrite (drop_concat_uniform n r L HL).
    destruct (lookup_lt_is_Some_2 L r Hr) as [fr Hfr].
    rewrite Hfr. f_equal.
    rewrite (drop_S L fr r Hfr). simpl.
    eapply Forall_lookup_1 in HL; [|exact Hfr]. simpl in HL.
    rewrite take_app_le by lia. apply take_ge. lia.
  - rewrite lookup_ge_None_2 by (rewrite length_seq; lia).
    simpl. symmetry. apply lookup_ge_None_2. lia.
Qed.

Lemma wrap_int32_small (z : Z) :
  (0 ≤ z < 2147483648)%Z → wrap_int32 z = z.
Proof.
  intros Hz. unfold wrap_int32.
  rewrite Z.mod_small by lia. lia.
Qed.

Lemma np_get_Ok {A : Type} (a : list A) (i : nat) (x : A) :
  a !! i = Some x → np_get a (Z.of_nat i) = Ok x.
Proof.
  intros Hi. apply lookup_lt_Some in Hi as Hlt. unfold np_get.
  destruct (Z.ltb_spec (Z.of_nat i) (- Z.of_nat (length a))); [lia|].
  destruct (Z.leb_spec (Z.of_nat (length a)) (Z.of_nat i)); [lia|].
  destruct (Z.ltb_spec (Z.of_nat i) 0); [lia|].
  simpl. by rewrite Nat2Z.id, Hi.
Qed.

Lemma frame_at_nat (frames : list (list float)) (n : nat) (z : nat) :
  frame_at frames n (Z.of_nat z)
  = default (replicate n f0) (frames !! z).
Proof.
  unfold frame_at. destruct (Z.ltb_spec (Z.of_nat z) 0); [lia|].
  by rewrite Nat2Z.id.
Qed.

Lemma frame_at_neg (frames : list (list float)) (n : nat) (z : Z) :
  (z < 0)%Z → frame_at frames n z = replicate n f0.
Proof.
  intros Hz. unfold frame_at. by destruct (Z.ltb_spec z 0); [|lia].
Qed.


Lemma read_values_frames (frames : list (list float)) (n pos count : nat) :
  Forall (λ fr, length fr = n) frames →
  read_values (concat frames) (pos * n) (Z.of_nat count * Z.of_nat n)
  = concat (take count (drop pos frames)).
Proof.
  intros HL. unfold read_values.
  destruct (Z.ltb_spec (Z.of_nat count * Z.of_nat n) 0) as [Hneg|_]; [lia|].
  rewrite (drop_concat_uniform n pos frames HL).
  replace (Z.to_nat (Z.of_nat count * Z.of_nat n)) with (count * n)%nat
    by lia.
  apply take_concat_uniform. by apply Forall_drop.
Qed.

Lemma lookup_frames_ext (frames : list (list float)) (n z : nat)
    (fr : list float) :
  frames !! z = Some fr → frame_at frames n (Z.of_nat z) = fr.
Proof. intros H. by rewrite frame_at_nat, H. Qed.

Lemma lookup_frames_out (frames : list (list float)) (n z : nat) :
  (length frames ≤ z)%nat →
  frame_at frames n (Z.of_nat z) = replicate n f0.
Proof.
  intros H. by rewrite frame_at_nat, lookup_ge_None_2.
Qed.

(** The frames read for a chunk, followed by a buffer of zeros when fewer
    frames than expected were read, are the buffered recording. *)
Lemma padded_frames_buffered (frames : list (list float)) (n b s e : nat)
    (L0 : list (list float)) :
  Forall (λ fr, length fr = n) frames →
  (s ≤ e ≤ length frames)%nat →
  Forall (λ fr, length fr = n) L0 →
  (length L0 ≤ e - s + 2 * b)%nat →
  (length L0 = (e - s + 2 * b)%nat ∨ (e - s + b ≤ length L0)%nat) →
  (∀ r, (r < length L0)%nat →
        L0 !! r = Some (frame_at frames n (Z.of_nat s - Z.of_nat b
                                           + Z.of_nat r))) →
  (length L0 ≠ (e - s + 2 * b)%nat →
   ∀ r, (length L0 ≤ r)%nat →
        frame_at frames n (Z.of_nat s - Z.of_nat b + Z.of_nat r)
        = replicate n f0) →
  buffered frames n b s e
    (if decide (length L0 ≠ (e - s + 2 * b)%nat)
     then L0 ++ replicate b (replicate n f0) else L0).
Proof.
  intros Hfr Hse HL0 Hlen Hcase Hin Hout.
  destruct (decide (length L0 ≠ (e - s + 2 * b)%nat)) as [Hne|Heq].
  - split; [|split].
    + apply Forall_app. split; [done|].
      apply Forall_forall. intros fr Hx.
      apply elem_of_replicate in Hx as [-> _]. apply length_replicate.
    + rewrite length_app, length_replicate. lia.
    + intros r Hr. destruct (decide (r < length L0)%nat) as [Hlt|Hge].
      * rewrite lookup_app_l by done. by apply Hin.
      * rewrite lookup_app_r by lia. rewrite Hout by (done || lia).
        apply lookup_replicate_2. lia.
  - split; [done|]. split; [lia|]. intros r Hr. apply Hin. lia.
Qed.

(** The buffered recording [load_waveforms_] builds for a chunk. *)
Lemma chunk_recording (frames : list (list float)) (n b s e : nat) :
  (0 < n)%nat → Forall (λ fr, length fr = n) frames →
  s = 0%nat ∨ (b ≤ s)%nat → (s ≤ e ≤ length frames)%nat →
  ∃ L0,
    (if decide (Z.of_nat s = 0%Z) then
       Ok (replicate (b * n) f0 ++
           read_values (concat frames) 0
             ((Z.of_nat e + Z.of_nat b) * Z.of_nat n)%Z)
     else
       if ((Z.of_nat s - Z.of_nat b) * Z.of_nat n <? 0)%Z
       then Raise CollaboratorError
       else Ok (read_values (concat frames)
                  (Z.to_nat ((Z.of_nat s - Z.of_nat b) * Z.of_nat n))
                  ((Z.of_nat e - Z.of_nat s + Z.of_nat b * 2)
                   * Z.of_nat n)%Z))
    = Ok (concat L0) ∧
    Forall (λ fr, length fr = n) L0 ∧
    buffered frames n b s e
      (if decide (length L0 ≠ (e - s + 2 * b)%nat)
       then L0 ++ replicate b (replicate n f0) else L0).
Proof.
  intros Hn Hfr Hs Hse.
  destruct (decide (Z.of_nat s = 0%Z)) as [H0|H0].
  - assert (s = 0%nat) as -> by lia. clear Hs H0.
    exists (replicate b (replicate n f0) ++ take (e + b) frames).
    assert (HL0 : Forall (λ fr, length fr = n)
                         (replicate b (replicate n f0)
                          ++ take (e + b) frames)).
    { apply Forall_app. split; [|by apply Forall_take].
      apply Forall_forall. intros fr Hx.
      apply elem_of_replicate in Hx as [-> _]. apply length_replicate. }
    split; [|split; [done|]].
    + rewrite concat_app, <- replicate_concat. do 2 f_equal.
      replace ((Z.of_nat e + Z.of_nat b) * Z.of_nat n)%Z
        with (Z.of_nat (e + b) * Z.of_nat n)%Z by lia.
      change 0%nat with (0 * n)%nat at 1.
      by rewrite (read_values_frames frames n 0 (e + b) Hfr).
    + apply padded_frames_buffered; try done.
      * rewrite length_app, length_replicate, length_take. lia.
      * rewrite length_app, length_replicate, length_take.
        destruct (decide (e + b ≤ length frames)%nat); [left|right]; lia.
      * intros r Hr. rewrite length_app, length_replicate, length_take in Hr.
        destruct (decide (r < b)%nat) as [Hlt|Hge].
        -- rewrite lookup_app_l by (rewrite length_replicate; lia).
           rewrite lookup_replicate_2 by done.
           by rewrite frame_at_neg by lia.
        -- rewrite lookup_app_r by (rewrite length_replicate; lia).
           rewrite length_replicate, lookup_take_lt by lia.
           destruct (lookup_lt_is_Some_2 frames (r - b)) as [fr Hx]; [lia|].
           rewrite Hx. f_equal.
           replace (Z.of_nat 0 - Z.of_nat b + Z.of_nat r)%Z
             with (Z.of_nat (r - b)) by lia.
           symmetry. by apply lookup_frames_ext.
      * rewrite length_app, length_replicate, length_take. intros Hne r Hr.
        replace (Z.of_nat 0 - Z.of_nat b + Z.of_nat r)%Z
          with (Z.of_nat (r - b)) by lia.
        apply lookup_frames_out. lia.
  - destruct Hs as [->|Hb]; [done|].
    destruct (Z.ltb_spec ((Z.of_nat s - Z.of_nat b) * Z.of_nat n) 0)
      as [Hneg|_]; [nia|].
    exists (take (e - s + 2 * b) (drop (s - b) frames)).
    assert (HL0 : Forall (λ fr, length fr = n)
                         (take (e - s + 2 * b) (drop (s - b) frames))).
    { by apply Forall_take, Forall_drop. }
    split; [|split; [done|]].
    + f_equal.
      replace (Z.to_nat ((Z.of_nat s - Z.of_nat b) * Z.of_nat n))
        with ((s - b) * n)%nat by nia.
      replace ((Z.of_nat e - Z.of_nat s + Z.of_nat b * 2) * Z.of_nat n)%Z
        with (Z.of_nat (e - s + 2 * b) * Z.of_nat n)%Z by nia.
      by apply read_values_frames.
    + apply padded_frames_buffered; try done.
      * rewrite length_take. lia.
      * rewrite length_take, length_drop.
        destruct (decide (e + b ≤ length frames)%nat); [left|right]; lia.
      * intros r Hr. rewrite length_take, length_drop in Hr.
        rewrite lookup_take_lt by lia. rewrite lookup_drop.
        destruct (lookup_lt_is_Some_2 frames (s - b + r)) as [fr Hx]; [lia|].
        rewrite Hx. f_equal.
        replace (Z.of_nat s - Z.of_nat b + Z.of_nat r)%Z
          with (Z.of_nat (s - b + r)) by lia.
        symmetry. by apply lookup_frames_ext.
      * rewrite length_take, length_drop. intros Hne r Hr.
        replace (Z.of_nat s - Z.of_nat b + Z.of_nat r)%Z
          with (Z.of_nat (s - b + r)) by lia.
        apply lookup_frames_out. lia.
Qed.

Lemma pad_concat (n b : nat) (L0 : list (list float)) (expected : nat) :
  (0 < n)%nat → Forall (λ fr, length fr = n) L0 →
  (if decide (Z.of_nat (length (concat L0))
              ≠ (Z.of_nat expected * Z.of_nat n)%Z)
   then concat L0 ++ replicate (b * n) f0 else concat L0)
  = concat (if decide (length L0 ≠ expected)
            then L0 ++ replicate b (replicate n f0) else L0).
Proof.
  intros Hn HL0. rewrite (length_concat_uniform n L0 HL0).
  destruct (decide (length L0 ≠ expected)) as [Hne|Heq].
  - rewrite decide_True by nia.
    by rewrite concat_app, <- replicate_concat.
  - rewrite decide_False; [done|]. intros H. apply H. nia.
Qed.

Lemma load_waveforms_chunk (frames : list (list float))
    (n_channels spike_size buffer s e : nat) (len : Z)
    (spike_train : list (nat * nat)) :
  (0 < n_channels)%nat →
  Forall (λ fr, length fr = n_channels) frames →
  s = 0%nat ∨ (buffer ≤ s)%nat →
  (s ≤ e ≤ length frames)%nat →
  (spike_size ≤ buffer)%nat →
  (Z.of_nat (e - s) < 2147483648)%Z →
  load_waveforms_ (mk_chunk (Z.of_nat s) (Z.of_nat e) (Z.of_nat buffer) len)
                  spike_train spike_size n_channels buffer (concat frames)
  = Ok (map (λ sp : nat * nat,
               spike_window frames n_channels spike_size sp.1)
            (spikes_between (Z.of_nat s) (Z.of_nat e) spike_train)).
Proof.
  intros Hn Hfr Hs Hse Hss H32. unfold load_waveforms_.
  cbn [idx_start idx_stop idx_local].
  destruct (chunk_recording frames n_channels buffer s e Hn Hfr Hs Hse)
    as (L0 & -> & HL0 & Hrows & Hlen & Hlook).
  cbn [mbind result_bind].
  replace ((Z.of_nat e - Z.of_nat s + Z.of_nat buffer * 2)
           * Z.of_nat n_channels)%Z
    with (Z.of_nat (e - s + 2 * buffer) * Z.of_nat n_channels)%Z
    by (f_equal; lia).
  rewrite (pad_concat n_channels buffer L0 _ Hn HL0).
  rewrite (reshape_rows_concat n_channels _ Hn Hrows).
  cbn [mbind result_bind]. unfold spikes_between.
  apply mapR_map. apply Forall_forall. intros [t ch] Hsp.
  apply list_elem_of_filter in Hsp as [Ht _]. cbn [fst] in *.
  unfold spike_window. apply mapR_map. apply Forall_forall. intros d Hd.
  apply list_elem_of_lookup in Hd as [j Hj].
  apply lookup_seqZ in Hj as [-> Hj].
  rewrite wrap_int32_small by lia.
  replace (Z.of_nat t - Z.of_nat s + Z.of_nat buffer
           + (- Z.of_nat spike_size + Z.of_nat j))%Z
    with (Z.of_nat (t - s + buffer - spike_size + j)) by lia.
  apply np_get_Ok. rewrite Hlook by lia. do 2 f_equal. lia.
Qed.

(** The waveforms of a chunk.  For a recording of whole samples, a chunk
    [[s, e)] inside it that starts at 0 or not before the buffer size,
    and a waveform half-width that does not exceed the buffer size,
    [load_waveforms_] does not raise and returns, for every spike of the
    train with [s <= t < e] and in the order of the train, the samples
    [t - spike_size] to [t + spike_size] of the recording on all
    channels, with zeros for the samples before the start and after the
    end of the recording.  No index wraps around and none is out of
    range. *)
Theorem load_waveforms_windows (frames : list (list float))
    (n_channels spike_size buffer s e : nat) (len : Z)
    (spike_train : list (nat * nat)) :
  (0 < n_channels)%nat →
  Forall (λ fr, length fr = n_channels) frames →
  s = 0%nat ∨ (buffer ≤ s)%nat →
  (s ≤ e ≤ length frames)%nat →
  (spike_size ≤ buffer)%nat →
  (Z.of_nat (e - s) < 2147483648)%Z →
  load_waveforms_ (mk_chunk (Z.of_nat s) (Z.of_nat e) (Z.of_nat buffer) len)
                  spike_train spike_size n_channels buffer (concat frames)
  = Ok (map (λ sp : nat * nat,
               spike_window frames n_channels spike_size sp.1)
            (spikes_between (Z.of_nat s) (Z.of_nat e) spike_train)).
Proof. apply load_waveforms_chunk. Qed.

Lemma load_waveforms_windows_witness :
  load_waveforms_ (mk_chunk 0 2 1 3) [(1, 0)]%nat 1 1 1
                  (concat [[f1]; [f0]])
  = Ok (map (λ sp : nat * nat, spike_window [[f1]; [f0]] 1 1 sp.1)
            (spikes_between 0 2 [(1, 0)]%nat)).
Proof.
  apply (load_waveforms_windows [[f1]; [f0]] 1 1 1 0 2 3 [(1, 0)]%nat).
  - lia.
  - repeat constructor.
  - by left.
  - simpl. lia.
  - lia.
  - simpl. lia.
Defined.

(** ** [load_waveforms_parallel] *)

Lemma chunk_count_frames (R n step : nat) :
  (0 < n)%nat → (0 < step)%nat →
  chunk_count (R * n) n step = ((R + step - 1) / step)%nat.
Proof.
  intros Hn Hs. unfold chunk_count.
  symmetry. apply Nat.div_unique with
    (r := (n * ((R + step - 1) mod step) + (n - 1))%nat).
  - pose proof (Nat.mod_upper_bound (R + step - 1) step). nia.
  - pose proof (Nat.div_mod_eq (R + step - 1) step) as E. nia.
Qed.

Lemma chunk_start_lt (R step k : nat) :
  (0 < step)%nat → (k < (R + step - 1) / step)%nat → (k * step < R)%nat.
Proof.
  intros Hs Hk.
  pose proof (Nat.div_mod_eq (R + step - 1) step) as E.
  pose proof (Nat.mod_upper_bound (R + step - 1) step). nia.
Qed.

Lemma chunk_count_covers (R step : nat) :
  (0 < step)%nat → (R ≤ (R + step - 1) / step * step)%nat.
Proof.
  intros Hs.
  pose proof (Nat.div_mod_eq (R + step - 1) step) as E.
  pose proof (Nat.mod_upper_bound (R + step - 1) step). nia.
Qed.

Lemma filter_none {A : Type} (P : A → Prop) `{!∀ x, Decision (P x)}
    (l : list A) :
  Forall (λ x, ¬ P x) l → filter P l = [].
Proof.
  induction 1 as [|x l Hx _ IH]; [done|].
  by rewrite filter_cons_False.
Qed.

(** Consecutive time ranges of a train sorted by time. *)
Lemma spikes_between_app (a b c : Z) (spike_train : list (nat * nat)) :
  (a ≤ b ≤ c)%Z →
  StronglySorted le (map fst spike_train) →
  spikes_between a b spike_train ++ spikes_between b c spike_train
  = spikes_between a c spike_train.
Proof.
  intros Habc Hsorted. unfold spikes_between.
  induction spike_train as [|[t ch] l IH]; [done|].
  simpl in Hsorted. apply StronglySorted_inv in Hsorted as [Hl Hall].
  specialize (IH Hl). rewrite !filter_cons. cbn [fst].
  destruct (decide (a ≤ Z.of_nat t < b)%Z) as [H1|H1].
  - rewrite decide_False by lia. rewrite decide_True by lia.
    simpl. by rewrite IH.
  - destruct (decide (b ≤ Z.of_nat t < c)%Z) as [H2|H2].
    + rewrite decide_True by lia. rewrite <- IH.
      assert (Hnil : filter (λ s : nat * nat, (a ≤ Z.of_nat s.1 < b)%Z) l
                     = []).
      { apply filter_none. apply Forall_forall.
        intros [t' ch'] Hin. cbn [fst]. intros Ht'.
        rewrite Forall_forall in Hall.
        assert (t ≤ t')%nat; [|lia].
        apply Hall. apply list_elem_of_fmap. by exists (t', ch'). }
      rewrite Hnil. done.
    + rewrite decide_False by lia. done.
Qed.

Lemma chunks_cover_sorted (frames : list (list float)) (n step : nat)
    (spike_train : list (nat * nat)) (count : nat) :
  (0 < step)%nat →
  StronglySorted le (map fst spike_train) →
  concat (map (chunk_waveforms frames n step spike_train) (seq 0 count))
  = map (λ sp : nat * nat, spike_window frames n 15 sp.1)
        (spikes_between 0
           (Z.of_nat (Nat.min (count * step) (length frames))) spike_train).
Proof.
  intros Hs Hsorted. induction count as [|count IH].
  - simpl. unfold spikes_between. symmetry.
    replace (filter _ spike_train) with (@nil (nat * nat)); [done|].
    symmetry. apply filter_none. apply Forall_forall.
    intros sp _. lia.
  - rewrite seq_S, map_app, concat_app, IH. cbn [map concat].
    rewrite app_nil_r, Nat.add_0_l.
    unfold chunk_waveforms. rewrite <- map_app. f_equal.
    replace (spikes_between (Z.of_nat (count * step))
               (Z.of_nat (Nat.min ((count + 1) * step) (length frames)))
               spike_train)
      with (spikes_between
              (Z.of_nat (Nat.min (count * step) (length frames)))
              (Z.of_nat (Nat.min ((count + 1) * step) (length frames)))
              spike_train).
    + replace (S count * step)%nat with ((count + 1) * step)%nat by lia.
      apply spikes_between_app; [lia|done].
    + unfold spikes_between. apply list_filter_iff.
      intros [t ch]. cbn [fst]. lia.
Qed.

(** For a recording of whole samples on at least one channel and a chunk
    length of 60 seconds that is at least the buffer size 200 (and
    smaller than [2^31]), [load_waveforms_parallel] does not raise.  It
    returns the waveforms chunk after chunk: within a chunk in the order
    of the spike train, 31 samples on all channels around each spike, with
    zeros outside the recording.  A spike at or after the end of the
    recording gets no waveform.  When the spike train is sorted by time
    the waveforms are those of the spikes inside the recording in the
    order of the train. *)
Theorem load_waveforms_parallel_windows (frames : list (list float))
    (n_channels sampling_rate : nat) (spike_train : list (nat * nat)) :
  (0 < n_channels)%nat → frames ≠ [] →
  Forall (λ fr, length fr = n_channels) frames →
  (buffer_size ≤ sampling_rate * 60)%nat →
  (Z.of_nat (sampling_rate * 60) < 2147483648)%Z →
  load_waveforms_parallel (concat frames) n_channels sampling_rate
                          spike_train
  = Some (Ok (concat
                (map (chunk_waveforms frames n_channels
                                      (sampling_rate * 60) spike_train)
                     (seq 0 ((length frames + sampling_rate * 60 - 1)
                             / (sampling_rate * 60))%nat)))) ∧
  (StronglySorted le (map fst spike_train) →
   load_waveforms_parallel (concat frames) n_channels sampling_rate
                           spike_train
   = Some (Ok (map (λ sp : nat * nat,
                      spike_window frames n_channels 15 sp.1)
                   (spikes_between 0 (Z.of_nat (length frames))
                                   spike_train)))).
Proof.
  intros Hn Hne Hfr Hstep H32.
  set (step := (sampling_rate * 60)%nat) in *.
  set (R := length frames).
  assert (HR : (0 < R)%nat) by (subst R; destruct frames; [done|simpl; lia]).
  assert (Hs : (0 < step)%nat) by (unfold buffer_size in Hstep; lia).
  assert (Hmain :
    load_waveforms_parallel (concat frames) n_channels sampling_rate
                            spike_train
    = Some (Ok (concat
                  (map (chunk_waveforms frames n_channels step spike_train)
                       (seq 0 ((R + step - 1) / step)%nat))))).
  { unfold load_waveforms_parallel.
    rewrite (length_concat_uniform n_channels frames Hfr). fold R.
    destruct (chunk_index_list_nonempty (R * n_channels) n_channels
                sampling_rate 60) as [-> _]; [nia|done|done|].
    fold step. rewrite Nat.div_mul by lia.
    rewrite chunk_count_frames by done.
    cbn [mbind option_bind]. f_equal.
    rewrite (mapR_map _ (λ c, map (λ sp : nat * nat,
                                     spike_window frames n_channels 15 sp.1)
                                  (spikes_between (idx_start c) (idx_stop c)
                                                  spike_train))).
    - cbn [mbind result_bind]. by rewrite map_map.
    - apply Forall_forall. intros c Hc.
      apply list_elem_of_fmap in Hc as (k & -> & Hk).
      apply elem_of_seq in Hk as [_ Hk]. rewrite Nat.add_0_l in Hk.
      pose proof (chunk_start_lt R step k Hs Hk) as Hlt.
      unfold chunk_at. cbn [idx_start idx_stop].
      apply load_waveforms_chunk; try done.
      + destruct k as [|k]; [by left|right]. nia.
      + fold R. lia.
      + unfold buffer_size. lia.
      + lia. }
  split; [exact Hmain|].
  intros Hsorted. rewrite Hmain. do 2 f_equal.
  rewrite chunks_cover_sorted by done. do 3 f_equal.
  pose proof (chunk_count_covers R step Hs). fold R. lia.
Qed.

Lemma load_waveforms_parallel_windows_witness :
  load_waveforms_parallel (concat [[f1]; [f0]]) 1 4 [(1, 0)]%nat
  = Some (Ok (concat
                (map (chunk_waveforms [[f1]; [f0]] 1 (4 * 60) [(1, 0)]%nat)
                     (seq 0 ((2 + 4 * 60 - 1) / (4 * 60))%nat)))).
Proof.
  destruct (load_waveforms_parallel_windows [[f1]; [f0]] 1 4 [(1, 0)]%nat)
    as [H _].
  - lia.
  - discriminate.
  - repeat constructor.
  - unfold buffer_size. lia.
  - lia.
  - exact H.
Defined.

(** ** [try_merge] *)

Lemma set_inf_other (a b c d : nat) (m m' : mat) :
  set_inf a b m = Ok m' → (c, d) ≠ (a, b) →
  maha_at m' c d = maha_at m c d.
Proof.
  intros H Hne. apply set_inf_lookup in H as (row & Hrow & Hlen & ->).
  unfold maha_at. destruct (decide (a = c)) as [->|Hac].
  - rewrite list_lookup_insert_eq by (by eapply lookup_lt_Some).
    rewrite Hrow. simpl. rewrite list_lookup_insert_ne; [done|].
    intros ->. done.
  - by rewrite list_lookup_insert_ne.
Qed.

(** A rejected pair: [try_merge] hands the state back as it was and sets
    the two distances of the pair to +infinity; no other entry of the
    distance matrix changes.  With both components inside a square
    matrix it does not raise. *)
Theorem try_merge_rejected (check_merge : merge_test) (k1 k2 K : nat)
    (scores : list feature) (vbParam : vbPar (list triplet)) (maha : mat)
    (indices : list nat) (local_rhat : mat) (lv : vbPar mat) :
  try_merge_answer check_merge (Nat.min k1 k2) (Nat.max k1 k2) scores
                   vbParam = Ok (indices, local_rhat, (lv, false)) →
  length maha = K → Forall (λ row, length row = K) maha →
  (k1 < K)%nat → (k2 < K)%nat →
  ∃ maha',
    try_merge check_merge k1 k2 scores vbParam maha = Ok (vbParam, maha') ∧
    maha_at maha' (Nat.min k1 k2) (Nat.max k1 k2) = Some PInf ∧
    maha_at maha' (Nat.max k1 k2) (Nat.min k1 k2) = Some PInf ∧
    ∀ a b, (a, b) ≠ (Nat.min k1 k2, Nat.max k1 k2) →
           (a, b) ≠ (Nat.max k1 k2, Nat.min k1 k2) →
           maha_at maha' a b = maha_at maha a b.
Proof.
  intros Hans Hrows Hcols H1 H2. unfold try_merge. rewrite Hans.
  cbn [mbind result_bind].
  destruct (set_inf_Ok K (Nat.min k1 k2) (Nat.max k1 k2) maha)
    as (m1 & Hm1 & Hr1 & Hc1); [done|done|lia|lia|].
  destruct (set_inf_Ok K (Nat.max k1 k2) (Nat.min k1 k2) m1)
    as (m2 & Hm2 & Hr2 & Hc2); [done|done|lia|lia|].
  rewrite Hm1. cbn [mbind result_bind]. rewrite Hm2.
  cbn [mbind result_bind]. exists m2. split; [done|]. split; [|split].
  - eapply set_inf_keeps; [exact Hm2|]. by eapply set_inf_sets.
  - by eapply set_inf_sets.
  - intros a b Hab Hba.
    rewrite (set_inf_other _ _ a b _ _ Hm2 Hba).
    by rewrite (set_inf_other _ _ a b _ _ Hm1 Hab).
Qed.

Lemma merged_maha_diag (ka kb : nat) (muhat' : list vec)
    (Vhat' : list mat) (nuhat' : list float) (lv : vbPar mat)
    (maha maha' : mat) :
  diag_inf maha →
  merged_maha ka kb muhat' Vhat' nuhat' lv maha = Ok maha' →
  diag_inf maha'.
Proof.
  unfold merged_maha. intros Hd H. inv_bind H.
  eapply set_inf_diag_close; [eassumption|].
  eapply recompute_distances_diag; [eassumption|].
  apply delete_row_col_weaken.
  eapply delete_row_col_diag; eassumption.
Qed.

Lemma elem_of_zip_with_l {A B C : Type} (f : A → B → C) (l : list A)
    (k : list B) (z : C) :
  z ∈ zip_with f l k → ∃ x y, x ∈ l ∧ y ∈ k ∧ z = f x y.
Proof.
  intros Hz. apply list_elem_of_lookup in Hz as [i Hi].
  apply lookup_zip_with_Some in Hi as (x & y & -> & Hx & Hy).
  exists x, y. split; [by eapply list_elem_of_lookup_2|].
  split; [by eapply list_elem_of_lookup_2|done].
Qed.

(** The component ids after a merge stay below the new number of
    components. *)
Lemma merged_triplets_ids (ka kb K : nat) (indices : list nat)
    (local_rhat : mat) (trip : list triplet) :
  (ka < kb)%nat → (kb < K)%nat →
  Forall (λ t, (comp_id t < K)%nat) trip →
  Forall (λ t, (comp_id t < K - 1)%nat)
         (merged_triplets ka kb indices local_rhat trip).
Proof.
  intros Hab Hb Hall. unfold merged_triplets. apply Forall_app. split.
  - apply Forall_forall. intros t Ht.
    apply list_elem_of_fmap in Ht as (t0 & -> & Ht0).
    apply list_elem_of_filter in Ht0 as [Hne Hin].
    eapply Forall_forall in Hall; [|exact Hin]. simpl in Hall.
    unfold renumber. destruct (decide (kb < comp_id t0)%nat).
    + unfold comp_id in *. simpl. lia.
    + unfold comp_id in *. lia.
  - apply Forall_forall. intros t Ht.
    apply elem_of_zip_with_l in Ht as (n & row & _ & _ & ->).
    unfold comp_id. simpl. lia.
Qed.

(** An accepted merge of two different components: every parameter array
    loses the entry of the larger index and holds the merged parameter at
    the smaller one; the triplets of the other components are kept and
    renumbered, the triplets of the two components are replaced by one
    triplet per spike under the smaller index; every component id is
    below the new number of components; and the diagonal of the distance
    matrix stays infinite. *)
Theorem try_merge_accepted (check_merge : merge_test) (k1 k2 : nat)
    (scores : list feature) (vbParam vbParam' : vbPar (list triplet))
    (maha maha' : mat) (indices : list nat) (local_rhat : mat)
    (lv : vbPar mat) :
  k1 ≠ k2 →
  try_merge_answer check_merge (Nat.min k1 k2) (Nat.max k1 k2) scores
                   vbParam = Ok (indices, local_rhat, (lv, true)) →
  try_merge check_merge k1 k2 scores vbParam maha = Ok (vbParam', maha') →
  (∃ mu V iV nu lam a,
     muhat lv !! 0%nat = Some mu ∧ Vhat lv !! 0%nat = Some V ∧
     invVhat lv !! 0%nat = Some iV ∧ nuhat lv !! 0%nat = Some nu ∧
     lambdahat lv !! 0%nat = Some lam ∧ ahat lv !! 0%nat = Some a ∧
     merged_array (Nat.min k1 k2) (Nat.max k1 k2) mu
                  (muhat vbParam) (muhat vbParam') ∧
     merged_array (Nat.min k1 k2) (Nat.max k1 k2) V
                  (Vhat vbParam) (Vhat vbParam') ∧
     merged_array (Nat.min k1 k2) (Nat.max k1 k2) iV
                  (invVhat vbParam) (invVhat vbParam') ∧
     merged_array (Nat.min k1 k2) (Nat.max k1 k2) nu
                  (nuhat vbParam) (nuhat vbParam') ∧
     merged_array (Nat.min k1 k2) (Nat.max k1 k2) lam
                  (lambdahat vbParam) (lambdahat vbParam') ∧
     merged_array (Nat.min k1 k2) (Nat.max k1 k2) a
                  (ahat vbParam) (ahat vbParam')) ∧
  n_components vbParam = S (n_components vbParam') ∧
  rhat vbParam' = merged_triplets (Nat.min k1 k2) (Nat.max k1 k2) indices
                                  local_rhat (rhat vbParam) ∧
  (Forall (λ t, (comp_id t < n_components vbParam)%nat) (rhat vbParam) →
   Forall (λ t, (comp_id t < n_components vbParam')%nat) (rhat vbParam')) ∧
  (diag_inf maha → diag_inf maha').
Proof.
  intros Hne Hans H. unfold try_merge in H. rewrite Hans in H.
  cbn [mbind result_bind] in H.
  apply bind_Ok in H as (mu' & Hmu & H). apply of_option_Ok in Hmu.
  apply bind_Ok in H as (V' & HV & H). apply of_option_Ok in HV.
  apply bind_Ok in H as (iV' & HiV & H). apply of_option_Ok in HiV.
  apply bind_Ok in H as (nu' & Hnu & H). apply of_option_Ok in Hnu.
  apply bind_Ok in H as (lam' & Hlam & H). apply of_option_Ok in Hlam.
  apply bind_Ok in H as (a' & Ha & H). apply of_option_Ok in Ha.
  apply bind_Ok in H as (m' & Hm & H). injection H as <- <-.
  cbn [muhat Vhat invVhat nuhat lambdahat ahat rhat].
  assert (Hkb : (Nat.max k1 k2 < length (muhat vbParam))%nat).
  { unfold replace_merged in Hmu.
    destruct (muhat vbParam !! Nat.max k1 k2) eqn:E; [|discriminate].
    by eapply lookup_lt_Some. }
  apply replace_merged_spec in Hmu as (mu & Hmu0 & Hmu).
  apply replace_merged_spec in HV as (V & HV0 & HV).
  apply replace_merged_spec in HiV as (iV & HiV0 & HiV).
  apply replace_merged_spec in Hnu as (nu & Hnu0 & Hnu).
  apply replace_merged_spec in Hlam as (lam & Hlam0 & Hlam).
  apply replace_merged_spec in Ha as (a & Ha0 & Ha).
  pose proof Hmu as (Hlen & _).
  split; [by exists mu, V, iV, nu, lam, a|].
  split; [done|]. split; [done|]. split.
  - unfold n_components. cbn [muhat]. intros Hall.
    replace (length mu') with (length (muhat vbParam) - 1)%nat by lia.
    apply merged_triplets_ids; [lia|done|done].
  - intros Hd. by eapply merged_maha_diag.
Qed.

Lemma try_merge_rejected_witness :
  ∃ maha',
    try_merge accept_near 2 0 ex_scores ex_sparse ex_maha
    = Ok (ex_sparse, maha') ∧
    maha_at maha' 0 2 = Some PInf ∧ maha_at maha' 2 0 = Some PInf.
Proof.
  edestruct (try_merge_rejected accept_near 2 0 3 ex_scores ex_sparse
                                ex_maha)
    as (maha' & H & Ha & Hb & _).
  - reflexivity.
  - reflexivity.
  - repeat constructor.
  - lia.
  - lia.
  - by exists maha'.
Defined.

Lemma try_merge_accepted_witness :
  ∃ vbParam' maha',
    try_merge accept_near 1 0 ex_scores ex_sparse ex_maha
    = Ok (vbParam', maha') ∧
    n_components vbParam' = 2%nat ∧
    map (λ t, (spike_id t, comp_id t)) (rhat vbParam')
    = [(3, 1); (0, 0); (1, 0); (2, 0)]%nat.
Proof.
  destruct (try_merge accept_near 1 0 ex_scores ex_sparse ex_maha)
    as [[vb' maha']|e] eqn:E; [|discriminate E].
  edestruct (try_merge_accepted accept_near 1 0 ex_scores ex_sparse vb'
                                ex_maha maha')
    as (_ & Hn & Hr & _).
  - lia.
  - reflexivity.
  - exact E.
  - exists vb', maha'. split; [done|]. split.
    + change (n_components ex_sparse) with 3%nat in Hn. lia.
    + rewrite Hr. vm_compute. reflexivity.
Defined.

(** ** [try_merge]: the responsibilities after a merge *)

Lemma scatter_column_length (col : nat) (writes : list (nat * float))
    (m m' : mat) :
  scatter_column col writes m = Ok m' → length m' = length m.
Proof.
  revert m. induction writes as [|w rest IH]; intros m H.
  - by injection H as <-.
  - cbn [scatter_column] in H. apply bind_Ok in H as (row & _ & H).
    apply IH in H. by rewrite length_insert in H.
Qed.

Lemma scatter_column_untouched (col : nat) (writes : list (nat * float))
    (m m' : mat) (r : nat) :
  scatter_column col writes m = Ok m' → r ∉ map fst writes →
  m' !! r = m !! r.
Proof.
  revert m. induction writes as [|w rest IH]; intros m H Hr.
  - by injection H as <-.
  - cbn [scatter_column] in H. apply bind_Ok in H as (row & _ & H).
    cbn [map] in Hr. apply not_elem_of_cons in Hr as [Hne Hr].
    rewrite (IH _ H Hr). by apply list_lookup_insert_ne.
Qed.

Lemma scatter_column_written (col : nat) (writes : list (nat * float))
    (m m' : mat) (r : nat) (v : float) :
  scatter_column col writes m = Ok m' → NoDup (map fst writes) →
  (r, v) ∈ writes →
  ∃ row, m !! r = Some row ∧ m' !! r = Some (<[col := v]> row).
Proof.
  revert m. induction writes as [|w rest IH]; intros m H Hnd Hin.
  - by apply elem_of_nil in Hin.
  - destruct w as [r' v'].
    cbn [scatter_column] in H. apply bind_Ok in H as (row & Hrow & H).
    apply of_option_Ok in Hrow. cbn [map fst snd] in *.
    apply NoDup_cons in Hnd as [Hw Hnd].
    apply elem_of_cons in Hin as [[= <- <-]|Hin].
    + exists row. split; [done|].
      rewrite (scatter_column_untouched _ _ _ _ _ H Hw).
      apply list_lookup_insert_eq. by eapply lookup_lt_Some.
    + destruct (IH _ H Hnd Hin) as (row' & Hr' & Hm').
      assert (Hne : r' ≠ r).
      { intros <-. apply Hw. apply list_elem_of_fmap. by exists (r', v). }
      rewrite list_lookup_insert_ne in Hr' by done. by exists row'.
Qed.

(** With no pair (spike, component) repeated, a component holds a spike
    at most once. *)
Lemma component_spikes_NoDup (k : nat) (trip : list triplet) :
  NoDup (map (λ t, (spike_id t, comp_id t)) trip) →
  NoDup (map spike_id (of_component k trip)).
Proof.
  unfold of_component. induction trip as [|t rest IH]; intros Hnd.
  - constructor.
  - cbn [map] in Hnd. apply NoDup_cons in Hnd as [Ht Hnd].
    rewrite filter_cons. destruct (decide (comp_id t = k)) as [Hk|Hk].
    + cbn [map]. apply NoDup_cons. split; [|by apply IH].
      intros Hin. apply list_elem_of_fmap in Hin as (t' & Hs & Hin).
      apply list_elem_of_filter in Hin as [Hk' Hin]. apply Ht.
      apply list_elem_of_fmap. exists t'. split; [|done].
      by rewrite Hs, Hk, Hk'.
    + by apply IH.
Qed.

Lemma prob_of_absent (trip : list triplet) (n k : nat) :
  (∀ t, t ∈ trip → spike_id t = n → comp_id t ≠ k) →
  prob_of trip n k = f0.
Proof.
  intros H. unfold prob_of.
  replace (filter (λ t, spike_id t = n ∧ comp_id t = k) trip)
    with (@nil triplet); [done|].
  symmetry. induction trip as [|t rest IH]; [done|].
  rewrite filter_cons. destruct (decide _) as [[Hs Hk]|_].
  - exfalso. eapply H; [by left|done|done].
  - apply IH. intros t' Hin. apply H. by right.
Qed.

Lemma prob_of_present (trip : list triplet) (t : triplet) :
  NoDup (map (λ t, (spike_id t, comp_id t)) trip) → t ∈ trip →
  prob_of trip (spike_id t) (comp_id t) = t.2.
Proof.
  unfold prob_of. induction trip as [|t' rest IH]; intros Hnd Hin.
  - by apply elem_of_nil in Hin.
  - cbn [map] in Hnd. apply NoDup_cons in Hnd as [Ht Hnd].
    rewrite filter_cons. apply elem_of_cons in Hin as [->|Hin].
    + destruct (decide _) as [_|Hn]; [|by destruct Hn].
      cbn [map]. rewrite fl_sum_cons.
      fold (prob_of rest (spike_id t') (comp_id t')).
      rewrite prob_of_absent; [apply fl_add_0_r|].
      intros t1 Hin Hs Hk. apply Ht. apply list_elem_of_fmap.
      exists t1. split; [by rewrite Hs, Hk|done].
    + destruct (decide _) as [[Hs Hk]|_]; [|by apply IH].
      exfalso. apply Ht. apply list_elem_of_fmap. exists t.
      split; [by rewrite Hs, Hk|done].
Qed.

(** Scattering the probabilities of component [k] into a column of
    zeros writes, in every row, the responsibility of that spike under
    [k]. *)
Lemma scatter_component (col k : nat) (trip : list triplet) (m m' : mat) :
  NoDup (map (λ t, (spike_id t, comp_id t)) trip) →
  scatter_column col
    (map (λ t : triplet, (spike_id t, t.2)) (of_component k trip)) m
  = Ok m' →
  ∀ n row, m !! n = Some row → row !! col = Some f0 →
           m' !! n = Some (<[col := prob_of trip n k]> row).
Proof.
  intros Hnd H n row Hrow Hcol.
  pose proof (component_spikes_NoDup k trip Hnd) as Hnd'.
  destruct (decide (n ∈ map spike_id (of_component k trip))) as [Hin|Hout].
  - apply list_elem_of_fmap in Hin as (t & -> & Hin).
    destruct (scatter_column_written col _ m m' (spike_id t) t.2 H)
      as (row' & Hr' & Hm').
    + by rewrite <- list_fmap_compose.
    + apply list_elem_of_fmap. by exists t.
    + apply list_elem_of_filter in Hin as [<- Hin].
      rewrite (prob_of_present trip t Hnd Hin). congruence.
  - rewrite (scatter_column_untouched col _ m m' n H).
    + rewrite prob_of_absent; [by rewrite list_insert_id|].
      intros t Hin Hs Hk. apply Hout. apply list_elem_of_fmap.
      exists t. split; [done|]. by apply list_elem_of_filter.
    + by rewrite <- list_fmap_compose.
Qed.

Lemma np_unique_NoDup (l : list nat) : NoDup (np_unique l).
Proof.
  unfold np_unique. rewrite merge_sort_Permutation. apply NoDup_remove_dups.
Qed.

Lemma elem_of_np_unique (l : list nat) (n : nat) : n ∈ np_unique l ↔ n ∈ l.
Proof.
  unfold np_unique. rewrite merge_sort_Permutation.
  apply elem_of_remove_dups.
Qed.

(** The triplets written for the merged component: one per spike of
    [indices], carrying the sum of its local row. *)
Lemma merged_part_prob (ka n : nat) (g : nat → float)
    (indices : list nat) (local_rhat : mat) :
  NoDup indices →
  Forall2 (λ i row, fl_sum row = g i) indices local_rhat →
  prob_of (zip_with (λ n row, (n, ka, fl_sum row)) indices local_rhat) n ka
  = if decide (n ∈ indices) then g n else f0.
Proof.
  intros Hnd H. induction H as [|i row indices local_rhat Hi H IH].
  - done.
  - apply NoDup_cons in Hnd as [Hni Hnd]. specialize (IH Hnd).
    unfold prob_of in *. cbn [zip_with]. rewrite filter_cons.
    destruct (decide (spike_id (i, ka, fl_sum row) = n
                      ∧ comp_id (i, ka, fl_sum row) = ka)) as [[Hs _]|Hn].
    + unfold spike_id in Hs. simpl in Hs. subst i.
      cbn [map]. rewrite fl_sum_cons, IH.
      rewrite (decide_False (P := n ∈ indices)) by done.
      rewrite (decide_True (P := n ∈ n :: indices)) by (by left).
      simpl. rewrite Hi. apply fl_add_0_r.
    + assert (Hne : i ≠ n) by (by intros ->; apply Hn).
      rewrite IH. destruct (decide (n ∈ indices)) as [Hin|Hout].
      * by rewrite (decide_True (P := n ∈ i :: indices)) by (by right).
      * rewrite (decide_False (P := n ∈ i :: indices)); [done|].
        intros [?|?]%elem_of_cons; done.
Qed.

Lemma prob_of_app (l1 l2 : list triplet) (n k : nat) :
  prob_of (l1 ++ l2) n k = fl_add (prob_of l1 n k) (prob_of l2 n k).
Proof. unfold prob_of. by rewrite filter_app, map_app, fl_sum_app. Qed.

(** Renumbering the components other than [ka] and [kb] moves their
    responsibilities without changing them. *)
Lemma renumbered_part_prob (ka kb n k : nat) (trip : list triplet) :
  k ≠ ka → k ≠ kb →
  prob_of (map (renumber kb)
               (filter (λ t, ¬ (comp_id t = ka ∨ comp_id t = kb)) trip))
          n (if decide (kb < k)%nat then (k - 1)%nat else k)
  = prob_of trip n k.
Proof.
  intros Hka Hkb. unfold prob_of. f_equal.
  induction trip as [|t rest IH]; [done|].
  rewrite (filter_cons (λ t, ¬ (comp_id t = ka ∨ comp_id t = kb))).
  rewrite (filter_cons (λ t, spike_id t = n ∧ comp_id t = k)).
  destruct (decide (¬ (comp_id t = ka ∨ comp_id t = kb))) as [Ho|Ho].
  - cbn [map]. rewrite filter_cons.
    assert (Hiff : (spike_id (renumber kb t) = n ∧
                    comp_id (renumber kb t)
                    = (if decide (kb < k)%nat then (k - 1)%nat else k))
                   ↔ (spike_id t = n ∧ comp_id t = k)).
    { unfold renumber. destruct t as [[s c] p]. unfold spike_id, comp_id in *.
      simpl in *. destruct (decide (kb < c)%nat), (decide (kb < k)%nat);
        simpl; split; intros [? ?]; split; try done; lia. }
    destruct (decide (spike_id (renumber kb t) = n ∧ _)) as [Hl|Hl],
             (decide (spike_id t = n ∧ comp_id t = k)) as [Hr|Hr].
    + cbn [map]. f_equal; [|exact IH].
      unfold renumber. destruct (decide (kb < comp_id t)%nat); reflexivity.
    + by apply Hiff in Hl.
    + by apply Hiff in Hr.
    + exact IH.
  - destruct (decide (spike_id t = n ∧ comp_id t = k)) as [[_ Hk]|_];
      [|exact IH].
    exfalso. apply Ho. intros [?|?]; congruence.
Qed.

Lemma renumbered_part_not_ka (ka kb n : nat) (trip : list triplet) :
  (ka < kb)%nat →
  prob_of (map (renumber kb)
               (filter (λ t, ¬ (comp_id t = ka ∨ comp_id t = kb)) trip))
          n ka = f0.
Proof.
  intros Hab. apply prob_of_absent. intros t Hin _ Hk.
  apply list_elem_of_fmap in Hin as (t0 & -> & Hin).
  apply list_elem_of_filter in Hin as [Ho _]. unfold renumber in Hk.
  destruct (decide (kb < comp_id t0)%nat).
  - unfold comp_id in *. simpl in Hk. lia.
  - apply Ho. by left.
Qed.

Lemma merged_part_not_k (ka n k : nat) (indices : list nat)
    (local_rhat : mat) :
  k ≠ ka →
  prob_of (zip_with (λ n row, (n, ka, fl_sum row)) indices local_rhat) n k
  = f0.
Proof.
  intros Hk. apply prob_of_absent. intros t Hin _ Hc.
  apply elem_of_zip_with_l in Hin as (i & row & _ & _ & ->).
  unfold comp_id in Hc. simpl in Hc. congruence.
Qed.

(** The local rows of [try_merge]: for a spike of one of the two
    components, its responsibilities under [ka] and [kb]. *)
Lemma try_merge_answer_rows (check_merge : merge_test) (ka kb : nat)
    (scores : list feature) (vbParam : vbPar (list triplet))
    (indices : list nat) (local_rhat : mat) (answer : vbPar mat * bool) :
  NoDup (map (λ t, (spike_id t, comp_id t)) (rhat vbParam)) →
  try_merge_answer check_merge ka kb scores vbParam
  = Ok (indices, local_rhat, answer) →
  NoDup indices ∧
  (∀ n, n ∈ indices ↔
        ∃ t, t ∈ rhat vbParam ∧ spike_id t = n ∧
             (comp_id t = ka ∨ comp_id t = kb)) ∧
  Forall2 (λ i row, row = [prob_of (rhat vbParam) i ka;
                           prob_of (rhat vbParam) i kb])
          indices local_rhat.
Proof.
  intros Hnd H. unfold try_merge_answer in H. cbv zeta in H.
  apply bind_Ok in H as (rhat_a & Ha & H).
  apply bind_Ok in H as (rhat_b & Hb & H).
  apply bind_Ok in H as (lr & Hlr & H).
  apply bind_Ok in H as (ls & _ & H).
  apply bind_Ok in H as (? & _ & H). apply bind_Ok in H as (? & _ & H).
  apply bind_Ok in H as (? & _ & H). apply bind_Ok in H as (? & _ & H).
  apply bind_Ok in H as (? & _ & H). apply bind_Ok in H as (? & _ & H).
  apply bind_Ok in H as (? & _ & H). injection H as <- <- <-.
  split; [apply np_unique_NoDup|]. split.
  - intros n. rewrite elem_of_np_unique, list_elem_of_fmap. split.
    + intros (t & -> & Hin). apply list_elem_of_filter in Hin as [Hc Hin].
      by exists t.
    + intros (t & Hin & <- & Hc). exists t. split; [done|].
      by apply list_elem_of_filter.
  - apply take_indices_Forall2 in Hlr.
    eapply Forall2_impl; [exact Hlr|]. intros i row Hrow. simpl in Hrow.
    assert (Hi : (i < length scores)%nat).
    { apply lookup_lt_Some in Hrow.
      rewrite (scatter_column_length _ _ _ _ Hb) in Hrow.
      rewrite (scatter_column_length _ _ _ _ Ha) in Hrow.
      by rewrite length_replicate in Hrow. }
    pose proof (scatter_component 0 ka _ _ _ Hnd Ha i [f0; f0]) as Hra.
    rewrite lookup_replicate_2 in Hra by done.
    specialize (Hra eq_refl eq_refl). cbn [list_insert] in Hra.
    pose proof (scatter_component 1 kb _ _ _ Hnd Hb i _ Hra eq_refl) as Hrb.
    cbn in Hrb. congruence.
Qed.

(** An accepted merge of two components [ka < kb] of a triplet array in
    which no pair (spike, component) is repeated: afterwards the
    responsibility of every spike under [ka] is the sum of its
    responsibilities under [ka] and [kb], and its responsibility under
    any other component is the one it had, found under the component's
    new number. *)
Theorem try_merge_responsibilities (check_merge : merge_test) (k1 k2 : nat)
    (scores : list feature) (vbParam vbParam' : vbPar (list triplet))
    (maha maha' : mat) (indices : list nat) (local_rhat : mat)
    (lv : vbPar mat) :
  k1 ≠ k2 →
  NoDup (map (λ t, (spike_id t, comp_id t)) (rhat vbParam)) →
  try_merge_answer check_merge (Nat.min k1 k2) (Nat.max k1 k2) scores
                   vbParam = Ok (indices, local_rhat, (lv, true)) →
  try_merge check_merge k1 k2 scores vbParam maha = Ok (vbParam', maha') →
  (∀ n, prob_of (rhat vbParam') n (Nat.min k1 k2)
        = fl_add (prob_of (rhat vbParam) n (Nat.min k1 k2))
                 (prob_of (rhat vbParam) n (Nat.max k1 k2))) ∧
  (∀ n k, k ≠ Nat.min k1 k2 → k ≠ Nat.max k1 k2 →
          prob_of (rhat vbParam') n
                  (if decide (Nat.max k1 k2 < k)%nat then (k - 1)%nat else k)
          = prob_of (rhat vbParam) n k).
Proof.
  intros Hne Hnd Hans H.
  assert (Hab : (Nat.min k1 k2 < Nat.max k1 k2)%nat) by lia.
  set (ka := Nat.min k1 k2) in *. set (kb := Nat.max k1 k2) in *.
  assert (Hr : rhat vbParam'
               = merged_triplets ka kb indices local_rhat (rhat vbParam)).
  { unfold try_merge in H. fold ka kb in H. rewrite Hans in H.
    cbn [mbind result_bind] in H.
    apply bind_Ok in H as (? & _ & H). apply bind_Ok in H as (? & _ & H).
    apply bind_Ok in H as (? & _ & H). apply bind_Ok in H as (? & _ & H).
    apply bind_Ok in H as (? & _ & H). apply bind_Ok in H as (? & _ & H).
    apply bind_Ok in H as (? & _ & H). by injection H as <- <-. }
  rewrite Hr. unfold merged_triplets.
  destruct (try_merge_answer_rows _ _ _ _ _ _ _ _ Hnd Hans)
    as (Hind & Hmem & Hrows).
  split.
  - intros n. rewrite prob_of_app, renumbered_part_not_ka by done.
    rewrite fl_add_0_l.
    rewrite (merged_part_prob ka n
               (λ i, fl_add (prob_of (rhat vbParam) i ka)
                            (prob_of (rhat vbParam) i kb))); [|done|].
    + destruct (decide (n ∈ indices)) as [_|Hout]; [done|].
      rewrite !prob_of_absent; [by rewrite fl_add_0_l| |].
      * intros t Hin Hs Hk. apply Hout, Hmem. exists t. by eauto.
      * intros t Hin Hs Hk. apply Hout, Hmem. exists t. by eauto.
    + eapply Forall2_impl; [exact Hrows|]. intros i row ->.
      rewrite !fl_sum_cons. change (fl_sum []) with f0.
      by rewrite fl_add_0_r.
  - intros n k Hka Hkb. rewrite prob_of_app, renumbered_part_prob by done.
    rewrite merged_part_not_k; [apply fl_add_0_r|].
    destruct (decide (kb < k)%nat); lia.
Qed.

Lemma try_merge_responsibilities_witness :
  ∃ vbParam' maha',
    try_merge accept_near 1 0 ex_scores ex_sparse ex_maha
    = Ok (vbParam', maha') ∧
    prob_of (rhat vbParam') 1 0
    = fl_add (prob_of (rhat ex_sparse) 1 0) (prob_of (rhat ex_sparse) 1 1) ∧
    prob_of (rhat vbParam') 3 1 = prob_of (rhat ex_sparse) 3 2.
Proof.
  destruct (try_merge accept_near 1 0 ex_scores ex_sparse ex_maha)
    as [[vb' maha']|e] eqn:E; [|discriminate E].
  edestruct (try_merge_responsibilities accept_near 1 0 ex_scores ex_sparse
               vb' ex_maha maha') as (Ha & Hb).
  - lia.
  - apply (bool_decide_unpack _). vm_compute. reflexivity.
  - reflexivity.
  - exact E.
  - exists vb', maha'. split; [done|]. split.
    + exact (Ha 1%nat).
    + exact (Hb 3%nat 2%nat ltac:(simpl; lia) ltac:(simpl; lia)).
Defined.

(** ** [calculate_sparse_rhat] *)

Lemma row_triplets_from_NoDup (n start : nat) (row : list float) :
  let l := omap (λ p : nat * float,
                   if fl_gt p.2 f0 then Some (n, p.1, p.2) else None)
                (zip (seq start (length row)) row) in
  NoDup (map (λ t : triplet, (spike_id t, comp_id t)) l) ∧
  ∀ t : triplet, t ∈ l → spike_id t = n ∧ (start ≤ comp_id t)%nat.
Proof.
  revert start. induction row as [|x row IH]; intros start l.
  - split; [constructor|]. intros t Ht. by apply elem_of_nil in Ht.
  - destruct (IH (S start)) as [Hnd Hall]. subst l.
    cbn [length seq zip zip_with omap list_omap fst snd].
    destruct (fl_gt x f0).
    + split.
      * cbn [map]. apply NoDup_cons. split; [|exact Hnd].
        intros Hin. apply list_elem_of_fmap in Hin as (t & Heq & Hin).
        apply Hall in Hin as [_ Hle]. unfold spike_id, comp_id in Heq.
        simpl in Heq. injection Heq as _ Heq. unfold comp_id in Hle. lia.
      * intros t [->|Hin]%elem_of_cons; [done|].
        apply Hall in Hin as [? ?]. split; [done|lia].
    + split; [exact Hnd|]. intros t Hin.
      apply Hall in Hin as [? ?]. split; [done|lia].
Qed.

Lemma triplets_from_NoDup (o : nat) (m : mat) :
  let l := concat (imap (λ i, row_triplets (o + i)) m) in
  NoDup (map (λ t : triplet, (spike_id t, comp_id t)) l) ∧
  ∀ t : triplet, t ∈ l → (o ≤ spike_id t)%nat.
Proof.
  revert o. induction m as [|row m IH]; intros o l.
  - split; [constructor|]. intros t Ht. by apply elem_of_nil in Ht.
  - subst l. rewrite imap_cons. cbn [concat].
    destruct (row_triplets_from_NoDup (o + 0) 0 row) as [Hr Hrow].
    fold (row_triplets (o + 0) row) in Hr, Hrow.
    destruct (IH (S o)) as [Hnd Hall].
    assert (Heq : imap ((λ i, row_triplets (o + i)) ∘ S) m
                  = imap (λ i, row_triplets (S o + i)) m).
    { apply imap_ext. intros i x _. simpl. f_equal. lia. }
    rewrite Heq. split.
    + rewrite map_app. apply NoDup_app. split; [exact Hr|]. split; [|exact Hnd].
      intros p Hp Hq.
      apply list_elem_of_fmap in Hp as (t & -> & Ht).
      apply list_elem_of_fmap in Hq as (t' & Heq' & Ht').
      apply Hrow in Ht as [Hs _]. apply Hall in Ht'.
      injection Heq' as Hs' _. lia.
    + intros t [Hin|Hin]%elem_of_app.
      * apply Hrow in Hin as [-> _]. lia.
      * apply Hall in Hin. lia.
Qed.

Lemma triplets_of_NoDup (m : mat) :
  NoDup (map (λ t : triplet, (spike_id t, comp_id t)) (triplets_of m)).
Proof. apply (triplets_from_NoDup 0 m). Qed.

(** Relabelling through two lists without repetitions keeps the pairs
    apart. *)
Lemma relabel_NoDup (idx_data cluster_idx : list nat)
    (l l' : list triplet) :
  NoDup idx_data → NoDup cluster_idx →
  Forall2 (λ t t', relabel idx_data cluster_idx t = Ok t') l l' →
  NoDup (map (λ t : triplet, (spike_id t, comp_id t)) l) →
  NoDup (map (λ t : triplet, (spike_id t, comp_id t)) l').
Proof.
  intros Hi Hc H. induction H as [|t t' l l' Ht H IH]; intros Hnd.
  - constructor.
  - cbn [map] in *. apply NoDup_cons in Hnd as [Hnt Hnd].
    apply NoDup_cons. split; [|by apply IH].
    intros Hin. apply Hnt.
    apply list_elem_of_fmap in Hin as (u' & Heq & Hu').
    apply list_elem_of_lookup in Hu' as [j Hj].
    destruct (Forall2_lookup_r _ _ _ _ _ H Hj) as (u & Hu & Hrel).
    apply list_elem_of_fmap. exists u.
    split; [|by eapply list_elem_of_lookup_2].
    unfold relabel in Ht, Hrel. inv_bind Ht. inv_bind Hrel.
    injection Ht as <-. injection Hrel as <-.
    unfold spike_id, comp_id in Heq. simpl in Heq. injection Heq as -> ->.
    f_equal.
    + eapply NoDup_lookup; [exact Hi| |]; eassumption.
    + eapply NoDup_lookup; [exact Hc| |]; eassumption.
Qed.

Lemma calculate_sparse_rhat_body_part {R : Type}
    (update_local : local_update) (vbParam : vbPar R) (tmp_loc : list nat)
    (scores : list feature) (spike_index : list spike_ref)
    (neighbors : list (list bool)) (acc acc' : option (list triplet))
    (channel : nat) :
  calculate_sparse_rhat_body update_local vbParam tmp_loc scores spike_index
                             neighbors acc channel = Ok acc' →
  ∃ new, default [] acc' = default [] acc ++ new ∧
         channel_part tmp_loc spike_index neighbors channel new.
Proof.
  unfold calculate_sparse_rhat_body. cbv zeta. intros H.
  apply bind_Ok in H as (score & _ & H).
  apply bind_Ok in H as (neigh & Hneigh & H). apply of_option_Ok in Hneigh.
  destruct (decide _) as [_|_].
  - apply bind_Ok in H as (? & _ & H). apply bind_Ok in H as (? & _ & H).
    apply bind_Ok in H as (? & _ & H). apply bind_Ok in H as (? & _ & H).
    apply bind_Ok in H as (? & _ & H). apply bind_Ok in H as (? & _ & H).
    apply bind_Ok in H as (rhat_local & Hl & H). injection H as <-.
    apply mapR_Ok in Hl. exists rhat_local. split.
    { destruct acc; [done|]. simpl. done. }
    split.
    + eapply relabel_NoDup; [| |exact Hl|apply triplets_of_NoDup];
        apply where_true_NoDup.
    + intros t' Hin. apply list_elem_of_lookup in Hin as [j Hj].
      destruct (Forall2_lookup_r _ _ _ _ _ Hl Hj) as (t & Ht & Hrel).
      apply list_elem_of_lookup_2 in Ht.
      apply elem_of_triplets_of in Ht as (row0 & _ & _ & Hpos).
      unfold relabel in Hrel. inv_bind Hrel. injection Hrel as Heq.
      subst t'. unfold spike_id at 1, comp_id at 1. cbn [fst snd].
      apply list_elem_of_lookup_2 in Ha, Ha0.
      apply elem_of_channel_rows in Ha as ([time ch] & Hs & Hch).
      simpl in Hch. subst ch.
      apply elem_of_where_true in Ha0.
      rewrite list_lookup_fmap in Ha0.
      destruct (tmp_loc !! a0) as [loc|] eqn:Hloc; [|discriminate].
      simpl in Ha0. injection Ha0 as Hdec.
      apply bool_decide_eq_true in Hdec. apply elem_of_where_true in Hdec.
      by exists time, loc, neigh.
  - injection H as <-. exists []. split; [by rewrite app_nil_r|].
    split; [constructor|]. intros t Ht. by apply elem_of_nil in Ht.
Qed.

Lemma sparse_rhat_loop_parts {R : Type}
    (update_local : local_update) (vbParam : vbPar R) (tmp_loc : list nat)
    (scores : list feature) (spike_index : list spike_ref)
    (neighbors : list (list bool)) (channels : list nat)
    (acc r : option (list triplet)) :
  sparse_rhat_loop
    (calculate_sparse_rhat_body update_local vbParam tmp_loc scores
                                spike_index neighbors) channels acc = Ok r →
  ∃ news, default [] r = default [] acc ++ concat news ∧
          Forall2 (channel_part tmp_loc spike_index neighbors) channels news.
Proof.
  revert acc. induction channels as [|c rest IH]; intros acc H.
  - injection H as <-. exists []. split; [by rewrite app_nil_r|constructor].
  - cbn [sparse_rhat_loop] in H. apply bind_Ok in H as (acc' & Hb & H).
    apply calculate_sparse_rhat_body_part in Hb as (new & Hnew & Hp).
    apply IH in H as (news & Hr & Hall). exists (new :: news).
    split; [|by constructor].
    cbn [concat]. by rewrite Hr, Hnew, <- app_assoc.
Qed.

Lemma channel_parts_NoDup (tmp_loc : list nat)
    (spike_index : list spike_ref) (neighbors : list (list bool))
    (channels : list nat) (news : list (list triplet)) :
  NoDup channels →
  Forall2 (channel_part tmp_loc spike_index neighbors) channels news →
  NoDup (map (λ t : triplet, (spike_id t, comp_id t)) (concat news)).
Proof.
  intros Hnd H. induction H as [|c new channels news [Hn Hc] H IH].
  - constructor.
  - apply NoDup_cons in Hnd as [Hcn Hnd]. cbn [concat]. rewrite map_app.
    apply NoDup_app. split; [exact Hn|]. split; [|by apply IH].
    intros p Hp Hq.
    apply list_elem_of_fmap in Hp as (t & -> & Ht).
    apply list_elem_of_fmap in Hq as (t' & Heq & Ht').
    apply Hc in Ht as (time & _ & _ & Hs & _).
    apply elem_of_concat in Ht' as (new' & Ht' & Hnew').
    apply list_elem_of_lookup in Hnew' as [j Hj].
    destruct (Forall2_lookup_r _ _ _ _ _ H Hj) as (c' & Hc' & [_ Hpart]).
    apply Hpart in Ht' as (time' & _ & _ & Hs' & _).
    injection Heq as Heq _. rewrite Heq in Hs. rewrite Hs in Hs'.
    injection Hs' as _ ->. apply Hcn. by eapply list_elem_of_lookup_2.
Qed.

(** Every triplet of [calculate_sparse_rhat] links a spike to a template
    located on a channel that neighbours the spike's main channel, with a
    probability above zero. *)
Theorem calculate_sparse_rhat_links {R : Type}
    (update_local : local_update) (vbParam : vbPar R) (tmp_loc : list nat)
    (scores : list feature) (spike_index : list spike_ref)
    (neighbors : list (list bool)) (trip : list triplet) :
  calculate_sparse_rhat update_local vbParam tmp_loc scores spike_index
                        neighbors = Ok (Some trip) →
  ∀ t : triplet, t ∈ trip →
    ∃ time channel loc row,
      spike_index !! spike_id t = Some (time, channel) ∧
      tmp_loc !! comp_id t = Some loc ∧
      neighbors !! channel = Some row ∧ row !! loc = Some true ∧
      fl_gt t.2 f0 = true.
Proof.
  unfold calculate_sparse_rhat. intros H t Ht.
  apply bind_Ok in H as (n & _ & H).
  apply sparse_rhat_loop_parts in H as (news & Hr & Hall).
  simpl in Hr. subst trip.
  apply elem_of_concat in Ht as (new & Ht & Hnew).
  apply list_elem_of_lookup in Hnew as [j Hj].
  destruct (Forall2_lookup_r _ _ _ _ _ Hall Hj) as (c & _ & [_ Hpart]).
  apply Hpart in Ht as (time & loc & row & ?). by exists time, c, loc, row.
Qed.

(** No pair (spike, template) occurs twice in the triplets of
    [calculate_sparse_rhat]. *)
Theorem calculate_sparse_rhat_pairs_once {R : Type}
    (update_local : local_update) (vbParam : vbPar R) (tmp_loc : list nat)
    (scores : list feature) (spike_index : list spike_ref)
    (neighbors : list (list bool)) (trip : list triplet) :
  calculate_sparse_rhat update_local vbParam tmp_loc scores spike_index
                        neighbors = Ok (Some trip) →
  NoDup (map (λ t : triplet, (spike_id t, comp_id t)) trip).
Proof.
  unfold calculate_sparse_rhat. intros H.
  apply bind_Ok in H as (n & _ & H).
  apply sparse_rhat_loop_parts in H as (news & Hr & Hall).
  simpl in Hr. subst trip.
  eapply channel_parts_NoDup; [apply NoDup_seq|exact Hall].
Qed.

Lemma calculate_sparse_rhat_links_witness :
  ∃ trip,
    calculate_sparse_rhat first_template_update ex_vbParam ex_tmp_loc
                          ex_channel_scores ex_spike_index ex_neighbors
    = Ok (Some trip) ∧
    map (λ t : triplet, (spike_id t, comp_id t)) trip
    = [(0, 0); (1, 0); (2, 1); (3, 1); (4, 1)]%nat ∧
    ∀ t : triplet, t ∈ trip →
      ∃ time channel loc row,
        ex_spike_index !! spike_id t = Some (time, channel) ∧
        ex_tmp_loc !! comp_id t = Some loc ∧
        ex_neighbors !! channel = Some row ∧ row !! loc = Some true ∧
        fl_gt t.2 f0 = true.
Proof.
  destruct (calculate_sparse_rhat first_template_update ex_vbParam
              ex_tmp_loc ex_channel_scores ex_spike_index ex_neighbors)
    as [[trip|]|e] eqn:E; [|discriminate E|discriminate E].
  exists trip. split; [done|]. split.
  - vm_compute in E. injection E as <-. reflexivity.
  - exact (calculate_sparse_rhat_links _ _ _ _ _ _ trip E).
Defined.

Lemma calculate_sparse_rhat_pairs_once_witness :
  ∃ trip,
    calculate_sparse_rhat first_template_update ex_vbParam ex_tmp_loc
                          ex_channel_scores ex_spike_index ex_neighbors
    = Ok (Some trip) ∧
    NoDup (map (λ t : triplet, (spike_id t, comp_id t)) trip).
Proof.
  destruct (calculate_sparse_rhat first_template_update ex_vbParam
              ex_tmp_loc ex_channel_scores ex_spike_index ex_neighbors)
    as [[trip|]|e] eqn:E; [|discriminate E|discriminate E].
  exists trip. split; [done|].
  exact (calculate_sparse_rhat_pairs_once _ _ _ _ _ _ trip E).
Defined.

(** ** [run_cluster_features]: the spike train and [tmp_loc] *)

Lemma take_indices_elem_of {A : Type} (a : list A) (idx : list nat)
    (l : list A) (x : A) :
  take_indices a idx = Ok l → x ∈ l → ∃ i, i ∈ idx ∧ a !! i = Some x.
Proof.
  intros H Hx. apply take_indices_Forall2 in H.
  apply list_elem_of_lookup in Hx as [j Hj].
  destruct (Forall2_lookup_r _ _ _ _ _ H Hj) as (i & Hi & Ha).
  exists i. split; [by eapply list_elem_of_lookup_2|done].
Qed.

Lemma append_clusters_ok (spike_index_clear : list spike_ref)
    (indexes : list nat) (channel : nat)
    (spike_train_clustered : list (list nat)) (acc acc' : features_acc) :
  (channel < 49)%nat →
  (∀ n, n ∈ indexes →
        ∃ time, spike_index_clear !! n = Some (time, channel)) →
  features_acc_ok spike_index_clear acc →
  append_clusters spike_index_clear indexes channel spike_train_clustered
                  acc = Ok acc' →
  features_acc_ok spike_index_clear acc'.
Proof.
  intros Hch Hidx. revert acc.
  induction spike_train_clustered as [|members rest IH]; intros acc Hok H.
  - by injection H as <-.
  - cbn [append_clusters] in H. apply bind_Ok in H as (temp & Htemp & H).
    eapply IH; [|exact H]. clear IH H.
    destruct Hok as (Hctr & Hlen & Hall & Hrows).
    unfold features_acc_ok.
    cbn [cluster_ctr spike_list acc_tmp_loc].
    split; [rewrite length_app; simpl; lia|].
    split; [rewrite !length_app; simpl; lia|].
    split; [apply Forall_app; split; [done|by apply Forall_singleton]|].
    intros c temp' row Hc Hrow.
    destruct (decide (c < length (spike_list acc))%nat) as [Hlt|Hge].
    + rewrite lookup_app_l in Hc by done.
      destruct (Hrows c temp' row Hc Hrow) as (n & time & ch & ? & ? & ?).
      exists n, time, ch. split; [done|]. split; [|done].
      rewrite lookup_app_l by lia. done.
    + rewrite lookup_app_r in Hc by lia.
      destruct (c - length (spike_list acc))%nat as [|d] eqn:Hd;
        [|by destruct d].
      injection Hc as <-. assert (c = cluster_ctr acc) as -> by lia.
      unfold cluster_rows in Htemp.
      apply bind_Ok in Htemp as (rows & Hr & Htemp).
      apply bind_Ok in Htemp as (times & Ht & Htemp).
      injection Htemp as <-.
      apply list_elem_of_fmap in Hrow as (t & -> & Hin).
      destruct (take_indices_elem_of _ _ _ _ Ht Hin) as (n & Hn & Hfst).
      destruct (take_indices_elem_of _ _ _ _ Hr Hn) as (i & _ & Hi).
      apply list_elem_of_lookup_2 in Hi.
      destruct (Hidx n Hi) as (time & Hs).
      rewrite list_lookup_fmap, Hs in Hfst. simpl in Hfst.
      injection Hfst as <-. exists n, time, channel.
      split; [done|]. split; [|done].
      rewrite lookup_app_r by lia.
      by replace (cluster_ctr acc - length (acc_tmp_loc acc))%nat
        with 0%nat by lia.
Qed.

Lemma run_cluster_features_body_ok
    (triage_channel : nat → list nat → result (list bool))
    (mfm_channel : nat → list bool → result (list (list nat)))
    (spike_index_clear : list spike_ref) (acc acc' : features_acc)
    (channel : nat) :
  (channel < 49)%nat →
  features_acc_ok spike_index_clear acc →
  run_cluster_features_body triage_channel mfm_channel spike_index_clear
                            acc channel = Ok acc' →
  features_acc_ok spike_index_clear acc'.
Proof.
  intros Hch Hok H. unfold run_cluster_features_body in H. cbv zeta in H.
  apply bind_Ok in H as (mask & _ & H).
  apply bind_Ok in H as (indexes & Hidx & H).
  apply bind_Ok in H as (stc & _ & H).
  eapply append_clusters_ok; [exact Hch| |exact Hok|exact H].
  intros n Hn. unfold np_mask in Hidx.
  destruct (decide _); [|discriminate]. injection Hidx as <-.
  apply elem_of_mask_select, elem_of_channel_rows in Hn
    as ([time ch] & Hs & Hc).
  simpl in Hc. subst ch. by exists time.
Qed.

Lemma features_loop_ok
    (triage_channel : nat → list nat → result (list bool))
    (mfm_channel : nat → list bool → result (list (list nat)))
    (spike_index_clear : list spike_ref) (channels : list nat)
    (acc acc' : features_acc) :
  Forall (λ channel, (channel < 49)%nat) channels →
  features_acc_ok spike_index_clear acc →
  features_loop (run_cluster_features_body triage_channel mfm_channel
                                           spike_index_clear)
                channels acc = Ok acc' →
  features_acc_ok spike_index_clear acc'.
Proof.
  intros Hall. revert acc.
  induction Hall as [|c rest Hc _ IH]; intros acc Hok H.
  - by injection H as <-.
  - cbn [features_loop] in H. apply bind_Ok in H as (acc1 & Hb & H).
    eapply IH; [|exact H]. by eapply run_cluster_features_body_ok.
Qed.

Lemma time_le_total : Total time_le.
Proof. intros p q. unfold time_le. lia. Qed.

(** Reading an array in the order of [np.argsort] of its first column
    gives that column in ascending order. *)
Lemma argsort_int_sorted (s out : list (Z * Z)) :
  take_indices s (argsort_int (map fst s)) = Ok out →
  Sorted Z.le (map fst out).
Proof.
  unfold argsort_int. set (keys := map fst s).
  set (L := merge_sort time_le (zip (seq 0 (length keys)) keys)).
  intros H. apply take_indices_Forall2 in H.
  assert (HL : Forall (λ p : nat * Z, keys !! p.1 = Some p.2) L).
  { apply Forall_forall. intros p Hp. subst L.
    rewrite merge_sort_Permutation in Hp.
    apply list_elem_of_lookup in Hp as [j Hj].
    apply lookup_zip_with_Some in Hj as (i & k & -> & Hi & Hk).
    apply lookup_seq in Hi as [-> _]. done. }
  assert (Heq : map fst out = map snd L).
  { clear -H HL. revert out H.
    induction L as [|p L IH]; intros out H.
    - cbn [map] in H. by apply Forall2_nil_inv_l in H as ->.
    - cbn [map] in H. apply Forall2_cons_inv_l in H as (x & out' & Hx & H & ->).
      apply Forall_cons in HL as [Hp HL]. cbn [map]. f_equal.
      + subst keys. rewrite list_lookup_fmap, Hx in Hp. simpl in Hp.
        by injection Hp.
      + by apply IH. }
  rewrite Heq. apply (Sorted_fmap snd time_le Z.le); [by intros ??|].
  apply (@Sorted_merge_sort _ time_le _ time_le_total).
Qed.

(** When [run_cluster_features] returns, its spike train is in
    ascending order of the spike times; every row holds the time of a
    spike of [spike_index_clear] and a cluster number, and [tmp_loc] at
    that cluster number is the main channel of the spike; [tmp_loc]
    names channels below 49 only. *)
Theorem run_cluster_features_output
    (triage_channel : nat → list nat → result (list bool))
    (mfm_channel : nat → list bool → result (list (list nat)))
    (spike_index_clear : list spike_ref)
    (spike_train_clustered : list (Z * Z)) (tmp_loc : list nat) :
  run_cluster_features triage_channel mfm_channel spike_index_clear
  = Ok (spike_train_clustered, tmp_loc) →
  Sorted Z.le (map fst spike_train_clustered) ∧
  (∀ row, row ∈ spike_train_clustered →
     ∃ n time channel c,
       spike_index_clear !! n = Some (time, channel) ∧
       tmp_loc !! c = Some channel ∧
       row = (wrap_int32 (Z.of_nat time), wrap_int32 (Z.of_nat c))) ∧
  Forall (λ channel, (channel < 49)%nat) tmp_loc ∧
  tmp_loc ≠ [].
Proof.
  unfold run_cluster_features. intros H.
  apply bind_Ok in H as (acc & Hloop & H).
  apply features_loop_ok in Hloop as (Hctr & Hlen & Hall & Hrows).
  - destruct (spike_list acc) as [|temp0 rest] eqn:Hsl; [discriminate|].
    cbv zeta in H. apply bind_Ok in H as (out & Hout & H).
    injection H as <- <-.
    split; [by eapply argsort_int_sorted|]. split; [|split; [done|]].
    + intros row Hrow.
      destruct (take_indices_elem_of _ _ _ _ Hout Hrow) as (i & _ & Hi).
      apply list_elem_of_lookup_2, elem_of_concat in Hi
        as (temp & Hin & Htemp).
      apply list_elem_of_lookup in Htemp as [c Hc].
      destruct (Hrows c temp row Hc Hin) as (n & time & ch & ? & ? & ?).
      by exists n, time, ch, c.
    + intros Hnil. rewrite Hnil in Hlen. simpl in Hlen. lia.
  - apply Forall_forall. intros c Hc. apply elem_of_seq in Hc. lia.
  - unfold features_acc_ok. simpl. repeat split; done.
Qed.

Lemma run_cluster_features_output_witness :
  ∃ spike_train_clustered,
    run_cluster_features keep_all one_cluster ex_spike_index
    = Ok (spike_train_clustered, [0; 1]%nat) ∧
    map fst spike_train_clustered = [10; 20; 30; 40; 50]%Z ∧
    Sorted Z.le (map fst spike_train_clustered).
Proof.
  destruct (run_cluster_features keep_all one_cluster ex_spike_index)
    as [[out tmp_loc]|e] eqn:E; [|discriminate E].
  destruct (run_cluster_features_output _ _ _ _ _ E) as (Hs & _).
  vm_compute in E. injection E as <- <-.
  eexists. split; [reflexivity|]. split; [reflexivity|exact Hs].
Defined.

(* ================================================================== *)
(** * Part IV: the unguarded re-normalization, from fit to fold        *)
(* ================================================================== *)

(** C1 (amended).  What [run_cluster] and [run_cluster_location] do with
    the responsibilities of a channel between the fit and the fold.  The
    re-normalization has no guard: a spike whose entries are all below
    the floor 0.1 is zeroed, its row sum is zero, the division is carried
    out all the same, and the spike's row in the matrix handed to
    [clean_empty_cluster] is a row of NaN.  A row of probabilities with an
    entry that reaches the floor is divided by a non-zero sum, stays
    finite and adds up to 1.  Whatever the threshold, the matrix that
    leaves [clean_empty_cluster], the one handed to
    [global_cluster_info], holds no NaN. *)
Theorem sparsify_row_unguarded (spikesort : fitter) (score : list feature)
    (mask : mat) (group : list nat) (min_spikes : float) (K : nat) :
  vb_shape K (spikesort score mask group) →
  fit_channel spikesort score mask group min_spikes
  = clean_empty_cluster
      (with_rhat (spikesort score mask group)
                 (sparsify (rhat (spikesort score mask group))))
      min_spikes ∧
  (∀ i row,
     rhat (spikesort score mask group) !! i = Some row →
     Forall (λ x, fl_lt x rhat_floor = true) row →
     fl_sum (zero_below_floor row) = f0 ∧
     sparsify (rhat (spikesort score mask group)) !! i
     = Some (replicate (length row) NaN)) ∧
  (∀ i (qs : list Qc),
     rhat (spikesort score mask group) !! i = Some (map Fin qs) →
     Forall (λ q, 0 ≤ q) qs →
     Exists (λ q, Q2Qc (1 # 10) ≤ q) qs →
     ∃ row', sparsify (rhat (spikesort score mask group)) !! i = Some row' ∧
             Forall (λ x, is_finite x = true) row' ∧
             fl_sum row' = f1) ∧
  Forall (Forall (λ x, is_nan x = false))
         (rhat (fit_channel spikesort score mask group min_spikes)).
Proof.
  intros Hshape. split; [reflexivity|]. split; [|split].
  - intros i row Hrow Hlow. split.
    + rewrite (zero_below_floor_all _ Hlow). apply fl_sum_replicate_zero.
    + unfold sparsify. rewrite map_fmap, list_lookup_fmap, Hrow. simpl.
      f_equal. by apply sparsify_row_cases.
  - intros i qs Hrow Hpos Hex. exists (sparsify_row (map Fin qs)). split.
    + unfold sparsify. by rewrite map_fmap, list_lookup_fmap, Hrow.
    + by apply (proj2 (sparsify_row_cases (map Fin qs)) qs).
  - apply (clean_empty_cluster_no_nan K).
    destruct Hshape as (? & ? & ? & ? & ? & ? & Hr).
    repeat split; try done. by apply sparsify_rows.
Qed.

Lemma sparsify_row_unguarded_witness :
  sparsify (rhat ex_flat_vbParam) !! 0%nat = Some (replicate 11 NaN) ∧
  (∃ row', sparsify (rhat ex_flat_vbParam) !! 1%nat = Some row' ∧
           fl_sum row' = f1) ∧
  Forall (Forall (λ x, is_nan x = false))
         (rhat (fit_channel (λ _ _ _, ex_flat_vbParam) [[[f1]]; [[f1]]]
                            [[f1]; [f1]] [0; 1]%nat f0)).
Proof.
  destruct (sparsify_row_unguarded (λ _ _ _, ex_flat_vbParam)
              [[[f1]]; [[f1]]] [[f1]; [f1]] [0; 1]%nat f0 11)
    as (_ & Hlow & Hfin & Hnan).
  - repeat split; repeat constructor.
  - split; [|split; [|exact Hnan]].
    + apply (Hlow 0%nat flat_row); [reflexivity|repeat constructor].
    + destruct (Hfin 1%nat (1 :: replicate 10 0)) as (row' & Hrow & _ & Hs).
      * reflexivity.
      * repeat constructor; by vm_compute.
      * apply Exists_cons_hd. by vm_compute.
      * by exists row'.
Defined.
